(* ===== verification/_CoqProject ===== *)
-Q . S2P
Prelude.v
Text.v
Json.v
Facet.v
Resource.v
Policy.v
MemStore.v
PgStore.v
Service.v
ServiceProps.v
ServiceSpec.v
PgTypes.v
Stores.v
SAccount.v
K8s.v
Renewal.v
Token.v
TokenProps.v
System.v
Steps.v
Credentials.v
Reads.v
Exchange.v
Management.v
ManagementProps.v
Deployment.v
Phases.v
Concurrent.v
Fair.v
Fresh.v
Progress.v
Config.v
Assembly.v
AssemblyProps.v
Assembled.v
Server.v
Main.v
Samples.v
Witnesses.v
