(* ===== verification/Prelude.v ===== *)
(** * jwtlet: a verification development

    jwtlet is an OAuth 2.0 token exchange server (RFC 8693) for Kubernetes.  A
    workload presents its service account token and names a participant context
    and some scopes; jwtlet has the API server review the token, looks up what the
    workload may have in the participant context, and signs a token that carries
    the claims of the granted scopes.  A management API with roles edits the policy.

    ** The program and its model

    The program is three crates under [src/crates/].  Each file below models the
    source named beside it; Rust functions keep their names, and a file whose name
    ends in [Props] holds theorems on the file before it.

    - [Prelude]: [Result], the state-and-error monad [eff W E A] (an error does not
      roll the world back), the tactics and the shared lemmas.
    - [Text], [Json]: [String] as code points with the [str] methods the program
      calls, [BTreeSet] and [BTreeMap] iteration in key order, [HashMap] and
      [HashSet] iteration in an order about which nothing is known ([HashOrder]),
      and [serde_json::Value].
    - [Facet]: the traits and types of [dsdk_facet_core] that the program uses
      ([JwtVerifier], [JwtGenerator], the clock and the UUID source [Ambient]).
    - [Resource]: [jwtlet-core/src/resource/mod.rs], the mappings, the store trait
      (class [ResourceStore]), the validation of writes and [ResourceService].
      Theorems: [Service], [ServiceProps]; [ServiceSpec] says what each operation
      promises, in terms of the policy alone.
    - [Policy]: the abstract specification of a store, itself a [ResourceStore],
      and [StoreContract], the promise of an implementation: every operation
      simulates the specification's, or reports a database error and leaves the
      policy as it was or as the operation would have left it.
    - [MemStore]: [jwtlet-core/src/resource/mem.rs]; [PgStore]:
      [jwtlet-postgres/src/resource_store.rs].  Both discharge the contract;
      [Stores] reads it for each of them, [PgTypes] is about the rows.
    - [SAccount]: [jwtlet-core/src/saccount/mod.rs], accounts and roles.
    - [K8s]: [jwtlet-core/src/k8s/mod.rs], the TokenReview verifier; [Renewal]:
      [jwtlet-core/src/k8s/renewal.rs], the renewal of jwtlet's own credential as
      a step relation interleaved with verifiers, watcher and file rotations.
    - [Steps]: [verify_token] cut at its awaits, and [SteppedVerifier], a verifier that
      is cut so and does the same undisturbed; [Credentials]: any number of such
      verifications and the renewal task on one cell and one token file.
    - [Token]: [jwtlet-core/src/token/mod.rs], the exchange.
    - [System]: the state of a store beside the state everything else runs on.
    - [Reads]: [resolve_mapping], cut where a store gives way to other requests
      (class [SplitStore]): nowhere for memory, between its queries for Postgres.
    - [Exchange]: [jwtlet-server/src/exchange/], the token endpoint.
    - [Management]: [jwtlet-server/src/management/], routes, roles, middleware,
      handlers, audit events.
    - [Deployment]: both APIs on one store, one request after the other.
    - [Phases], [Concurrent]: the handlers cut at their [await]s, and any number of
      them interleaved, the verifications in them step by step, with clients that
      disconnect and a world that moves on; [Progress]: every one of them is answered.
    - [Config]: [jwtlet-server/src/config/mod.rs]; [Assembly]:
      [jwtlet-server/src/assembly/mod.rs] and [meta/mod.rs].
    - [Assembled]: the runtime that [assemble] builds, in the machine of [Concurrent].
    - [Fair]: infinite runs of a labelled step relation, fairness and progress;
      [Fresh]: the liveness of [Renewal].
    - [Server]: [jwtlet-server/src/server/mod.rs], the route tables, the spans, the
      signals, and [run_server] with its two tasks as a labelled step relation.
    - [Main]: [main.rs], [telemetry/mod.rs] and [load_config]: the process from its
      start to its exit code.
    - [Samples]: concrete instances of every interface with its laws, among them a
      simulated database that can be told to fail; [Witnesses]: the theorems with
      hypotheses applied to them.

    The interfaces are type classes and the clients are proved against them:
    [ResourceService] and the APIs against [StoreContract], interleaved exchanges
    against [SplitContract] and [SteppedVerifier], the exchange against any verifier, generator and clock
    that leave the policy alone ([ExchangeFrame], [GeneratorFrame]), the management
    API against any authorizer that does ([ManagementFrame]).

    ** What the theorems show

    - The whole server.  Whatever requests are in flight on a runtime that [assemble]
      built from a configuration, an issued token goes back to a service account that
      the configured API server vouched for, to a grant of the policy, and to an
      administrator of the configuration who created the grant, on the audit record
      ([assembled_server_is_accountable]).
    - Accountability.  The same for any collaborators, with requests interleaved
      ([interleaved_token_is_accountable]) and one by one ([every_token_is_accountable]);
      a request without the role of its route changes nothing ([serve_needs_role]);
      a request that runs to its end logs every change that the store reported to it
      ([serve_audit_trail]), and only a failure of the database or a client that leaves
      can keep a change from the log.
    - Concurrency.  Interleaved management calls act as their store operations one after
      the other, each as promised, and an interleaved exchange answers from the policies of the moments
      at which it read ([concurrent_requests_linearize], [resolve_two_snapshots]), which
      over Postgres may be two ([exchange_answers_from_two_policies]).  In every fair run
      every request is answered, unless its client leaves ([requests_are_answered]).
    - Exchange.  What an issued token says and why it was issued
      ([exchange_token_sound]), each way an exchange fails
      ([exchange_token_failure]), claims that scopes cannot forge
      ([reserved_claims_are_authoritative]), audiences, expiry with 64-bit
      wrap-around, the endpoint's answers.
    - Policy.  The service over any conforming store keeps the promise of each of its
      operations ([service_refines_policy], [verify_decides]); the policy stays valid under any
      sequence of operations ([reachable_policy_ok]); a batch is stored whole or not at
      all ([save_scope_mappings_atomic]); reads see writes.
    - Stores.  The memory store is exact, the Postgres store is exact or reports a
      database failure, and short of that the two cannot be told apart
      ([backends_agree]); the rows of Postgres stay of the shape that reading them back
      assumes ([rows_stay_typed]); the schema set-up keeps the data.
    - Credentials.  Which reviews are accepted as what identity, that a review is
      retried at most once and only after a refusal, with what the file then holds
      ([verify_token_calls]).  With the
      renewal task and other verifications in between, a repeated review still bears
      what the file held after the refusal, and every credential sent came from the file
      ([reviews_bear_file_contents]); what verifications and task do together is what
      [Renewal] allows ([credentials_refine_renewal]).  There, a rotation whose report
      is in the channel reaches the cell in every fair run once the file rests and no
      verifier holds an older content ([rotations_reach_the_cell]), an idle renewer holds
      the current token if every rotation was reported and no verifier wrote an older
      content ([idle_renewer_is_fresh]), and the task comes to rest.  The conditions are
      needed: a racing refresh can undo a renewal ([refresh_can_undo_renewal]), a full
      channel drops a report, and a rotation before the file is watched goes unnoticed.
    - The process.  [validate] accepts exactly the valid configurations and reports
      every defect; a validated configuration fails to assemble only through
      something outside it; assembly logs a warning exactly if its condition on
      configuration and host holds ([assembled_warnings]); the server stops only when both of its tasks have, and in
      every fair run it does stop once told to ([server_shuts_down]); which exit code
      the process has, and that its spans are flushed ([main_exit_code]).

    ** Bounds

    Every recursion is structural (on lists of scopes, mappings, events, rows,
    schedules), so no definition takes fuel.  Time and expiry are [Z] with the two's
    complement wrap-around of [i64] written out; the event channel has the capacity 100
    of the source and loses events beyond it, as [try_send] does.

    ** What is assumed

    Only of code outside the repository, always as a class with an instance in
    [Samples].  [PgLaws] states what PostgreSQL does with the statements of the
    program; one of its simplifications is that JSONB returns a document as it was
    bound, which PostgreSQL does up to the spelling of numbers: a float that is
    written with an exponent (from 1e16 on) comes back as an integer.  [K8sExternal],
    [Host] and [Platform] have no laws: the file system, HTTP, Vault and the exporter
    may answer anything.  In [Concurrent] a transaction of Postgres takes effect at one
    moment, and only this program writes to the tables; replicas with one configuration
    are one server here, whose credential cells, like everything but the policy, may be
    exchanged for others between any two steps.  A read or write of the credential
    cell under its lock is one step, and so is a request to the API server.  The liveness
    of [Server], [Progress] and [Fresh] assumes weak fairness of what the tasks,
    [run_server], a request and the renewal can do; that an outside call returns is part
    of it, as the client of the API server has a time limit and the pool of the database
    a timeout.

    ** What is not modelled

    The end-to-end test crate; axum's routing and decoding (a request enters the model
    routed and decoded); what the [config] and [serde] crates make of the sources of a
    configuration, TLS, HTTP and Vault, tokio's scheduler and the operating system,
    which are parameters. *)

From stdpp Require Export prelude gmap strings pretty sorting.

(** ** Results *)

(** Rust's [Result<A, E>]. *)
Inductive result (E A : Type) : Type :=
  | Ok (a : A)
  | Err (e : E).
Arguments Ok {E A} _.
Arguments Err {E A} _.

#[export] Instance result_eq_dec {E A : Type} `{EqDecision E, EqDecision A} : EqDecision (result E A).
Proof. solve_decision. Defined.

#[export] Instance result_ret {E : Type} : MRet (result E) := λ A a, Ok a.
#[export] Instance result_bind {E : Type} : MBind (result E) := λ A B f r,
  match r with Ok a => f a | Err e => Err e end.
#[export] Instance result_fmap {E : Type} : FMap (result E) := λ A B f r,
  match r with Ok a => Ok (f a) | Err e => Err e end.

(** [Result::map_err]. *)
Definition map_err {E F A : Type} (f : E → F) (r : result E A) : result F A :=
  match r with Ok a => Ok a | Err e => Err (f e) end.

(** [Result::is_ok]. *)
Definition is_Ok {E A : Type} (r : result E A) : bool :=
  match r with Ok _ => true | Err _ => false end.

(** [Option::ok_or_else]. *)
Definition ok_or {E A : Type} (o : option A) (e : E) : result E A :=
  match o with Some a => Ok a | None => Err e end.

(** A [for] loop over a list whose body may leave the function with [?]. *)
Fixpoint for_each {E A : Type} (f : A → result E unit) (l : list A) : result E unit :=
  match l with
  | [] => Ok tt
  | x :: l => f x ≫= λ _, for_each f l
  end.

(** A [for] loop that threads an accumulator and may leave with an error. *)
Fixpoint try_fold {E A S : Type} (f : S → A → result E S) (s : S) (l : list A) : result E S :=
  match l with
  | [] => Ok s
  | x :: l => f s x ≫= λ s', try_fold f s' l
  end.

(** ** Effects

    An asynchronous Rust function that runs against shared state is a state
    transformer: it returns a [Result] and the world after it ran.  An error
    does not roll the world back. *)
Definition eff (W E A : Type) : Type := W → result E A * W.

#[export] Instance eff_ret {W E : Type} : MRet (eff W E) := λ A a w, (Ok a, w).
#[export] Instance eff_bind {W E : Type} : MBind (eff W E) := λ A B f m w,
  match m w with
  | (Ok a, w') => f a w'
  | (Err e, w') => (Err e, w')
  end.

(** A pure fallible computation inside an effectful one. *)
Definition lift {W E A : Type} (r : result E A) : eff W E A := λ w, (r, w).

(** The error conversion that the [?] operator inserts. *)
Definition eff_map_err {W E F A : Type} (f : E → F) (m : eff W E A) : eff W F A :=
  λ w, let '(r, w') := m w in (map_err f r, w').

(** An effect that cannot fail, such as reading a clock. *)
Definition total {W E A : Type} (m : W → A * W) : eff W E A :=
  λ w, let '(a, w') := m w in (Ok a, w').

(** An effect that runs on one part of the world. *)
Definition zoom {V W E A : Type} (get : W → V) (set : V → W → W) (m : eff V E A) : eff W E A :=
  λ w, let '(r, v) := m (get w) in (r, set v w).

(** A [for] loop whose body is an effect and may leave the function with [?]. *)
Fixpoint eff_for_each {W E A : Type} (f : A → eff W E unit) (l : list A) : eff W E unit :=
  match l with
  | [] => mret tt
  | x :: l => _ ← f x; eff_for_each f l
  end.

(** ** Inversion and computation lemmas for results *)

Lemma result_bind_Ok {E A B : Type} (r : result E A) (f : A → result E B) b :
  r ≫= f = Ok b ↔ ∃ a, r = Ok a ∧ f a = Ok b.
Proof. destruct r; cbn; naive_solver. Qed.

Lemma result_bind_Err {E A B : Type} (r : result E A) (f : A → result E B) e :
  r ≫= f = Err e ↔ r = Err e ∨ ∃ a, r = Ok a ∧ f a = Err e.
Proof. destruct r; cbn; naive_solver. Qed.

Section results.
Context {E A S : Type}.
Implicit Types (r : result E A) (e : E).

Lemma result_ok_or_err r : (∃ a, r = Ok a) ∨ (∃ e, r = Err e).
Proof. destruct r; eauto. Qed.

Lemma for_each_Ok (f : A → result E unit) l :
  for_each f l = Ok tt ↔ Forall (λ x, f x = Ok tt) l.
Proof.
  induction l as [|x l IH]; cbn; [by split; constructor|].
  rewrite Forall_cons. destruct (f x) as [[]|e]; cbn; [rewrite IH|]; naive_solver.
Qed.

Lemma for_each_Err (f : A → result E unit) l e :
  for_each f l = Err e → ∃ x, x ∈ l ∧ f x = Err e.
Proof.
  induction l as [|x l IH]; cbn; [done|].
  destruct (f x) as [[]|e'] eqn:Hf; cbn; intros H.
  - destruct (IH H) as (y & ? & ?). exists y. split; [by right|done].
  - simplify_eq. exists x. split; [by left|done].
Qed.

(** The first element whose body fails decides the error. *)
Lemma for_each_Err_first (f : A → result E unit) l1 x l2 e :
  Forall (λ y, f y = Ok tt) l1 → f x = Err e → for_each f (l1 ++ x :: l2) = Err e.
Proof.
  induction 1 as [|y l1 Hy _ IH]; cbn; intros Hx; [by rewrite Hx|].
  rewrite Hy. cbn. by apply IH.
Qed.

Lemma try_fold_app (f : S → A → result E S) s l1 l2 :
  try_fold f s (l1 ++ l2) = try_fold f s l1 ≫= λ s', try_fold f s' l2.
Proof.
  revert s. induction l1 as [|x l1 IH]; cbn; intros s; [done|].
  destruct (f s x); cbn; [apply IH|done].
Qed.

(** An invariant of a fallible loop that ends without an error. *)
Lemma try_fold_inv (P : S → Prop) (f : S → A → result E S) s l s' :
  P s → (∀ s x s', x ∈ l → P s → f s x = Ok s' → P s') → try_fold f s l = Ok s' → P s'.
Proof.
  revert s. induction l as [|x l IH]; cbn; intros s Hs Hf H; [by simplify_eq|].
  apply result_bind_Ok in H as (s1 & H1 & H2).
  eapply IH; [|intros; eapply Hf; [by right|..]; eauto|done].
  eapply Hf; [by left|done..].
Qed.
End results.

(** ** Inversion and computation lemmas for effects *)

Section effects.
Context {W E A B : Type}.
Implicit Types (m : eff W E A).

Lemma eff_ret_Ok (a : A) (w w' : W) (r : result E A) :
  (mret a : eff W E A) w = (r, w') ↔ r = Ok a ∧ w' = w.
Proof. unfold mret, eff_ret. naive_solver. Qed.

Lemma lift_eq (r r' : result E A) (w w' : W) : lift r w = (r', w') ↔ r' = r ∧ w' = w.
Proof. unfold lift. naive_solver. Qed.

Lemma eff_bind_Ok m (f : A → eff W E B) (w w' : W) b :
  (m ≫= f) w = (Ok b, w') ↔ ∃ a w1, m w = (Ok a, w1) ∧ f a w1 = (Ok b, w').
Proof. unfold mbind, eff_bind. destruct (m w) as [[a|e] w1]; naive_solver. Qed.

Lemma eff_bind_Err m (f : A → eff W E B) (w w' : W) e :
  (m ≫= f) w = (Err e, w') ↔
    m w = (Err e, w') ∨ ∃ a w1, m w = (Ok a, w1) ∧ f a w1 = (Err e, w').
Proof. unfold mbind, eff_bind. destruct (m w) as [[a|e'] w1]; naive_solver. Qed.

Lemma eff_bind_run_Ok m (f : A → eff W E B) (w w1 : W) a :
  m w = (Ok a, w1) → (m ≫= f) w = f a w1.
Proof. unfold mbind, eff_bind. by intros ->. Qed.

Lemma eff_bind_run_Err m (f : A → eff W E B) (w w1 : W) e :
  m w = (Err e, w1) → (m ≫= f) w = (Err e, w1).
Proof. unfold mbind, eff_bind. by intros ->. Qed.

Lemma lift_bind (r : result E A) (f : A → eff W E B) (w : W) :
  (lift r ≫= f) w = match r with Ok a => f a w | Err e => (Err e, w) end.
Proof. by destruct r. Qed.
End effects.

Lemma eff_map_err_Ok {W E F A : Type} (f : E → F) (m : eff W E A) w a w' :
  eff_map_err f m w = (Ok a, w') ↔ m w = (Ok a, w').
Proof. unfold eff_map_err. destruct (m w) as [[?|?] ?]; cbn; naive_solver. Qed.

Lemma eff_map_err_Err {W E F A : Type} (f : E → F) (m : eff W E A) w e w' :
  eff_map_err f m w = (Err e, w') ↔ ∃ e0, m w = (Err e0, w') ∧ e = f e0.
Proof. unfold eff_map_err. destruct (m w) as [[?|?] ?]; cbn; naive_solver. Qed.

Lemma total_Ok {W E A : Type} (m : W → A * W) (w w' : W) (a : A) :
  (total m : eff W E A) w = (Ok a, w') ↔ m w = (a, w').
Proof. unfold total. destruct (m w); naive_solver. Qed.

Lemma total_Err {W E A : Type} (m : W → A * W) (w w' : W) (e : E) :
  ¬ (total m : eff W E A) w = (Err e, w').
Proof. unfold total. destruct (m w); naive_solver. Qed.

#[export] Instance eff_ret_inhabited {W E A : Type} `{Inhabited A} : Inhabited (eff W E A) :=
  populate (mret inhabitant).

Create HintDb jwtlet.
#[export] Hint Resolve total_Err : jwtlet.

(** Turns every run of a composed effect in the context into the runs of its parts. *)
Ltac inv_eff :=
  repeat match goal with
  | H : (mbind _ _) _ = (Ok _, _) |- _ => apply eff_bind_Ok in H as (?&?&?&H)
  | H : (mret _) _ = (_, _) |- _ => apply eff_ret_Ok in H as [? ?]; simplify_eq
  | H : lift _ _ = (_, _) |- _ => apply lift_eq in H as [? ?]; simplify_eq
  | H : eff_map_err _ _ _ = (Ok _, _) |- _ => apply eff_map_err_Ok in H
  | H : eff_map_err _ _ _ = (Err _, _) |- _ => apply eff_map_err_Err in H as (?&H&?); simplify_eq
  | H : total _ _ = (Ok _, _) |- _ => apply total_Ok in H
  | H : total _ _ = (Err _, _) |- _ => destruct (total_Err _ _ _ _ H)
  | H : (mbind _ _) = Ok _ |- _ => apply result_bind_Ok in H as (?&?&H)
  end.

(** Decides the boolean conditions of the translated code. *)
Ltac case_if :=
  repeat match goal with
  | |- context [bool_decide _] => case_bool_decide
  | H : context [bool_decide _] |- _ => case_bool_decide
  end.
