(* ===== verification/Text.v ===== *)
(** * Text: Rust strings and the ordered collections of the standard library

    A Rust [String] is a sequence of Unicode scalar values; [str] is the list of
    their code points.  The byte order that [BTreeSet<String>] uses on UTF-8
    coincides with the lexicographic order on code points, which is the order
    defined here.  This file holds the [str] and [char] methods the program
    calls ([trim], [split_whitespace], [join], [to_ascii_lowercase],
    [strip_prefix], [starts_with], [trim_end_matches]) and the sorted iteration
    of [BTreeSet] and of [serde_json::Map] (a [BTreeMap]). *)

From S2P Require Import Prelude.

Record str : Set := Str { chars : list N }.

#[export] Instance str_eq_dec : EqDecision str.
Proof. solve_decision. Defined.

#[export] Instance str_inhabited : Inhabited str := populate (Str []).

#[export] Program Instance str_countable : Countable str :=
  inj_countable' chars Str _.
Next Obligation. by intros []. Qed.

(** ** Literals *)

Definition str_of_bytes (l : list Byte.byte) : option str :=
  Str <$> mapM (λ b, let n := Byte.to_N b in if N.ltb n 128 then Some n else None) l.

Definition bytes_of_str (s : str) : option (list Byte.byte) :=
  mapM (λ n, if N.ltb n 128 then Byte.of_N n else None) (chars s).

Declare Scope str_scope.
Delimit Scope str_scope with s.
Bind Scope str_scope with str.
String Notation str str_of_bytes bytes_of_str : str_scope.

Definition str_of_string (s : string) : str :=
  Str (Byte.to_N <$> String.list_byte_of_string s).

(** Concatenation, which is what [format!] does with its pieces. *)
Definition str_app (a b : str) : str := Str (chars a ++ chars b).
Infix "+:+" := str_app (at level 60, right associativity) : str_scope.

(** [Display] for integers. *)
Definition show_Z (z : Z) : str := str_of_string (pretty z).

(** The double quote, which a literal cannot hold. *)
Definition dquote : str := Str [34%N].
Definition newline : str := Str [10%N].

(** ** [char] methods *)

(** [char::is_whitespace]: the Unicode property White_Space. *)
Definition is_whitespace (c : N) : bool :=
  ((9 <=? c) && (c <=? 13) || (c =? 32) || (c =? 133) || (c =? 160) || (c =? 5760)
   || ((8192 <=? c) && (c <=? 8202)) || (c =? 8232) || (c =? 8233) || (c =? 8239)
   || (c =? 8287) || (c =? 12288))%N.

(** [char::to_ascii_lowercase]. *)
Definition ascii_lower (c : N) : N := (if (65 <=? c) && (c <=? 90) then c + 32 else c)%N.

(** ** [str] methods *)

Definition is_empty (s : str) : bool := match chars s with [] => true | _ => false end.

Fixpoint drop_while (p : N → bool) (l : list N) : list N :=
  match l with
  | [] => []
  | c :: l' => if p c then drop_while p l' else l
  end.

Definition drop_while_end (p : N → bool) (l : list N) : list N :=
  rev (drop_while p (rev l)).

Definition trim (s : str) : str :=
  Str (drop_while_end is_whitespace (drop_while is_whitespace (chars s))).

(** [str::trim_end_matches] with a single character. *)
Definition trim_end_matches (c : N) (s : str) : str :=
  Str (drop_while_end (N.eqb c) (chars s)).

Definition to_ascii_lowercase (s : str) : str := Str (ascii_lower <$> chars s).

Fixpoint strip_list (p l : list N) : option (list N) :=
  match p, l with
  | [], _ => Some l
  | a :: p', b :: l' => if N.eqb a b then strip_list p' l' else None
  | _ :: _, [] => None
  end.

Definition strip_prefix (p s : str) : option str := Str <$> strip_list (chars p) (chars s).
Definition starts_with (p s : str) : bool := match strip_prefix p s with Some _ => true | None => false end.

(** Slicing [&s[n..]] off the first [n] characters, all of them ASCII. *)
Definition slice_from (n : nat) (s : str) : str := Str (drop n (chars s)).

(** [str::split] on a predicate: a separator ends a piece, pieces may be empty. *)
Fixpoint split_on (p : N → bool) (l : list N) : list (list N) :=
  match l with
  | [] => [[]]
  | c :: l' =>
      if p c then [] :: split_on p l'
      else match split_on p l' with
           | [] => [[c]]
           | x :: xs => (c :: x) :: xs
           end
  end.

(** [str::split_whitespace]: the non-empty pieces between whitespace. *)
Definition split_whitespace (s : str) : list str :=
  Str <$> List.filter (λ x, match x with [] => false | _ => true end)
            (split_on is_whitespace (chars s)).

(** [[T]::join]. *)
Fixpoint join (sep : str) (l : list str) : str :=
  match l with
  | [] => Str []
  | [x] => x
  | x :: l => (x +:+ sep +:+ join sep l)%s
  end.

(** ** Order, [BTreeSet<String>] and [BTreeMap<String, _>] *)

Fixpoint list_cmp (a b : list N) : comparison :=
  match a, b with
  | [], [] => Eq
  | [], _ :: _ => Lt
  | _ :: _, [] => Gt
  | x :: a, y :: b => match N.compare x y with Eq => list_cmp a b | c => c end
  end.

(** [Ord] for [String]. *)
Definition str_cmp (a b : str) : comparison := list_cmp (chars a) (chars b).
Definition str_lt (a b : str) : Prop := str_cmp a b = Lt.

Fixpoint btree_insert (x : str) (l : list str) : list str :=
  match l with
  | [] => [x]
  | y :: l' =>
      match str_cmp x y with
      | Lt => x :: l
      | Eq => l
      | Gt => y :: btree_insert x l'
      end
  end.

(** [iter.collect::<BTreeSet<String>>()], as the list its iterator yields. *)
Definition btree_set (l : list str) : list str := foldr btree_insert [] l.

(** Iterating over a [BTreeMap<String, V>] yields the keys in ascending order. *)
Definition btree_iter {V : Type} (m : gmap str V) : list (str * V) :=
  omap (λ k, (k,.) <$> m !! k) (btree_set (elements (dom m))).

(** Iterating over a [HashMap] or a [HashSet] yields the entries in an order the
    standard library leaves open: a function of the collection about which only
    the contents are known. *)
Class HashOrder : Type := {
  hash_set_iter : gset str → list str;
  hash_set_iter_perm (s : gset str) : hash_set_iter s ≡ₚ elements s;
  hash_map_iter {K : Type} {dec : EqDecision K} {cnt : Countable K} {V : Type} :
    gmap K V → list (K * V);
  hash_map_iter_perm {K : Type} {dec : EqDecision K} {cnt : Countable K} {V : Type} (m : gmap K V) :
    hash_map_iter m ≡ₚ map_to_list m;
}.

(** One possible order, for evaluation. *)
Definition canonical_order : HashOrder := {|
  hash_set_iter s := elements s;
  hash_set_iter_perm s := Permutation_refl _;
  hash_map_iter K dec cnt V m := map_to_list m;
  hash_map_iter_perm K dec cnt V m := Permutation_refl _;
|}.

#[global] Arguments strip_prefix : simpl never.
#[global] Arguments to_ascii_lowercase : simpl never.
#[global] Arguments slice_from : simpl never.

(** ** Lemmas: the order on strings *)

Lemma list_cmp_refl a : list_cmp a a = Eq.
Proof. induction a as [|x a IH]; cbn; [done|]. by rewrite N.compare_refl. Qed.

Lemma list_cmp_Eq a b : list_cmp a b = Eq → a = b.
Proof.
  revert b. induction a as [|x a IH]; intros [|y b]; cbn; try done.
  destruct (N.compare_spec x y); try done. subst. intros H. f_equal. by apply IH.
Qed.

Lemma list_cmp_antisym a b : list_cmp b a = CompOpp (list_cmp a b).
Proof.
  revert b. induction a as [|x a IH]; intros [|y b]; cbn; try done.
  rewrite (N.compare_antisym x y). destruct (N.compare x y); cbn; auto.
Qed.

Lemma list_cmp_Lt_trans a b c : list_cmp a b = Lt → list_cmp b c = Lt → list_cmp a c = Lt.
Proof.
  revert b c. induction a as [|x a IH]; intros [|y b] [|z c]; cbn; try done.
  destruct (N.compare_spec x y) as [->|?|?]; try done.
  - destruct (N.compare_spec y z); try done. eauto.
  - destruct (N.compare_spec y z) as [->|?|?], (N.compare_spec x z); try done; lia.
Qed.

Lemma str_eq_chars a b : chars a = chars b → a = b.
Proof. destruct a, b; cbn. congruence. Qed.

Lemma str_cmp_Eq a b : str_cmp a b = Eq ↔ a = b.
Proof.
  split; [intros ?%list_cmp_Eq; by apply str_eq_chars|intros ->; apply list_cmp_refl].
Qed.

Lemma str_cmp_Gt a b : str_cmp a b = Gt ↔ str_lt b a.
Proof.
  unfold str_lt, str_cmp. rewrite (list_cmp_antisym (chars a)).
  destruct (list_cmp _ _); cbn; naive_solver.
Qed.

#[export] Instance str_lt_strict : StrictOrder str_lt.
Proof.
  split.
  - intros a H. unfold str_lt, str_cmp in H. by rewrite list_cmp_refl in H.
  - intros a b c. apply list_cmp_Lt_trans.
Qed.

#[export] Instance str_lt_trichotomy : Trichotomy str_lt.
Proof.
  intros a b. destruct (str_cmp a b) eqn:H; [right; left|left|right; right].
  - by apply str_cmp_Eq. - done. - by apply str_cmp_Gt.
Qed.

(** ** Lemmas: sorted collections *)

Lemma btree_insert_elem x y l : y ∈ btree_insert x l ↔ y = x ∨ y ∈ l.
Proof.
  induction l as [|z l IH]; cbn; [rewrite list_elem_of_singleton; set_solver|].
  destruct (str_cmp x z) eqn:H; rewrite ?elem_of_cons, ?IH; [|set_solver..].
  apply str_cmp_Eq in H as ->. set_solver.
Qed.

Lemma btree_insert_sorted x l :
  StronglySorted str_lt l → StronglySorted str_lt (btree_insert x l).
Proof.
  induction 1 as [|z l Hl IH Hz]; cbn; [by repeat constructor|].
  destruct (str_cmp x z) eqn:H.
  - by constructor.
  - constructor; [by constructor|]. constructor; [done|].
    eapply Forall_impl; [exact Hz|]. intros y Hy. cbn. by transitivity z.
  - constructor; [done|]. apply Forall_forall. intros y [->|Hy]%btree_insert_elem.
    + by apply str_cmp_Gt. + by eapply Forall_forall in Hz.
Qed.

Lemma btree_set_elem x l : x ∈ btree_set l ↔ x ∈ l.
Proof.
  induction l as [|y l IH]; cbn; [done|]. by rewrite btree_insert_elem, IH, elem_of_cons.
Qed.

Lemma btree_set_sorted l : StronglySorted str_lt (btree_set l).
Proof. induction l; cbn; [constructor|by apply btree_insert_sorted]. Qed.

Lemma sorted_lt_NoDup l : StronglySorted str_lt l → NoDup l.
Proof.
  induction 1 as [|x l _ IH Hx]; constructor; [|done].
  intros H. eapply Forall_forall in Hx; [|exact H]. by apply (irreflexivity str_lt x).
Qed.

(** A sorted list is determined by its members. *)
Lemma sorted_lt_ext l1 l2 :
  StronglySorted str_lt l1 → StronglySorted str_lt l2 → (∀ x, x ∈ l1 ↔ x ∈ l2) → l1 = l2.
Proof.
  intros H1 H2 H. apply (StronglySorted_unique_strong str_lt); [|done|done|].
  - intros x y _ _ ? ?. exfalso. apply (irreflexivity str_lt x). by transitivity y.
  - apply NoDup_Permutation; auto using sorted_lt_NoDup.
Qed.

Lemma btree_set_ext l1 l2 : (∀ x, x ∈ l1 ↔ x ∈ l2) → btree_set l1 = btree_set l2.
Proof.
  intros H. apply sorted_lt_ext; [apply btree_set_sorted..|].
  intros x. by rewrite !btree_set_elem.
Qed.

Lemma btree_set_sorted_id l : StronglySorted str_lt l → btree_set l = l.
Proof.
  intros H. apply sorted_lt_ext; [apply btree_set_sorted|done|].
  intros x. apply btree_set_elem.
Qed.

#[export] Hint Resolve btree_set_sorted sorted_lt_NoDup : jwtlet.

Lemma btree_iter_elem {V : Type} (m : gmap str V) k v : (k, v) ∈ btree_iter m ↔ m !! k = Some v.
Proof.
  unfold btree_iter. rewrite list_elem_of_omap. split.
  - intros (k' & _ & H). destruct (m !! k') eqn:E; cbn in H; by simplify_eq.
  - intros H. exists k. rewrite btree_set_elem, elem_of_elements, elem_of_dom, H. eauto.
Qed.

Lemma btree_iter_keys {V : Type} (m : gmap str V) :
  (btree_iter m).*1 = btree_set (elements (dom m)).
Proof.
  unfold btree_iter. assert (∀ k, k ∈ btree_set (elements (dom m)) → is_Some (m !! k)) as H.
  { intros k. by rewrite btree_set_elem, elem_of_elements, elem_of_dom. }
  induction (btree_set _) as [|k l IH]; cbn; [done|].
  destruct (H k) as [v Hv]; [by left|]. rewrite Hv. cbn. f_equal. apply IH.
  intros k' ?. apply H. by right.
Qed.

Lemma btree_iter_NoDup {V : Type} (m : gmap str V) : NoDup (btree_iter m).*1.
Proof. rewrite btree_iter_keys. auto with jwtlet. Qed.

(** ** Lemmas: trimming, splitting and joining *)

Lemma drop_while_nil p l : drop_while p l = [] ↔ forallb p l = true.
Proof.
  induction l as [|c l IH]; cbn; [done|]. destruct (p c); cbn; [done|]. split; discriminate.
Qed.

Lemma drop_while_head p l c l' : drop_while p l = c :: l' → p c = false.
Proof.
  induction l as [|d l IH]; cbn; [done|]. destruct (p d) eqn:E; [done|]. intros; by simplify_eq.
Qed.

Lemma drop_while_suffix p l : ∃ l', l = l' ++ drop_while p l ∧ forallb p l' = true.
Proof.
  induction l as [|c l (l' & H1 & H2)]; cbn; [by exists []|]. destruct (p c) eqn:E.
  - exists (c :: l'). cbn. by rewrite E, <- H1.
  - by exists [].
Qed.

Lemma forallb_rev {A : Type} (p : A → bool) l : forallb p (rev l) = forallb p l.
Proof.
  induction l as [|c l IH]; cbn; [done|]. rewrite forallb_app, IH. cbn.
  by rewrite andb_true_r, andb_comm.
Qed.

Lemma forallb_Forall {A : Type} (p : A → bool) l : forallb p l = true ↔ Forall (λ x, p x = true) l.
Proof. induction l as [|x l IH]; cbn; [by split|]. by rewrite andb_true_iff, IH, Forall_cons. Qed.

Lemma trim_empty s : is_empty (trim s) = forallb is_whitespace (chars s).
Proof.
  unfold is_empty, trim, drop_while_end. cbn.
  destruct (forallb is_whitespace (chars s)) eqn:E.
  - apply drop_while_nil in E. by rewrite E.
  - destruct (drop_while is_whitespace (chars s)) as [|c l] eqn:H.
    + apply drop_while_nil in H. congruence.
    + apply drop_while_head in H.
      destruct (rev (drop_while is_whitespace (rev (c :: l)))) eqn:R; [|done].
      assert (drop_while is_whitespace (rev (c :: l)) = []) as D.
      { rewrite <- (rev_involutive (drop_while _ _)), R. done. }
      apply drop_while_nil in D. rewrite forallb_rev in D. cbn in D. by rewrite H in D.
Qed.

(** What [trim] removes is whitespace, and only at the two ends. *)
Lemma trim_decompose s :
  ∃ a b, chars s = a ++ chars (trim s) ++ b ∧
    forallb is_whitespace a = true ∧ forallb is_whitespace b = true.
Proof.
  unfold trim, drop_while_end. cbn.
  destruct (drop_while_suffix is_whitespace (chars s)) as (a & Ha & Wa).
  destruct (drop_while_suffix is_whitespace (rev (drop_while is_whitespace (chars s))))
    as (b & Hb & Wb).
  exists a, (rev b). split; [|by rewrite forallb_rev].
  rewrite Ha at 1. f_equal.
  rewrite <- (rev_involutive (drop_while is_whitespace (chars s))) at 1.
  rewrite Hb at 1. by rewrite rev_app_distr.
Qed.

Definition no_whitespace (s : str) : Prop := Forall (λ c, is_whitespace c = false) (chars s).

Lemma existsb_false_Forall {A : Type} (p : A → bool) l :
  existsb p l = false ↔ Forall (λ x, p x = false) l.
Proof. induction l as [|x l IH]; cbn; [by split|]. by rewrite orb_false_iff, IH, Forall_cons. Qed.

Lemma split_on_Forall p l : Forall (Forall (λ c, p c = false)) (split_on p l).
Proof.
  induction l as [|c l IH]; cbn; [by repeat constructor|].
  destruct (p c) eqn:E; [by constructor|].
  destruct (split_on p l) as [|x xs]; [by repeat constructor|].
  apply Forall_cons in IH as [? ?]. by repeat constructor.
Qed.

Lemma split_on_none p l : Forall (λ c, p c = false) l → split_on p l = [l].
Proof.
  induction 1 as [|c l Hc Hl IH]; cbn; [done|]. by rewrite Hc, IH.
Qed.

Lemma split_on_app p a c b :
  Forall (λ c, p c = false) a → p c = true → split_on p (a ++ c :: b) = a :: split_on p b.
Proof.
  intros Ha Hc. induction Ha as [|d a Hd Ha IH]; cbn; [by rewrite Hc|].
  by rewrite Hd, IH.
Qed.

(** A piece is never empty and holds no whitespace. *)
Lemma split_whitespace_Forall s :
  Forall (λ x, is_empty x = false ∧ no_whitespace x) (split_whitespace s).
Proof.
  unfold split_whitespace. apply Forall_fmap, Forall_forall. intros x Hx.
  apply list_elem_of_In, filter_In in Hx as [Hx Hne].
  pose proof (split_on_Forall is_whitespace (chars s)) as H.
  rewrite Forall_forall in H. specialize (H x). rewrite list_elem_of_In in H. split.
  - by destruct x.
  - by apply H.
Qed.

(** A printed scope list parses back to the same scopes. *)
Lemma split_whitespace_join l :
  Forall (λ x, is_empty x = false ∧ no_whitespace x) l → split_whitespace (join " "%s l) = l.
Proof.
  unfold split_whitespace. induction 1 as [|x l [Hx Wx] Hl IH]; [done|].
  destruct l as [|y l].
  - cbn [join]. rewrite split_on_none by done. destruct x as [[|c x]]; [done|]. done.
  - change (chars (join " "%s (x :: y :: l))) with (chars x ++ 32%N :: chars (join " "%s (y :: l))).
    rewrite split_on_app by done. destruct x as [[|c x]]; [done|].
    cbn [List.filter chars fmap list_fmap]. f_equal. exact IH.
Qed.

(** The character [c], [n] times. *)
Definition run_of (c : N) (n : nat) : str := Str (replicate n c).

Lemma rev_replicate (c : N) n : rev (replicate n c) = replicate n c.
Proof. rewrite rev_alt. apply reverse_replicate. Qed.

Lemma trim_end_split c s : ∃ n, s = (trim_end_matches c s +:+ run_of c n)%s.
Proof.
  destruct (drop_while_suffix (N.eqb c) (rev (chars s))) as (l & Hl & Hall).
  exists (length l). apply str_eq_chars. cbn. unfold drop_while_end.
  assert (l = replicate (length l) c) as Hrep.
  { symmetry. apply replicate_as_elem_of. split; [done|]. intros x Hx. apply forallb_Forall in Hall.
    rewrite Forall_forall in Hall. symmetry. by apply N.eqb_eq, Hall. }
  rewrite <- (rev_involutive (chars s)) at 1. rewrite Hl at 1.
  rewrite rev_app_distr. f_equal. rewrite Hrep at 1. apply rev_replicate.
Qed.

Lemma trim_end_app c s n : trim_end_matches c (s +:+ run_of c n)%s = trim_end_matches c s.
Proof.
  unfold trim_end_matches, drop_while_end. cbn. do 2 f_equal.
  rewrite rev_app_distr, rev_replicate.
  induction n as [|n IH]; [done|]. cbn. by rewrite N.eqb_refl.
Qed.

(** ** Lemmas: prefixes *)

Lemma strip_list_Some p l r : strip_list p l = Some r ↔ l = p ++ r.
Proof.
  revert l. induction p as [|a p IH]; intros [|b l]; cbn; try naive_solver.
  destruct (N.eqb_spec a b) as [->|]; rewrite ?IH; naive_solver.
Qed.

Lemma strip_prefix_Some p s r : strip_prefix p s = Some r ↔ s = (p +:+ r)%s.
Proof.
  unfold strip_prefix, str_app. rewrite fmap_Some. destruct s as [l], p as [p]; cbn. split.
  - intros (x & ->%strip_list_Some & ->). done.
  - intros [= ->]. exists (chars r). rewrite strip_list_Some. by destruct r.
Qed.

Lemma starts_with_spec p s : starts_with p s = true ↔ ∃ r, s = (p +:+ r)%s.
Proof.
  unfold starts_with. destruct (strip_prefix p s) as [r|] eqn:E.
  - apply strip_prefix_Some in E. naive_solver.
  - split; [done|]. intros (r & H%strip_prefix_Some). congruence.
Qed.

Lemma to_ascii_lowercase_length s : length (chars (to_ascii_lowercase s)) = length (chars s).
Proof. apply length_fmap. Qed.

(** ** Lemmas: concatenation *)

#[export] Instance str_of_string_inj : Inj (=) (=) str_of_string.
Proof.
  intros a b [= H]. rewrite <- (String.string_of_list_byte_of_string a), <- (String.string_of_list_byte_of_string b).
  f_equal. revert H. apply list_fmap_eq_inj. intros x y Hxy.
  apply (f_equal Byte.of_N) in Hxy. rewrite !Byte.of_to_N in Hxy. by injection Hxy.
Qed.

#[export] Instance show_Z_inj : Inj (=) (=) show_Z.
Proof. intros a b Hab. by apply (inj pretty), (inj str_of_string). Qed.

Lemma str_app_assoc a b c : ((a +:+ b) +:+ c)%s = (a +:+ b +:+ c)%s.
Proof. unfold str_app. cbn. by rewrite <- app_assoc. Qed.

Lemma str_app_inj_l a b c : (a +:+ b)%s = (a +:+ c)%s → b = c.
Proof. unfold str_app. intros [= H]. apply app_inv_head in H. by apply str_eq_chars. Qed.

(** Joining one more piece appends the separator and the piece. *)
Lemma join_snoc sep l x :
  l ≠ [] → join sep (l ++ [x]) = (join sep l +:+ sep +:+ x)%s.
Proof.
  intros Hl. induction l as [|y l IH]; [done|]. destruct l as [|z l]; [done|].
  change (join sep ((y :: z :: l) ++ [x])) with (y +:+ sep +:+ join sep ((z :: l) ++ [x]))%s.
  rewrite IH by done. cbn [join]. by rewrite !str_app_assoc.
Qed.
