(* ===== verification/Json.v ===== *)
(** * Json: the JSON values of the program

    [Value.t] is [serde_json::Value] as the workspace builds it: no
    [preserve_order] feature, so an object is a [BTreeMap] and equality of
    objects is equality of maps.  The program never computes with numbers; they
    are kept with the constructors of [serde_json::Number]. *)

From S2P Require Import Prelude Text.

Module Value.
Inductive number : Set :=
  | PosInt (n : N)
  | NegInt (z : Z)
  | Float (bits : N).

Inductive t : Set :=
  | Null
  | Bool (b : bool)
  | Number (n : number)
  | String (s : str)
  | Array (l : list t)
  | Object (m : gmap str t).
End Value.

Abbreviation Value := Value.t.
(** [serde_json::Map<String, Value>]. *)
Abbreviation JsonMap := (gmap str Value.t).

Definition as_str (v : Value) : option str :=
  match v with Value.String s => Some s | _ => None end.

Definition is_string (v : Value) : bool :=
  match v with Value.String _ => true | _ => false end.

(** Indexed assignment [v[key] = x] on a value that is an object. *)
Definition object_set (key : str) (x : Value) (v : Value) : Value :=
  match v with
  | Value.Object m => Value.Object (<[key := x]> m)
  | _ => v
  end.

(** [v.get(key)] on a value: only an object has fields. *)
Definition field (key : str) (v : Value) : option Value :=
  match v with Value.Object m => m !! key | _ => None end.

Lemma is_string_true v : is_string v = true ↔ ∃ s, v = Value.String s.
Proof. destruct v; naive_solver. Qed.

Lemma as_str_Some v s : as_str v = Some s ↔ v = Value.String s.
Proof. destruct v; naive_solver. Qed.
