(* ===== verification/Facet.v ===== *)
(** * Facet: the JWT interfaces of [dsdk_facet_core]

    The crate is not part of the repository; this file holds the types and
    traits through which jwtlet uses it.  [TokenClaims] has the fields that
    [k8s/mod.rs] and [token/mod.rs] set.  [JwtVerificationError] has the two
    variants the program names and one for all the others. *)

From S2P Require Import Prelude Text Json.

Inductive JwtVerificationError : Set :=
  | VerificationFailed (msg : str)
  | InvalidSignature
  | OtherVerificationError (detail : str).

Record TokenClaims : Set := {
  tc_sub : str;
  tc_iss : str;
  tc_aud : str;
  tc_iat : Z;
  tc_exp : Z;
  tc_nbf : option Z;
  tc_custom : JsonMap;
}.

(** [ParticipantContext], of which the program sets the identifier. *)
Record ParticipantContext : Set := { pc_id : str }.

(** The [JwtVerifier] trait: audience, then token. *)
Class JwtVerifier (W : Type) : Type := {
  verify_token : str → str → eff W JwtVerificationError TokenClaims;
}.

(** The [JwtGenerator] trait, with its error type. *)
Class JwtGenerator (W : Type) : Type := {
  JwtGenerationError : Type;
  generate_token : ParticipantContext → TokenClaims → eff W JwtGenerationError str;
}.

(** The clock ([Utc::now().timestamp()]) and the UUID source
    ([Uuid::new_v4().to_string()]). *)
Class Ambient (W : Type) : Type := {
  now : W → Z * W;
  new_uuid : W → str * W;
}.
