(* ===== verification/Resource.v ===== *)
(** * Resource: resource and scope mappings and the service that checks them

    Models [crates/jwtlet-core/src/resource/mod.rs]: the mapping types, the
    [ResourceStore] trait (a type class over the state of a store), the
    validation rules of the write path and [ResourceService], whose [verify]
    turns requested scopes into claims. *)

From S2P Require Import Prelude Text Json.

(** [ResourceError]. *)
Inductive ResourceError : Set :=
  | DatabaseError (msg : str)
  | NotFound (client : str)
  | Conflict (client : str)
  | ClaimConflict (msg : str)
  | ReservedClaim (key : str)
  | InvalidMapping (msg : str).

#[export] Instance resource_error_eq_dec : EqDecision ResourceError.
Proof. solve_decision. Defined.

(** [Display] of [ResourceError]. *)
Definition show_error (e : ResourceError) : str :=
  match e with
  | DatabaseError msg => ("Database error: " +:+ msg)%s
  | NotFound client => ("Mapping not found for client: " +:+ client)%s
  | Conflict client => ("Mapping already exists for client: " +:+ client)%s
  | ClaimConflict msg => ("Scope claim key conflict: " +:+ msg)%s
  | ReservedClaim key => ("Reserved JWT claim key used in scope mapping: " +:+ key)%s
  | InvalidMapping msg => ("Invalid mapping: " +:+ msg)%s
  end.

Record ResourceMapping : Set := {
  client_identifier : str;
  participant_context : str;
  scopes : gset str;
  audiences : gset str;
}.

Record ScopeMapping : Set := {
  scope : str;
  claims : JsonMap;
}.

Record MappingPair : Set := {
  resource_mapping : ResourceMapping;
  scope_mappings : gmap str ScopeMapping;
}.

Record VerificationResult : Set := {
  verified : bool;
  vr_claims : gmap str Value;
  vr_audiences : gset str;
}.

(** The [ResourceStore] trait; [W] is the state an implementation keeps. *)
Class ResourceStore (W : Type) : Type := {
  resolve_mapping : str → str → eff W ResourceError (option MappingPair);
  save_mapping : ResourceMapping → eff W ResourceError unit;
  update_mapping : ResourceMapping → eff W ResourceError unit;
  remove_mapping : str → str → eff W ResourceError unit;
  remove_mappings_for : str → eff W ResourceError unit;
  save_scope_mappings : list ScopeMapping → eff W ResourceError unit;
  update_scope_mapping : ScopeMapping → eff W ResourceError unit;
  remove_scope_mapping : str → eff W ResourceError unit;
  list_mappings : eff W ResourceError (list ResourceMapping);
  list_scope_mappings : eff W ResourceError (list ScopeMapping);
}.

(** ** Validation *)

Definition RESERVED_CLAIMS : list str :=
  ["sub"; "iss"; "aud"; "exp"; "iat"; "nbf"; "act"; "jti"]%s.

Definition is_reserved_claim (key : str) : bool := bool_decide (key ∈ RESERVED_CLAIMS).

Definition validate_scope_name (scope : str) : result ResourceError unit :=
  if is_empty scope || existsb is_whitespace (chars scope) then
    Err (InvalidMapping ("scope '" +:+ scope +:+ "' must be non-empty and contain no whitespace")%s)
  else Ok tt.

Definition validate_scope_claims (claims : JsonMap) : result ResourceError unit :=
  for_each (λ key, if is_reserved_claim key then Err (ReservedClaim key) else Ok tt)
    (btree_iter claims).*1.

Definition validate_scope_mapping (mapping : ScopeMapping) : result ResourceError unit :=
  _ ← validate_scope_name (scope mapping);
  validate_scope_claims (claims mapping).

Definition validate_resource_mapping `{HashOrder} (mapping : ResourceMapping) :
    result ResourceError unit :=
  if is_empty (trim (client_identifier mapping)) then
    Err (InvalidMapping "clientIdentifier must not be empty"%s)
  else if is_empty (trim (participant_context mapping)) then
    Err (InvalidMapping "participantContext must not be empty"%s)
  else
    _ ← for_each validate_scope_name (hash_set_iter (scopes mapping));
    if existsb (λ a, is_empty (trim a)) (hash_set_iter (audiences mapping)) then
      Err (InvalidMapping "audiences must not contain empty values"%s)
    else Ok tt.

(** ** [ResourceService] *)

(** One entry of one scope mapping merged into the claims gathered so far. *)
Definition merge_claim (acc : gmap str Value) (kv : str * Value) :
    result ResourceError (gmap str Value) :=
  let '(k, v) := kv in
  match acc !! k with
  | Some (Value.String existing) =>
      match v with
      | Value.String new_val => Ok (<[k := Value.String (existing +:+ " " +:+ new_val)%s]> acc)
      | _ => Err (ClaimConflict ("claim key '" +:+ k +:+ "' has conflicting types across scopes")%s)
      end
  | Some _ =>
      Err (ClaimConflict ("claim key '" +:+ k +:+ "' is defined by multiple requested scopes")%s)
  | None => Ok (<[k := v]> acc)
  end.

(** The body of the loop over the requested scopes. *)
Definition merge_scope (scope_mappings : gmap str ScopeMapping) (acc : gmap str Value) (s : str) :
    result ResourceError (gmap str Value) :=
  match scope_mappings !! s with
  | Some sm => try_fold merge_claim acc (btree_iter (claims sm))
  | None => Ok acc
  end.

Definition unverified : VerificationResult :=
  {| verified := false; vr_claims := ∅; vr_audiences := ∅ |}.

Module ResourceService.
Section service.
Context {W : Type} `{ResourceStore W} `{HashOrder}.

Definition verify (client_identifier participant_context : str) (requested : list str) :
    eff W ResourceError VerificationResult :=
  let requested := btree_set requested in
  found ← resolve_mapping client_identifier participant_context;
  match found with
  | None => mret unverified
  | Some mp =>
      if negb (forallb (λ s, bool_decide (s ∈ scopes (resource_mapping mp))) requested)
      then mret unverified
      else
        claims ← lift (try_fold (merge_scope (scope_mappings mp)) ∅ requested);
        mret {| verified := true; vr_claims := claims;
                vr_audiences := audiences (resource_mapping mp) |}
  end.

Definition save (mapping : ResourceMapping) : eff W ResourceError unit :=
  _ ← lift (validate_resource_mapping mapping);
  save_mapping mapping.

Definition update (mapping : ResourceMapping) : eff W ResourceError unit :=
  _ ← lift (validate_resource_mapping mapping);
  update_mapping mapping.

Definition remove (client_id context : str) : eff W ResourceError unit :=
  remove_mapping client_id context.

Definition remove_for (client_id : str) : eff W ResourceError unit :=
  remove_mappings_for client_id.

Definition save_scope_mappings (mappings : list ScopeMapping) : eff W ResourceError unit :=
  _ ← lift (for_each validate_scope_mapping mappings);
  Resource.save_scope_mappings mappings.

Definition update_scope_mapping (mapping : ScopeMapping) : eff W ResourceError unit :=
  _ ← lift (validate_scope_mapping mapping);
  Resource.update_scope_mapping mapping.

Definition delete_scope_mapping (scope : str) : eff W ResourceError unit :=
  remove_scope_mapping scope.

Definition list_mappings : eff W ResourceError (list ResourceMapping) :=
  Resource.list_mappings.

Definition list_scope_mappings : eff W ResourceError (list ScopeMapping) :=
  Resource.list_scope_mappings.
End service.
End ResourceService.

(** ** Reference definition of claim merging

    What the merge loop promises, key by key: the values that the requested
    scopes contribute to a key, in scope order, either stand alone or are all
    strings and are joined with a space. *)

Definition contributions (sms : gmap str ScopeMapping) (requested : list str) (k : str) :
    list Value :=
  omap (λ s, sm ← sms !! s; claims sm !! k) requested.

Definition compatible (vs : list Value) : bool :=
  match vs with
  | [] | [_] => true
  | _ => forallb is_string vs
  end.

Definition combined (vs : list Value) : option Value :=
  match vs with
  | [] => None
  | [v] => Some v
  | _ => Some (Value.String (join " "%s (omap as_str vs)))
  end.

(** One value merged into what a key already holds; [None] is a conflict. *)
Definition merge_value (old : option Value) (v : Value) : option Value :=
  match old, v with
  | None, _ => Some v
  | Some (Value.String a), Value.String b => Some (Value.String (a +:+ " " +:+ b)%s)
  | Some _, _ => None
  end.

Lemma contributions_snoc sms l s k :
  contributions sms (l ++ [s]) k =
    contributions sms l k ++ option_list (sm ← sms !! s; claims sm !! k).
Proof.
  unfold contributions. rewrite omap_app. f_equal.
Qed.

Lemma omap_as_str_nil vs : forallb is_string vs = true → omap as_str vs = [] → vs = [].
Proof. destruct vs as [|[] vs]; cbn; done. Qed.

Lemma combined_None vs : combined vs = None ↔ vs = [].
Proof. destruct vs as [|? [|? ?]]; cbn; done. Qed.

(** Strings that were already joined are one string. *)
Lemma combined_strings vs :
  vs ≠ [] → forallb is_string vs = true →
  combined vs = Some (Value.String (join " "%s (omap as_str vs))).
Proof. destruct vs as [|[] [|? ?]]; done. Qed.

Lemma compatible_snoc_inv vs v : compatible (vs ++ [v]) = true → compatible vs = true.
Proof.
  destruct vs as [|v1 [|v2 vs]]; cbn; try done.
  rewrite forallb_app. rewrite !andb_true_iff. naive_solver.
Qed.

(** Merging one more value agrees with combining the longer list. *)
Lemma merge_value_combined vs v :
  compatible vs = true →
  merge_value (combined vs) v =
    if compatible (vs ++ [v]) then combined (vs ++ [v]) else None.
Proof.
  intros Hc. destruct vs as [|v1 vs]; [done|].
  destruct (forallb is_string (v1 :: vs)) eqn:Hs.
  - rewrite combined_strings by done.
    assert (compatible ((v1 :: vs) ++ [v]) = is_string v) as ->.
    { change (compatible ((v1 :: vs) ++ [v])) with
        (match vs ++ [v] with [] => true | _ => forallb is_string ((v1 :: vs) ++ [v]) end).
      rewrite forallb_app, Hs. cbn. rewrite andb_true_r. by destruct vs. }
    destruct v; try done. cbn [is_string].
    rewrite combined_strings; [|done|by rewrite forallb_app, Hs].
    rewrite omap_app. cbn [omap list_omap as_str]. rewrite join_snoc; [done|].
    intros H. by apply (omap_as_str_nil (v1 :: vs)) in H.
  - destruct vs as [|v2 vs]; [|cbn in Hc, Hs; congruence].
    cbn in *. rewrite andb_true_r in Hs. rewrite Hs. cbn. by destruct v1.
Qed.

Lemma merge_claim_Ok acc k v acc' :
  merge_claim acc (k, v) = Ok acc' ↔
    ∃ v', merge_value (acc !! k) v = Some v' ∧ acc' = <[k := v']> acc.
Proof.
  unfold merge_claim. destruct (acc !! k) as [[]|]; cbn; destruct v; naive_solver.
Qed.

Lemma merge_claim_Err acc k v e :
  merge_claim acc (k, v) = Err e → merge_value (acc !! k) v = None ∧ ∃ msg, e = ClaimConflict msg.
Proof.
  unfold merge_claim. destruct (acc !! k) as [[]|]; cbn; destruct v; naive_solver.
Qed.

(** The inner loop: every entry is merged into its own key, other keys stay. *)
Lemma merge_entries_Ok acc kvs acc' :
  NoDup kvs.*1 →
  try_fold merge_claim acc kvs = Ok acc' ↔
    (∀ k v, (k, v) ∈ kvs → is_Some (merge_value (acc !! k) v) ∧ acc' !! k = merge_value (acc !! k) v) ∧
    (∀ k, k ∉ kvs.*1 → acc' !! k = acc !! k).
Proof.
  revert acc. induction kvs as [|[k v] kvs IH]; intros acc Hnd.
  { cbn. split; [intros [= ->]; set_solver|]. intros [_ H]. f_equal. apply map_eq.
    intros k. rewrite H; [done|set_solver]. }
  cbn [fmap list_fmap fst] in Hnd. apply NoDup_cons in Hnd as [Hk Hnd].
  cbn [try_fold]. rewrite result_bind_Ok. split.
  - intros (acc1 & (v' & Hm & ->)%merge_claim_Ok & H). apply IH in H as [H1 H2]; [|done]. split.
    + intros k' v1 [[= -> ->]|Hin]%elem_of_cons.
      * rewrite H2 by done. rewrite lookup_insert_eq, Hm. eauto.
      * assert (k ≠ k') by (intros ->; apply Hk; apply (list_elem_of_fmap_2 fst _ _ Hin)).
        specialize (H1 k' v1 Hin). by rewrite lookup_insert_ne in H1.
    + intros k' [? ?]%not_elem_of_cons. rewrite H2 by done. by rewrite lookup_insert_ne.
  - intros [H1 H2]. destruct (H1 k v) as [[v' Hv'] Hk']; [by left|].
    exists (<[k := v']> acc). split; [apply merge_claim_Ok; eauto|]. apply IH; [done|]. split.
    + intros k' v1 Hin.
      assert (k ≠ k') by (intros ->; apply Hk; apply (list_elem_of_fmap_2 fst _ _ Hin)).
      rewrite lookup_insert_ne by done. apply H1. by right.
    + intros k' ?. destruct (decide (k = k')) as [<-|]; [by rewrite lookup_insert_eq, Hk'|].
      rewrite lookup_insert_ne by done. apply H2. by apply not_elem_of_cons.
Qed.

Lemma merge_entries_Err acc kvs e :
  NoDup kvs.*1 →
  try_fold merge_claim acc kvs = Err e →
  (∃ k v, (k, v) ∈ kvs ∧ merge_value (acc !! k) v = None) ∧ ∃ msg, e = ClaimConflict msg.
Proof.
  revert acc. induction kvs as [|[k v] kvs IH]; intros acc Hnd; [done|].
  cbn [fmap list_fmap fst] in Hnd. apply NoDup_cons in Hnd as [Hk Hnd].
  cbn [try_fold]. intros [H%merge_claim_Err|(acc1 & (v' & Hm & ->)%merge_claim_Ok & H)]%result_bind_Err.
  - destruct H as [H ?]. split; [|done]. exists k, v. split; [by left|done].
  - destruct (IH _ Hnd H) as [(k' & v1 & Hin & Hnone) ?]. split; [|done].
    exists k', v1. split; [by right|].
    assert (k ≠ k') by (intros ->; apply Hk; apply (list_elem_of_fmap_2 fst _ _ Hin)).
    by rewrite lookup_insert_ne in Hnone.
Qed.

Lemma btree_iter_keys_elem {V : Type} (m : gmap str V) k : k ∈ (btree_iter m).*1 ↔ is_Some (m !! k).
Proof. by rewrite btree_iter_keys, btree_set_elem, elem_of_elements, elem_of_dom. Qed.

(** What the loop over the scopes has gathered after any number of rounds. *)
Definition merged (sms : gmap str ScopeMapping) (l : list str) (acc : gmap str Value) : Prop :=
  ∀ k, compatible (contributions sms l k) = true ∧ acc !! k = combined (contributions sms l k).

Lemma merge_scope_step sms l s acc acc' :
  merged sms l acc → merge_scope sms acc s = Ok acc' → merged sms (l ++ [s]) acc'.
Proof.
  unfold merge_scope. intros Hm Hs k. rewrite contributions_snoc. destruct (Hm k) as [Hc Ha].
  destruct (sms !! s) as [sm|]; cbn; [|simplify_eq; by rewrite app_nil_r].
  apply merge_entries_Ok in Hs as [H1 H2]; [|apply btree_iter_NoDup].
  destruct (claims sm !! k) as [v|] eqn:Hv; cbn.
  - apply btree_iter_elem in Hv. destruct (H1 _ _ Hv) as [Hsome ->].
    rewrite Ha in *. rewrite merge_value_combined in * by done.
    destruct (compatible (_ ++ [v])); [done|]. by destruct Hsome.
  - rewrite app_nil_r, H2; [done|]. rewrite btree_iter_keys_elem, Hv. by intros [? ?].
Qed.

Lemma merge_scopes_merged sms l acc :
  try_fold (merge_scope sms) ∅ l = Ok acc → merged sms l acc.
Proof.
  revert acc. induction l as [|s l IH] using rev_ind; intros acc H.
  { cbn in H. simplify_eq. done. }
  rewrite try_fold_app in H. cbn in H. apply result_bind_Ok in H as (acc0 & H0 & H).
  apply result_bind_Ok in H as (acc1 & H1 & [= <-]).
  eapply merge_scope_step; eauto.
Qed.

Lemma incompatible_snoc sms l s k :
  compatible (contributions sms l k) = false →
  compatible (contributions sms (l ++ [s]) k) = false.
Proof.
  intros H. rewrite contributions_snoc. destruct (_ ≫= _) as [v|]; cbn; [|by rewrite app_nil_r].
  destruct (compatible (_ ++ [v])) eqn:E; [|done]. apply compatible_snoc_inv in E. congruence.
Qed.

Lemma merge_scopes_conflict sms l e :
  try_fold (merge_scope sms) ∅ l = Err e →
  (∃ k, compatible (contributions sms l k) = false) ∧ ∃ msg, e = ClaimConflict msg.
Proof.
  revert e. induction l as [|s l IH] using rev_ind; intros e H; [done|].
  rewrite try_fold_app in H. cbn in H.
  apply result_bind_Err in H as [H|(acc & Hacc & [H|(? & _ & [=])]%result_bind_Err)].
  { destruct (IH _ H) as [[k Hk] ?]. eauto using incompatible_snoc. }
  apply merge_scopes_merged in Hacc. unfold merge_scope in H.
  destruct (sms !! s) as [sm|] eqn:Hsm; [|done].
  apply merge_entries_Err in H as [(k & v & Hin%btree_iter_elem & Hnone) ?];
    [|apply btree_iter_NoDup].
  split; [|done]. exists k. destruct (Hacc k) as [Hc Ha].
  rewrite contributions_snoc, Hsm. cbn. rewrite Hin. cbn.
  rewrite Ha, merge_value_combined in Hnone by done.
  destruct (compatible (_ ++ [v])) eqn:E; [|done].
  apply combined_None in Hnone. by destruct (contributions sms l k).
Qed.

(** The merge loop equals its reference definition. *)
Lemma merge_scopes_spec sms l acc :
  try_fold (merge_scope sms) ∅ l = Ok acc ↔ merged sms l acc.
Proof.
  split; [apply merge_scopes_merged|]. intros Hm.
  destruct (try_fold _ _ _) as [acc'|e] eqn:H.
  - apply merge_scopes_merged in H. f_equal. apply map_eq. intros k.
    destruct (H k) as [_ ->], (Hm k) as [_ ->]. done.
  - apply merge_scopes_conflict in H as [[k Hk] _]. destruct (Hm k). congruence.
Qed.

(** A merged claim comes from some requested scope that has a mapping. *)
Lemma merged_origin sms l acc k :
  merged sms l acc → is_Some (acc !! k) →
  ∃ s sm, s ∈ l ∧ sms !! s = Some sm ∧ is_Some (claims sm !! k).
Proof.
  intros Hm [v Hv]. destruct (Hm k) as [_ Ha]. rewrite Hv in Ha.
  destruct (contributions sms l k) as [|v1 vs] eqn:E; [done|].
  assert (v1 ∈ contributions sms l k) as H by (rewrite E; by left).
  apply list_elem_of_omap in H as (s & Hs & Hb). destruct (sms !! s) as [sm|] eqn:Hsm; [|done].
  cbn in Hb. exists s, sm. rewrite Hb. eauto.
Qed.

(** ** What validation accepts *)

Definition scope_name_ok (s : str) : Prop := is_empty s = false ∧ no_whitespace s.
Definition claims_ok (m : JsonMap) : Prop := ∀ k, is_reserved_claim k = true → m !! k = None.
Definition blank (s : str) : Prop := forallb is_whitespace (chars s) = true.
Definition scope_mapping_ok (m : ScopeMapping) : Prop := scope_name_ok (scope m) ∧ claims_ok (claims m).

Record mapping_ok (m : ResourceMapping) : Prop := {
  mapping_client_ok : ¬ blank (client_identifier m);
  mapping_context_ok : ¬ blank (participant_context m);
  mapping_scopes_ok : set_Forall scope_name_ok (scopes m);
  mapping_audiences_ok : set_Forall (λ a, ¬ blank a) (audiences m);
}.

Lemma is_reserved_claim_spec k : is_reserved_claim k = true ↔ k ∈ RESERVED_CLAIMS.
Proof. apply bool_decide_eq_true. Qed.

Lemma validate_scope_name_Ok s : validate_scope_name s = Ok tt ↔ scope_name_ok s.
Proof.
  unfold validate_scope_name, scope_name_ok, no_whitespace.
  rewrite <- existsb_false_Forall. destruct (is_empty s), (existsb _ _); cbn; naive_solver.
Qed.

Lemma validate_scope_claims_Ok m : validate_scope_claims m = Ok tt ↔ claims_ok m.
Proof.
  unfold validate_scope_claims, claims_ok. rewrite for_each_Ok, Forall_forall. split.
  - intros H k Hk. apply eq_None_not_Some. intros Hm%btree_iter_keys_elem.
    specialize (H k Hm). cbn in H. by rewrite Hk in H.
  - intros H k Hk%btree_iter_keys_elem. destruct (is_reserved_claim k) eqn:E; [|done].
    rewrite (H k E) in Hk. by destruct Hk.
Qed.

Lemma validate_scope_claims_Err m e :
  validate_scope_claims m = Err e →
  ∃ k, e = ReservedClaim k ∧ is_reserved_claim k = true ∧ is_Some (m !! k).
Proof.
  intros (k & Hk%btree_iter_keys_elem & H)%for_each_Err.
  destruct (is_reserved_claim k) eqn:E; simplify_eq. eauto.
Qed.

Lemma validate_scope_mapping_Ok m : validate_scope_mapping m = Ok tt ↔ scope_mapping_ok m.
Proof.
  unfold validate_scope_mapping, scope_mapping_ok.
  rewrite <- validate_scope_name_Ok, <- validate_scope_claims_Ok, result_bind_Ok.
  split; [by intros ([] & ? & ?)|intros [? ?]; by exists tt].
Qed.

Section validation.
Context `{HashOrder}.

Lemma hash_set_iter_elem (s : gset str) x : x ∈ hash_set_iter s ↔ x ∈ s.
Proof. by rewrite hash_set_iter_perm, elem_of_elements. Qed.

Lemma hash_map_iter_elem {K V : Type} `{Countable K} (m : gmap K V) k v :
  (k, v) ∈ hash_map_iter m ↔ m !! k = Some v.
Proof. by rewrite hash_map_iter_perm, elem_of_map_to_list. Qed.

Lemma trim_blank s : is_empty (trim s) = false ↔ ¬ blank s.
Proof. rewrite trim_empty. unfold blank. destruct (forallb _ _); naive_solver. Qed.

Lemma validate_resource_mapping_Ok m :
  validate_resource_mapping m = Ok tt ↔ mapping_ok m.
Proof.
  unfold validate_resource_mapping.
  destruct (is_empty (trim (client_identifier m))) eqn:E1.
  { split; [done|]. intros [H1%trim_blank]. congruence. }
  destruct (is_empty (trim (participant_context m))) eqn:E2.
  { split; [done|]. intros [_ H1%trim_blank]. congruence. }
  apply trim_blank in E1, E2. rewrite result_bind_Ok. split.
  - intros ([] & H1 & H2). apply for_each_Ok in H1. rewrite Forall_forall in H1.
    destruct (existsb _ _) eqn:E3; [done|]. apply existsb_false_Forall in E3.
    rewrite Forall_forall in E3. split; [done..| |].
    + intros x ?. by apply validate_scope_name_Ok, H1, hash_set_iter_elem.
    + intros x ?. by apply trim_blank, E3, hash_set_iter_elem.
  - intros [_ _ H1 H2]. exists tt. rewrite for_each_Ok, Forall_forall. split.
    + intros x ?%hash_set_iter_elem. by apply validate_scope_name_Ok, H1.
    + assert (existsb (λ a, is_empty (trim a)) (hash_set_iter (audiences m)) = false) as ->;
        [|done].
      apply existsb_false_Forall, Forall_forall.
      intros x ?%hash_set_iter_elem. by apply trim_blank, H2.
Qed.

Lemma validate_resource_mapping_Err m e :
  validate_resource_mapping m = Err e → ∃ msg, e = InvalidMapping msg.
Proof.
  unfold validate_resource_mapping.
  destruct (is_empty _); [intros [= <-]; eauto|].
  destruct (is_empty _); [intros [= <-]; eauto|].
  intros [(s & _ & Hs)%for_each_Err|([] & _ & Hs)]%result_bind_Err.
  - unfold validate_scope_name in Hs. destruct (_ || _); simplify_eq; eauto.
  - destruct (existsb _ _); simplify_eq; eauto.
Qed.
End validation.
