(* ===== verification/Policy.v ===== *)
(** * Policy: what a resource store promises

    The abstract state of a store is the authorization policy: the grants, keyed
    by client and participant context, and the claims of every scope.  The
    policy itself is a [ResourceStore], the specification store; an
    implementation refines it ([StoreContract]) when each of its operations
    simulates the operation of the specification store, or fails with a
    database error that leaves the policy either as it was or as the operation
    would have left it.  [MemStore] and [PgStore] discharge the contract; the
    theorems on [ResourceService] and on token exchange are proved against it. *)

From S2P Require Import Prelude Text Json Resource.

Record Grant : Set := { grant_scopes : gset str; grant_audiences : gset str }.

Record Policy : Set := {
  grants : gmap (str * str) Grant;
  scope_defs : gmap str JsonMap;
}.

Definition empty_policy : Policy := {| grants := ∅; scope_defs := ∅ |}.

Definition mapping_key (m : ResourceMapping) : str * str :=
  (client_identifier m, participant_context m).
Definition grant_of (m : ResourceMapping) : Grant :=
  {| grant_scopes := scopes m; grant_audiences := audiences m |}.
Definition mapping_of (key : str * str) (g : Grant) : ResourceMapping :=
  {| client_identifier := key.1; participant_context := key.2;
     scopes := grant_scopes g; audiences := grant_audiences g |}.

Lemma mapping_of_grant m : mapping_of (mapping_key m) (grant_of m) = m.
Proof. by destruct m. Qed.

(** The scope mappings that a grant can draw on. *)
Definition scope_table (g : Grant) (defs : gmap str JsonMap) : gmap str ScopeMapping :=
  map_imap (λ s m, if bool_decide (s ∈ grant_scopes g)
                   then Some {| scope := s; claims := m |} else None) defs.

Definition resolve (client context : str) (P : Policy) : option MappingPair :=
  (λ g, {| resource_mapping := mapping_of (client, context) g;
           scope_mappings := scope_table g (scope_defs P) |}) <$> grants P !! (client, context).

(** The first scope of a batch that is taken, by the store or by the batch itself. *)
Fixpoint first_conflict (taken : gset str) (ms : list ScopeMapping) : option str :=
  match ms with
  | [] => None
  | m :: ms =>
      if bool_decide (scope m ∈ taken) then Some (scope m)
      else first_conflict ({[scope m]} ∪ taken) ms
  end.

Definition insert_scopes (defs : gmap str JsonMap) (ms : list ScopeMapping) : gmap str JsonMap :=
  foldl (λ d m, <[scope m := claims m]> d) defs ms.

(** ** The specification store *)

Module Spec.
Definition resolve_mapping (c p : str) : eff Policy ResourceError (option MappingPair) :=
  λ P, (Ok (resolve c p P), P).

Definition save_mapping (m : ResourceMapping) : eff Policy ResourceError unit := λ P,
  match grants P !! mapping_key m with
  | Some _ => (Err (Conflict (client_identifier m)), P)
  | None => (Ok tt, {| grants := <[mapping_key m := grant_of m]> (grants P);
                       scope_defs := scope_defs P |})
  end.

Definition update_mapping (m : ResourceMapping) : eff Policy ResourceError unit := λ P,
  match grants P !! mapping_key m with
  | None => (Err (NotFound (client_identifier m)), P)
  | Some _ => (Ok tt, {| grants := <[mapping_key m := grant_of m]> (grants P);
                         scope_defs := scope_defs P |})
  end.

Definition remove_mapping (c p : str) : eff Policy ResourceError unit := λ P,
  (Ok tt, {| grants := delete (c, p) (grants P); scope_defs := scope_defs P |}).

Definition remove_mappings_for (c : str) : eff Policy ResourceError unit := λ P,
  (Ok tt, {| grants := filter (λ kg, kg.1.1 ≠ c) (grants P); scope_defs := scope_defs P |}).

Definition save_scope_mappings (ms : list ScopeMapping) : eff Policy ResourceError unit := λ P,
  match first_conflict (dom (scope_defs P)) ms with
  | Some s => (Err (Conflict s), P)
  | None => (Ok tt, {| grants := grants P; scope_defs := insert_scopes (scope_defs P) ms |})
  end.

Definition update_scope_mapping (m : ScopeMapping) : eff Policy ResourceError unit := λ P,
  match scope_defs P !! scope m with
  | None => (Err (NotFound (scope m)), P)
  | Some _ => (Ok tt, {| grants := grants P;
                         scope_defs := <[scope m := claims m]> (scope_defs P) |})
  end.

Definition remove_scope_mapping (s : str) : eff Policy ResourceError unit := λ P,
  (Ok tt, {| grants := grants P; scope_defs := delete s (scope_defs P) |}).

Definition list_mappings : eff Policy ResourceError (list ResourceMapping) := λ P,
  (Ok ((λ kg, mapping_of kg.1 kg.2) <$> map_to_list (grants P)), P).

Definition list_scope_mappings : eff Policy ResourceError (list ScopeMapping) := λ P,
  (Ok ((λ sm, {| scope := sm.1; claims := sm.2 |}) <$> map_to_list (scope_defs P)), P).
End Spec.

#[export] Instance policy_store : ResourceStore Policy := {|
  resolve_mapping := Spec.resolve_mapping;
  save_mapping := Spec.save_mapping;
  update_mapping := Spec.update_mapping;
  remove_mapping := Spec.remove_mapping;
  remove_mappings_for := Spec.remove_mappings_for;
  save_scope_mappings := Spec.save_scope_mappings;
  update_scope_mapping := Spec.update_scope_mapping;
  remove_scope_mapping := Spec.remove_scope_mapping;
  list_mappings := Spec.list_mappings;
  list_scope_mappings := Spec.list_scope_mappings;
|}.

(** ** The contract *)

Inductive result_rel {E A : Type} (R : A → A → Prop) : result E A → result E A → Prop :=
  | rel_ok a b : R a b → result_rel R (Ok a) (Ok b)
  | rel_err e : result_rel R (Err e) (Err e).

#[export] Instance result_rel_equivalence {E A : Type} (R : A → A → Prop) :
  Equivalence R → Equivalence (result_rel (E := E) R).
Proof.
  intros HR. split.
  - intros [a|e]; by constructor.
  - intros _ _ []; by constructor.
  - intros r1 r2 r3 []; [|done]. inversion 1; subst. constructor. by etrans.
Qed.

(** [m] simulates [spec] through [view], from every state that satisfies [inv].
    A database error is allowed when [may_fail] holds. *)
Definition refines {W A : Type} (inv : W → Prop) (view : W → Policy) (may_fail : Prop)
    (R : A → A → Prop) (spec : eff Policy ResourceError A) (m : eff W ResourceError A) : Prop :=
  ∀ w r w', inv w → m w = (r, w') → inv w' ∧
    ((∃ r0, spec (view w) = (r0, view w') ∧ result_rel R r0 r) ∨
     (may_fail ∧ (∃ msg, r = Err (DatabaseError msg)) ∧
      (view w' = view w ∨ view w' = (spec (view w)).2))).

Class StoreContract (W : Type) `{ResourceStore W} : Type := {
  store_inv : W → Prop;
  view : W → Policy;
  may_fail : Prop;
  resolve_mapping_refines c p :
    refines store_inv view may_fail eq (Spec.resolve_mapping c p) (resolve_mapping c p);
  save_mapping_refines m :
    refines store_inv view may_fail eq (Spec.save_mapping m) (save_mapping m);
  update_mapping_refines m :
    refines store_inv view may_fail eq (Spec.update_mapping m) (update_mapping m);
  remove_mapping_refines c p :
    refines store_inv view may_fail eq (Spec.remove_mapping c p) (remove_mapping c p);
  remove_mappings_for_refines c :
    refines store_inv view may_fail eq (Spec.remove_mappings_for c) (remove_mappings_for c);
  save_scope_mappings_refines ms :
    refines store_inv view may_fail eq (Spec.save_scope_mappings ms) (save_scope_mappings ms);
  update_scope_mapping_refines m :
    refines store_inv view may_fail eq (Spec.update_scope_mapping m) (update_scope_mapping m);
  remove_scope_mapping_refines s :
    refines store_inv view may_fail eq (Spec.remove_scope_mapping s) (remove_scope_mapping s);
  list_mappings_refines :
    refines store_inv view may_fail Permutation Spec.list_mappings list_mappings;
  list_scope_mappings_refines :
    refines store_inv view may_fail Permutation Spec.list_scope_mappings list_scope_mappings;
}.

(** ** Refinement, compositionally *)

Section refinement.
Context {W : Type} {inv : W → Prop} {view : W → Policy} {fails : Prop}.

Lemma refines_view {A : Type} (R : A → A → Prop) spec m w r w' :
  refines inv view fails R spec m → inv w → m w = (r, w') →
  inv w' ∧ (view w' = view w ∨ view w' = (spec (view w)).2).
Proof.
  intros Href Hinv Hm. destruct (Href _ _ _ Hinv Hm) as [? [(r0 & Hs & _)|(_ & _ & ?)]];
    split; auto. rewrite Hs. auto.
Qed.

Lemma refines_success {A : Type} spec (m : eff W ResourceError A) w a w' :
  refines inv view fails eq spec m → inv w → m w = (Ok a, w') →
  inv w' ∧ spec (view w) = (Ok a, view w').
Proof.
  intros Href Hinv Hm. destruct (Href _ _ _ Hinv Hm) as [? [(r0 & Hs & Hr)|(_ & [? ?] & _)]];
    [|done]. split; [done|]. inversion Hr; by simplify_eq.
Qed.

(** A validation before the store is called. *)
Lemma refines_lift {A B : Type} (R : B → B → Prop) (r : result ResourceError A) spec m :
  (∀ a, r = Ok a → refines inv view fails R (spec a) (m a)) →
  refines inv view fails R (lift r ≫= spec) (lift r ≫= m).
Proof.
  intros Href w r' w' Hinv. rewrite lift_bind. destruct r as [a|e]; [by apply Href|].
  intros [= <- <-]. split; [done|]. left. exists (Err e). split; [done|constructor].
Qed.

(** A computation on the answer that leaves the store alone. *)
Lemma refines_bind_pure {A B : Type} (R : A → A → Prop) (R' : B → B → Prop)
    (f : A → result ResourceError B) spec m ks km :
  (∀ a P, ks a P = (f a, P)) → (∀ a w, km a w = (f a, w)) →
  (∀ a b, R a b → result_rel R' (f a) (f b)) →
  refines inv view fails R spec m → refines inv view fails R' (spec ≫= ks) (m ≫= km).
Proof.
  intros Hks Hkm Hf Href w r w' Hinv. unfold mbind, eff_bind.
  destruct (m w) as [r1 w1] eqn:Hm. destruct (Href _ _ _ Hinv Hm) as [Hinv' Hcase]. intros Hr.
  assert (w' = w1) as -> by (destruct r1; [rewrite Hkm in Hr|]; by simplify_eq).
  split; [done|]. destruct Hcase as [(r0 & Hs & Hrel)|(? & [msg ->] & Hv)].
  - left. rewrite Hs. inversion Hrel; subst.
    + rewrite Hkm in Hr. rewrite Hks. simplify_eq. eauto.
    + simplify_eq. eexists. split; [done|constructor].
  - right. simplify_eq. split_and!; [done|eauto|].
    destruct (spec (view w)) as [[a|e] P] eqn:Hs; cbn in *; by rewrite ?Hks.
Qed.
End refinement.
