(* ===== verification/MemStore.v ===== *)
(** * MemStore: the in-memory resource store

    Models [crates/jwtlet-core/src/resource/mem.rs].  Every operation takes the
    [RwLock] once and holds it to the end, so an operation is one atomic state
    transition on [InnerStore]. *)

From S2P Require Import Prelude Text Json Resource Policy.

Record InnerStore : Set := {
  entries : gmap (str * str) ResourceMapping;
  scope_entries : gmap str ScopeMapping;
}.

Module MemoryResourceStore.

Definition new : InnerStore := {| entries := ∅; scope_entries := ∅ |}.

Definition set_entries (e : gmap (str * str) ResourceMapping) (s : InnerStore) : InnerStore :=
  {| entries := e; scope_entries := scope_entries s |}.
Definition set_scopes (e : gmap str ScopeMapping) (s : InnerStore) : InnerStore :=
  {| entries := entries s; scope_entries := e |}.

Section store.
Context `{HashOrder}.
Implicit Types store : InnerStore.

(** [filter_map] over the scopes of the mapping, collected into a [HashMap]. *)
Definition resolve_mapping (client_identifier participant_context : str) :
    eff InnerStore ResourceError (option MappingPair) := λ store,
  match entries store !! (client_identifier, participant_context) with
  | None => (Ok None, store)
  | Some rm =>
      let found := omap (λ s, (s,.) <$> scope_entries store !! s) (hash_set_iter (scopes rm)) in
      (Ok (Some {| resource_mapping := rm; scope_mappings := list_to_map found |}), store)
  end.

Definition save_mapping (mapping : ResourceMapping) : eff InnerStore ResourceError unit := λ store,
  let key := (client_identifier mapping, participant_context mapping) in
  match entries store !! key with
  | Some _ => (Err (Conflict (client_identifier mapping)), store)
  | None => (Ok tt, set_entries (<[key := mapping]> (entries store)) store)
  end.

Definition update_mapping (mapping : ResourceMapping) : eff InnerStore ResourceError unit := λ store,
  let key := (client_identifier mapping, participant_context mapping) in
  match entries store !! key with
  | None => (Err (NotFound (client_identifier mapping)), store)
  | Some _ => (Ok tt, set_entries (<[key := mapping]> (entries store)) store)
  end.

Definition remove_mapping (client_identifier participant_context : str) :
    eff InnerStore ResourceError unit := λ store,
  (Ok tt, set_entries (delete (client_identifier, participant_context) (entries store)) store).

Definition remove_mappings_for (client_identifier : str) :
    eff InnerStore ResourceError unit := λ store,
  (Ok tt, set_entries (filter (λ km, km.1.1 ≠ client_identifier) (entries store)) store).

(** The checking loop: [seen] is the set of scopes of the batch so far. *)
Fixpoint check_batch (store : InnerStore) (seen : gset str) (ms : list ScopeMapping) :
    result ResourceError unit :=
  match ms with
  | [] => Ok tt
  | m :: ms =>
      if bool_decide (is_Some (scope_entries store !! scope m)) || bool_decide (scope m ∈ seen)
      then Err (Conflict (scope m))
      else check_batch store ({[scope m]} ∪ seen) ms
  end.

Definition save_scope_mappings (mappings : list ScopeMapping) :
    eff InnerStore ResourceError unit := λ store,
  match check_batch store ∅ mappings with
  | Err e => (Err e, store)
  | Ok _ =>
      (Ok tt, set_scopes (foldl (λ d m, <[scope m := m]> d) (scope_entries store) mappings) store)
  end.

Definition update_scope_mapping (mapping : ScopeMapping) :
    eff InnerStore ResourceError unit := λ store,
  match scope_entries store !! scope mapping with
  | None => (Err (NotFound (scope mapping)), store)
  | Some _ => (Ok tt, set_scopes (<[scope mapping := mapping]> (scope_entries store)) store)
  end.

Definition remove_scope_mapping (s : str) : eff InnerStore ResourceError unit := λ store,
  (Ok tt, set_scopes (delete s (scope_entries store)) store).

Definition list_mappings : eff InnerStore ResourceError (list ResourceMapping) := λ store,
  (Ok (hash_map_iter (entries store)).*2, store).

Definition list_scope_mappings : eff InnerStore ResourceError (list ScopeMapping) := λ store,
  (Ok (hash_map_iter (scope_entries store)).*2, store).

#[export] Instance mem_store : ResourceStore InnerStore := {|
  Resource.resolve_mapping := resolve_mapping;
  Resource.save_mapping := save_mapping;
  Resource.update_mapping := update_mapping;
  Resource.remove_mapping := remove_mapping;
  Resource.remove_mappings_for := remove_mappings_for;
  Resource.save_scope_mappings := save_scope_mappings;
  Resource.update_scope_mapping := update_scope_mapping;
  Resource.remove_scope_mapping := remove_scope_mapping;
  Resource.list_mappings := list_mappings;
  Resource.list_scope_mappings := list_scope_mappings;
|}.
End store.
End MemoryResourceStore.
Export (hints) MemoryResourceStore.

(** ** The policy a store represents *)

Definition mem_view (s : InnerStore) : Policy :=
  {| grants := grant_of <$> entries s; scope_defs := claims <$> scope_entries s |}.

(** Every entry is filed under its own key. *)
Record mem_inv (s : InnerStore) : Prop := {
  mem_entries_keyed : map_Forall (λ k m, mapping_key m = k) (entries s);
  mem_scopes_keyed : map_Forall (λ k m, scope m = k) (scope_entries s);
}.

Lemma mem_new_inv : mem_inv MemoryResourceStore.new.
Proof. split; apply map_Forall_empty. Qed.

Lemma mem_new_view : mem_view MemoryResourceStore.new = empty_policy.
Proof. unfold mem_view. cbn. by rewrite !fmap_empty. Qed.

Lemma scope_mapping_eta s m : scope m = s → {| scope := s; claims := claims m |} = m.
Proof. destruct m; cbn. congruence. Qed.

Section mem_lemmas.
Context `{HashOrder}.
Implicit Types s : InnerStore.

Lemma mem_inv_set_entries s e :
  mem_inv s → map_Forall (λ k m, mapping_key m = k) e →
  mem_inv (MemoryResourceStore.set_entries e s).
Proof. by intros [_ ?] ?; split. Qed.

Lemma mem_inv_set_scopes s e :
  mem_inv s → map_Forall (λ k m, scope m = k) e →
  mem_inv (MemoryResourceStore.set_scopes e s).
Proof. by intros [? _] ?; split. Qed.

(** The collected scope mappings are the grant's scopes that have a mapping. *)
Lemma mem_scope_table s rm :
  mem_inv s →
  (list_to_map (omap (λ x, (x,.) <$> scope_entries s !! x) (hash_set_iter (scopes rm)))
    : gmap str ScopeMapping) = scope_table (grant_of rm) (claims <$> scope_entries s).
Proof.
  intros [_ Hs]. apply map_eq. intros k. unfold scope_table.
  rewrite map_lookup_imap, lookup_fmap. apply option_eq. intros sm.
  rewrite <- elem_of_list_to_map.
  2: { assert (NoDup (hash_set_iter (scopes rm))) as Hnd.
       { rewrite hash_set_iter_perm. apply NoDup_elements. }
       induction Hnd as [|x l Hx Hnd IH]; cbn; [constructor|].
       destruct (scope_entries s !! x); cbn; [|done]. constructor; [|done].
       intros (y & -> & Hy)%list_elem_of_fmap. apply list_elem_of_omap in Hy as (z & Hz & Hy).
       destruct (scope_entries s !! z); cbn in Hy; by simplify_eq. }
  rewrite list_elem_of_omap. setoid_rewrite hash_set_iter_elem. split.
  - intros (x & Hx & Hf). destruct (scope_entries s !! x) as [m|] eqn:E; cbn in Hf; [|done].
    simplify_eq. rewrite E. cbn. rewrite bool_decide_eq_true_2 by done.
    f_equal. apply scope_mapping_eta. by apply (Hs k).
  - destruct (scope_entries s !! k) as [m|] eqn:E; cbn; [|done].
    case_bool_decide as Hk; [|done]. intros [= <-]. exists k. rewrite E. cbn.
    split; [done|]. do 2 f_equal. symmetry. apply scope_mapping_eta. by apply (Hs k).
Qed.

(** The loop of the batch insert finds the same first conflict as the specification. *)
Lemma check_batch_spec s seen ms :
  MemoryResourceStore.check_batch s seen ms =
    match first_conflict (dom (scope_entries s) ∪ seen) ms with
    | Some x => Err (Conflict x)
    | None => Ok tt
    end.
Proof.
  revert seen. induction ms as [|m ms IH]; intros seen; cbn; [done|].
  rewrite <- bool_decide_or.
  rewrite (bool_decide_ext (scope m ∈ dom (scope_entries s) ∪ seen)
    (is_Some (scope_entries s !! scope m) ∨ scope m ∈ seen))
    by (by rewrite elem_of_union, elem_of_dom).
  case_bool_decide; [done|]. rewrite IH.
  by replace (dom (scope_entries s) ∪ ({[scope m]} ∪ seen))
    with ({[scope m]} ∪ (dom (scope_entries s) ∪ seen)) by set_solver.
Qed.

Lemma insert_batch_view (d : gmap str ScopeMapping) ms :
  claims <$> foldl (λ d m, <[scope m := m]> d) d ms = insert_scopes (claims <$> d) ms.
Proof.
  unfold insert_scopes. revert d. induction ms as [|m ms IH]; intros d; cbn; [done|].
  by rewrite IH, fmap_insert.
Qed.

Lemma insert_batch_keyed (d : gmap str ScopeMapping) ms :
  map_Forall (λ k m, scope m = k) d →
  map_Forall (λ k m, scope m = k) (foldl (λ d m, <[scope m := m]> d) d ms).
Proof.
  revert d. induction ms as [|m ms IH]; intros d Hd; cbn; [done|].
  apply IH. by apply map_Forall_insert_2.
Qed.
End mem_lemmas.

(** ** The contract *)

Section mem_contract.
Context `{HashOrder}.

Lemma mem_resolve_refines c p :
  refines mem_inv mem_view False eq (Spec.resolve_mapping c p)
    (MemoryResourceStore.resolve_mapping c p).
Proof.
  intros w r w' Hinv Hm. unfold MemoryResourceStore.resolve_mapping in Hm.
  unfold Spec.resolve_mapping, resolve. cbn. rewrite lookup_fmap.
  destruct (entries w !! (c, p)) as [rm|] eqn:E; simplify_eq; (split; [done|]); left; cbn.
  - eexists; split; [done|]. constructor. do 2 f_equal; [|symmetry; by apply mem_scope_table].
    apply (mem_entries_keyed _ Hinv) in E. cbn in E. rewrite <- E. apply mapping_of_grant.
  - eexists; split; [done|]. by constructor.
Qed.

Lemma mem_save_refines m :
  refines mem_inv mem_view False eq (Spec.save_mapping m) (MemoryResourceStore.save_mapping m).
Proof.
  intros w r w' Hinv Hm. unfold MemoryResourceStore.save_mapping in Hm.
  unfold Spec.save_mapping. cbn. rewrite lookup_fmap. unfold mapping_key.
  destruct (entries w !! _) as [rm|] eqn:E; simplify_eq; cbn; split; auto.
  - left. eexists; split; [done|]. constructor.
  - apply mem_inv_set_entries; [done|]. apply map_Forall_insert_2; [done|]. apply Hinv.
  - left. eexists; split; [unfold mem_view; cbn; by rewrite fmap_insert|]. by constructor.
Qed.

Lemma mem_update_refines m :
  refines mem_inv mem_view False eq (Spec.update_mapping m)
    (MemoryResourceStore.update_mapping m).
Proof.
  intros w r w' Hinv Hm. unfold MemoryResourceStore.update_mapping in Hm.
  unfold Spec.update_mapping. cbn. rewrite lookup_fmap. unfold mapping_key.
  destruct (entries w !! _) as [rm|] eqn:E; simplify_eq; cbn; split; auto.
  - apply mem_inv_set_entries; [done|]. apply map_Forall_insert_2; [done|]. apply Hinv.
  - left. eexists; split; [unfold mem_view; cbn; by rewrite fmap_insert|]. by constructor.
  - left. eexists; split; [done|]. constructor.
Qed.

Lemma mem_remove_refines c p :
  refines mem_inv mem_view False eq (Spec.remove_mapping c p)
    (MemoryResourceStore.remove_mapping c p).
Proof.
  intros w r w' Hinv [= <- <-]. split.
  - apply mem_inv_set_entries; [done|]. apply map_Forall_delete, Hinv.
  - left. eexists; split; [|by constructor].
    unfold Spec.remove_mapping, mem_view; cbn. by rewrite fmap_delete.
Qed.

Lemma mem_remove_for_refines c :
  refines mem_inv mem_view False eq (Spec.remove_mappings_for c)
    (MemoryResourceStore.remove_mappings_for c).
Proof.
  intros w r w' Hinv [= <- <-]. split.
  - apply mem_inv_set_entries; [done|]. intros k m [Hk _]%map_lookup_filter_Some.
    by apply (mem_entries_keyed _ Hinv).
  - left. eexists; split; [|by constructor].
    unfold Spec.remove_mappings_for, mem_view; cbn. by rewrite map_filter_fmap.
Qed.

Lemma mem_save_scopes_refines ms :
  refines mem_inv mem_view False eq (Spec.save_scope_mappings ms)
    (MemoryResourceStore.save_scope_mappings ms).
Proof.
  intros w r w' Hinv Hm. unfold MemoryResourceStore.save_scope_mappings in Hm.
  rewrite check_batch_spec, union_empty_r_L in Hm.
  unfold Spec.save_scope_mappings. cbn. rewrite dom_fmap_L.
  destruct (first_conflict _ _); simplify_eq; split; auto.
  - left. eexists; split; [done|]. constructor.
  - apply mem_inv_set_scopes; [done|]. apply insert_batch_keyed, Hinv.
  - left. eexists; split; [unfold mem_view; cbn; by rewrite insert_batch_view|]. by constructor.
Qed.

Lemma mem_update_scope_refines m :
  refines mem_inv mem_view False eq (Spec.update_scope_mapping m)
    (MemoryResourceStore.update_scope_mapping m).
Proof.
  intros w r w' Hinv Hm. unfold MemoryResourceStore.update_scope_mapping in Hm.
  unfold Spec.update_scope_mapping. cbn. rewrite lookup_fmap.
  destruct (scope_entries w !! _) as [sm|] eqn:E; simplify_eq; cbn; split; auto.
  - apply mem_inv_set_scopes; [done|]. apply map_Forall_insert_2; [done|]. apply Hinv.
  - left. eexists; split; [unfold mem_view; cbn; by rewrite fmap_insert|]. by constructor.
  - left. eexists; split; [done|]. constructor.
Qed.

Lemma mem_remove_scope_refines s :
  refines mem_inv mem_view False eq (Spec.remove_scope_mapping s)
    (MemoryResourceStore.remove_scope_mapping s).
Proof.
  intros w r w' Hinv [= <- <-]. split.
  - apply mem_inv_set_scopes; [done|]. apply map_Forall_delete, Hinv.
  - left. eexists; split; [|by constructor].
    unfold Spec.remove_scope_mapping, mem_view; cbn. by rewrite fmap_delete.
Qed.

Lemma mem_list_refines :
  refines mem_inv mem_view False Permutation Spec.list_mappings
    MemoryResourceStore.list_mappings.
Proof.
  intros w r w' Hinv [= <- <-]. split; [done|]. left.
  eexists; split; [done|]. constructor. cbn.
  rewrite hash_map_iter_perm, map_to_list_fmap, <- list_fmap_compose.
  apply reflexive_eq, list_fmap_ext. intros i [k m] Hk%list_elem_of_lookup_2.
  apply elem_of_map_to_list, (mem_entries_keyed _ Hinv) in Hk. cbn in *. subst.
  apply mapping_of_grant.
Qed.

Lemma mem_list_scopes_refines :
  refines mem_inv mem_view False Permutation Spec.list_scope_mappings
    MemoryResourceStore.list_scope_mappings.
Proof.
  intros w r w' Hinv [= <- <-]. split; [done|]. left.
  eexists; split; [done|]. constructor. cbn.
  rewrite hash_map_iter_perm, map_to_list_fmap, <- list_fmap_compose.
  apply reflexive_eq, list_fmap_ext. intros i [k m] Hk%list_elem_of_lookup_2.
  apply elem_of_map_to_list, (mem_scopes_keyed _ Hinv) in Hk. cbn in *.
  by apply scope_mapping_eta.
Qed.

#[export] Instance mem_contract : StoreContract InnerStore := {|
  store_inv := mem_inv;
  view := mem_view;
  may_fail := False;
  resolve_mapping_refines := mem_resolve_refines;
  save_mapping_refines := mem_save_refines;
  update_mapping_refines := mem_update_refines;
  remove_mapping_refines := mem_remove_refines;
  remove_mappings_for_refines := mem_remove_for_refines;
  save_scope_mappings_refines := mem_save_scopes_refines;
  update_scope_mapping_refines := mem_update_scope_refines;
  remove_scope_mapping_refines := mem_remove_scope_refines;
  list_mappings_refines := mem_list_refines;
  list_scope_mappings_refines := mem_list_scopes_refines;
|}.
End mem_contract.
