(* ===== verification/PgStore.v ===== *)
(** * PgStore: the Postgres resource store

    Models [crates/jwtlet-postgres/src/resource_store.rs]: the SQL statements with
    the values bound to them, the conversion of rows and errors, and every operation
    of the store.  The database and the [sqlx] driver are outside the repository:
    [Pg] is their interface, and [PgLaws] states what the statements do to the two
    tables.  A statement may fail at any time; unless it reports a unique violation
    it may then have been carried out or not. *)

From S2P Require Import Prelude Text Json Resource Policy.

(** ** The driver *)

(** [sqlx::Error]: a database error with its SQLSTATE, or any other error. *)
Inductive SqlxError : Set :=
  | Database (code : option str) (display : str)
  | OtherError (display : str).

Definition to_string (e : SqlxError) : str :=
  match e with Database _ d => d | OtherError d => d end.

(** The values that the program binds to parameters. *)
Inductive Bind : Set :=
  | BText (s : str)
  | BTextArray (l : list str)
  | BJson (v : Value).

Record ResourceMappingRow : Set := {
  row_client_identifier : str;
  row_participant_context : str;
  row_scopes : list str;
  row_audiences : list str;
}.

Record ScopeMappingRow : Set := { row_scope : str; row_claims : Value }.

(** The pool and its transactions. A transaction that goes out of scope without a
    commit is rolled back. *)
Class Pg (D : Type) : Type := {
  Tx : Type;
  execute : str → list Bind → eff D SqlxError N;
  fetch_optional_mapping : str → list Bind → eff D SqlxError (option ResourceMappingRow);
  fetch_all_mappings : str → list Bind → eff D SqlxError (list ResourceMappingRow);
  fetch_all_scopes : str → list Bind → eff D SqlxError (list ScopeMappingRow);
  begin : eff D SqlxError Tx;
  tx_execute : str → list Bind → eff (Tx * D) SqlxError N;
  commit : Tx → eff D SqlxError unit;
  rollback : Tx → D → D;
}.

(** ** Statements *)

Definition CREATE_RESOURCE_MAPPINGS : str := "
    CREATE TABLE IF NOT EXISTS resource_mappings (
        client_identifier TEXT NOT NULL,
        participant_context TEXT NOT NULL,
        scopes TEXT[] NOT NULL DEFAULT '{}',
        audiences TEXT[] NOT NULL DEFAULT '{}',
        PRIMARY KEY (client_identifier, participant_context)
    )"%s.

Definition CREATE_RESOURCE_MAPPINGS_INDEX : str := "
    CREATE INDEX IF NOT EXISTS idx_resource_mappings_client
    ON resource_mappings (client_identifier)"%s.

Definition CREATE_SCOPE_MAPPINGS : str := "
    CREATE TABLE IF NOT EXISTS scope_mappings (
        scope TEXT PRIMARY KEY,
        claims JSONB NOT NULL DEFAULT '{}'
    )"%s.

Definition SELECT_MAPPING : str :=
  "SELECT client_identifier, participant_context, scopes, audiences
             FROM resource_mappings
             WHERE client_identifier = $1 AND participant_context = $2"%s.
Definition SELECT_SCOPES_ANY : str := "SELECT scope, claims FROM scope_mappings WHERE scope = ANY($1)"%s.
Definition INSERT_MAPPING : str :=
  "INSERT INTO resource_mappings (client_identifier, participant_context, scopes, audiences)
             VALUES ($1, $2, $3, $4)"%s.
Definition UPDATE_MAPPING : str :=
  "UPDATE resource_mappings SET scopes = $3, audiences = $4
             WHERE client_identifier = $1 AND participant_context = $2"%s.
Definition DELETE_MAPPING : str :=
  "DELETE FROM resource_mappings WHERE client_identifier = $1 AND participant_context = $2"%s.
Definition DELETE_MAPPINGS_FOR : str := "DELETE FROM resource_mappings WHERE client_identifier = $1"%s.
Definition INSERT_SCOPE : str := "INSERT INTO scope_mappings (scope, claims) VALUES ($1, $2)"%s.
Definition UPDATE_SCOPE : str := "UPDATE scope_mappings SET claims = $2 WHERE scope = $1"%s.
Definition DELETE_SCOPE : str := "DELETE FROM scope_mappings WHERE scope = $1"%s.
Definition SELECT_MAPPINGS : str :=
  "SELECT client_identifier, participant_context, scopes, audiences FROM resource_mappings"%s.
Definition SELECT_SCOPES : str := "SELECT scope, claims FROM scope_mappings"%s.

(** ** The store *)

Definition row_to_resource_mapping (row : ResourceMappingRow) : ResourceMapping :=
  {| client_identifier := row_client_identifier row;
     participant_context := row_participant_context row;
     scopes := list_to_set (row_scopes row);
     audiences := list_to_set (row_audiences row) |}.

Definition claims_of_json (v : Value) : JsonMap :=
  match v with Value.Object m => m | _ => ∅ end.

Definition row_to_scope_mapping (row : ScopeMappingRow) : ScopeMapping :=
  {| scope := row_scope row; claims := claims_of_json (row_claims row) |}.

Definition db_error (e : SqlxError) : ResourceError := DatabaseError (to_string e).

Definition is_unique_violation (e : SqlxError) : bool :=
  match e with
  | Database (Some code) _ => bool_decide (code = "23505"%s)
  | _ => false
  end.

Module PostgresResourceStore.
Section store.
Context {D : Type} `{Pg D} `{HashOrder}.

(** A block that runs in one transaction: begun, committed at the end, rolled back
    when the block leaves early. *)
Definition transaction (body : eff (Tx * D) ResourceError unit) : eff D ResourceError unit := λ d,
  match begin d with
  | (Err e, d1) => (Err (db_error e), d1)
  | (Ok tx, d1) =>
      match body (tx, d1) with
      | (Err e, (tx', d2)) => (Err e, rollback tx' d2)
      | (Ok _, (tx', d2)) => eff_map_err db_error (commit tx') d2
      end
  end.

Definition initialize : eff D ResourceError unit :=
  transaction
    (_ ← eff_map_err db_error (tx_execute CREATE_RESOURCE_MAPPINGS []);
     _ ← eff_map_err db_error (tx_execute CREATE_RESOURCE_MAPPINGS_INDEX []);
     _ ← eff_map_err db_error (tx_execute CREATE_SCOPE_MAPPINGS []);
     mret tt).

(** The second query of [resolve_mapping] and the assembly of its answer. *)
Definition resolve_scopes (rm : ResourceMapping) : eff D ResourceError (option MappingPair) :=
  rows ← eff_map_err db_error
    (fetch_all_scopes SELECT_SCOPES_ANY [BTextArray (hash_set_iter (scopes rm))]);
  mret (Some {| resource_mapping := rm;
                scope_mappings := foldl (λ m r, <[row_scope r := row_to_scope_mapping r]> m) ∅ rows |}).

Definition resolve_mapping (client_identifier participant_context : str) :
    eff D ResourceError (option MappingPair) :=
  row ← eff_map_err db_error
    (fetch_optional_mapping SELECT_MAPPING [BText client_identifier; BText participant_context]);
  match row with
  | None => mret None
  | Some row => resolve_scopes (row_to_resource_mapping row)
  end.

(** The error conversion of the two inserts. *)
Definition insert_error (name : str) (e : SqlxError) : ResourceError :=
  if is_unique_violation e then Conflict name else db_error e.

Definition save_mapping (mapping : ResourceMapping) : eff D ResourceError unit :=
  _ ← eff_map_err (insert_error (client_identifier mapping))
    (execute INSERT_MAPPING
       [BText (client_identifier mapping); BText (participant_context mapping);
        BTextArray (hash_set_iter (scopes mapping)); BTextArray (hash_set_iter (audiences mapping))]);
  mret tt.

Definition update_mapping (mapping : ResourceMapping) : eff D ResourceError unit :=
  rows_affected ← eff_map_err db_error
    (execute UPDATE_MAPPING
       [BText (client_identifier mapping); BText (participant_context mapping);
        BTextArray (hash_set_iter (scopes mapping)); BTextArray (hash_set_iter (audiences mapping))]);
  if N.eqb rows_affected 0 then lift (Err (NotFound (client_identifier mapping))) else mret tt.

Definition remove_mapping (client_identifier participant_context : str) : eff D ResourceError unit :=
  _ ← eff_map_err db_error
    (execute DELETE_MAPPING [BText client_identifier; BText participant_context]);
  mret tt.

Definition remove_mappings_for (client_identifier : str) : eff D ResourceError unit :=
  _ ← eff_map_err db_error (execute DELETE_MAPPINGS_FOR [BText client_identifier]);
  mret tt.

Definition insert_scope (mapping : ScopeMapping) : eff (Tx * D) ResourceError unit :=
  _ ← eff_map_err (insert_error (scope mapping))
    (tx_execute INSERT_SCOPE [BText (scope mapping); BJson (Value.Object (claims mapping))]);
  mret tt.

Definition save_scope_mappings (mappings : list ScopeMapping) : eff D ResourceError unit :=
  transaction (eff_for_each insert_scope mappings).

Definition update_scope_mapping (mapping : ScopeMapping) : eff D ResourceError unit :=
  rows_affected ← eff_map_err db_error
    (execute UPDATE_SCOPE [BText (scope mapping); BJson (Value.Object (claims mapping))]);
  if N.eqb rows_affected 0 then lift (Err (NotFound (scope mapping))) else mret tt.

Definition remove_scope_mapping (s : str) : eff D ResourceError unit :=
  _ ← eff_map_err db_error (execute DELETE_SCOPE [BText s]);
  mret tt.

Definition list_mappings : eff D ResourceError (list ResourceMapping) :=
  rows ← eff_map_err db_error (fetch_all_mappings SELECT_MAPPINGS []);
  mret (row_to_resource_mapping <$> rows).

Definition list_scope_mappings : eff D ResourceError (list ScopeMapping) :=
  rows ← eff_map_err db_error (fetch_all_scopes SELECT_SCOPES []);
  mret (row_to_scope_mapping <$> rows).

#[export] Instance pg_store : ResourceStore D := {|
  Resource.resolve_mapping := resolve_mapping;
  Resource.save_mapping := save_mapping;
  Resource.update_mapping := update_mapping;
  Resource.remove_mapping := remove_mapping;
  Resource.remove_mappings_for := remove_mappings_for;
  Resource.save_scope_mappings := save_scope_mappings;
  Resource.update_scope_mapping := update_scope_mapping;
  Resource.remove_scope_mapping := remove_scope_mapping;
  Resource.list_mappings := list_mappings;
  Resource.list_scope_mappings := list_scope_mappings;
|}.
End store.
End PostgresResourceStore.
Export (hints) PostgresResourceStore.

(** ** What the database does

    The committed contents of the two tables, keyed by their primary keys. *)

Record Tables : Set := {
  mapping_rows : gmap (str * str) (list str * list str);
  scope_rows : gmap str Value;
}.

Definition set_mapping_rows (f : gmap (str * str) (list str * list str) → gmap (str * str) (list str * list str))
    (t : Tables) : Tables := {| mapping_rows := f (mapping_rows t); scope_rows := scope_rows t |}.
Definition set_scope_rows (f : gmap str Value → gmap str Value) (t : Tables) : Tables :=
  {| mapping_rows := mapping_rows t; scope_rows := f (scope_rows t) |}.

Definition mapping_row (key : str * str) (row : list str * list str) : ResourceMappingRow :=
  {| row_client_identifier := key.1; row_participant_context := key.2;
     row_scopes := row.1; row_audiences := row.2 |}.
Definition scope_row (kv : str * Value) : ScopeMappingRow :=
  {| row_scope := kv.1; row_claims := kv.2 |}.

(** A query: it changes nothing, and its answer satisfies [ans]. *)
Definition answers {S A : Type} (tabs : S → Tables) (m : eff S SqlxError A)
    (ans : Tables → A → Prop) : Prop :=
  ∀ s r s', m s = (r, s') → tabs s' = tabs s ∧
    match r with Ok a => ans (tabs s) a | Err e => is_unique_violation e = false end.

(** A statement: it reports a unique violation and does nothing when [taken] holds;
    otherwise it answers [n] and does [f], or it fails after doing [f] or nothing. *)
Definition performs {S : Type} (tabs : S → Tables) (m : eff S SqlxError N)
    (taken : Tables → bool) (n : Tables → N) (f : Tables → Tables) : Prop :=
  ∀ s r s', m s = (r, s') →
    match r with
    | Ok a => taken (tabs s) = false ∧ a = n (tabs s) ∧ tabs s' = f (tabs s)
    | Err e =>
        if is_unique_violation e then taken (tabs s) = true ∧ tabs s' = tabs s
        else tabs s' = tabs s ∨ (taken (tabs s) = false ∧ tabs s' = f (tabs s))
    end.

Definition never (t : Tables) : bool := false.
Definition has_mapping (key : str * str) (t : Tables) : bool :=
  bool_decide (is_Some (mapping_rows t !! key)).
Definition has_scope (s : str) (t : Tables) : bool := bool_decide (is_Some (scope_rows t !! s)).
Definition count (b : bool) : N := if b then 1%N else 0%N.

(** The documented behaviour of PostgreSQL for the statements of the program: the
    primary keys are enforced with SQLSTATE 23505, an UPDATE reports the rows it
    matched, a transaction works on its own view of the tables and publishes it when
    it commits, and a JSON document is read back as it was bound.  (Of the last,
    PostgreSQL may change the spelling of a number: JSONB gives a float written with
    an exponent back in full, and it is then read as an integer.) *)
Class PgLaws (D : Type) `{Pg D} : Type := {
  tables : D → Tables;
  tx_tables : Tx → Tables;
  select_mapping_law c p :
    answers tables (fetch_optional_mapping SELECT_MAPPING [BText c; BText p])
      (λ t row, row = mapping_row (c, p) <$> mapping_rows t !! (c, p));
  select_scopes_any_law l :
    answers tables (fetch_all_scopes SELECT_SCOPES_ANY [BTextArray l])
      (λ t rows, rows ≡ₚ scope_row <$> map_to_list (filter (λ kv, kv.1 ∈ l) (scope_rows t)));
  insert_mapping_law c p s a :
    performs tables (execute INSERT_MAPPING [BText c; BText p; BTextArray s; BTextArray a])
      (has_mapping (c, p)) (λ _, 1%N) (set_mapping_rows <[(c, p) := (s, a)]>);
  update_mapping_law c p s a :
    performs tables (execute UPDATE_MAPPING [BText c; BText p; BTextArray s; BTextArray a])
      never (λ t, count (has_mapping (c, p) t)) (set_mapping_rows (alter (λ _, (s, a)) (c, p)));
  delete_mapping_law c p :
    performs tables (execute DELETE_MAPPING [BText c; BText p])
      never (λ t, count (has_mapping (c, p) t)) (set_mapping_rows (delete (c, p)));
  delete_mappings_for_law c :
    performs tables (execute DELETE_MAPPINGS_FOR [BText c]) never
      (λ t, N.of_nat (size (filter (λ kv, kv.1.1 = c) (mapping_rows t))))
      (set_mapping_rows (filter (λ kv, kv.1.1 ≠ c)));
  update_scope_law s v :
    performs tables (execute UPDATE_SCOPE [BText s; BJson v]) never (λ t, count (has_scope s t))
      (set_scope_rows (alter (λ _, v) s));
  delete_scope_law s :
    performs tables (execute DELETE_SCOPE [BText s]) never (λ t, count (has_scope s t))
      (set_scope_rows (delete s));
  select_mappings_law :
    answers tables (fetch_all_mappings SELECT_MAPPINGS [])
      (λ t rows, rows ≡ₚ (λ kr, mapping_row kr.1 kr.2) <$> map_to_list (mapping_rows t));
  select_scopes_law :
    answers tables (fetch_all_scopes SELECT_SCOPES [])
      (λ t rows, rows ≡ₚ scope_row <$> map_to_list (scope_rows t));
  begin_law : answers tables begin (λ t tx, tx_tables tx = t);
  tx_isolated sql binds tx d r tx' d' :
    tx_execute sql binds (tx, d) = (r, (tx', d')) → tables d' = tables d;
  insert_scope_law s v :
    performs (λ td, tx_tables td.1) (tx_execute INSERT_SCOPE [BText s; BJson v])
      (has_scope s) (λ _, 1%N) (set_scope_rows <[s := v]>);
  create_law sql :
    sql ∈ [CREATE_RESOURCE_MAPPINGS; CREATE_RESOURCE_MAPPINGS_INDEX; CREATE_SCOPE_MAPPINGS] →
    performs (λ td, tx_tables td.1) (tx_execute sql []) never (λ _, 0%N) id;
  commit_law tx d r d' :
    commit tx d = (r, d') →
    tables d' = tx_tables tx ∨ (∃ e, r = Err e) ∧ tables d' = tables d;
  rollback_law tx d : tables (rollback tx d) = tables d;
}.

(** ** The policy in the tables *)

Definition grant_of_row (row : list str * list str) : Grant :=
  {| grant_scopes := list_to_set row.1; grant_audiences := list_to_set row.2 |}.

Definition pg_view (t : Tables) : Policy :=
  {| grants := grant_of_row <$> mapping_rows t; scope_defs := claims_of_json <$> scope_rows t |}.

(** ** Refinement *)

Section pg_contract.
Context {D : Type} `{PgLaws D} `{HashOrder}.

Abbreviation pg_refines := (refines (λ _ : D, True) (λ d, pg_view (tables d)) True).

Lemma query_refines {A B : Type} (m : eff D SqlxError A) (ans : Tables → A → Prop) (f : A → B)
    (R : B → B → Prop) (spec : eff Policy ResourceError B) :
  answers tables m ans →
  (∀ t a, ans t a → ∃ b, spec (pg_view t) = (Ok b, pg_view t) ∧ R b (f a)) →
  pg_refines R spec (a ← eff_map_err db_error m; mret (f a)).
Proof.
  intros Hm Hspec d r d' _. unfold mbind, eff_bind, eff_map_err.
  destruct (m d) as [r0 d0] eqn:E. destruct (Hm _ _ _ E) as [Ht Ha].
  destruct r0 as [a|e]; cbn; intros [= <- <-]; (split; [done|]).
  - left. destruct (Hspec _ _ Ha) as (b & Hs & ?). rewrite Ht. exists (Ok b). split; [done|by constructor].
  - right. rewrite Ht. split_and!; [done|by eexists|by left].
Qed.

Lemma statement_refines (m : eff D SqlxError N) taken n f (h : SqlxError → ResourceError)
    (k : N → eff D ResourceError unit) (check : N → result ResourceError unit)
    (spec : eff Policy ResourceError unit) :
  performs tables m taken n f →
  (∀ a d, k a d = (check a, d)) →
  (∀ e, is_unique_violation e = false → ∃ msg, h e = DatabaseError msg) →
  (∀ t e, taken t = true → is_unique_violation e = true →
     spec (pg_view t) = (Err (h e), pg_view t)) →
  (∀ t, taken t = false → spec (pg_view t) = (check (n t), pg_view (f t))) →
  pg_refines eq spec (a ← eff_map_err h m; k a).
Proof.
  intros Hm Hk Hh Htaken Hfree d r d' _. unfold mbind, eff_bind, eff_map_err.
  destruct (m d) as [r0 d0] eqn:E. pose proof (Hm _ _ _ E) as Ha. cbn in Ha.
  destruct r0 as [a|e]; cbn; rewrite ?Hk; intros [= <- <-]; (split; [done|]).
  - destruct Ha as (Hf & -> & ->). left. eexists. split; [by apply Hfree|].
    by destruct (check _); constructor.
  - destruct (is_unique_violation e) eqn:Eu.
    + destruct Ha as [Ht ->]. left. eexists. split; [by apply Htaken|constructor].
    + right. destruct (Hh _ Eu) as [msg ->]. split_and!; [done|by eexists|].
      destruct Ha as [->|[Hf ->]]; [by left|right]. by rewrite (Hfree _ Hf).
Qed.

Lemma db_error_kind e : is_unique_violation e = false → ∃ msg, db_error e = DatabaseError msg.
Proof. by eexists. Qed.
Lemma insert_error_kind name e :
  is_unique_violation e = false → ∃ msg, PostgresResourceStore.insert_error name e = DatabaseError msg.
Proof. unfold PostgresResourceStore.insert_error. intros ->. by eexists. Qed.
Lemma insert_error_conflict name e :
  is_unique_violation e = true → PostgresResourceStore.insert_error name e = Conflict name.
Proof. unfold PostgresResourceStore.insert_error. by intros ->. Qed.

Lemma array_set (s : gset str) : list_to_set (hash_set_iter s) = s.
Proof. apply set_eq. intros x. by rewrite elem_of_list_to_set, hash_set_iter_elem. Qed.

Lemma grant_of_bound m :
  grant_of_row (hash_set_iter (scopes m), hash_set_iter (audiences m)) = grant_of m.
Proof. unfold grant_of_row, grant_of. cbn. by rewrite !array_set. Qed.

Lemma row_to_mapping_of key row :
  row_to_resource_mapping (mapping_row key row) = mapping_of key (grant_of_row row).
Proof. by destruct key. Qed.

Lemma has_mapping_view key t :
  has_mapping key t = bool_decide (is_Some (grants (pg_view t) !! key)).
Proof. apply bool_decide_ext. cbn. by rewrite lookup_fmap, fmap_is_Some. Qed.

(** The rows of the second query, as the table of scope mappings of the grant. *)
Lemma collected_scopes (l : list str) (rows : gmap str Value) rs :
  rs ≡ₚ scope_row <$> map_to_list (filter (λ kv, kv.1 ∈ l) rows) →
  foldl (λ m r, <[row_scope r := row_to_scope_mapping r]> m) ∅ rs =
    map_imap (λ s m, if bool_decide (s ∈ (list_to_set l : gset str))
                     then Some {| scope := s; claims := m |} else None) (claims_of_json <$> rows).
Proof.
  intros Hrs.
  assert (foldl (λ m r, <[row_scope r := row_to_scope_mapping r]> m) ∅ rs =
    (list_to_map (reverse ((λ r, (row_scope r, row_to_scope_mapping r)) <$> rs)) : gmap str ScopeMapping)) as ->.
  { clear Hrs. induction rs as [|r rs IH] using rev_ind; [done|].
    rewrite foldl_snoc, fmap_app. cbn [fmap list_fmap]. by rewrite reverse_snoc, IH. }
  assert (NoDup (reverse ((λ r, (row_scope r, row_to_scope_mapping r)) <$> rs)).*1) as Hnd.
  { assert ((reverse ((λ r, (row_scope r, row_to_scope_mapping r)) <$> rs)).*1 ≡ₚ
      (map_to_list (filter (λ kv, kv.1 ∈ l) rows)).*1) as ->.
    { rewrite reverse_Permutation, Hrs. by rewrite <- !list_fmap_compose. }
    apply NoDup_fst_map_to_list. }
  apply map_eq. intros s. apply option_eq. intros sm.
  rewrite <- elem_of_list_to_map by done.
  rewrite reverse_Permutation, Hrs, <- list_fmap_compose, list_elem_of_fmap.
  rewrite map_lookup_imap, lookup_fmap. setoid_rewrite elem_of_map_to_list'.
  setoid_rewrite map_lookup_filter_Some. split.
  - intros ([k v] & [= -> ->] & Hk & Hl). cbn in *. rewrite Hk. cbn.
    by rewrite bool_decide_eq_true_2 by (by rewrite elem_of_list_to_set).
  - destruct (rows !! s) as [v|] eqn:E; cbn; [|done]. case_bool_decide as Hs; [|done].
    intros [= <-]. exists (s, v). rewrite elem_of_list_to_set in Hs. done.
Qed.

(** The second query answers for the scope definitions it finds. *)
Lemma resolve_scopes_run rm d r d' :
  PostgresResourceStore.resolve_scopes rm d = (r, d') →
  tables d' = tables d ∧
  match r with
  | Ok found => found = Some {| resource_mapping := rm;
      scope_mappings := scope_table (grant_of rm) (scope_defs (pg_view (tables d))) |}
  | Err e => ∃ msg, e = DatabaseError msg
  end.
Proof.
  unfold PostgresResourceStore.resolve_scopes, mbind, eff_bind, eff_map_err.
  destruct (fetch_all_scopes _ _ d) as [r0 d0] eqn:E.
  destruct (select_scopes_any_law _ _ _ _ E) as [Ht Ha].
  destruct r0 as [rows|e]; cbn; intros [= <- <-]; (split; [done|]); [|by eexists].
  rewrite (collected_scopes _ _ _ Ha). do 2 f_equal. unfold scope_table. cbn.
  by rewrite array_set.
Qed.

Lemma pg_resolve_refines c p :
  pg_refines eq (Spec.resolve_mapping c p) (PostgresResourceStore.resolve_mapping c p).
Proof.
  intros d r d' _. unfold PostgresResourceStore.resolve_mapping, mbind, eff_bind, eff_map_err.
  destruct (fetch_optional_mapping _ _ d) as [r0 d0] eqn:E.
  destruct (select_mapping_law _ _ _ _ _ E) as [Ht Ha].
  destruct r0 as [row|e]; cbn.
  2: { intros [= <- <-]. split; [done|]. right. rewrite Ht. split_and!; [done|by eexists|by left]. }
  unfold Spec.resolve_mapping, resolve. cbn. rewrite lookup_fmap.
  destruct (mapping_rows (tables d) !! (c, p)) as [row0|]; cbn in Ha; subst row.
  2: { intros [= <- <-]. split; [done|]. left. rewrite Ht. eexists. split; [done|by constructor]. }
  intros Hr. apply resolve_scopes_run in Hr as [Ht' Hr]. rewrite Ht in *. split; [done|].
  rewrite Ht'. destruct r as [found|e].
  - left. eexists. split; [done|]. constructor. subst found. cbn.
    by rewrite row_to_mapping_of.
  - right. split_and!; [done|naive_solver|by left].
Qed.

Lemma pg_save_refines m :
  pg_refines eq (Spec.save_mapping m) (PostgresResourceStore.save_mapping m).
Proof.
  eapply (statement_refines _ _ _ _ _ _ (λ _, Ok tt));
    [apply insert_mapping_law|done|apply insert_error_kind|..]; unfold Spec.save_mapping; cbn.
  - intros t e Ht He. rewrite has_mapping_view in Ht. apply bool_decide_eq_true in Ht as [g Hg].
    cbn in Hg. unfold mapping_key. rewrite Hg. by rewrite insert_error_conflict.
  - intros t Ht. rewrite has_mapping_view in Ht. apply bool_decide_eq_false in Ht.
    apply eq_None_not_Some in Ht. cbn in Ht. unfold mapping_key. rewrite Ht.
    unfold pg_view. cbn. by rewrite fmap_insert, grant_of_bound.
Qed.

(** An update changes a row that exists. *)
Lemma fmap_alter_row {K V B : Type} `{Countable K} (f : V → B) v k (m : gmap K V) :
  f <$> alter (λ _, v) k m =
    match m !! k with Some _ => <[k := f v]> (f <$> m) | None => f <$> m end.
Proof.
  apply map_eq. intros i. rewrite lookup_fmap, lookup_alter. case_decide as Hi.
  - subst. destruct (m !! i) eqn:E; rewrite ?lookup_insert_eq, ?lookup_fmap, ?E; done.
  - destruct (m !! k); rewrite ?lookup_insert_ne by done; by rewrite lookup_fmap.
Qed.

Lemma pg_update_refines m :
  pg_refines eq (Spec.update_mapping m) (PostgresResourceStore.update_mapping m).
Proof.
  eapply (statement_refines _ _ _ _ _ _
    (λ n, if N.eqb n 0 then Err (NotFound (client_identifier m)) else Ok tt));
    [apply update_mapping_law|by intros a d; destruct (N.eqb _ _)|apply db_error_kind|done|].
  intros t _. unfold Spec.update_mapping, mapping_key, has_mapping, pg_view. cbn.
  rewrite lookup_fmap, fmap_alter_row, grant_of_bound. by destruct (mapping_rows t !! _).
Qed.

Lemma pg_remove_refines c p :
  pg_refines eq (Spec.remove_mapping c p) (PostgresResourceStore.remove_mapping c p).
Proof.
  eapply (statement_refines _ _ _ _ _ _ (λ _, Ok tt));
    [apply delete_mapping_law|done|apply db_error_kind|done|].
  intros t _. unfold Spec.remove_mapping, pg_view. cbn. by rewrite fmap_delete.
Qed.

Lemma pg_remove_for_refines c :
  pg_refines eq (Spec.remove_mappings_for c) (PostgresResourceStore.remove_mappings_for c).
Proof.
  eapply (statement_refines _ _ _ _ _ _ (λ _, Ok tt));
    [apply delete_mappings_for_law|done|apply db_error_kind|done|].
  intros t _. unfold Spec.remove_mappings_for, pg_view. cbn. by rewrite map_filter_fmap.
Qed.

Lemma pg_update_scope_refines m :
  pg_refines eq (Spec.update_scope_mapping m) (PostgresResourceStore.update_scope_mapping m).
Proof.
  eapply (statement_refines _ _ _ _ _ _
    (λ n, if N.eqb n 0 then Err (NotFound (scope m)) else Ok tt));
    [apply update_scope_law|by intros a d; destruct (N.eqb _ _)|apply db_error_kind|done|].
  intros t _. unfold Spec.update_scope_mapping, has_scope, pg_view. cbn.
  rewrite lookup_fmap, fmap_alter_row. by destruct (scope_rows t !! _).
Qed.

Lemma pg_remove_scope_refines s :
  pg_refines eq (Spec.remove_scope_mapping s) (PostgresResourceStore.remove_scope_mapping s).
Proof.
  eapply (statement_refines _ _ _ _ _ _ (λ _, Ok tt));
    [apply delete_scope_law|done|apply db_error_kind|done|].
  intros t _. unfold Spec.remove_scope_mapping, pg_view. cbn. by rewrite fmap_delete.
Qed.

Lemma pg_list_refines :
  pg_refines Permutation Spec.list_mappings PostgresResourceStore.list_mappings.
Proof.
  eapply query_refines; [apply select_mappings_law|]. intros t rows Hrows.
  eexists. split; [done|]. rewrite Hrows. cbn. by rewrite map_to_list_fmap, <- !list_fmap_compose.
Qed.

Lemma pg_list_scopes_refines :
  pg_refines Permutation Spec.list_scope_mappings PostgresResourceStore.list_scope_mappings.
Proof.
  eapply query_refines; [apply select_scopes_law|]. intros t rows Hrows.
  eexists. split; [done|]. rewrite Hrows. cbn. by rewrite map_to_list_fmap, <- !list_fmap_compose.
Qed.

(** ** Transactions *)

Lemma tx_execute_isolated (h : SqlxError → ResourceError) sql binds (td : Tx * D) r td' :
  eff_map_err h (tx_execute sql binds) td = (r, td') → tables td'.2 = tables td.2.
Proof.
  destruct td as [tx d], td' as [tx' d']. unfold eff_map_err.
  destruct (tx_execute sql binds (tx, d)) as [r0 [tx1 d1]] eqn:E.
  intros [= _ <- <-]. by eapply tx_isolated.
Qed.

Lemma insert_scope_run m (td : Tx * D) r td' :
  PostgresResourceStore.insert_scope m td = (r, td') →
  tables td'.2 = tables td.2 ∧
  let t := tx_tables td.1 in
  match r with
  | Ok _ => has_scope (scope m) t = false ∧
            tx_tables td'.1 = set_scope_rows <[scope m := Value.Object (claims m)]> t
  | Err (Conflict s) => s = scope m ∧ has_scope (scope m) t = true
  | Err e => ∃ msg, e = DatabaseError msg
  end.
Proof.
  unfold PostgresResourceStore.insert_scope. intros Hrun.
  unfold mbind, eff_bind in Hrun.
  destruct (eff_map_err _ _ td) as [r0 td0] eqn:E.
  assert (td' = td0) as -> by (destruct r0; by injection Hrun).
  split; [by eapply tx_execute_isolated|]. unfold eff_map_err in E.
  destruct (tx_execute _ _ td) as [r1 td1] eqn:Hx. injection E as <- <-.
  pose proof (insert_scope_law _ _ _ _ _ Hx) as Hlaw.
  destruct r1 as [n|e]; cbn in Hrun; injection Hrun as <-; [naive_solver|].
  unfold PostgresResourceStore.insert_error. destruct (is_unique_violation e); [naive_solver|by eexists].
Qed.

(** The batch inserted statement by statement. *)
Lemma insert_batch_run ms (td : Tx * D) r td' :
  eff_for_each PostgresResourceStore.insert_scope ms td = (r, td') →
  tables td'.2 = tables td.2 ∧
  let P := pg_view (tx_tables td.1) in
  match r with
  | Ok _ => first_conflict (dom (scope_defs P)) ms = None ∧
      pg_view (tx_tables td'.1) =
        {| grants := grants P; scope_defs := insert_scopes (scope_defs P) ms |}
  | Err (Conflict s) => first_conflict (dom (scope_defs P)) ms = Some s
  | Err e => ∃ msg, e = DatabaseError msg
  end.
Proof.
  revert td. induction ms as [|m ms IH]; intros td; cbn [eff_for_each].
  { intros [= <- <-]. cbn. split_and!; done. }
  unfold mbind, eff_bind. destruct (PostgresResourceStore.insert_scope m td) as [r0 td0] eqn:E.
  apply insert_scope_run in E as [Hd Hr].
  assert (has_scope (scope m) (tx_tables td.1) =
    bool_decide (scope m ∈ dom (scope_defs (pg_view (tx_tables td.1))))) as Hdom.
  { apply bool_decide_ext. cbn. by rewrite dom_fmap_L, elem_of_dom. }
  destruct r0 as [[]|e].
  - destruct Hr as [Hfree Ht]. intros Hrest. apply IH in Hrest as [Hd' Hrest].
    split; [congruence|]. cbn [first_conflict]. rewrite <- Hdom, Hfree.
    assert (pg_view (tx_tables td0.1) =
      {| grants := grants (pg_view (tx_tables td.1));
         scope_defs := <[scope m := claims m]> (scope_defs (pg_view (tx_tables td.1))) |}) as Hv.
    { rewrite Ht. unfold pg_view. cbn. by rewrite fmap_insert. }
    rewrite Hv in Hrest. cbn in Hrest. rewrite dom_insert_L in Hrest. done.
  - intros [= <- <-]. split; [done|]. destruct e; try naive_solver.
    destruct Hr as [-> Ht]. cbn [first_conflict]. by rewrite <- Hdom, Ht.
Qed.

Lemma pg_save_scopes_refines ms :
  pg_refines eq (Spec.save_scope_mappings ms) (PostgresResourceStore.save_scope_mappings ms).
Proof.
  intros d r d' _. unfold PostgresResourceStore.save_scope_mappings, PostgresResourceStore.transaction.
  destruct (begin d) as [[tx|e] d1] eqn:Hb; destruct (begin_law _ _ _ Hb) as [Hd1 Htx].
  2: { intros [= <- <-]. split; [done|]. right. rewrite Hd1. split_and!; [done|by eexists|by left]. }
  destruct (eff_for_each _ _ _) as [r0 [tx' d2]] eqn:Hloop.
  apply insert_batch_run in Hloop as [Hd2 Hr]. cbn in Hd2, Hr. rewrite Htx in Hr.
  unfold Spec.save_scope_mappings. destruct r0 as [[]|e].
  - destruct Hr as [Hfree Hv]. cbn in Hfree |- *. rewrite Hfree. unfold eff_map_err.
    destruct (commit tx' d2) as [rc d3] eqn:Hc. intros [= <- <-]. split; [done|].
    destruct (commit_law _ _ _ _ Hc) as [Hd3|[[e ->] Hd3]].
    + rewrite Hd3, Hv. destruct rc as [[]|e]; [left; eexists; split; [done|by constructor]|].
      right. split_and!; [done|by eexists|by right].
    + right. rewrite Hd3, Hd2, Hd1. split_and!; [done|by eexists|by left].
  - intros [= <- <-]. rewrite rollback_law, Hd2, Hd1. split; [done|].
    destruct e; try (right; split_and!; [done|naive_solver|by left]).
    left. cbn in Hr |- *. rewrite Hr. eexists. split; [done|constructor].
Qed.

#[export] Instance pg_contract : StoreContract D := {|
  store_inv := λ _, True;
  view := λ d, pg_view (tables d);
  may_fail := True;
  resolve_mapping_refines := pg_resolve_refines;
  save_mapping_refines := pg_save_refines;
  update_mapping_refines := pg_update_refines;
  remove_mapping_refines := pg_remove_refines;
  remove_mappings_for_refines := pg_remove_for_refines;
  save_scope_mappings_refines := pg_save_scopes_refines;
  update_scope_mapping_refines := pg_update_scope_refines;
  remove_scope_mapping_refines := pg_remove_scope_refines;
  list_mappings_refines := pg_list_refines;
  list_scope_mappings_refines := pg_list_scopes_refines;
|}.
End pg_contract.

(** ** The store beyond its contract *)

Section pg_props.
Context {D : Type} `{PgLaws D} `{HashOrder}.

Lemma create_run sql (td : Tx * D) r td' :
  sql ∈ [CREATE_RESOURCE_MAPPINGS; CREATE_RESOURCE_MAPPINGS_INDEX; CREATE_SCOPE_MAPPINGS] →
  eff_map_err db_error (tx_execute sql []) td = (r, td') →
  tables td'.2 = tables td.2 ∧ (is_Ok r = true → tx_tables td'.1 = tx_tables td.1).
Proof.
  intros Hsql Hrun. split; [by eapply tx_execute_isolated|]. unfold eff_map_err in Hrun.
  destruct (tx_execute sql [] td) as [r0 td0] eqn:E. injection Hrun as <- <-.
  pose proof (create_law _ Hsql _ _ _ E) as Hlaw. destruct r0; cbn; [|done]. by destruct Hlaw as (_ & _ & ->).
Qed.

(** Creating the schema at startup never touches existing data: whatever
    statement of [initialize] fails, and whether or not its commit fails, the
    committed contents of the two tables are the same before and after. *)
Lemma initialize_keeps_data d r d' :
  PostgresResourceStore.initialize d = (r, d') → tables d' = tables d.
Proof.
  unfold PostgresResourceStore.initialize, PostgresResourceStore.transaction.
  destruct (begin d) as [[tx|e] d1] eqn:Hb; destruct (begin_law _ _ _ Hb) as [Hd1 Htx];
    [|by intros [= _ <-]].
  destruct (_ ≫= _) as [r0 [tx' d2]] eqn:Hbody.
  assert (tables d2 = tables d1 ∧ (is_Ok r0 = true → tx_tables tx' = tx_tables tx)) as [Hd2 Ht].
  { unfold mbind, eff_bind in Hbody.
    destruct (eff_map_err db_error (tx_execute CREATE_RESOURCE_MAPPINGS []) (tx, d1))
      as [[n1|e1] td1] eqn:E1; (apply create_run in E1 as [Hd2 Hx1]; [|set_solver]).
    2: { injection Hbody as <- ->. done. }
    destruct (eff_map_err db_error (tx_execute CREATE_RESOURCE_MAPPINGS_INDEX []) td1)
      as [[n2|e2] td2] eqn:E2; (apply create_run in E2 as [Hd3 Hx2]; [|set_solver]).
    2: { injection Hbody as <- ->. cbn in *. split; [congruence|done]. }
    destruct (eff_map_err db_error (tx_execute CREATE_SCOPE_MAPPINGS []) td2)
      as [[n3|e3] td3] eqn:E3; (apply create_run in E3 as [Hd4 Hx3]; [|set_solver]);
      injection Hbody as <- ->; cbn in *; (split; [congruence|]); [|done].
    intros _. by rewrite Hx3, Hx2, Hx1. }
  destruct r0 as [[]|e].
  - intros Hc. unfold eff_map_err in Hc. destruct (commit tx' d2) as [rc d3] eqn:E.
    injection Hc as _ <-. destruct (commit_law _ _ _ _ E) as [->|[_ ->]]; [|congruence].
    by rewrite Ht, Htx.
  - intros [= _ <-]. rewrite rollback_law. congruence.
Qed.

(** [resolve_mapping] makes two queries outside any transaction; [env] is what
    other sessions commit between them. *)
Definition scopes_after (env : D → D) (row : option ResourceMappingRow) :
    eff D ResourceError (option MappingPair) := λ d,
  match row with
  | None => (Ok None, d)
  | Some row => PostgresResourceStore.resolve_scopes (row_to_resource_mapping row) (env d)
  end.

Definition resolve_interleaved (env : D → D) (c p : str) : eff D ResourceError (option MappingPair) :=
  row ← eff_map_err db_error (fetch_optional_mapping SELECT_MAPPING [BText c; BText p]);
  scopes_after env row.

Lemma resolve_interleaved_id c p :
  ∀ d, resolve_interleaved id c p d = PostgresResourceStore.resolve_mapping c p d.
Proof.
  intros d. unfold resolve_interleaved, PostgresResourceStore.resolve_mapping, mbind, eff_bind.
  by destruct (eff_map_err _ _ d) as [[[]|] ?].
Qed.

(** C31 The two queries of [resolve_mapping] are not one snapshot.  Whatever other
    sessions commit between them, the answer joins the grant as it was at the first
    query with the scope definitions as they are at the second: scopes that the grant
    does not list never contribute, and each definition is a committed one. *)
Theorem resolve_two_snapshots env c p d found d' :
  resolve_interleaved env c p d = (Ok found, d') →
  ∃ d1, tables d1 = tables d ∧
    found = resolve c p {| grants := grants (pg_view (tables d));
                           scope_defs := scope_defs (pg_view (tables (env d1))) |}.
Proof.
  unfold resolve_interleaved, mbind, eff_bind, eff_map_err.
  destruct (fetch_optional_mapping _ _ d) as [[row|e] d1] eqn:E; cbn; [|done].
  destruct (select_mapping_law _ _ _ _ _ E) as [Ht Ha]. intros Hr. exists d1. split; [done|].
  unfold resolve. cbn. rewrite lookup_fmap.
  destruct (mapping_rows (tables d) !! (c, p)) as [row0|]; cbn in Ha; subst row; cbn.
  - apply resolve_scopes_run in Hr as [_ ->]. by rewrite row_to_mapping_of.
  - by injection Hr as <- <-.
Qed.
End pg_props.
