(* ===== verification/Service.v ===== *)
(** * Service: what [ResourceService] guarantees over any conforming store

    Theorems about the definitions of [Resource], proved against the interface
    [StoreContract] and therefore valid for the in-memory and the Postgres
    store: [verify] computes its reference result, every operation keeps the
    policy well formed, and an operation that fails leaves the policy alone. *)

From S2P Require Import Prelude Text Json Resource Policy.

(** ** Definitions *)

(** The invariant of the write path: every grant and every scope definition in
    the policy would pass validation. *)
Record policy_ok (P : Policy) : Prop := {
  policy_grants_ok : map_Forall (λ k g, mapping_ok (mapping_of k g)) (grants P);
  policy_scopes_ok : map_Forall (λ s m, scope_name_ok s ∧ claims_ok m) (scope_defs P);
}.

(** The values that the requested scopes contribute to a claim, in the order of
    the scope names. *)
Definition policy_contributions (P : Policy) (requested : list str) (k : str) : list Value :=
  omap (λ s, m ← scope_defs P !! s; m !! k) (btree_set requested).

(** All the operations of the service. *)
Inductive ServiceOp : Set :=
  | OpVerify (client context : str) (requested : list str)
  | OpSave (m : ResourceMapping)
  | OpUpdate (m : ResourceMapping)
  | OpRemove (client context : str)
  | OpRemoveFor (client : str)
  | OpSaveScopes (ms : list ScopeMapping)
  | OpUpdateScope (m : ScopeMapping)
  | OpDeleteScope (s : str)
  | OpListMappings
  | OpListScopes.

(** What an operation answers. *)
Inductive Answer : Set :=
  | Done
  | Verified (vr : VerificationResult)
  | Mappings (l : list ResourceMapping)
  | Scopes (l : list ScopeMapping).

Definition answer {W E A : Type} (f : A → Answer) (m : eff W E A) : eff W E Answer :=
  a ← m; mret (f a).

Definition run_op {W : Type} `{ResourceStore W} `{HashOrder} (op : ServiceOp) :
    eff W ResourceError Answer :=
  let done := answer (λ _ : unit, Done) in
  match op with
  | OpVerify c p req => answer Verified (ResourceService.verify c p req)
  | OpSave m => done (ResourceService.save m)
  | OpUpdate m => done (ResourceService.update m)
  | OpRemove c p => done (ResourceService.remove c p)
  | OpRemoveFor c => done (ResourceService.remove_for c)
  | OpSaveScopes ms => done (ResourceService.save_scope_mappings ms)
  | OpUpdateScope m => done (ResourceService.update_scope_mapping m)
  | OpDeleteScope s => done (ResourceService.delete_scope_mapping s)
  | OpListMappings => answer Mappings ResourceService.list_mappings
  | OpListScopes => answer Scopes ResourceService.list_scope_mappings
  end.

(** Clients issue operations one after the other; an error ends only its own. *)
Fixpoint run_ops {W : Type} `{ResourceStore W} `{HashOrder} (ops : list ServiceOp) (w : W) :
    list (result ResourceError Answer) * W :=
  match ops with
  | [] => ([], w)
  | op :: ops =>
      let '(r, w1) := run_op op w in
      let '(rs, w2) := run_ops ops w1 in (r :: rs, w2)
  end.

(** Answers that a client cannot tell apart: a listing has no order. *)
#[export] Instance answer_equiv : Equiv Answer := λ a b,
  match a, b with
  | Mappings l1, Mappings l2 => l1 ≡ₚ l2
  | Scopes l1, Scopes l2 => l1 ≡ₚ l2
  | _, _ => a = b
  end.

#[export] Instance answer_equivalence : Equivalence (≡@{Answer}).
Proof.
  split.
  - intros []; cbn; done.
  - intros [] []; cbn; intros H; done.
  - intros [] [] []; cbn; intros H1 H2; try done; try congruence; by etrans.
Qed.

(** The runs that the policy allows: every operation is answered as the policy
    answers it, or it is lost in a database failure, done or not done. *)
Inductive spec_run `{HashOrder} (fails : Prop) :
    list ServiceOp → Policy → list (result ResourceError Answer) → Policy → Prop :=
  | spec_end P : spec_run fails [] P [] P
  | spec_answered op ops P r0 r P1 rs P2 :
      run_op op P = (r0, P1) → result_rel (≡) r0 r → spec_run fails ops P1 rs P2 →
      spec_run fails (op :: ops) P (r :: rs) P2
  | spec_lost op ops P msg P1 rs P2 :
      fails → P1 = P ∨ P1 = (run_op op P).2 → spec_run fails ops P1 rs P2 →
      spec_run fails (op :: ops) P (Err (DatabaseError msg) :: rs) P2.

(** Which part of the policy an operation may write. *)
Definition writes_grants (op : ServiceOp) : bool :=
  match op with OpSave _ | OpUpdate _ | OpRemove _ _ | OpRemoveFor _ => true | _ => false end.
Definition writes_scopes (op : ServiceOp) : bool :=
  match op with OpSaveScopes _ | OpUpdateScope _ | OpDeleteScope _ => true | _ => false end.

(** ** Lemmas *)

Lemma first_conflict_None taken ms :
  first_conflict taken ms = None ↔
    NoDup (scope <$> ms) ∧ ∀ m, m ∈ ms → scope m ∉ taken.
Proof.
  revert taken. induction ms as [|m ms IH]; intros taken; cbn.
  { split; [|done]. intros _. split; [constructor|set_solver]. }
  case_bool_decide as Ht.
  { split; [done|]. intros [_ H]. destruct (H m); [by left|done]. }
  rewrite IH, NoDup_cons. split.
  - intros [Hnd H]. split_and!; [|done|].
    + intros (m' & Heq & Hm')%list_elem_of_fmap. specialize (H m' Hm'). set_solver.
    + intros m' [->|Hm']%elem_of_cons; [done|]. specialize (H m' Hm'). set_solver.
  - intros [[Hm Hnd] H]. split; [done|]. intros m' Hm'.
    assert (scope m' ≠ scope m).
    { intros Heq. apply Hm. rewrite <- Heq. by apply list_elem_of_fmap_2. }
    specialize (H m'). set_solver.
Qed.

Lemma insert_scopes_lookup defs ms s :
  NoDup (scope <$> ms) →
  insert_scopes defs ms !! s =
    match list_find (λ m, scope m = s) ms with
    | Some (_, m) => Some (claims m)
    | None => defs !! s
    end.
Proof.
  unfold insert_scopes. revert defs. induction ms as [|m ms IH]; intros defs Hnd; [done|].
  cbn in *. apply NoDup_cons in Hnd as [Hm Hnd]. rewrite IH by done.
  destruct (decide (scope m = s)) as [<-|Hne].
  - destruct (list_find (λ m', scope m' = scope m) ms) as [[i m']|] eqn:E.
    + apply list_find_Some in E as (Hi & Heq & _). destruct Hm. rewrite <- Heq.
      apply list_elem_of_fmap_2. by eapply list_elem_of_lookup_2.
    + by rewrite lookup_insert_eq.
  - destruct (list_find (λ m', scope m' = s) ms) as [[i m']|] eqn:E; cbn.
    + done.
    + by rewrite lookup_insert_ne.
Qed.

Lemma insert_scopes_ok defs ms :
  map_Forall (λ s m, scope_name_ok s ∧ claims_ok m) defs → Forall scope_mapping_ok ms →
  map_Forall (λ s m, scope_name_ok s ∧ claims_ok m) (insert_scopes defs ms).
Proof.
  unfold insert_scopes. intros Hd Hms. revert defs Hd.
  induction Hms as [|m ms [? ?] _ IH]; intros defs Hd; cbn; [done|].
  apply IH. by apply map_Forall_insert_2.
Qed.

Section spec_ok.
Implicit Types P : Policy.

Lemma spec_save_ok m P :
  mapping_ok m → policy_ok P → policy_ok (Spec.save_mapping m P).2.
Proof.
  intros Hm [Hg Hs]. unfold Spec.save_mapping. destruct (grants P !! _); [by split|].
  split; [|done]. apply map_Forall_insert_2; [|done]. by rewrite mapping_of_grant.
Qed.

Lemma spec_update_ok m P :
  mapping_ok m → policy_ok P → policy_ok (Spec.update_mapping m P).2.
Proof.
  intros Hm [Hg Hs]. unfold Spec.update_mapping. destruct (grants P !! _); [|by split].
  split; [|done]. apply map_Forall_insert_2; [|done]. by rewrite mapping_of_grant.
Qed.

Lemma spec_remove_ok c p P : policy_ok P → policy_ok (Spec.remove_mapping c p P).2.
Proof. intros [Hg Hs]. split; [|done]. by apply map_Forall_delete. Qed.

Lemma spec_remove_for_ok c P : policy_ok P → policy_ok (Spec.remove_mappings_for c P).2.
Proof.
  intros [Hg Hs]. split; [|done]. intros k g [Hk _]%map_lookup_filter_Some. by apply Hg.
Qed.

Lemma spec_save_scopes_ok ms P :
  Forall scope_mapping_ok ms → policy_ok P → policy_ok (Spec.save_scope_mappings ms P).2.
Proof.
  intros Hms [Hg Hs]. unfold Spec.save_scope_mappings. destruct (first_conflict _ _); [by split|].
  split; [done|]. by apply insert_scopes_ok.
Qed.

Lemma spec_update_scope_ok m P :
  scope_mapping_ok m → policy_ok P → policy_ok (Spec.update_scope_mapping m P).2.
Proof.
  intros [? ?] [Hg Hs]. unfold Spec.update_scope_mapping. destruct (scope_defs P !! _); [|by split].
  split; [done|]. by apply map_Forall_insert_2.
Qed.

Lemma spec_remove_scope_ok s P : policy_ok P → policy_ok (Spec.remove_scope_mapping s P).2.
Proof. intros [Hg Hs]. split; [done|]. by apply map_Forall_delete. Qed.
End spec_ok.

#[export] Hint Resolve spec_save_ok spec_update_ok spec_remove_ok spec_remove_for_ok
  spec_save_scopes_ok spec_update_scope_ok spec_remove_scope_ok : jwtlet.

Lemma empty_policy_ok : policy_ok empty_policy.
Proof. split; apply map_Forall_empty. Qed.

(** With every requested scope granted, the mappings that [resolve] returns
    contribute exactly what the policy defines. *)
Lemma scope_table_contributions P g requested k :
  (∀ s, s ∈ requested → s ∈ grant_scopes g) →
  contributions (scope_table g (scope_defs P)) (btree_set requested) k =
    policy_contributions P requested k.
Proof.
  intros Hg. unfold contributions, policy_contributions.
  assert (∀ s, s ∈ btree_set requested → s ∈ grant_scopes g) as H.
  { intros s. rewrite btree_set_elem. apply Hg. }
  induction (btree_set requested) as [|s l IH]; [done|]. cbn.
  unfold scope_table at 1. rewrite map_lookup_imap.
  assert (s ∈ grant_scopes g) by (apply H; by left).
  destruct (scope_defs P !! s) as [m|]; cbn.
  - rewrite bool_decide_eq_true_2 by done. cbn.
    rewrite IH; [done|]. intros s' ?. apply H. by right.
  - apply IH. intros s' ?. apply H. by right.
Qed.

(** What [verify] must answer, read off the policy, where the database may fail. *)
Definition verify_spec (fails : Prop) (P : Policy) (c p : str) (req : list str)
    (r : result ResourceError VerificationResult) : Prop :=
  match r with
  | Ok vr =>
      if verified vr then
        ∃ g, grants P !! (c, p) = Some g ∧ (∀ s, s ∈ req → s ∈ grant_scopes g) ∧
          vr_audiences vr = grant_audiences g ∧
          ∀ k, compatible (policy_contributions P req k) = true ∧
               vr_claims vr !! k = combined (policy_contributions P req k)
      else vr = unverified ∧
        ∀ g, grants P !! (c, p) = Some g → ∃ s, s ∈ req ∧ s ∉ grant_scopes g
  | Err (ClaimConflict _) =>
      ∃ g k, grants P !! (c, p) = Some g ∧ (∀ s, s ∈ req → s ∈ grant_scopes g) ∧
        compatible (policy_contributions P req k) = false
  | Err (DatabaseError _) => fails
  | Err _ => False
  end.

(** ** [verify] *)

Section verify.
Context {W : Type} `{StoreContract W} `{HashOrder}.
Implicit Types w : W.

Lemma all_granted_spec (g : gset str) l :
  forallb (λ s, bool_decide (s ∈ g)) l = true ↔ ∀ s, s ∈ l → s ∈ g.
Proof. rewrite forallb_Forall, Forall_forall. by setoid_rewrite bool_decide_eq_true. Qed.

Lemma not_all_granted (g : gset str) l :
  forallb (λ s, bool_decide (s ∈ g)) l = false → ∃ s, s ∈ l ∧ s ∉ g.
Proof.
  intros Hf. destruct (decide (Exists (λ s, s ∉ g) l)) as [He|He].
  { apply Exists_exists in He. exact He. }
  apply not_Exists_Forall in He; [|apply _].
  assert (forallb (λ s, bool_decide (s ∈ g)) l = true) as Ht; [|congruence].
  apply forallb_Forall. eapply Forall_impl; [exact He|].
  intros s Hs. apply bool_decide_eq_true. by destruct (decide (s ∈ g)).
Qed.

(** The part of [verify] after the store has answered. *)
Lemma verify_resolved fails P g c p req :
  grants P !! (c, p) = Some g →
  verify_spec fails P c p req
    (let requested := btree_set req in
     if negb (forallb (λ s, bool_decide (s ∈ grant_scopes g)) requested) then Ok unverified
     else match try_fold (merge_scope (scope_table g (scope_defs P))) ∅ requested with
          | Ok cl => Ok {| verified := true; vr_claims := cl; vr_audiences := grant_audiences g |}
          | Err e => Err e
          end).
Proof.
  intros Hg. cbn. destruct (forallb _ _) eqn:E; cbn.
  - assert (∀ s, s ∈ req → s ∈ grant_scopes g) as Hall.
    { intros s Hs. by apply (proj1 (all_granted_spec _ _) E), btree_set_elem. }
    destruct (try_fold _ _ _) as [cl|e] eqn:Ht; cbn.
    + apply merge_scopes_spec in Ht. exists g. split_and!; [done|done|done|].
      intros k. rewrite <- (scope_table_contributions P g) by done. apply Ht.
    + apply merge_scopes_conflict in Ht as [(k & Hk) [msg ->]].
      exists g, k. by rewrite <- (scope_table_contributions P g).
  - split; [done|]. intros g' Hg'. rewrite Hg in Hg'. injection Hg' as <-.
    apply not_all_granted in E as (s & Hs & ?). exists s. by rewrite btree_set_elem in Hs.
Qed.

(** [verify] is a computation on what the store resolves. *)
Definition verify_answer (req : list str) (found : option MappingPair) :
    result ResourceError VerificationResult :=
  match found with
  | None => Ok unverified
  | Some mp =>
      if negb (forallb (λ s, bool_decide (s ∈ scopes (resource_mapping mp))) (btree_set req))
      then Ok unverified
      else (λ cl, {| verified := true; vr_claims := cl;
                     vr_audiences := audiences (resource_mapping mp) |}) <$>
           try_fold (merge_scope (scope_mappings mp)) ∅ (btree_set req)
  end.

(** [verify] asks the store, and then computes. *)
Lemma verify_phases {V : Type} `{ResourceStore V} c p req (v : V) :
  ResourceService.verify c p req v =
  let '(r, v') := resolve_mapping c p v in (r ≫= verify_answer req, v').
Proof.
  unfold ResourceService.verify, mbind at 1, eff_bind at 1.
  destruct (resolve_mapping c p v) as [[[mp|]|e] v']; cbn; [|done..].
  destruct (negb _); [done|]. rewrite lift_bind. by destruct (try_fold _ _ _).
Qed.

Lemma verify_refines c p req :
  refines store_inv view may_fail eq (ResourceService.verify c p req)
    (ResourceService.verify c p req).
Proof.
  intros w r w' Hinv. rewrite !verify_phases.
  destruct (resolve_mapping c p w) as [r1 w1] eqn:Hr. intros [= <- <-].
  destruct (resolve_mapping_refines c p _ _ _ Hinv Hr) as [? [(r0 & Hs & Hrel)|(? & [msg ->] & Hv)]];
    (split; [done|]).
  - left. cbn in Hs |- *. injection Hs as <- Hs. inversion Hrel; subst.
    exists (verify_answer req (resolve c p (view w))). rewrite <- Hs. split; [done|].
    cbn. destruct (verify_answer _ _); by constructor.
  - right. split_and!; [done|by eexists|]. cbn in Hv |- *. tauto.
Qed.

(** The computation on what the policy resolves to. *)
Lemma verify_answer_post fails P c p req : verify_spec fails P c p req (verify_answer req (resolve c p P)).
Proof.
  unfold resolve. destruct (grants P !! (c, p)) as [g|] eqn:Hg; cbn.
  - pose proof (verify_resolved fails _ _ _ _ req Hg) as Hpost. cbn in Hpost.
    destruct (negb _); [done|]. by destruct (try_fold _ _ _).
  - split; [done|]. intros g. by rewrite Hg.
Qed.

(** [verify] answers what the policy says and changes nothing. *)
Lemma verify_run c p req w r w' :
  store_inv w → ResourceService.verify c p req w = (r, w') →
  store_inv w' ∧ view w' = view w ∧ verify_spec may_fail (view w) c p req r.
Proof.
  intros Hinv. rewrite verify_phases.
  destruct (resolve_mapping c p w) as [r1 w1] eqn:Hr. intros [= <- <-].
  destruct (resolve_mapping_refines c p _ _ _ Hinv Hr) as [? [(r0 & Hs & Hrel)|(? & [msg ->] & Hv)]].
  - cbn in Hs. injection Hs as <- Hs. inversion Hrel; subst. split_and!; [done|done|].
    apply verify_answer_post.
  - split_and!; [done|by destruct Hv|done].
Qed.

(** The answer depends only on the set of requested scopes: repeating a
    scope or listing the scopes in another order changes neither the result nor
    the effect. *)
Lemma verify_scope_set c p req1 req2 w :
  (∀ s, s ∈ req1 ↔ s ∈ req2) →
  ResourceService.verify c p req1 w = ResourceService.verify c p req2 w.
Proof. intros Heq. unfold ResourceService.verify. by rewrite (btree_set_ext _ _ Heq). Qed.
End verify.


(** ** Every operation is a validation and a store call *)

#[local] Arguments ResourceService.verify : simpl never.
#[local] Arguments answer : simpl never.

Section split.
Context `{HashOrder}.

(** What an operation checks before it calls the store. *)
Definition op_valid (op : ServiceOp) : result ResourceError unit :=
  match op with
  | OpSave m | OpUpdate m => validate_resource_mapping m
  | OpSaveScopes ms => for_each validate_scope_mapping ms
  | OpUpdateScope m => validate_scope_mapping m
  | _ => Ok tt
  end.

(** The store call itself, and what is made of its answer. *)
Definition op_call {W : Type} `{ResourceStore W} (op : ServiceOp) : eff W ResourceError Answer :=
  let done := answer (λ _ : unit, Done) in
  match op with
  | OpVerify c p req => answer Verified (ResourceService.verify c p req)
  | OpSave m => done (save_mapping m)
  | OpUpdate m => done (update_mapping m)
  | OpRemove c p => done (remove_mapping c p)
  | OpRemoveFor c => done (remove_mappings_for c)
  | OpSaveScopes ms => done (save_scope_mappings ms)
  | OpUpdateScope m => done (update_scope_mapping m)
  | OpDeleteScope s => done (remove_scope_mapping s)
  | OpListMappings => answer Mappings list_mappings
  | OpListScopes => answer Scopes list_scope_mappings
  end.

(** The values for which an operation passes its check. *)
Definition op_ok (op : ServiceOp) : Prop :=
  match op with
  | OpSave m | OpUpdate m => mapping_ok m
  | OpSaveScopes ms => Forall scope_mapping_ok ms
  | OpUpdateScope m => scope_mapping_ok m
  | _ => True
  end.

Lemma run_op_split {W : Type} `{ResourceStore W} op w :
  run_op op w = (lift (op_valid op) ≫= λ _, op_call op) w.
Proof.
  rewrite lift_bind. destruct op; cbn; try done;
    unfold ResourceService.save, ResourceService.update, ResourceService.save_scope_mappings,
      ResourceService.update_scope_mapping, answer;
    unfold mbind at 1, eff_bind at 1; rewrite lift_bind; by destruct (_ : result _ unit) as [[]|].
Qed.

Lemma op_valid_Ok op : op_valid op = Ok tt ↔ op_ok op.
Proof.
  destruct op; cbn; try done; try apply validate_resource_mapping_Ok;
    try apply validate_scope_mapping_Ok.
  rewrite for_each_Ok. apply Forall_iff. intros m. apply validate_scope_mapping_Ok.
Qed.

Lemma validate_scope_mapping_Err m e :
  validate_scope_mapping m = Err e →
  (∃ msg, e = InvalidMapping msg ∧ ¬ scope_name_ok (scope m)) ∨
  (∃ k, e = ReservedClaim k ∧ is_reserved_claim k = true ∧ is_Some (claims m !! k)).
Proof.
  intros [Hv|(? & _ & Hv)]%result_bind_Err; [left|right; by apply validate_scope_claims_Err].
  assert (¬ scope_name_ok (scope m)) by (rewrite <- validate_scope_name_Ok; by rewrite Hv).
  unfold validate_scope_name in Hv. destruct (_ || _); simplify_eq. eauto.
Qed.

(** A refusal by validation is never a failure of the store. *)
Lemma op_valid_Err op e :
  op_valid op = Err e → (∃ msg, e = InvalidMapping msg) ∨ ∃ k, e = ReservedClaim k.
Proof.
  destruct op; cbn; try done; try (intros ?%validate_resource_mapping_Err; by left).
  - intros (m & _ & [(? & -> & _)|(? & -> & _)]%validate_scope_mapping_Err)%for_each_Err; eauto.
  - intros [(? & -> & _)|(? & -> & _)]%validate_scope_mapping_Err; eauto.
Qed.

Lemma answer_run {W A : Type} (f : A → Answer) (m : eff W ResourceError A) w :
  answer f m w = let '(r, w') := m w in (f <$> r, w').
Proof. unfold answer, mbind, eff_bind. by destruct (m w) as [[] ?]. Qed.
End split.

(** ** The operations on the policy *)

Section policy_ops.
Context `{HashOrder}.
Implicit Types P : Policy.

Lemma policy_verify c p req P :
  ∃ r, ResourceService.verify c p req P = (r, P) ∧ ∀ msg, r ≠ Err (DatabaseError msg).
Proof.
  unfold ResourceService.verify. cbn. unfold mbind, eff_bind, Spec.resolve_mapping.
  destruct (resolve c p P) as [mp|]; cbn; [|by eexists].
  destruct (negb _); [by eexists|]. destruct (try_fold _ _ _) eqn:E; cbn; [by eexists|].
  apply merge_scopes_conflict in E as [_ [msg ->]]. by eexists.
Qed.

(** A store call that fails on the policy does nothing. *)
Lemma policy_call_failed op P e P' :
  op_call op P = (Err e, P') → P' = P ∧ ∀ msg, e ≠ DatabaseError msg.
Proof.
  destruct op; cbn; rewrite answer_run; cbn;
    unfold Spec.save_mapping, Spec.update_mapping, Spec.save_scope_mappings,
      Spec.update_scope_mapping; try done;
    try (destruct (_ : option _); cbn; naive_solver).
  destruct (policy_verify client context requested P) as (r & -> & ?).
  destruct r; cbn; naive_solver.
Qed.

Lemma policy_op_failed op P e P' :
  run_op op P = (Err e, P') → P' = P ∧ ∀ msg, e ≠ DatabaseError msg.
Proof.
  rewrite run_op_split, lift_bind. destruct (op_valid op) as [[]|e'] eqn:E.
  - apply policy_call_failed.
  - intros [= <- <-]. split; [done|]. by destruct (op_valid_Err _ _ E) as [[? ->]|[? ->]].
Qed.

(** The target of an update is missing; the key of a creation is taken. *)
Definition op_missing (op : ServiceOp) P : Prop :=
  match op with
  | OpUpdate m => grants P !! mapping_key m = None
  | OpUpdateScope m => scope_defs P !! scope m = None
  | _ => False
  end.
Definition op_taken (op : ServiceOp) P : Prop :=
  match op with
  | OpSave m => is_Some (grants P !! mapping_key m)
  | OpSaveScopes ms =>
      ¬ (NoDup (scope <$> ms) ∧ ∀ m, m ∈ ms → scope_defs P !! scope m = None)
  | _ => False
  end.

Lemma first_conflict_free ms P :
  first_conflict (dom (scope_defs P)) ms = None ↔ ¬ op_taken (OpSaveScopes ms) P.
Proof.
  rewrite first_conflict_None. setoid_rewrite not_elem_of_dom. cbn. split; [naive_solver|].
  intros Hn. split.
  - destruct (decide (NoDup (scope <$> ms))); [done|]. destruct Hn. naive_solver.
  - intros m Hm. apply eq_None_not_Some. intros Hs. apply Hn. intros [_ Hf].
    specialize (Hf m Hm). rewrite Hf in Hs. by destruct Hs.
Qed.

(** A write succeeds on the policy exactly when it is valid, its target exists
    and its keys are free; each obstacle has its error. *)
Lemma policy_op_outcome op P r P' :
  run_op op P = (r, P') →
  match r with
  | Ok _ => op_ok op ∧ ¬ op_missing op P ∧ ¬ op_taken op P
  | Err (InvalidMapping _) | Err (ReservedClaim _) => ¬ op_ok op
  | Err (NotFound _) => op_ok op ∧ op_missing op P
  | Err (Conflict _) => op_ok op ∧ op_taken op P
  | Err (ClaimConflict _) => ∃ c p req, op = OpVerify c p req
  | Err (DatabaseError _) => False
  end.
Proof.
  rewrite run_op_split, lift_bind. pose proof (op_valid_Ok op) as Hok.
  destruct (op_valid op) as [[]|e] eqn:E.
  2: { intros [= <- <-]. destruct (op_valid_Err _ _ E) as [[? ->]|[? ->]]; naive_solver. }
  destruct Hok as [Hok _]. specialize (Hok eq_refl).
  destruct op; cbn; rewrite answer_run; cbn; try (intros [= <- <-]; cbn; naive_solver).
  - unfold ResourceService.verify. cbn. unfold mbind, eff_bind, Spec.resolve_mapping.
    destruct (resolve _ _ _); cbn; [|intros [= <- _]; naive_solver].
    destruct (negb _); [intros [= <- _]; naive_solver|].
    destruct (try_fold _ _ _) eqn:Ht; cbn; intros [= <- _]; [naive_solver|].
    apply merge_scopes_conflict in Ht as [_ [msg ->]]. eauto.
  - unfold Spec.save_mapping. destruct (grants P !! _) eqn:Eg; cbn; intros [= <- _]; cbn in *;
      split_and!; eauto.
  - unfold Spec.update_mapping. destruct (grants P !! _) eqn:Eg; cbn; intros [= <- _]; cbn in *;
      split_and!; eauto.
  - unfold Spec.save_scope_mappings. pose proof (first_conflict_free ms P) as Hf.
    destruct (first_conflict _ _) eqn:Ef; intros [= <- _]; cbn in *; split_and!; eauto; [|naive_solver].
    intros Hn. assert (Some s = None) by (apply Hf; intros Hn'; apply Hn', Hn). done.
  - unfold Spec.update_scope_mapping. destruct (scope_defs P !! _) eqn:Eg; cbn; intros [= <- _]; cbn in *;
      split_and!; eauto.
Qed.

Lemma policy_op_ok op P : policy_ok P → policy_ok (run_op op P).2.
Proof.
  intros HP. rewrite run_op_split, lift_bind. destruct (op_valid op) as [[]|e] eqn:E; [|done].
  apply op_valid_Ok in E.
  assert (∀ A (f : A → Answer) (m : eff Policy ResourceError A), policy_ok (m P).2 → policy_ok (answer f m P).2) as Hans.
  { intros A f m. rewrite answer_run. by destruct (m P). }
  destruct op; cbn in *; apply Hans; auto with jwtlet.
  by destruct (policy_verify client context requested P) as (r & -> & _).
Qed.

(** Only a creation makes a new grant. *)
Lemma policy_new_grant op P k :
  grants P !! k = None → is_Some (grants (run_op op P).2 !! k) →
  ∃ m, op = OpSave m ∧ mapping_key m = k.
Proof.
  rewrite run_op_split, lift_bind. intros Hk.
  assert (is_Some (grants P !! k) → ∃ m, op = OpSave m ∧ mapping_key m = k) as Habs
    by (rewrite Hk; by intros [? ?]).
  destruct (op_valid op) as [[]|e]; [|exact Habs].
  destruct op; cbn; rewrite answer_run; cbn;
    unfold Spec.save_mapping, Spec.update_mapping, Spec.save_scope_mappings,
      Spec.update_scope_mapping; try exact Habs.
  - by destruct (policy_verify client context requested P) as (r & -> & _).
  - destruct (grants P !! mapping_key m); cbn; [done|].
    destruct (decide (mapping_key m = k)) as [|Hne]; [by exists m|].
    by rewrite lookup_insert_ne by done.
  - destruct (grants P !! mapping_key m) eqn:E; cbn; [|done].
    destruct (decide (mapping_key m = k)) as [|Hne]; [congruence|].
    by rewrite lookup_insert_ne by done.
  - intros [g Hg]. apply lookup_delete_Some in Hg as [_ Hg]. congruence.
  - intros [g Hg]. apply map_lookup_filter_Some in Hg as [Hg _]. congruence.
  - by destruct (first_conflict _ _).
  - by destruct (scope_defs P !! _).
Qed.

Lemma policy_op_frame op P :
  (writes_grants op = false → grants (run_op op P).2 = grants P) ∧
  (writes_scopes op = false → scope_defs (run_op op P).2 = scope_defs P).
Proof.
  rewrite run_op_split, lift_bind. destruct (op_valid op) as [[]|e]; [|done].
  destruct op; cbn; rewrite answer_run; cbn;
    unfold Spec.save_mapping, Spec.update_mapping, Spec.save_scope_mappings,
      Spec.update_scope_mapping; try done; try (by destruct (_ : option _)).
  by destruct (policy_verify client context requested P) as (r & -> & _).
Qed.
End policy_ops.

(** ** The operations over a conforming store *)

Section operations.
Context {W : Type} `{StoreContract W} `{HashOrder}.
Implicit Types w : W.

(** Every operation of the service simulates the operation on the policy. *)
Lemma run_op_refines op : refines store_inv view may_fail (≡) (run_op op) (run_op op).
Proof.
  assert (∀ A (R : A → A → Prop) (f : A → Answer) spec (m : eff W ResourceError A),
    (∀ a b, R a b → f a ≡ f b) → refines store_inv view may_fail R spec m →
    refines store_inv view may_fail (≡) (answer f spec) (answer f m)) as Hans.
  { intros A R f spec m Hf. apply (refines_bind_pure _ _ (λ a, Ok (f a))); [done..|].
    intros a b ?. constructor. auto. }
  intros w r w' Hinv. rewrite !run_op_split. revert w r w' Hinv. apply refines_lift.
  intros _ _. destruct op; cbn; try (eapply Hans; [|eauto using verify_refines,
    save_mapping_refines, update_mapping_refines, remove_mapping_refines,
    remove_mappings_for_refines, save_scope_mappings_refines, update_scope_mapping_refines,
    remove_scope_mapping_refines, list_mappings_refines, list_scope_mappings_refines]);
    try (by intros a b ->); try done.
Qed.

Lemma run_op_run op w r w' :
  run_op op w = (r, w') → store_inv w →
  store_inv w' ∧ (view w' = view w ∨ view w' = (run_op op (view w)).2).
Proof. intros Hrun Hinv. by eapply refines_view; [apply run_op_refines|..]. Qed.

Lemma run_op_ok op w r w' :
  run_op op w = (r, w') → store_inv w → policy_ok (view w) →
  store_inv w' ∧ policy_ok (view w').
Proof.
  intros Hrun Hinv Hok. destruct (run_op_run _ _ _ _ Hrun Hinv) as [? [-> | ->]];
    auto using policy_op_ok.
Qed.

Lemma run_op_frame op w r w' :
  run_op op w = (r, w') → store_inv w →
  (writes_grants op = false → grants (view w') = grants (view w)) ∧
  (writes_scopes op = false → scope_defs (view w') = scope_defs (view w)).
Proof.
  intros Hrun Hinv. destruct (run_op_run _ _ _ _ Hrun Hinv) as [_ [-> | ->]]; [done|].
  apply policy_op_frame.
Qed.

(** How an operation may fail: as the policy would, or in the database. *)
Lemma run_op_failed op w e w' :
  run_op op w = (Err e, w') → store_inv w →
  (view w' = view w ∧ run_op op (view w) = (Err e, view w) ∧ ∀ msg, e ≠ DatabaseError msg) ∨
  (may_fail ∧ (∃ msg, e = DatabaseError msg) ∧
   (view w' = view w ∨ view w' = (run_op op (view w)).2)).
Proof.
  intros Hrun Hinv. destruct (run_op_refines op _ _ _ Hinv Hrun)
    as [_ [(r0 & Hs & Hrel)|(? & [msg [= ->]] & ?)]]; [left|right; eauto].
  inversion Hrel; subst. destruct (policy_op_failed _ _ _ _ Hs) as [Heq ?].
  rewrite Heq in Hs |- *. done.
Qed.

Lemma empty_batch_changes_nothing w a w' :
  run_op (OpSaveScopes []) w = (Ok a, w') → store_inv w → view w' = view w.
Proof.
  intros Hrun Hinv. destruct (run_op_run _ _ _ _ Hrun Hinv) as [_ [-> | ->]]; [done|].
  cbn. by destruct (view w).
Qed.

(** For any sequence of operations, some run of the abstract policy gives the same
    answers, one by one and up to the order of listings, and ends in the policy that
    the store then represents, apart from what a failing database loses.  What the
    operations on the policy come to is stated by [ServiceSpec]. *)
Lemma service_runs_policy ops w rs w' :
  store_inv w → run_ops ops w = (rs, w') →
  store_inv w' ∧ spec_run may_fail ops (view w) rs (view w').
Proof.
  revert w rs. induction ops as [|op ops IH]; intros w rs Hinv; cbn.
  { intros [= <- <-]. split; [done|constructor]. }
  destruct (run_op op w) as [r w1] eqn:Hop, (run_ops ops w1) as [rs1 w2] eqn:Hops.
  intros [= <- <-]. destruct (run_op_refines op _ _ _ Hinv Hop) as [Hinv1 Hcase].
  destruct (IH _ _ Hinv1 Hops) as [Hinv2 Hrest]. split; [done|].
  destruct Hcase as [(r0 & Hs & Hrel)|(? & [msg ->] & Hv)].
  - by eapply spec_answered.
  - by eapply spec_lost.
Qed.

(** Where no failure of a database comes in between, a store answers a sequence of
    operations as the policy does. *)
Lemma run_ops_exact ops w rs w' :
  store_inv w → run_ops ops w = (rs, w') →
  (∀ msg, Err (DatabaseError msg) ∉ rs) ∨ ¬ may_fail →
  ∃ rs0, run_ops ops (view w) = (rs0, view w') ∧ Forall2 (result_rel (≡)) rs0 rs.
Proof.
  revert w rs. induction ops as [|op ops IH]; intros w rs Hinv; cbn.
  { intros [= <- <-] _. by exists []. }
  destruct (run_op op w) as [r w1] eqn:Hop, (run_ops ops w1) as [rs1 w2] eqn:Hops.
  intros [= <- <-] Hno. destruct (run_op_refines op _ _ _ Hinv Hop) as [Hinv1 Hcase].
  destruct Hcase as [(r0 & Hs & Hrel)|(? & [msg ->] & _)].
  2: { destruct Hno as [Hno|?]; [|done]. destruct (Hno msg). by left. }
  destruct (IH _ _ Hinv1 Hops) as (rs0 & Hrest & Hrels).
  { destruct Hno as [Hno|?]; [left|by right]. intros msg Hin. apply (Hno msg). by right. }
  exists (r0 :: rs0). rewrite Hs, Hrest. split; [done|by constructor].
Qed.

(** C9 Whatever operations clients run, the store keeps its invariant and the
    policy stays well formed: no scope definition ever holds a reserved claim, no
    scope name is empty or holds whitespace, and no grant has a blank client,
    context or audience. *)
Theorem reachable_policy_ok ops w rs w' :
  store_inv w → policy_ok (view w) → run_ops ops w = (rs, w') →
  store_inv w' ∧ policy_ok (view w').
Proof.
  revert w rs. induction ops as [|op ops IH]; intros w rs Hinv Hok; cbn; [by intros [= <- <-]|].
  destruct (run_op op w) as [r w1] eqn:Hop, (run_ops ops w1) as [rs1 w2] eqn:Hops.
  intros [= <- <-]. destruct (run_op_ok _ _ _ _ Hop Hinv Hok). by eapply IH.
Qed.

(** An operation that fails changes nothing.  Unless the database failed, the
    policy is as it was and the error is the one the policy itself gives; after a
    database failure the policy is as it was or as the operation would have left
    it, never in between. *)
Lemma failed_operation_atomic op w e w' :
  store_inv w → run_op op w = (Err e, w') →
  match e with
  | DatabaseError _ => may_fail ∧ (view w' = view w ∨ view w' = (run_op op (view w)).2)
  | _ => view w' = view w ∧ run_op op (view w) = (Err e, view w)
  end.
Proof.
  intros Hinv Hrun. destruct (run_op_failed _ _ _ _ Hrun Hinv)
    as [(? & ? & He)|(? & [msg ->] & ?)]; [|done].
  destruct e; try done. by destruct (He msg).
Qed.

(** C8 [verify] decides exactly by the policy: it reports [verified] if and only
    if a grant for the client and the context exists and covers every requested
    scope; it then hands on the grant's audiences and, key by key, the combination
    of the claims that the requested scopes define.  A claim conflict is reported
    only when two of these cannot be combined; a store failure is passed on; the
    policy is never changed. *)
Theorem verify_decides c p req w r w' :
  store_inv w → ResourceService.verify c p req w = (r, w') →
  let P := view w in
  let granted := ∃ g, grants P !! (c, p) = Some g ∧ ∀ s, s ∈ req → s ∈ grant_scopes g in
  view w' = P ∧
  match r with
  | Ok vr =>
      (verified vr = true ↔ granted) ∧ (verified vr = false → vr = unverified) ∧
      (verified vr = true →
         grant_audiences <$> grants P !! (c, p) = Some (vr_audiences vr) ∧
         ∀ k, compatible (policy_contributions P req k) = true ∧
              vr_claims vr !! k = combined (policy_contributions P req k))
  | Err (ClaimConflict _) => granted ∧ ∃ k, compatible (policy_contributions P req k) = false
  | Err (DatabaseError _) => may_fail
  | Err _ => False
  end.
Proof.
  intros Hinv Hv P granted. destruct (verify_run _ _ _ _ _ _ Hinv Hv) as (_ & ? & Hpost).
  split; [done|]. destruct r as [vr|[]]; cbn in Hpost; try done.
  - destruct (verified vr) eqn:E.
    + destruct Hpost as (g & Hg & Hall & Haud & Hcl). split_and!; [|done|].
      * split; [|done]. intros _. by exists g.
      * intros _. unfold P. by rewrite Hg, Haud.
    + destruct Hpost as [-> Hmiss]. split_and!; [|done..]. split; [done|].
      intros (g & Hg & Hall). destruct (Hmiss _ Hg) as (s & ? & []). auto.
  - destruct Hpost as (g & k & Hg & Hall & Hk). split; [by exists g|by exists k].
Qed.
End operations.
