(* ===== verification/ServiceProps.v ===== *)
(** * ServiceProps: the write path of [ResourceService], branch by branch

    What a successful or failed write does to the policy, and what the next check
    sees, over any conforming store. *)

From S2P Require Import Prelude Text Json Resource Policy Service.

(** A validation followed by a store call, run. *)
Lemma lift_then {W E A B : Type} (r : result E A) (m : A → eff W E B) w r' w' :
  (lift r ≫= m) w = (r', w') →
  (∃ e, r = Err e ∧ r' = Err e ∧ w' = w) ∨ (∃ a, r = Ok a ∧ m a w = (r', w')).
Proof. rewrite lift_bind. destruct r; naive_solver. Qed.

(** ** Each write, branch by branch *)

Section writes.
Context {W : Type} `{StoreContract W} `{HashOrder}.
Implicit Types w : W.

Lemma insert_scopes_dom (defs : gmap str JsonMap) ms s :
  NoDup (scope <$> ms) → s ∉ scope <$> ms → insert_scopes defs ms !! s = defs !! s.
Proof.
  intros Hnd Hs. rewrite insert_scopes_lookup by done.
  destruct (list_find _ _) as [[i m]|] eqn:E; [|done].
  apply list_find_Some in E as (Hi & <- & _). destruct Hs.
  apply list_elem_of_fmap_2. by eapply list_elem_of_lookup_2.
Qed.

Lemma insert_scopes_new (defs : gmap str JsonMap) ms m :
  NoDup (scope <$> ms) → m ∈ ms → insert_scopes defs ms !! scope m = Some (claims m).
Proof.
  intros Hnd Hm. rewrite insert_scopes_lookup by done.
  destruct (list_find_elem_of (λ m', scope m' = scope m) ms m Hm eq_refl) as [[i m'] E].
  rewrite E. apply list_find_Some in E as (Hi & Heq & _). do 2 f_equal.
  apply list_elem_of_lookup in Hm as [j Hj].
  assert (i = j) as ->; [|congruence].
  eapply NoDup_lookup; [exact Hnd|rewrite list_lookup_fmap, Hi; done|].
  rewrite list_lookup_fmap, Hj. cbn. by rewrite Heq.
Qed.

Lemma first_conflict_Some taken ms s :
  first_conflict taken ms = Some s →
  s ∈ scope <$> ms ∧ (s ∈ taken ∨ ¬ NoDup (scope <$> ms)).
Proof.
  intros Hf. split.
  - revert taken Hf. induction ms as [|m ms IH]; intros taken; cbn; [done|].
    case_bool_decide; [intros [= <-]; by left|]. intros ?%IH. by right.
  - destruct (decide (s ∈ taken)); [by left|right]. intros Hnd.
    revert taken n Hf Hnd. induction ms as [|m ms IH]; intros taken Hs; cbn; [done|].
    case_bool_decide; [intros [= <-]; done|]. intros Hf [Hm Hnd]%NoDup_cons.
    destruct (decide (s = scope m)) as [->|].
    + clear IH. assert (scope m ∈ scope <$> ms) as Hin; [|done].
      revert Hf. generalize ({[scope m]} ∪ taken). clear.
      induction ms as [|m' ms IH]; intros t; cbn; [done|].
      case_bool_decide; [intros [= <-]; by left|]. intros ?%IH. by right.
    + eapply IH; [|exact Hf|done]. set_solver.
Qed.

(** C17 Creating a batch of scope mappings is all or nothing.  On success every
    mapping of the batch was valid, no scope was taken or repeated, each scope now
    has the claims of its mapping and nothing else changed.  A validation error or
    a conflict names an offending mapping and leaves the policy as it was; a
    database error leaves either the old policy or the complete new one. *)
Theorem save_scope_mappings_atomic ms w r w' :
  store_inv w → ResourceService.save_scope_mappings ms w = (r, w') →
  let inserted :=
    grants (view w') = grants (view w) ∧
    (∀ m, m ∈ ms → scope_defs (view w') !! scope m = Some (claims m)) ∧
    (∀ s, s ∉ scope <$> ms → scope_defs (view w') !! s = scope_defs (view w) !! s) in
  match r with
  | Ok _ =>
      Forall scope_mapping_ok ms ∧ NoDup (scope <$> ms) ∧
      (∀ m, m ∈ ms → scope_defs (view w) !! scope m = None) ∧ inserted
  | Err (Conflict s) =>
      view w' = view w ∧ s ∈ scope <$> ms ∧
      (is_Some (scope_defs (view w) !! s) ∨ ¬ NoDup (scope <$> ms))
  | Err (ReservedClaim k) =>
      view w' = view w ∧ is_reserved_claim k = true ∧ ∃ m, m ∈ ms ∧ is_Some (claims m !! k)
  | Err (InvalidMapping _) =>
      view w' = view w ∧ ∃ m, m ∈ ms ∧ ¬ scope_name_ok (scope m)
  | Err (DatabaseError _) => may_fail ∧ (view w' = view w ∨ inserted)
  | Err _ => False
  end.
Proof.
  intros Hinv Hrun inserted.
  assert (∀ P, first_conflict (dom (scope_defs (view w))) ms = None →
    P = {| grants := grants (view w); scope_defs := insert_scopes (scope_defs (view w)) ms |} →
    view w' = P → inserted) as Hins.
  { intros P [Hnd _]%first_conflict_None -> Hview. unfold inserted. rewrite Hview. cbn.
    split_and!; [done|intros; by apply insert_scopes_new|intros; by apply insert_scopes_dom]. }
  apply lift_then in Hrun as [(e & Hv & -> & ->)|([] & Hv & Hrun)].
  - apply for_each_Err in Hv as (m & Hm & Hv).
    apply validate_scope_mapping_Err in Hv as [(? & -> & ?)|(? & -> & ? & ?)]; eauto 6.
  - destruct (save_scope_mappings_refines ms _ _ _ Hinv Hrun)
      as [_ [(r0 & Hs & Hrel)|(Hmf & [msg ->] & Hview)]];
      unfold Spec.save_scope_mappings in *; destruct (first_conflict _ _) as [x|] eqn:Hfc.
    + injection Hs as <- Hview. inversion Hrel; subst; clear Hrel.
      apply first_conflict_Some in Hfc as [? Ht]. rewrite elem_of_dom in Ht. auto.
    + injection Hs as <- Hview. inversion Hrel as [? ? Htt|]; subst; clear Hrel.
      pose proof Hfc as [Hnd Hnew]%first_conflict_None. split_and!.
      * apply for_each_Ok in Hv. eapply Forall_impl; [exact Hv|].
        intros m. apply validate_scope_mapping_Ok.
      * done.
      * intros m Hm. apply not_elem_of_dom. by apply Hnew.
      * by eapply Hins.
    + cbn in Hview. split; [done|]. left. by destruct Hview.
    + cbn in Hview. split; [done|]. destruct Hview; [by left|right]. by eapply Hins.
Qed.
End writes.

Section write_then_read.
Context {W : Type} `{StoreContract W} `{HashOrder}.
Implicit Types w : W.

Lemma save_success m w w' :
  store_inv w → ResourceService.save m w = (Ok tt, w') →
  store_inv w' ∧ mapping_ok m ∧ grants (view w) !! mapping_key m = None ∧
  grants (view w') = <[mapping_key m := grant_of m]> (grants (view w)) ∧
  scope_defs (view w') = scope_defs (view w).
Proof.
  intros Hinv [(? & _ & ? & _)|([] & Hv%validate_resource_mapping_Ok & Hrun)]%lift_then; [done|].
  destruct (refines_success _ _ _ _ _ (save_mapping_refines m) Hinv Hrun) as [? Hs].
  unfold Spec.save_mapping in Hs. destruct (grants _ !! _) eqn:E; [done|].
  injection Hs as Hs. by rewrite <- Hs.
Qed.

Lemma update_success m w w' :
  store_inv w → ResourceService.update m w = (Ok tt, w') →
  store_inv w' ∧ mapping_ok m ∧ is_Some (grants (view w) !! mapping_key m) ∧
  grants (view w') = <[mapping_key m := grant_of m]> (grants (view w)) ∧
  scope_defs (view w') = scope_defs (view w).
Proof.
  intros Hinv [(? & _ & ? & _)|([] & Hv%validate_resource_mapping_Ok & Hrun)]%lift_then; [done|].
  destruct (refines_success _ _ _ _ _ (update_mapping_refines m) Hinv Hrun) as [? Hs].
  unfold Spec.update_mapping in Hs. destruct (grants _ !! _) eqn:E; [|done].
  injection Hs as Hs. by rewrite <- Hs.
Qed.

(** C18 A mapping that was created or replaced governs the very next check of
    its client and context: the check succeeds exactly for the subsets of the
    mapping's scopes (or reports a claim conflict or a store failure), and it hands
    on the mapping's audiences. *)
Theorem write_then_verify m req w w1 vr w2 :
  store_inv w →
  ResourceService.save m w = (Ok tt, w1) ∨ ResourceService.update m w = (Ok tt, w1) →
  ResourceService.verify (client_identifier m) (participant_context m) req w1 = (Ok vr, w2) →
  (verified vr = true ↔ ∀ s, s ∈ req → s ∈ scopes m) ∧
  (verified vr = true → vr_audiences vr = audiences m).
Proof.
  intros Hinv Hw Hv.
  assert (store_inv w1 ∧ grants (view w1) !! mapping_key m = Some (grant_of m)) as [Hinv1 Hg].
  { destruct Hw as [Hw|Hw]; [apply save_success in Hw as (? & _ & _ & -> & _)|
      apply update_success in Hw as (? & _ & _ & -> & _)];
      try done; (split; [done|apply lookup_insert_eq]). }
  apply verify_run in Hv as (_ & _ & Hpost); [|done].
  unfold verify_spec in Hpost. destruct (verified vr) eqn:E.
  - destruct Hpost as (g & Hg' & Hall & Haud & _). unfold mapping_key in Hg.
    rewrite Hg in Hg'. injection Hg' as <-. done.
  - destruct Hpost as (_ & Hmiss). destruct (Hmiss _ Hg) as (s & Hs & Hns).
    split; [|done]. split; [done|]. intros Hall. by destruct Hns; apply Hall.
Qed.

(** C19 Revocation is immediate: once a mapping, or every mapping of its client,
    has been removed, a check for that client and context no longer verifies any
    set of scopes, not even the empty one. *)
Theorem remove_then_verify c p req w w1 r w2 :
  store_inv w →
  ResourceService.remove c p w = (Ok tt, w1) ∨ ResourceService.remove_for c w = (Ok tt, w1) →
  ResourceService.verify c p req w1 = (r, w2) →
  r = Ok unverified ∨ may_fail ∧ ∃ msg, r = Err (DatabaseError msg).
Proof.
  intros Hinv Hw Hv.
  assert (store_inv w1 ∧ grants (view w1) !! (c, p) = None) as [Hinv1 Hg].
  { destruct Hw as [Hw|Hw].
    - destruct (refines_success _ _ _ _ _ (remove_mapping_refines c p) Hinv Hw) as [? Hs].
      injection Hs as Hs. rewrite <- Hs. cbn. split; [done|apply lookup_delete_eq].
    - destruct (refines_success _ _ _ _ _ (remove_mappings_for_refines c) Hinv Hw) as [? Hs].
      injection Hs as Hs. rewrite <- Hs. cbn. split; [done|].
      apply map_lookup_filter_None. right. intros g _ []. done. }
  apply verify_run in Hv as (_ & _ & Hpost); [|done]. unfold verify_spec in Hpost.
  destruct r as [vr|[]]; try done; try by (destruct Hpost as (? & ? & ? & _); congruence).
  - destruct (verified vr); [destruct Hpost as (? & ? & _); congruence|left; f_equal; apply Hpost].
  - eauto.
Qed.
End write_then_read.
