(* ===== verification/ServiceSpec.v ===== *)
(** * ServiceSpec: what [ResourceService] promises

    The contract of the service in terms of the policy alone, operation by operation:
    which answers are right and what becomes of the policy.  Nothing of the program is
    used to state it, not even its validation; a refusal has a cause in the request or in
    the policy ([mapping_fault], [scope_fault], [takes_a_name]). *)

From S2P Require Import Prelude Text Json Resource Policy Service ServiceProps.

(** ** Causes of a refusal *)

(** In the order in which they are looked for; of several scopes any one may be named. *)
Inductive mapping_fault (m : ResourceMapping) : ResourceError → Prop :=
  | blank_client :
      blank (client_identifier m) →
      mapping_fault m (InvalidMapping "clientIdentifier must not be empty"%s)
  | blank_context :
      ¬ blank (client_identifier m) → blank (participant_context m) →
      mapping_fault m (InvalidMapping "participantContext must not be empty"%s)
  | bad_scope s :
      ¬ blank (client_identifier m) → ¬ blank (participant_context m) →
      s ∈ scopes m → ¬ scope_name_ok s →
      mapping_fault m (InvalidMapping ("scope '" +:+ s +:+ "' must be non-empty and contain no whitespace")%s)
  | blank_audience a :
      ¬ blank (client_identifier m) → ¬ blank (participant_context m) →
      set_Forall scope_name_ok (scopes m) → a ∈ audiences m → blank a →
      mapping_fault m (InvalidMapping "audiences must not contain empty values"%s).

Inductive scope_fault (m : ScopeMapping) : ResourceError → Prop :=
  | bad_name :
      ¬ scope_name_ok (scope m) →
      scope_fault m (InvalidMapping ("scope '" +:+ scope m +:+ "' must be non-empty and contain no whitespace")%s)
  | reserved_claim k :
      scope_name_ok (scope m) → k ∈ ["sub"; "iss"; "aud"; "exp"; "iat"; "nbf"; "act"; "jti"]%s →
      is_Some (claims m !! k) → scope_fault m (ReservedClaim k).

(** The first mapping of a batch with a fault. *)
Definition batch_fault (ms : list ScopeMapping) (e : ResourceError) : Prop :=
  ∃ l1 m l2, ms = l1 ++ m :: l2 ∧ Forall scope_mapping_ok l1 ∧ scope_fault m e.

(** The first mapping of a batch whose name is taken, by the policy or before it. *)
Definition takes_a_name (P : Policy) (ms : list ScopeMapping) (s : str) : Prop :=
  ∃ l1 m l2, ms = l1 ++ m :: l2 ∧ scope m = s ∧ NoDup (scope <$> l1) ∧
    (∀ m', m' ∈ l1 → scope_defs P !! scope m' = None) ∧
    (is_Some (scope_defs P !! s) ∨ s ∈ scope <$> l1).

(** ** The promise of each operation *)

Definition with_grants (g : gmap (str * str) Grant) (P : Policy) : Policy :=
  {| grants := g; scope_defs := scope_defs P |}.
Definition with_scope_defs (d : gmap str JsonMap) (P : Policy) : Policy :=
  {| grants := grants P; scope_defs := d |}.

(** The operation [op], asked in [P], may answer [r] and leave [P']. *)
Definition promised (op : ServiceOp) (P : Policy) (r : result ResourceError Answer) (P' : Policy) : Prop :=
  match op with
  | OpVerify c p req =>
      P' = P ∧
      match r with
      | Ok (Verified vr) => verify_spec False P c p req (Ok vr)
      | Err e => verify_spec False P c p req (Err e)
      | _ => False
      end
  | OpSave m =>
      (∃ e, mapping_fault m e ∧ r = Err e ∧ P' = P) ∨
      (mapping_ok m ∧
       match grants P !! (client_identifier m, participant_context m) with
       | Some _ => r = Err (Conflict (client_identifier m)) ∧ P' = P
       | None => r = Ok Done ∧
           P' = with_grants (<[(client_identifier m, participant_context m) :=
                  {| grant_scopes := scopes m; grant_audiences := audiences m |}]> (grants P)) P
       end)
  | OpUpdate m =>
      (∃ e, mapping_fault m e ∧ r = Err e ∧ P' = P) ∨
      (mapping_ok m ∧
       match grants P !! (client_identifier m, participant_context m) with
       | None => r = Err (NotFound (client_identifier m)) ∧ P' = P
       | Some _ => r = Ok Done ∧
           P' = with_grants (<[(client_identifier m, participant_context m) :=
                  {| grant_scopes := scopes m; grant_audiences := audiences m |}]> (grants P)) P
       end)
  | OpRemove c p => r = Ok Done ∧ P' = with_grants (delete (c, p) (grants P)) P
  | OpRemoveFor c => r = Ok Done ∧ P' = with_grants (filter (λ kg, kg.1.1 ≠ c) (grants P)) P
  | OpSaveScopes ms =>
      (∃ e, batch_fault ms e ∧ r = Err e ∧ P' = P) ∨
      (Forall scope_mapping_ok ms ∧ ∃ s, takes_a_name P ms s ∧ r = Err (Conflict s) ∧ P' = P) ∨
      (Forall scope_mapping_ok ms ∧ NoDup (scope <$> ms) ∧
       (∀ m, m ∈ ms → scope_defs P !! scope m = None) ∧ r = Ok Done ∧
       grants P' = grants P ∧
       (∀ m, m ∈ ms → scope_defs P' !! scope m = Some (claims m)) ∧
       (∀ s, s ∉ scope <$> ms → scope_defs P' !! s = scope_defs P !! s))
  | OpUpdateScope m =>
      (∃ e, scope_fault m e ∧ r = Err e ∧ P' = P) ∨
      (scope_mapping_ok m ∧
       match scope_defs P !! scope m with
       | None => r = Err (NotFound (scope m)) ∧ P' = P
       | Some _ => r = Ok Done ∧ P' = with_scope_defs (<[scope m := claims m]> (scope_defs P)) P
       end)
  | OpDeleteScope s => r = Ok Done ∧ P' = with_scope_defs (delete s (scope_defs P)) P
  | OpListMappings =>
      P' = P ∧ ∃ l, r = Ok (Mappings l) ∧ NoDup l ∧
        ∀ m, m ∈ l ↔ grants P !! (client_identifier m, participant_context m) =
                       Some {| grant_scopes := scopes m; grant_audiences := audiences m |}
  | OpListScopes =>
      P' = P ∧ ∃ l, r = Ok (Scopes l) ∧ NoDup l ∧ ∀ m, m ∈ l ↔ scope_defs P !! scope m = Some (claims m)
  end.

(** The runs that the promises allow, where a database that may fail loses an operation
    whole, before or after it took effect. *)
Inductive promised_run (fails : Prop) :
    list ServiceOp → Policy → list (result ResourceError Answer) → Policy → Prop :=
  | promised_end P : promised_run fails [] P [] P
  | promised_answer op ops P r P1 rs P2 :
      promised op P r P1 → promised_run fails ops P1 rs P2 →
      promised_run fails (op :: ops) P (r :: rs) P2
  | promised_loss op ops P msg P1 rs P2 :
      fails → P1 = P ∨ (∃ r0, promised op P r0 P1) → promised_run fails ops P1 rs P2 →
      promised_run fails (op :: ops) P (Err (DatabaseError msg) :: rs) P2.

(** ** The service over the policy keeps the promises *)

Lemma validate_scope_name_fault s e :
  validate_scope_name s = Err e →
  ¬ scope_name_ok s ∧ e = InvalidMapping ("scope '" +:+ s +:+ "' must be non-empty and contain no whitespace")%s.
Proof.
  intros Hv. split; [rewrite <- validate_scope_name_Ok; by rewrite Hv|].
  unfold validate_scope_name in Hv. destruct (_ || _); by simplify_eq.
Qed.

Lemma validate_scope_mapping_fault m e : validate_scope_mapping m = Err e → scope_fault m e.
Proof.
  intros [[Hn ->]%validate_scope_name_fault|([] & Hn%validate_scope_name_Ok & Hv)]%result_bind_Err;
    [by constructor|].
  apply validate_scope_claims_Err in Hv as (k & -> & Hk%is_reserved_claim_spec & Hs).
  by constructor.
Qed.

Lemma for_each_first {E A : Type} (f : A → result E unit) l e :
  for_each f l = Err e →
  ∃ l1 x l2, l = l1 ++ x :: l2 ∧ Forall (λ y, f y = Ok tt) l1 ∧ f x = Err e.
Proof.
  induction l as [|x l IH]; cbn; [done|].
  intros [Hx|([] & Hx & (l1 & y & l2 & -> & Hl1 & Hy)%IH)]%result_bind_Err.
  - exists [], x, l. by split_and!.
  - exists (x :: l1), y, l2. split_and!; [done|by constructor|done].
Qed.

Lemma first_conflict_first taken ms s :
  first_conflict taken ms = Some s →
  ∃ l1 m l2, ms = l1 ++ m :: l2 ∧ scope m = s ∧ NoDup (scope <$> l1) ∧
    (∀ m', m' ∈ l1 → scope m' ∉ taken) ∧ (s ∈ taken ∨ s ∈ scope <$> l1).
Proof.
  revert taken. induction ms as [|m ms IH]; intros taken; cbn; [done|].
  case_bool_decide as Ht.
  { intros [= <-]. exists [], m, ms. split_and!; [done|done|constructor| |by left].
    by intros m' ?%not_elem_of_nil. }
  intros (l1 & m1 & l2 & -> & Hs & Hnd & Hfree & Hin)%IH. exists (m :: l1), m1, l2. cbn.
  split_and!; [done|done| | |set_solver].
  - apply NoDup_cons. split; [|done]. intros (m' & Heq & Hm')%list_elem_of_fmap.
    specialize (Hfree m' Hm'). set_solver.
  - intros m' [->|Hm']%elem_of_cons; [done|]. specialize (Hfree m' Hm'). set_solver.
Qed.

#[local] Arguments ResourceService.verify : simpl never.

Section keeps.
Context `{HashOrder}.
Implicit Types P : Policy.

Lemma validate_resource_mapping_fault m e : validate_resource_mapping m = Err e → mapping_fault m e.
Proof.
  unfold validate_resource_mapping.
  destruct (is_empty (trim (client_identifier m))) eqn:Ec.
  { intros [= <-]. constructor. rewrite trim_empty in Ec. exact Ec. }
  destruct (is_empty (trim (participant_context m))) eqn:Ep.
  { intros [= <-]. apply trim_blank in Ec. constructor; [done|]. rewrite trim_empty in Ep. exact Ep. }
  apply trim_blank in Ec, Ep.
  intros [(s & Hs%hash_set_iter_elem & [Hn ->]%validate_scope_name_fault)%for_each_Err
         |([] & Hs & Ha)]%result_bind_Err; [by constructor|].
  destruct (existsb _ _) eqn:Ea; simplify_eq. apply existsb_exists in Ea as (a & Hin & Hb).
  rewrite <- list_elem_of_In, hash_set_iter_elem in Hin. rewrite trim_empty in Hb.
  apply (blank_audience m a); try done. intros s Hin'. apply validate_scope_name_Ok.
  apply for_each_Ok in Hs. rewrite Forall_forall in Hs. by apply Hs, hash_set_iter_elem.
Qed.

Lemma policy_list_mappings P m :
  m ∈ ((λ kg : str * str * Grant, mapping_of kg.1 kg.2) <$> map_to_list (grants P)) ↔
  grants P !! mapping_key m = Some (grant_of m).
Proof.
  rewrite list_elem_of_fmap. split.
  - intros ([[c p] [gs ga]] & -> & Hin%elem_of_map_to_list). exact Hin.
  - intros Hm. exists (mapping_key m, grant_of m). split; [by destruct m|].
    by apply elem_of_map_to_list.
Qed.

Lemma mappings_NoDup (g : gmap (str * str) Grant) :
  NoDup ((λ kg : str * str * Grant, mapping_of kg.1 kg.2) <$> map_to_list g).
Proof.
  apply NoDup_fmap_2; [|apply NoDup_map_to_list].
  intros [[c1 p1] [s1 a1]] [[c2 p2] [s2 a2]]. by intros [= -> -> -> ->].
Qed.

Lemma scopes_NoDup (d : gmap str JsonMap) :
  NoDup ((λ sm : str * JsonMap, {| scope := sm.1; claims := sm.2 |}) <$> map_to_list d).
Proof.
  apply NoDup_fmap_2; [|apply NoDup_map_to_list].
  intros [s1 m1] [s2 m2]. by intros [= -> ->].
Qed.

(** A listing has the mappings of the policy, in some order. *)
Lemma listed_mappings P l :
  ((λ kg : str * str * Grant, mapping_of kg.1 kg.2) <$> map_to_list (grants P)) ≡ₚ l →
  promised OpListMappings P (Ok (Mappings l)) P.
Proof.
  intros Hl. split; [done|]. exists l. split_and!; [done|rewrite <- Hl; apply mappings_NoDup|].
  intros m. rewrite <- Hl. apply policy_list_mappings.
Qed.

Lemma listed_scopes P l :
  ((λ sm : str * JsonMap, {| scope := sm.1; claims := sm.2 |}) <$> map_to_list (scope_defs P)) ≡ₚ l →
  promised OpListScopes P (Ok (Scopes l)) P.
Proof.
  intros Hl. split; [done|]. exists l. split_and!; [done|rewrite <- Hl; apply scopes_NoDup|].
  intros m. rewrite <- Hl, list_elem_of_fmap. split.
  - intros ([s c] & -> & Hin%elem_of_map_to_list). exact Hin.
  - intros Hm. exists (scope m, claims m). split; [by destruct m|]. by apply elem_of_map_to_list.
Qed.

(** What validation refuses has a fault, and nothing is done. *)
Lemma refused_promised op e P : op_valid op = Err e → promised op P (Err e) P.
Proof.
  destruct op; cbn; try done.
  - intros Hf%validate_resource_mapping_fault. left. eauto.
  - intros Hf%validate_resource_mapping_fault. left. eauto.
  - intros (l1 & m & l2 & -> & Hl1 & Hf%validate_scope_mapping_fault)%for_each_first.
    left. exists e. split_and!; [|done..]. exists l1, m, l2. split_and!; [done| |done].
    eapply Forall_impl; [exact Hl1|]. intros m'. apply validate_scope_mapping_Ok.
  - intros Hf%validate_scope_mapping_fault. left. eauto.
Qed.

Lemma saved_scopes_promised ms P r P' :
  Forall scope_mapping_ok ms → Spec.save_scope_mappings ms P = (r, P') →
  promised (OpSaveScopes ms) P ((λ _, Done) <$> r) P'.
Proof.
  intros Hok. unfold Spec.save_scope_mappings. destruct (first_conflict _ _) as [s|] eqn:Ef;
    intros [= <- <-]; right.
  - left. split; [done|]. exists s. split; [|done].
    apply first_conflict_first in Ef as (l1 & m & l2 & -> & Hs & Hnd & Hfree & Hin).
    exists l1, m, l2. split_and!; [done..| |by rewrite <- elem_of_dom].
    intros m' Hm'. by apply not_elem_of_dom, Hfree.
  - right. apply first_conflict_None in Ef as [Hnd Hfree]. split_and!; [done|done| |done|done|..].
    + intros m Hm. by apply not_elem_of_dom, Hfree.
    + intros m Hm. by apply insert_scopes_new.
    + intros s Hs. by apply insert_scopes_dom.
Qed.

Lemma done_related (r0 : result ResourceError unit) (r : result ResourceError Answer) :
  result_rel (≡) ((λ _, Done) <$> r0) r → r = (λ _, Done) <$> r0.
Proof. destruct r0; inversion 1 as [? b Hb|]; subst; [by rewrite Hb|done]. Qed.

(** The store call of an operation, after its validation. *)
Lemma call_promised op P r0 r P' :
  op_ok op → op_call op P = (r0, P') → result_rel (≡) r0 r → promised op P r P'.
Proof.
  intros Hok. destruct op; cbn [op_call]; rewrite answer_run; cbn.
  - rewrite verify_phases. cbn. intros [= <- <-].
    pose proof (verify_answer_post False P client context requested) as Hpost.
    destruct (verify_answer _ _); cbn; inversion 1 as [? b Hb|]; subst; [by rewrite <- Hb|done].
  - unfold Spec.save_mapping. destruct (grants P !! mapping_key m) eqn:E; cbn;
      intros [= <- <-] Hr; right; cbn; unfold mapping_key in E; rewrite E;
      inversion Hr as [? b Hb|]; subst; by try rewrite Hb.
  - unfold Spec.update_mapping. destruct (grants P !! mapping_key m) eqn:E; cbn;
      intros [= <- <-] Hr; right; cbn; unfold mapping_key in E; rewrite E;
      inversion Hr as [? b Hb|]; subst; by try rewrite Hb.
  - intros [= <- <-] ->%(done_related (Ok tt)). done.
  - intros [= <- <-] ->%(done_related (Ok tt)). done.
  - destruct (Spec.save_scope_mappings ms P) as [r1 P1] eqn:E. intros [= <- <-] ->%done_related.
    by apply saved_scopes_promised.
  - unfold Spec.update_scope_mapping. destruct (scope_defs P !! scope m) eqn:E; cbn;
      intros [= <- <-] Hr; right; cbn;
      inversion Hr as [? b Hb|]; subst; by try rewrite Hb.
  - intros [= <- <-] ->%(done_related (Ok tt)). done.
  - intros [= <- <-]. inversion 1 as [? [] Hb|]; subst; try done. by apply listed_mappings.
  - intros [= <- <-]. inversion 1 as [? [] Hb|]; subst; try done. by apply listed_scopes.
Qed.

Lemma op_promised op P r0 r P' :
  run_op op P = (r0, P') → result_rel (≡) r0 r → promised op P r P'.
Proof.
  rewrite run_op_split, lift_bind. destruct (op_valid op) as [[]|e] eqn:E.
  - apply call_promised. by apply op_valid_Ok.
  - intros [= <- <-]. inversion 1; subst. by apply refused_promised.
Qed.

Lemma spec_run_promised fails ops P rs P2 :
  spec_run fails ops P rs P2 → promised_run fails ops P rs P2.
Proof.
  induction 1 as [P|op ops P r0 r P1 rs P2 Hop Hr _ IH|op ops P msg P1 rs P2 Hf HP _ IH].
  - constructor.
  - eapply promised_answer; [by eapply op_promised|done].
  - eapply promised_loss; [done| |done]. destruct HP as [->|HP]; [by left|right].
    destruct (run_op op P) as [r0 P3] eqn:E. subst. exists r0. by eapply op_promised.
Qed.
End keeps.

(** ** The service over a store keeps them *)

(** C6 The service over any conforming store keeps the promise of each of its
    operations, for any sequence of operations: every answer and every change of the
    policy is the one that [promised] states of the policy before it, whose terms
    are those of the policy alone.  Only a store that may fail answers otherwise,
    with a database error, and then the operation was carried out completely or not
    at all. *)
Theorem service_refines_policy {W : Type} `{StoreContract W} `{HashOrder} ops (w : W) rs w' :
  store_inv w → run_ops ops w = (rs, w') →
  store_inv w' ∧ promised_run may_fail ops (view w) rs (view w').
Proof.
  intros Hinv Hrun. destruct (service_runs_policy _ _ _ _ Hinv Hrun) as [? Hspec].
  split; [done|by apply spec_run_promised].
Qed.
