(* ===== verification/PgTypes.v ===== *)
(** * PgTypes: what the rows of the Postgres store look like

    The columns are typed more loosely than the program's data: [claims] is any JSON
    document, and an array may repeat an entry.  The store only ever writes objects and
    arrays without repetition, so reading a row back loses nothing. *)

From S2P Require Import Prelude Text Json Resource Policy PgStore Service.

(** The rows that are encodings of the program's data. *)
Record rows_typed (t : Tables) : Prop := {
  arrays_typed : map_Forall (λ _ row, NoDup row.1 ∧ NoDup row.2) (mapping_rows t);
  claims_typed : map_Forall (λ _ v, ∃ m, v = Value.Object m) (scope_rows t);
}.

(** An operation that keeps a view of its state typed, however it ends. *)
Definition keeps_typed {S E A : Type} (tabs : S → Tables) (m : eff S E A) : Prop :=
  ∀ s r s', m s = (r, s') → rows_typed (tabs s) → rows_typed (tabs s').

Section typed.
Context {S : Type} (tabs : S → Tables).

Lemma typed_bind {E A B : Type} (m : eff S E A) (k : A → eff S E B) :
  keeps_typed tabs m → (∀ a, keeps_typed tabs (k a)) → keeps_typed tabs (m ≫= k).
Proof.
  intros Hm Hk s r s'. unfold mbind, eff_bind. destruct (m s) as [[a|e] s1] eqn:E1.
  - intros Hr Ht. eapply Hk; [exact Hr|]. by eapply Hm.
  - intros [= _ <-]. by eapply Hm.
Qed.

Lemma typed_lift {E A : Type} (x : result E A) : keeps_typed tabs (lift x).
Proof. by intros s r s' [= _ <-]. Qed.

Lemma typed_ret {E A : Type} (a : A) : keeps_typed tabs (mret a : eff S E A).
Proof. by intros s r s' [= _ <-]. Qed.

Lemma typed_map_err {E F A : Type} (h : E → F) (m : eff S E A) :
  keeps_typed tabs m → keeps_typed tabs (eff_map_err h m).
Proof.
  intros Hm s r s'. unfold eff_map_err. destruct (m s) as [r0 s0] eqn:E1.
  intros [= _ <-]. by eapply Hm.
Qed.

Lemma typed_query {A : Type} (m : eff S SqlxError A) ans :
  answers tabs m ans → keeps_typed tabs m.
Proof. intros Hm s r s' Hrun. by destruct (Hm _ _ _ Hrun) as [-> _]. Qed.

Lemma typed_statement (m : eff S SqlxError N) taken n f :
  performs tabs m taken n f → (∀ t, rows_typed t → rows_typed (f t)) → keeps_typed tabs m.
Proof.
  intros Hm Hf s r s' Hrun Ht. specialize (Hm _ _ _ Hrun). destruct r as [a|e].
  - destruct Hm as (_ & _ & ->). auto.
  - destruct (is_unique_violation e); [by destruct Hm as [_ ->]|].
    destruct Hm as [-> | [_ ->]]; auto.
Qed.

Lemma typed_for_each {E A : Type} (f : A → eff S E unit) l :
  (∀ x, keeps_typed tabs (f x)) → keeps_typed tabs (eff_for_each f l).
Proof. intros Hf. induction l as [|x l IH]; cbn; [apply typed_ret|]. apply typed_bind; auto. Qed.
End typed.

Create HintDb typed.
#[local] Hint Resolve typed_bind typed_lift typed_ret typed_map_err typed_for_each : typed.

(** What the statements do to typed tables. *)
Section tables.
Implicit Types t : Tables.

Lemma typed_put_mapping key s a t :
  NoDup s → NoDup a → rows_typed t → rows_typed (set_mapping_rows <[key := (s, a)]> t).
Proof. intros Hs Ha [Hm Hc]. split; [|done]. by apply map_Forall_insert_2. Qed.

Lemma typed_alter_mapping key s a t :
  NoDup s → NoDup a → rows_typed t → rows_typed (set_mapping_rows (alter (λ _, (s, a)) key) t).
Proof.
  intros Hs Ha [Hm Hc]. split; [|done]. intros k row. cbn.
  rewrite lookup_alter_Some. intros [(<- & ? & _ & ->)|[_ Hk]]; [done|by apply (Hm k)].
Qed.

Lemma typed_put_scope s m t :
  rows_typed t → rows_typed (set_scope_rows <[s := Value.Object m]> t).
Proof. intros [Hm Hc]. split; [done|]. apply map_Forall_insert_2; [by exists m|done]. Qed.

Lemma typed_alter_scope s m t :
  rows_typed t → rows_typed (set_scope_rows (alter (λ _, Value.Object m) s) t).
Proof.
  intros [Hm Hc]. split; [done|]. intros k v. cbn.
  rewrite lookup_alter_Some. intros [(<- & ? & _ & ->)|[_ Hk]]; [by exists m|by apply (Hc k)].
Qed.

Lemma typed_delete_mapping key t :
  rows_typed t → rows_typed (set_mapping_rows (delete key) t).
Proof. intros [Hm Hc]. split; [|done]. by apply map_Forall_delete. Qed.

Lemma typed_filter_mappings (P : (str * str) * (list str * list str) → Prop)
    `{∀ x, Decision (P x)} t :
  rows_typed t → rows_typed (set_mapping_rows (filter P) t).
Proof.
  intros [Hm Hc]. split; [|done].
  intros k row [Hk _]%map_lookup_filter_Some. by apply (Hm k).
Qed.

Lemma typed_delete_scope s t : rows_typed t → rows_typed (set_scope_rows (delete s) t).
Proof. intros [Hm Hc]. split; [done|]. by apply map_Forall_delete. Qed.
End tables.

#[local] Hint Resolve typed_put_mapping typed_alter_mapping typed_put_scope typed_alter_scope
  typed_delete_mapping typed_filter_mappings typed_delete_scope : typed.

(** ** Every operation *)

Section operations.
Context {D : Type} `{PgLaws D} `{HashOrder}.

Lemma hash_iter_NoDup (s : gset str) : NoDup (hash_set_iter s).
Proof. rewrite hash_set_iter_perm. apply NoDup_elements. Qed.

(** A transaction works on a typed copy and publishes it, or nothing. *)
Lemma typed_transaction (body : eff (Tx * D) ResourceError unit) :
  keeps_typed (λ td, tx_tables td.1) body →
  (∀ td r td', body td = (r, td') → tables td'.2 = tables td.2) →
  keeps_typed tables (PostgresResourceStore.transaction body).
Proof.
  intros Hb Hiso d r d'. unfold PostgresResourceStore.transaction.
  destruct (begin d) as [[tx|e] d1] eqn:E; destruct (begin_law _ _ _ E) as [Hd1 Htx].
  2: { intros [= _ <-]. by rewrite Hd1. }
  destruct (body (tx, d1)) as [r0 [tx' d2]] eqn:Hrun.
  pose proof (Hiso _ _ _ Hrun) as Hd2. cbn in Hd2. intros Hend Ht.
  destruct r0 as [[]|e0].
  - unfold eff_map_err in Hend. destruct (commit tx' d2) as [rc d3] eqn:Hc. injection Hend as _ <-.
    destruct (commit_law _ _ _ _ Hc) as [->|[_ ->]]; [|congruence].
    refine (Hb _ _ _ Hrun _). cbn. by rewrite Htx.
  - injection Hend as _ <-. rewrite rollback_law. congruence.
Qed.

Lemma typed_resolve c p : keeps_typed tables (PostgresResourceStore.resolve_mapping c p).
Proof.
  apply typed_bind; [eapply typed_map_err, typed_query, select_mapping_law|].
  intros [row|]; [|apply typed_ret]. apply typed_bind; [|intros; apply typed_ret].
  eapply typed_map_err, typed_query, select_scopes_any_law.
Qed.

(** A statement whose errors are converted, and a continuation that touches nothing. *)
Lemma typed_write (m : eff D SqlxError N) taken n f (h : SqlxError → ResourceError)
    (k : N → eff D ResourceError unit) :
  performs tables m taken n f → (∀ t, rows_typed t → rows_typed (f t)) →
  (∀ a, keeps_typed tables (k a)) → keeps_typed tables (a ← eff_map_err h m; k a).
Proof. eauto using typed_statement with typed. Qed.

Lemma typed_listing {A : Type} (m : eff D SqlxError A) ans (B : Type) (g : A → B)
    (h : SqlxError → ResourceError) :
  answers tables m ans → keeps_typed tables (a ← eff_map_err h m; mret (g a)).
Proof. eauto using typed_query with typed. Qed.

Lemma typed_op_call op : keeps_typed tables (op_call op).
Proof.
  destruct op as [c p req|m|m|c p|c|ms|m|s| |]; (apply typed_bind; [|intros; apply typed_ret]); cbn.
  - apply typed_bind; [apply typed_resolve|]. intros [pair|]; [|apply typed_ret].
    cbn. case_match; [apply typed_ret|]. apply typed_bind; [apply typed_lift|intros; apply typed_ret].
  - eapply typed_write; [apply insert_mapping_law|intros; apply typed_put_mapping; auto using hash_iter_NoDup|].
    auto with typed.
  - eapply typed_write; [apply update_mapping_law|intros; apply typed_alter_mapping; auto using hash_iter_NoDup|].
    intros a. case_match; auto with typed.
  - eapply typed_write; [apply delete_mapping_law|apply typed_delete_mapping|auto with typed].
  - eapply typed_write; [apply delete_mappings_for_law|intros; by apply typed_filter_mappings|auto with typed].
  - apply typed_transaction.
    + apply typed_for_each. intros m. apply typed_bind; [|intros; apply typed_ret].
      apply typed_map_err. eapply typed_statement; [apply insert_scope_law|apply typed_put_scope].
    + intros td r td' Hrun. by apply insert_batch_run in Hrun as [? _].
  - eapply typed_write; [apply update_scope_law|apply typed_alter_scope|].
    intros a. case_match; auto with typed.
  - eapply typed_write; [apply delete_scope_law|apply typed_delete_scope|auto with typed].
  - eapply typed_listing, select_mappings_law.
  - eapply typed_listing, select_scopes_law.
Qed.

Lemma typed_run_op op : keeps_typed tables (run_op op).
Proof.
  intros d r d'. rewrite run_op_split. revert d r d'.
  apply typed_bind; [apply typed_lift|intros _; apply typed_op_call].
Qed.

(** C34 The rows stay typed.  Whatever operations run, whichever statements fail and
    whether or not the commits do: every stored claims document is a JSON object, so
    that decoding it loses nothing, and no stored array repeats an entry. *)
Theorem rows_stay_typed ops (d : D) rs d' :
  rows_typed (tables d) → run_ops ops d = (rs, d') →
  rows_typed (tables d') ∧
  (∀ s v, scope_rows (tables d') !! s = Some v → Value.Object (claims_of_json v) = v) ∧
  (∀ k row, mapping_rows (tables d') !! k = Some row →
     row.1 ≡ₚ elements (grant_scopes (grant_of_row row)) ∧
     row.2 ≡ₚ elements (grant_audiences (grant_of_row row))).
Proof.
  intros Ht Hrun. assert (rows_typed (tables d')) as Ht'.
  { revert d rs Ht Hrun. induction ops as [|op ops IH]; intros d rs Ht; cbn; [by intros [= _ <-]|].
    destruct (run_op op d) as [r d1] eqn:E, (run_ops ops d1) as [rs1 d2] eqn:E2. intros [= _ <-].
    eapply IH; [|exact E2]. by eapply typed_run_op. }
  split; [done|]. destruct Ht' as [Hm Hc]. split.
  - intros s v Hs. by destruct (Hc _ _ Hs) as [m ->].
  - intros k row Hk. destruct (Hm _ _ Hk). cbn.
    split; symmetry; by apply elements_list_to_set.
Qed.
End operations.
