(* ===== verification/Stores.v ===== *)
(** * Stores: the service over each of the two stores

    The contract of [Policy] read for the two implementations: over the in-memory
    store the service computes exactly what the policy says; over Postgres it does,
    or it reports a database failure; short of that the two cannot be told apart. *)

From S2P Require Import Prelude Text Json Resource Policy MemStore PgStore Service.

Section stores.
Context `{HashOrder}.

(** C10 Over the in-memory store every operation of the service answers exactly as
    the policy does (up to the order of listings) and leaves exactly the policy that
    the operation demands; it never reports a database error, and every entry stays
    filed under its own key. *)
Theorem memory_store_exact op s r s' :
  mem_inv s → run_op op s = (r, s') →
  mem_inv s' ∧ (∀ msg, r ≠ Err (DatabaseError msg)) ∧
  ∃ r0, run_op op (mem_view s) = (r0, mem_view s') ∧ result_rel (≡) r0 r.
Proof.
  intros Hinv Hrun.
  pose proof (run_op_refines (W := InnerStore) op) as Href.
  destruct (Href s r s' Hinv Hrun) as [? [(r0 & Hs & Hrel)|([] & _)]].
  split_and!; [done| |by exists r0]. intros msg ->. inversion Hrel; subst.
  destruct (policy_op_failed _ _ _ _ Hs) as [_ He]. by destruct (He msg).
Qed.

(** C11 Over Postgres every operation of the service answers as the policy does and
    leaves the committed tables representing the policy that the operation demands,
    or it reports a database error, and then the tables represent the old policy or
    that new one. *)
Theorem postgres_store_refines {D : Type} `{PgLaws D} op (d : D) r d' :
  run_op op d = (r, d') →
  let P := pg_view (tables d) in
  let P' := pg_view (tables d') in
  (∃ r0, run_op op P = (r0, P') ∧ result_rel (≡) r0 r) ∨
  (∃ msg, r = Err (DatabaseError msg)) ∧ (P' = P ∨ P' = (run_op op P).2).
Proof.
  intros Hrun. pose proof (run_op_refines (W := D) op) as Href.
  destruct (Href d r d' I Hrun) as [_ [Hs|(_ & Hr & Hv)]];
    [by left|by right].
Qed.

(** C30 The backends are interchangeable.  Given the same operations, the in-memory store
    and Postgres answer alike, up to the order of listings, and end with the same
    policy, as long as Postgres reports no failure of the database. *)
Theorem backends_agree {D : Type} `{PgLaws D} ops (s : InnerStore) (d : D) rs s' rs' d' :
  mem_inv s → mem_view s = pg_view (tables d) →
  run_ops ops s = (rs, s') → run_ops ops d = (rs', d') →
  (∀ msg, Err (DatabaseError msg) ∉ rs') →
  Forall2 (result_rel (≡)) rs rs' ∧ mem_view s' = pg_view (tables d').
Proof.
  intros Hinv Hv Hm Hp Hno.
  pose proof (run_ops_exact (W := InnerStore) ops) as Hmem.
  destruct (Hmem s rs s' Hinv Hm) as (rs1 & H1' & Hr1); [right; by intros []|].
  pose proof (run_ops_exact (W := D) ops) as Hpg.
  destruct (Hpg d rs' d' I Hp) as (rs2 & H2' & Hr2); [by left|].
  change (run_ops ops (mem_view s) = (rs1, mem_view s')) in H1'.
  rewrite Hv in H1'.
  change (run_ops ops (pg_view (tables d)) = (rs2, pg_view (tables d'))) in H2'.
  rewrite H1' in H2'. apply pair_equal_spec in H2' as [<- Hv']. split; [|done].
  etrans; [by symmetry|done].
Qed.
End stores.
