(* ===== verification/SAccount.v ===== *)
(** * SAccount: service accounts and their roles

    Models [crates/jwtlet-core/src/saccount/mod.rs]: the authorizer trait and the
    store that is loaded once from the configuration. *)

From S2P Require Import Prelude Text.

Inductive AuthError : Set :=
  | GeneralError (msg : str).

Record ServiceAccount : Set := {
  client_id : str;
  roles : gset str;
}.

(** The [ServiceAccountAuthorizer] trait. *)
Class ServiceAccountAuthorizer (W : Type) : Type := {
  authorize : str → gset str → eff W AuthError bool;
}.

Record MemoryServiceAccountStore : Set := { accounts : gmap str (gset str) }.

Module SAccounts.
(** Collecting pairs into a [HashMap]: a repeated client keeps its last roles. *)
Definition from_accounts (l : list ServiceAccount) : MemoryServiceAccountStore :=
  {| accounts := foldl (λ m sa, <[client_id sa := roles sa]> m) ∅ l |}.

Definition authorize {W : Type} (st : MemoryServiceAccountStore) (client_id : str)
    (required_roles : gset str) : eff W AuthError bool := λ w,
  (Ok (match accounts st !! client_id with
       | None => false
       | Some roles => bool_decide (required_roles ⊆ roles)
       end), w).
End SAccounts.

(** The authorizer that a loaded store gives over any world: it reads nothing else. *)
Definition memory_authorizer (st : MemoryServiceAccountStore) (W : Type) :
    ServiceAccountAuthorizer W :=
  {| authorize := SAccounts.authorize st |}.

Lemma from_accounts_lookup l c :
  accounts (SAccounts.from_accounts l) !! c =
    roles <$> last (List.filter (λ sa, bool_decide (client_id sa = c)) l).
Proof.
  unfold SAccounts.from_accounts. cbn. induction l as [|sa l IH] using rev_ind; [done|].
  rewrite foldl_snoc, List.filter_app. cbn. case_bool_decide as Hc.
  - rewrite last_snoc. subst. by rewrite lookup_insert_eq.
  - by rewrite app_nil_r, lookup_insert_ne.
Qed.

(** A client is authorized exactly when it is listed and its last entry holds
    every required role. *)
Lemma authorize_spec {W : Type} l c req (w w' : W) b :
  SAccounts.authorize (SAccounts.from_accounts l) c req w = (Ok b, w') ↔
    w' = w ∧
    (b = true ↔ ∃ sa, last (List.filter (λ sa, bool_decide (client_id sa = c)) l) = Some sa ∧
                      req ⊆ roles sa).
Proof.
  unfold SAccounts.authorize. rewrite from_accounts_lookup.
  destruct (last _) as [sa|]; cbn.
  - case_bool_decide as Hr; split.
    + intros [= <- <-]. split; [done|]. split; [by exists sa|done].
    + intros [-> Hb]. repeat f_equal. symmetry. apply Hb. by exists sa.
    + intros [= <- <-]. split; [done|]. split; [done|]. intros (sa' & [= <-] & ?). done.
    + intros [-> Hb]. repeat f_equal. destruct b; [|done].
      destruct (proj1 Hb eq_refl) as (sa' & [= <-] & ?). done.
  - split.
    + intros [= <- <-]. split; [done|]. split; [done|]. by intros (? & ? & _).
    + intros [-> Hb]. repeat f_equal. destruct b; [|done].
      by destruct (proj1 Hb eq_refl) as (? & ? & _).
Qed.
