(* ===== verification/K8s.v ===== *)
(** * K8s: verification of service account tokens by TokenReview

    Models [crates/jwtlet-core/src/k8s/mod.rs].  The file system, the HTTP client
    and the watcher constructor are the operations of [K8sExternal] over an
    external world [X]; the verifier's own state is the shared cell that holds
    jwtlet's service account token once [initialize] has run. *)

From S2P Require Import Prelude Text Json Facet.

Definition TOKEN_REVIEW_API : str := "/apis/authentication.k8s.io/v1/tokenreviews"%s.
Definition SERVICE_ACCOUNT_USERNAME_PREFIX : str := "system:serviceaccount:"%s.
Definition SERVICE_ACCOUNTS_GROUP : str := "system:serviceaccounts"%s.
Definition K8S_UID_CLAIM : str := "k8s_uid"%s.

(** ** Wire types *)

Record TokenReviewSpec : Set := { spec_token : str; spec_audiences : list str }.

Record TokenReviewRequest : Set := {
  api_version : str;
  kind : str;
  spec : TokenReviewSpec;
}.

Record UserInfo : Set := {
  username : str;
  uid : option str;
  groups : list str;
}.

Record TokenReviewStatus : Set := {
  authenticated : bool;
  user : option UserInfo;
  error : option str;
  status_audiences : list str;
}.

Record TokenReviewResponse : Set := { status : TokenReviewStatus }.

Definition is_service_account (u : UserInfo) : bool :=
  starts_with SERVICE_ACCOUNT_USERNAME_PREFIX (username u)
  && existsb (λ g, bool_decide (g = SERVICE_ACCOUNTS_GROUP)) (groups u).

(** ** The world outside the verifier *)

Definition UNAUTHORIZED : N := 401.
Definition INTERNAL_SERVER_ERROR : N := 500.

(** [reqwest::Error]: the status it carries, if any, and its display form. *)
Record ReqwestError : Set := { re_status : option N; re_display : str }.

(** A received response: its status and what decoding its body gives. *)
Record HttpResponse : Set := { resp_status : N; resp_json : result str TokenReviewResponse }.

(** [StatusCode::is_success]. *)
Definition is_success (s : N) : bool := (N.leb 200 s && N.ltb s 300)%bool.

Class K8sExternal (X : Type) : Type := {
  (** [tokio::fs::read_to_string]; the error is its display form. *)
  read_to_string : str → X → result str str * X;
  (** POST of a TokenReview: URL, bearer credential, body. *)
  post_review : str → str → TokenReviewRequest → X → result ReqwestError HttpResponse * X;
  (** [notify::recommended_watcher] and [Watcher::watch]; errors as displayed. *)
  recommended_watcher : X → result str unit * X;
  watch : str → X → result str unit * X;
  (** [Display] of [StatusCode]. *)
  show_status : N → str;
}.

Record SaTokenState : Set := { sa_token : str }.

(** The cell [state] of the verifier beside the external world. *)
Record KWorld (X : Type) : Type := { cell : option SaTokenState; ext : X }.
Arguments cell {X} _. Arguments ext {X} _.
Arguments Build_KWorld {X} _ _.

Definition set_ext {X : Type} (x : X) (w : KWorld X) : KWorld X :=
  {| cell := cell w; ext := x |}.
Definition set_cell {X : Type} (c : option SaTokenState) (w : KWorld X) : KWorld X :=
  {| cell := c; ext := ext w |}.

(** An operation of the external world inside the verifier. *)
Definition outside {X E A : Type} (m : X → result E A * X) : eff (KWorld X) E A :=
  zoom ext set_ext m.

(** [FileBasedRenewalTrigger::new]: the watcher is created, then told what to watch.
    The events it will deliver are the subject of [Renewal]. *)
Definition new_trigger {X : Type} `{K8sExternal X} (token_file_path : str) :
    eff X JwtVerificationError unit :=
  _ ← eff_map_err (λ e, VerificationFailed ("Failed to create file watcher: " +:+ e)%s)
        recommended_watcher;
  eff_map_err (λ e, VerificationFailed
      ("Failed to watch token file " +:+ token_file_path +:+ ": " +:+ e)%s)
    (watch token_file_path).

Record K8sTokenReviewVerifier : Set := {
  api_server_url : str;
  cluster_issuer : str;
  token_file : str;
  require_service_account : bool;
}.

Module K8sVerifier.

(** The claims that a review yields for an audience, or why it is rejected: the
    part of [verify_token] that follows the TokenReview call. *)
Definition claims_of_review (v : K8sTokenReviewVerifier) (audience : str)
    (review : TokenReviewResponse) : result JwtVerificationError TokenClaims :=
  if negb (authenticated (status review)) then
    Err (VerificationFailed (default "token not authenticated"%s (error (status review))))
  else if negb (existsb (λ a, bool_decide (a = audience)) (status_audiences (status review))) then
    Err (VerificationFailed
      ("TokenReview did not confirm the requested audience '" +:+ audience +:+ "'")%s)
  else
    u ← ok_or (user (status review))
          (VerificationFailed "TokenReview returned authenticated=true but no user info"%s);
    if require_service_account v && negb (is_service_account u) then
      Err (VerificationFailed
        ("identity '" +:+ username u +:+ "' is not a Kubernetes service account")%s)
    else
      let custom := match uid u with
                    | Some i => if is_empty i then ∅ else {[ K8S_UID_CLAIM := Value.String i ]}
                    | None => ∅
                    end in
      Ok {| tc_sub := username u; tc_iss := cluster_issuer v; tc_aud := audience;
            tc_iat := 0; tc_exp := 0; tc_nbf := None; tc_custom := custom |}.

Section verifier.
Context {X : Type} `{K8sExternal X} (v : K8sTokenReviewVerifier).

(** The write of the token into the shared cell. *)
Definition put_token (token : str) : eff (KWorld X) JwtVerificationError unit := λ w,
  (Ok tt, set_cell (Some {| sa_token := token |}) w).

Definition initialize : eff (KWorld X) JwtVerificationError unit := λ w,
  match cell w with
  | Some _ => (Ok tt, w)
  | None =>
      (raw ← eff_map_err (λ e, VerificationFailed
               ("Failed to read SA token file " +:+ token_file v +:+ ": " +:+ e)%s)
               (outside (read_to_string (token_file v)));
       _ ← outside (new_trigger (token_file v));
       put_token (trim raw)
       : eff (KWorld X) JwtVerificationError unit) w
  end.

Definition ensure_initialized : eff (KWorld X) JwtVerificationError SaTokenState := λ w,
  match cell w with
  | Some st => (Ok st, w)
  | None => (Err (VerificationFailed
      "K8sTokenReviewVerifier not initialized; call initialize() first"%s), w)
  end.

Definition refresh_sa_token : eff (KWorld X) JwtVerificationError str :=
  raw ← eff_map_err (λ e, VerificationFailed
          ("Failed to re-read SA token file " +:+ token_file v +:+ ": " +:+ e)%s)
          (outside (read_to_string (token_file v)));
  let token := trim raw in
  _ ← ensure_initialized;
  _ ← put_token token;
  mret token.

Definition review_request (audience subject_token : str) : TokenReviewRequest :=
  {| api_version := "authentication.k8s.io/v1"%s; kind := "TokenReview"%s;
     spec := {| spec_token := subject_token; spec_audiences := [audience] |} |}.

Definition call_token_review (sa audience subject_token : str) :
    eff (KWorld X) (N * JwtVerificationError) TokenReviewResponse :=
  response ← eff_map_err (λ e, (default INTERNAL_SERVER_ERROR (re_status e),
                                VerificationFailed (re_display e)))
    (outside (post_review (api_server_url v +:+ TOKEN_REVIEW_API)%s sa
                (review_request audience subject_token)));
  if negb (is_success (resp_status response)) then
    lift (Err (resp_status response, VerificationFailed
      ("TokenReview API returned status " +:+ show_status (resp_status response))%s))
  else
    lift (map_err (λ e, (INTERNAL_SERVER_ERROR, VerificationFailed e)) (resp_json response)).

(** The review, retried once with the token read from the file when the API
    server refuses jwtlet's own credential. *)
Definition review_with_retry (sa audience token : str) :
    eff (KWorld X) JwtVerificationError TokenReviewResponse := λ w,
  match call_token_review sa audience token w with
  | (Ok r, w1) => (Ok r, w1)
  | (Err (code, e), w1) =>
      if N.eqb code UNAUTHORIZED then
        (refreshed ← refresh_sa_token;
         eff_map_err snd (call_token_review refreshed audience token)
         : eff (KWorld X) JwtVerificationError TokenReviewResponse) w1
      else (Err e, w1)
  end.

Definition verify_token (audience token : str) :
    eff (KWorld X) JwtVerificationError TokenClaims :=
  st ← ensure_initialized;
  review ← review_with_retry (sa_token st) audience token;
  lift (claims_of_review v audience review).

Definition k8s_verifier : JwtVerifier (KWorld X) := {| Facet.verify_token := verify_token |}.
End verifier.
End K8sVerifier.

(** ** The calls a verification makes *)

(** One recorded TokenReview call: bearer credential, request and outcome. *)
Record ReviewCall : Set := {
  call_bearer : str;
  call_request : TokenReviewRequest;
  call_outcome : result ReqwestError HttpResponse;
}.

(** Any external world, recording the TokenReview calls made through it. *)
Definition recorded (X : Type) `{K8sExternal X} : K8sExternal (list ReviewCall * X) := {|
  read_to_string f x := let '(r, y) := read_to_string f x.2 in (r, (x.1, y));
  post_review url b q x :=
    let '(r, y) := post_review url b q x.2 in
    (r, (x.1 ++ [{| call_bearer := b; call_request := q; call_outcome := r |}], y));
  recommended_watcher x := let '(r, y) := recommended_watcher x.2 in (r, (x.1, y));
  watch f x := let '(r, y) := watch f x.2 in (r, (x.1, y));
  show_status := show_status;
|}.

(** The API server refused the caller's own credential. *)
Definition refused (o : result ReqwestError HttpResponse) : bool :=
  match o with
  | Ok r => N.eqb (resp_status r) UNAUTHORIZED
  | Err e => N.eqb (default INTERNAL_SERVER_ERROR (re_status e)) UNAUTHORIZED
  end.

(** The review that an outcome carries, if it carries one. *)
Definition review_of (o : result ReqwestError HttpResponse) : option TokenReviewResponse :=
  match o with
  | Ok r => if is_success (resp_status r)
            then match resp_json r with Ok rv => Some rv | Err _ => None end else None
  | Err _ => None
  end.

(** ** Lemmas *)

Lemma existsb_eq_spec (x : str) l : existsb (λ a, bool_decide (a = x)) l = true ↔ x ∈ l.
Proof.
  rewrite existsb_exists. setoid_rewrite bool_decide_eq_true.
  setoid_rewrite <- list_elem_of_In. naive_solver.
Qed.

Lemma is_service_account_spec u :
  is_service_account u = true ↔
    (∃ rest, username u = (SERVICE_ACCOUNT_USERNAME_PREFIX +:+ rest)%s) ∧
    SERVICE_ACCOUNTS_GROUP ∈ groups u.
Proof. unfold is_service_account. by rewrite andb_true_iff, starts_with_spec, existsb_eq_spec. Qed.

(** C15 A review is accepted exactly when it reports the token as authenticated,
    confirms the requested audience and names a user that is a Kubernetes service
    account (prefix and group, unless that check was switched off).  The claims are
    then the user name as subject, the configured issuer, the requested audience,
    and the UID when the review has a non-empty one. *)
Theorem claims_of_review_accepts v aud rv c :
  K8sVerifier.claims_of_review v aud rv = Ok c ↔
    authenticated (status rv) = true ∧ aud ∈ status_audiences (status rv) ∧
    ∃ u, user (status rv) = Some u ∧
      (require_service_account v = true →
        (∃ rest, username u = (SERVICE_ACCOUNT_USERNAME_PREFIX +:+ rest)%s) ∧
        SERVICE_ACCOUNTS_GROUP ∈ groups u) ∧
      tc_sub c = username u ∧ tc_iss c = cluster_issuer v ∧ tc_aud c = aud ∧
      tc_iat c = 0%Z ∧ tc_exp c = 0%Z ∧ tc_nbf c = None ∧
      tc_custom c =
        match uid u with
        | Some i => if is_empty i then ∅ else {[ K8S_UID_CLAIM := Value.String i ]}
        | None => ∅
        end.
Proof.
  unfold K8sVerifier.claims_of_review. rewrite <- existsb_eq_spec.
  setoid_rewrite <- is_service_account_spec.
  destruct (authenticated (status rv)); cbn; [|naive_solver].
  destruct (existsb _ _); cbn; [|naive_solver].
  destruct (user (status rv)) as [u|]; cbn; [|naive_solver].
  destruct (require_service_account v), (is_service_account u) eqn:Hsa; cbn;
    (split; [intros [= <-]; cbn; repeat split; eauto 20
            |intros (_ & _ & u' & [= <-] & Hreq & ? & ? & ? & ? & ? & ? & ?)]);
    try (destruct c; cbn in *; by subst); try (specialize (Hreq eq_refl); congruence).
Qed.

Section verifier_lemmas.
Context {X : Type} {E : K8sExternal X} (v : K8sTokenReviewVerifier).
Implicit Types w : KWorld X.

Lemma claims_of_review_Err aud rv e :
  K8sVerifier.claims_of_review v aud rv = Err e → ∃ msg, e = VerificationFailed msg.
Proof.
  unfold K8sVerifier.claims_of_review. destruct (negb _); [intros [= <-]; eauto|].
  destruct (negb _); [intros [= <-]; eauto|]. destruct (user _); cbn; [|intros [= <-]; eauto].
  destruct (_ && _); intros [= <-]; eauto.
Qed.

(** One call, by its outcome. *)
Lemma call_token_review_run sa aud tok w :
  K8sVerifier.call_token_review v sa aud tok w =
    let '(o, x) := post_review (api_server_url v +:+ TOKEN_REVIEW_API)%s sa
                     (K8sVerifier.review_request aud tok) (ext w) in
    (match o with
     | Err e => Err (default INTERNAL_SERVER_ERROR (re_status e), VerificationFailed (re_display e))
     | Ok r =>
         if is_success (resp_status r)
         then map_err (λ e, (INTERNAL_SERVER_ERROR, VerificationFailed e)) (resp_json r)
         else Err (resp_status r, VerificationFailed
                ("TokenReview API returned status " +:+ show_status (resp_status r))%s)
     end, set_ext x w).
Proof.
  unfold K8sVerifier.call_token_review, outside, zoom, eff_map_err, mbind, eff_bind, lift.
  destruct (post_review _ _ _ _) as [[r|e] x]; cbn; [|done].
  by destruct (is_success (resp_status r)).
Qed.

Lemma refresh_run w :
  K8sVerifier.refresh_sa_token v w =
    let '(r, x) := read_to_string (token_file v) (ext w) in
    match r with
    | Err e => (Err (VerificationFailed
        ("Failed to re-read SA token file " +:+ token_file v +:+ ": " +:+ e)%s), set_ext x w)
    | Ok raw =>
        match cell w with
        | None => (Err (VerificationFailed
            "K8sTokenReviewVerifier not initialized; call initialize() first"%s), set_ext x w)
        | Some _ => (Ok (trim raw), {| cell := Some {| sa_token := trim raw |}; ext := x |})
        end
    end.
Proof.
  unfold K8sVerifier.refresh_sa_token, outside, zoom, eff_map_err, mbind, eff_bind,
    K8sVerifier.ensure_initialized, K8sVerifier.put_token, mret, eff_ret.
  destruct (read_to_string _ _) as [[raw|e] x]; cbn; [|done]. by destruct (cell w).
Qed.
(** The API server at [url] was asked about [tok] for [aud], and answered that it is
    the token of the service account [name]. *)
Definition vouched_for (url aud tok name : str) : Prop :=
  ∃ sa x x' resp rv u,
    post_review (url +:+ TOKEN_REVIEW_API)%s sa (K8sVerifier.review_request aud tok) x = (Ok resp, x') ∧
    is_success (resp_status resp) = true ∧ resp_json resp = Ok rv ∧
    authenticated (status rv) = true ∧ aud ∈ status_audiences (status rv) ∧
    user (status rv) = Some u ∧ is_service_account u = true ∧ username u = name.

Lemma call_token_review_Ok sa aud tok w rv w' :
  K8sVerifier.call_token_review v sa aud tok w = (Ok rv, w') →
  ∃ resp, post_review (api_server_url v +:+ TOKEN_REVIEW_API)%s sa
            (K8sVerifier.review_request aud tok) (ext w) = (Ok resp, ext w') ∧
    is_success (resp_status resp) = true ∧ resp_json resp = Ok rv.
Proof.
  rewrite call_token_review_run. destruct (post_review _ _ _ _) as [[resp|e] x]; [|done].
  destruct (is_success _) eqn:Hs; [|done]. destruct (resp_json resp) eqn:Hj; [|done].
  intros [= <- <-]. by exists resp.
Qed.

Lemma review_with_retry_Ok sa aud tok w rv w' :
  K8sVerifier.review_with_retry v sa aud tok w = (Ok rv, w') →
  ∃ sa' w1 w2, K8sVerifier.call_token_review v sa' aud tok w1 = (Ok rv, w2).
Proof.
  unfold K8sVerifier.review_with_retry.
  destruct (K8sVerifier.call_token_review v sa aud tok w) as [[rv1|[code e]] w1] eqn:H1.
  - intros [= <- <-]. eauto.
  - destruct (N.eqb _ _); [|done].
    intros (t & w2 & _ & H2%eff_map_err_Ok)%eff_bind_Ok. eauto.
Qed.

(** A verified identity is one the API server vouched for. *)
(** An accepted review vouches for the claims that are made of it. *)
Lemma claims_vouched sa aud tok w rv w' c :
  require_service_account v = true → K8sVerifier.call_token_review v sa aud tok w = (Ok rv, w') →
  K8sVerifier.claims_of_review v aud rv = Ok c →
  vouched_for (api_server_url v) aud tok (tc_sub c) ∧ tc_iss c = cluster_issuer v.
Proof.
  intros Hreq (resp & Hpost & Hs & Hj)%call_token_review_Ok Hc.
  unfold K8sVerifier.claims_of_review in Hc.
  destruct (authenticated _) eqn:Ha; [|done]. cbn in Hc.
  destruct (existsb _ _) eqn:Haud; [|done]. cbn in Hc. apply existsb_eq_spec in Haud.
  destruct (user _) as [u|] eqn:Hu; [|done]. cbn in Hc. rewrite Hreq in Hc.
  destruct (is_service_account u) eqn:Hsa; [|done]. injection Hc as <-. split; [|done].
  exists sa, (ext w), (ext w'), resp, rv, u. by split_and!.
Qed.

Lemma verify_token_vouched aud tok w c w' :
  require_service_account v = true → K8sVerifier.verify_token v aud tok w = (Ok c, w') →
  vouched_for (api_server_url v) aud tok (tc_sub c) ∧ tc_iss c = cluster_issuer v.
Proof.
  unfold K8sVerifier.verify_token. intros Hreq
    (st & w1 & _ & (rv & w2 & Hr & [= Hc _])%eff_bind_Ok)%eff_bind_Ok.
  apply review_with_retry_Ok in Hr as (sa & w3 & w4 & Hr). by eapply claims_vouched.
Qed.
End verifier_lemmas.

Section calls.
Context {X : Type} {E : K8sExternal X} (v : K8sTokenReviewVerifier).
Implicit Types w : KWorld (list ReviewCall * X).

Local Instance recording : K8sExternal (list ReviewCall * X) := recorded X.

(** What a single call adds to the record, and what it returns. *)
Lemma call_recorded sa aud tok w r w' :
  K8sVerifier.call_token_review v sa aud tok w = (r, w') →
  ∃ c, (ext w').1 = (ext w).1 ++ [c] ∧ cell w' = cell w ∧ call_bearer c = sa ∧
    call_request c = K8sVerifier.review_request aud tok ∧
    post_review (api_server_url v +:+ TOKEN_REVIEW_API)%s sa
      (K8sVerifier.review_request aud tok) (ext w).2 = (call_outcome c, (ext w').2) ∧
    match r with
    | Ok rv => review_of (call_outcome c) = Some rv ∧ refused (call_outcome c) = false
    | Err (code, e) =>
        ((code =? UNAUTHORIZED)%N = true → refused (call_outcome c) = true) ∧
        (refused (call_outcome c) = true → (code =? UNAUTHORIZED)%N = true) ∧
        review_of (call_outcome c) = None ∧ ∃ msg, e = VerificationFailed msg
    end.
Proof.
  rewrite call_token_review_run. cbn. destruct (post_review _ _ _ _) as [o x] eqn:Hp.
  intros [= <- <-]. exists {| call_bearer := sa;
    call_request := K8sVerifier.review_request aud tok; call_outcome := o |}. cbn.
  split_and!; [done..|]. destruct o as [resp|e]; cbn; [|by eauto 6].
  destruct (is_success (resp_status resp)) eqn:Hs; cbn; [|by eauto 6].
  assert ((resp_status resp =? UNAUTHORIZED)%N = false) as ->.
  { unfold is_success, UNAUTHORIZED in *. apply andb_true_iff in Hs as [? ?%N.ltb_lt].
    apply N.eqb_neq. lia. }
  destruct (resp_json resp) as [rv|m]; cbn; [done|]. split_and!; eauto.
Qed.

(** What becomes of the answer to the last call sent. *)
Definition answers_last (aud : str) (calls : list ReviewCall)
    (r : result JwtVerificationError TokenClaims) : Prop :=
  match c ← last calls; review_of (call_outcome c) with
  | Some rv => r = K8sVerifier.claims_of_review v aud rv
  | None => ∃ msg, r = Err (VerificationFailed msg)
  end.

(** The call [c], sent from the world [x], which it leaves as [y]. *)
Definition sends (c : ReviewCall) (x y : X) : Prop :=
  post_review (api_server_url v +:+ TOKEN_REVIEW_API)%s (call_bearer c) (call_request c) x =
    (call_outcome c, y).

(** C16 Every verification sends at most two TokenReviews, each for exactly the
    presented token and the one requested audience, to the API server of the
    configuration.  Without [initialize] nothing is sent and nothing is touched.  The
    first bears the cached credential; if it is not refused with 401 nothing else
    happens.  If it is refused, the token file is read: where that fails the
    verification fails, and the cached credential stays; where it succeeds, the
    trimmed content is cached, and the one other call bears it.  The claims are those
    of the review that answered the last call, and there are none without one. *)
Theorem verify_token_calls aud tok w r w' :
  K8sVerifier.verify_token v aud tok w = (r, w') →
  ∃ calls, (ext w').1 = (ext w).1 ++ calls ∧
    Forall (λ c, call_request c = K8sVerifier.review_request aud tok) calls ∧
    answers_last aud calls r ∧
    match calls with
    | [] => cell w = None ∧ w' = w
    | [c1] =>
        cell w = Some {| sa_token := call_bearer c1 |} ∧ cell w' = cell w ∧
        ∃ x1, sends c1 (ext w).2 x1 ∧
        if refused (call_outcome c1) then
          ∃ e, read_to_string (token_file v) x1 = (Err e, (ext w').2) ∧
            r = Err (VerificationFailed
                  ("Failed to re-read SA token file " +:+ token_file v +:+ ": " +:+ e)%s)
        else (ext w').2 = x1
    | [c1; c2] =>
        cell w = Some {| sa_token := call_bearer c1 |} ∧ refused (call_outcome c1) = true ∧
        ∃ x1 raw x2, sends c1 (ext w).2 x1 ∧
          read_to_string (token_file v) x1 = (Ok raw, x2) ∧
          call_bearer c2 = trim raw ∧ cell w' = Some {| sa_token := trim raw |} ∧
          sends c2 x2 (ext w').2
    | _ => False
    end.
Proof.
  unfold K8sVerifier.verify_token, K8sVerifier.ensure_initialized.
  destruct (cell w) as [[sa]|] eqn:Hc.
  2: { unfold mbind, eff_bind. rewrite Hc. intros [= <- <-]. exists [].
       split_and!; [by rewrite app_nil_r|constructor|by eexists|done|done]. }
  rewrite (eff_bind_run_Ok _ _ _ w {| sa_token := sa |}) by by rewrite Hc.
  unfold K8sVerifier.review_with_retry, mbind, eff_bind.
  destruct (K8sVerifier.call_token_review v _ _ _ w) as [[rv|[code e]] w1] eqn:H1;
    apply call_recorded in H1 as (c1 & Hr1 & Hcell1 & Hb1 & Hq1 & Hp1 & H1); cbn in Hb1.
  - destruct H1 as [Hrv Href]. unfold lift. intros [= <- <-]. exists [c1].
    unfold answers_last, sends. cbn. rewrite Hrv, Hb1, Hq1, Href, Hcell1.
    split_and!; [done|by constructor|done..|by eexists].
  - destruct H1 as (Ht & Hf & Hno & [m ->]). destruct (code =? UNAUTHORIZED)%N eqn:Hcode.
    2: { intros [= <- <-]. exists [c1]. unfold answers_last, sends. cbn. rewrite Hno, Hb1, Hq1, Hcell1.
         split_and!; [done|by constructor|by eexists|done..|]. eexists. split; [done|].
         destruct (refused _) eqn:Href; [by specialize (Hf eq_refl)|done]. }
    assert (refused (call_outcome c1) = true) as Href by by apply Ht.
    rewrite refresh_run. cbn. destruct (read_to_string _ _) as [[raw|e'] x] eqn:Hread.
    2: { intros [= <- <-]. exists [c1]. unfold answers_last, sends. cbn.
         rewrite Hno, Hb1, Hq1, Href, Hcell1.
         split_and!; [done|by constructor|by eexists|done..|]. eexists. split; [done|]. by eexists. }
    rewrite Hcell1, Hc. unfold eff_map_err.
    destruct (K8sVerifier.call_token_review v _ _ _ _) as [r2 w2] eqn:H2.
    apply call_recorded in H2 as (c2 & Hr2 & Hcell2 & Hb2 & Hq2 & Hp2 & H2). cbn in Hr2, Hcell2, Hp2.
    intros Hend. exists [c1; c2].
    assert (w' = w2) as -> by (destruct r2; cbn in Hend; unfold lift in Hend; by simplify_eq).
    unfold answers_last, sends. cbn. rewrite Hb1, Hq1, Href, Hb2, Hq2, Hcell2.
    split_and!; [by rewrite Hr2, Hr1, <- app_assoc|by repeat constructor| |done|done|by eauto 9].
    destruct r2 as [rv|[]]; cbn in Hend; unfold lift in Hend; simplify_eq.
    + by destruct H2 as [-> _].
    + destruct H2 as (_ & _ & -> & [msg ->]). by eexists.
Qed.
End calls.

(** [initialize] is idempotent and all or nothing: on success the cell holds
    either the credential it already held, with nothing read, or the trimmed contents
    of the token file; on failure the verifier stays uninitialized. *)
Lemma initialize_spec {X : Type} {E : K8sExternal X} v (w : KWorld X) r w' :
  K8sVerifier.initialize v w = (r, w') →
  match r with
  | Ok _ => (is_Some (cell w) ∧ w' = w) ∨
            (cell w = None ∧ ∃ raw x, read_to_string (token_file v) (ext w) = (Ok raw, x) ∧
               cell w' = Some {| sa_token := trim raw |})
  | Err _ => cell w = None ∧ cell w' = None
  end.
Proof.
  unfold K8sVerifier.initialize, K8sVerifier.put_token, outside, zoom, eff_map_err, mbind, eff_bind.
  destruct (cell w) as [st|] eqn:Hc; [intros [= <- <-]; left; eauto|].
  destruct (read_to_string _ _) as [[raw|e] x] eqn:Hr; cbn; [|by intros [= <- <-]].
  destruct (new_trigger _ _) as [[[]|e] y]; cbn; intros [= <- <-]; cbn; [|done].
  right. split; [done|]. by exists raw, x.
Qed.

(** Before [initialize] every verification fails, and touches nothing. *)
Lemma verify_token_uninitialized {X : Type} {E : K8sExternal X} v aud tok (w : KWorld X) :
  cell w = None →
  ∃ msg, K8sVerifier.verify_token v aud tok w = (Err (VerificationFailed msg), w).
Proof.
  intros Hc. unfold K8sVerifier.verify_token, K8sVerifier.ensure_initialized, mbind, eff_bind.
  rewrite Hc. eauto.
Qed.
