(* ===== verification/Renewal.v ===== *)
(** * Renewal: the background renewal of jwtlet's own credential

    Models [crates/jwtlet-core/src/k8s/renewal.rs] as a machine: the event channel
    between the file watcher and the renewal task, the task's loop with its
    [select!], the shared token cell, and the world around it, in which the token
    file is rotated, the verifier refreshes the cell on its own ([refresh_sa_token]
    of [K8s], a read followed by a write) and the handle may be dropped.  Each
    constructor of [task_step] is one step between two await points of the task. *)

From S2P Require Import Prelude Text Facet K8s.

(** ** Events *)

(** [notify::EventKind]. *)
Inductive EventKind : Set := Any | Access | Create | Modify | Remove | Other.

(** What the watcher sends: [notify::Result<Event>]; an error as displayed. *)
Definition Event : Set := result str EventKind.

#[export] Instance event_kind_eq_dec : EqDecision EventKind.
Proof. solve_decision. Defined.

Definition is_change (k : EventKind) : bool :=
  match k with Modify | Create | Remove => true | _ => false end.

(** [mpsc::channel(100)] and [try_send]: an event that finds the channel full is lost. *)
Definition CHANNEL_CAPACITY : nat := 100.
Definition try_send (e : Event) (queue : list Event) : list Event :=
  if (length queue <? CHANNEL_CAPACITY)%nat then queue ++ [e] else queue.

(** One received event: [None] when the loop goes on. *)
Definition on_event (e : Event) : option (result JwtVerificationError unit) :=
  match e with
  | Ok k => if is_change k then Some (Ok tt) else None
  | Err msg => Some (Err (VerificationFailed ("File watch error: " +:+ msg)%s))
  end.

Definition channel_closed : JwtVerificationError :=
  VerificationFailed "File watcher channel closed"%s.

(** [wait_for_trigger] on the events that are in the channel; [None] when it has
    consumed them all and waits for more. *)
Fixpoint wait_for_trigger (closed : bool) (queue : list Event) :
    option (result JwtVerificationError unit) * list Event :=
  match queue with
  | [] => (if closed then Some (Err channel_closed) else None, [])
  | e :: queue =>
      match on_event e with
      | Some r => (Some r, queue)
      | None => wait_for_trigger closed queue
      end
  end.

(** ** The machine *)

(** Where the task is: in its [select!], about to read the file, or holding what it
    read and about to write the cell. *)
Inductive Phase : Set :=
  | Waiting
  | Reading
  | Writing (raw : str)
  | Stopped.

Record RState : Set := {
  file : result str str;        (* what reading the token file would give *)
  contents : list str;          (* ghost: every content the file has had *)
  queue : list Event;
  closed : bool;                (* the watcher is gone *)
  shutdown : bool;              (* the handle has been dropped *)
  phase : Phase;
  token : str;                  (* the shared cell *)
  refreshing : list str;        (* verifiers that have read the file and not yet written *)
}.

Definition with_queue (q : list Event) (s : RState) : RState :=
  {| file := file s; contents := contents s; queue := q; closed := closed s;
     shutdown := shutdown s; phase := phase s; token := token s; refreshing := refreshing s |}.
Definition with_phase (p : Phase) (s : RState) : RState :=
  {| file := file s; contents := contents s; queue := queue s; closed := closed s;
     shutdown := shutdown s; phase := p; token := token s; refreshing := refreshing s |}.
Definition with_token (t : str) (s : RState) : RState :=
  {| file := file s; contents := contents s; queue := queue s; closed := closed s;
     shutdown := shutdown s; phase := phase s; token := t; refreshing := refreshing s |}.
Definition with_refreshing (l : list str) (s : RState) : RState :=
  {| file := file s; contents := contents s; queue := queue s; closed := closed s;
     shutdown := shutdown s; phase := phase s; token := token s; refreshing := l |}.
Definition with_shutdown (b : bool) (s : RState) : RState :=
  {| file := file s; contents := contents s; queue := queue s; closed := closed s;
     shutdown := b; phase := phase s; token := token s; refreshing := refreshing s |}.
Definition with_file (c : result str str) (s : RState) : RState :=
  {| file := c; contents := match c with Ok raw => contents s ++ [raw] | Err _ => contents s end;
     queue := queue s; closed := closed s; shutdown := shutdown s; phase := phase s;
     token := token s; refreshing := refreshing s |}.

(** The renewal task. *)
Inductive task_step : RState → RState → Prop :=
  | recv_ignored s e q :
      phase s = Waiting → queue s = e :: q → on_event e = None →
      task_step s (with_queue q s)
  | recv_change s e q :
      phase s = Waiting → queue s = e :: q → on_event e = Some (Ok tt) →
      task_step s (with_phase Reading (with_queue q s))
  | recv_error s e q err :
      phase s = Waiting → queue s = e :: q → on_event e = Some (Err err) →
      task_step s (with_phase Stopped (with_queue q s))
  | recv_closed s :
      phase s = Waiting → queue s = [] → closed s = true →
      task_step s (with_phase Stopped s)
  | recv_shutdown s :
      phase s = Waiting → shutdown s = true → task_step s (with_phase Stopped s)
  | read_ok s raw :
      phase s = Reading → file s = Ok raw → task_step s (with_phase (Writing raw) s)
  | read_failed s e :
      phase s = Reading → file s = Err e → task_step s (with_phase Waiting s)
  | write_cell s raw :
      phase s = Writing raw → task_step s (with_phase Waiting (with_token (trim raw) s)).

(** A verifier that was answered 401: it reads the file, and later it writes the cell,
    unless its request is dropped while it waits for the lock.  The review that is
    refused first is not part of this machine, so it allows more refreshes than the
    verifier makes; [Credentials] has the verifications themselves. *)
Inductive verifier_step : RState → RState → Prop :=
  | refresh_read s l1 raw l2 :
      file s = Ok raw → refreshing s = l1 ++ l2 → verifier_step s (with_refreshing (l1 ++ raw :: l2) s)
  | refresh_write s l1 raw l2 :
      refreshing s = l1 ++ raw :: l2 →
      verifier_step s (with_refreshing (l1 ++ l2) (with_token (trim raw) s))
  | refresh_dropped s l1 raw l2 :
      refreshing s = l1 ++ raw :: l2 → verifier_step s (with_refreshing (l1 ++ l2) s).

(** Everything else, with nothing assumed of the watcher: the file changes, events
    arrive whenever they like or are lost, the watcher dies, the handle is dropped. *)
Inductive outside_step : RState → RState → Prop :=
  | file_changes s c : outside_step s (with_file c s)
  | event_arrives s e : outside_step s (with_queue (try_send e (queue s)) s)
  | watcher_dies s :
      outside_step s {| file := file s; contents := contents s; queue := queue s; closed := true;
        shutdown := shutdown s; phase := phase s; token := token s; refreshing := refreshing s |}
  | handle_dropped s : outside_step s (with_shutdown true s).

Definition any_step (s s' : RState) : Prop :=
  task_step s s' ∨ verifier_step s s' ∨ outside_step s s'.

(** A rotation as the watcher is meant to see it: the change of the file comes with an
    event that reports it and finds room in the channel. *)
Inductive reported_change : RState → RState → Prop :=
  | change_reported s c k :
      is_change k = true → (length (queue s) < CHANNEL_CAPACITY)%nat →
      reported_change s (with_queue (try_send (Ok k) (queue s)) (with_file c s)).

(** Any step, as long as the file changes only in reported rotations and no verifier
    writes a content that it read before the last of them. *)
Inductive orderly_step : RState → RState → Prop :=
  | orderly_task s s' : task_step s s' → orderly_step s s'
  | orderly_rotation s s' : reported_change s s' → orderly_step s s'
  | orderly_outside s s' : outside_step s s' → file s' = file s → orderly_step s s'
  | orderly_verifier s s' :
      verifier_step s s' →
      token s' = token s ∨ (∃ raw, file s = Ok raw ∧ token s' = trim raw) →
      orderly_step s s'.

(** The state when [initialize] has spawned the task: the file had content [raw] when
    it was read, and [c] when the watcher was set up. *)
Definition started (raw : str) (c : result str str) : RState :=
  {| file := c; contents := raw :: match c with Ok raw' => [raw'] | Err _ => [] end;
     queue := []; closed := false; shutdown := false; phase := Waiting;
     token := trim raw; refreshing := [] |}.

(** ** The trigger *)

(** [wait_for_trigger] fires at the first event that reports a creation, a
    modification or a removal, skipping only events that report none of these; it
    fails at the first watcher error before such an event, or when the channel is
    closed and drained; otherwise it keeps waiting, having consumed what there was. *)
Lemma wait_for_trigger_spec closed q r rest :
  wait_for_trigger closed q = (r, rest) ↔
    ∃ skipped, Forall (λ e, ∃ k, e = Ok k ∧ is_change k = false) skipped ∧
      ((∃ k, q = skipped ++ Ok k :: rest ∧ is_change k = true ∧ r = Some (Ok tt)) ∨
       (∃ msg, q = skipped ++ Err msg :: rest ∧
          r = Some (Err (VerificationFailed ("File watch error: " +:+ msg)%s))) ∨
       (q = skipped ∧ rest = [] ∧
          r = if closed then Some (Err channel_closed) else None)).
Proof.
  split.
  - revert r rest. induction q as [|e q IH]; intros r rest; cbn.
    { intros [= <- <-]. exists []. split; [constructor|]. auto. }
    unfold on_event. destruct e as [k|msg]; [destruct (is_change k) eqn:Hk|].
    + intros [= <- <-]. exists []. split; [constructor|]. left. by exists k.
    + intros (l & Hl & Hcases)%IH. exists (Ok k :: l).
      split; [constructor; [by exists k|done]|]. naive_solver.
    + intros [= <- <-]. exists []. split; [constructor|]. right. left. by exists msg.
  - intros (l & Hl & Hcases). revert q Hcases.
    induction Hl as [|e l (k & -> & Hk) _ IH]; intros q Hcases.
    + destruct Hcases as [(k & -> & Hk & ->)|[(msg & -> & ->)|(-> & -> & ->)]]; cbn; rewrite ?Hk; done.
    + destruct Hcases as [(k' & -> & ? & ->)|[(msg & -> & ->)|(-> & -> & ->)]]; cbn; rewrite Hk;
        apply IH; naive_solver.
Qed.

(** What [wait_for_trigger] computes is what the steps of the task do. *)
Lemma wait_for_trigger_steps s :
  phase s = Waiting →
  match wait_for_trigger (closed s) (queue s) with
  | (Some (Ok _), q) => rtc task_step s (with_phase Reading (with_queue q s))
  | (Some (Err _), q) => rtc task_step s (with_phase Stopped (with_queue q s))
  | (None, q) => rtc task_step s (with_queue q s)
  end.
Proof.
  remember (queue s) as q0 eqn:Hq. revert s Hq.
  induction q0 as [|e q0 IH]; intros s Hq Hp; cbn.
  - destruct (closed s) eqn:Hc.
    + replace (with_queue [] s) with s by (destruct s; cbn in *; by subst).
      apply rtc_once. by apply recv_closed.
    + replace (with_queue [] s) with s by (destruct s; cbn in *; by subst). done.
  - destruct (on_event e) as [[[]|err]|] eqn:He.
    + apply rtc_once. by eapply recv_change.
    + apply rtc_once. by eapply recv_error.
    + specialize (IH (with_queue q0 s) eq_refl Hp). cbn in IH.
      assert (∀ s', rtc task_step (with_queue q0 s) s' → rtc task_step s s') as Hstep.
      { intros s' Hr. eapply rtc_l; [|exact Hr]. by eapply recv_ignored. }
      destruct (wait_for_trigger _ _) as [[[]|] q]; by apply Hstep.
Qed.

(** ** The cell only ever holds contents of the file *)

Record known (s : RState) : Prop := {
  known_file raw : file s = Ok raw → raw ∈ contents s;
  known_writing raw : phase s = Writing raw → raw ∈ contents s;
  known_refreshing raw : raw ∈ refreshing s → raw ∈ contents s;
  known_token : ∃ raw, raw ∈ contents s ∧ token s = trim raw;
}.

Lemma known_started raw c : known (started raw c).
Proof.
  split; cbn; try done.
  - intros raw' ->. set_solver.
  - set_solver.
  - exists raw. split; [by left|done].
Qed.

Lemma known_task s s' : task_step s s' → known s → known s'.
Proof.
  intros Hstep [Hf Hw Hr Ht]. destruct Hstep; split; cbn; try done; intros;
    simplify_eq; eauto; congruence.
Qed.

Lemma known_verifier s s' : verifier_step s s' → known s → known s'.
Proof.
  intros Hstep [Hf Hw Hr Ht]. destruct Hstep as [s l1 raw l2 Hfile Hl|s l1 raw l2 Hl|s l1 raw l2 Hl];
    rewrite Hl in Hr; split; cbn; try done.
  - intros raw' Hin. apply elem_of_app in Hin. rewrite elem_of_cons in Hin.
    destruct Hin as [?|[->|?]]; [apply Hr; set_solver|eauto|apply Hr; set_solver].
  - intros raw' Hin. apply Hr. set_solver.
  - exists raw. split; [|done]. apply Hr. set_solver.
  - intros raw' Hin. apply Hr. set_solver.
Qed.

Lemma known_outside s s' : outside_step s s' → known s → known s'.
Proof.
  intros Hstep [Hf Hw Hr (raw0 & Hin & Ht)].
  destruct Hstep as [s [raw|e]|s e|s|s]; split; cbn; try done; eauto.
  - intros raw' [= ->]. set_solver.
  - intros raw' Hp. apply elem_of_app. left. eauto.
  - intros raw' Hin'. apply elem_of_app. left. eauto.
  - exists raw0. split; [set_solver|done].
Qed.

Lemma known_reachable raw c s : rtc any_step (started raw c) s → known s.
Proof.
  intros Hsteps. pose proof (known_started raw c) as Hk.
  induction Hsteps as [|s1 s2 s3 Hstep _ IH]; [done|].
  apply IH. destruct Hstep as [?|[?|?]]; eauto using known_task, known_verifier, known_outside.
Qed.

(** Whatever happens, in whatever order (events lost, duplicated or out of thin
    air, the file unreadable, verifiers refreshing at the same time, the handle
    dropped), the cached credential is always the trimmed content that the token file
    had at some moment. *)
Lemma token_from_file raw c s :
  rtc any_step (started raw c) s → ∃ raw', raw' ∈ contents s ∧ token s = trim raw'.
Proof. intros Hk%known_reachable. apply Hk. Qed.

(** ** Freshness *)

(** The cell is up to date, or the task is on its way to make it so. *)
Definition catching_up (s : RState) : Prop :=
  phase s = Stopped ∨ phase s = Reading ∨ (∃ k, Ok k ∈ queue s ∧ is_change k = true) ∨
  ∀ raw, file s = Ok raw → phase s = Writing raw ∨ (phase s = Waiting ∧ token s = trim raw).

Lemma catching_up_task s s' : task_step s s' → catching_up s → catching_up s'.
Proof.
  unfold catching_up. intros Hstep Hc.
  destruct Hstep as [s e q Hp Hqueue He|s e q Hp Hqueue He|s e q err Hp Hqueue He|s Hp|s Hp
    |s raw Hp Hf|s e Hp Hf|s raw Hp]; cbn; try rewrite Hqueue in *; auto.
  - destruct Hc as [?|[?|[(k' & Hin & Hk')|Hc]]]; eauto.
    apply elem_of_cons in Hin as [<-|Hin]; [|naive_solver].
    unfold on_event in He. by rewrite Hk' in He.
  - do 3 right. intros raw' ?. left. congruence.
  - do 3 right. intros raw' ?. congruence.
  - destruct Hc as [?|[?|[?|Hc]]]; [congruence|congruence|auto|].
    do 3 right. intros raw' Hf. destruct (Hc _ Hf) as [|[? _]]; [right|congruence].
    split; [done|]. congruence.
Qed.

Lemma try_send_room e q : (length q < CHANNEL_CAPACITY)%nat → try_send e q = q ++ [e].
Proof. intros H%Nat.ltb_lt. unfold try_send. by rewrite H. Qed.

Lemma try_send_cases e q : try_send e q = q ++ [e] ∨ try_send e q = q.
Proof. unfold try_send. destruct (_ <? _)%nat; auto. Qed.

#[local] Arguments try_send : simpl never.

Lemma catching_up_reported s s' : reported_change s s' → catching_up s'.
Proof.
  intros [s0 c k Hk Hroom]. right. right. left. cbn. rewrite try_send_room by done.
  exists k. set_solver.
Qed.

Lemma catching_up_outside s s' :
  outside_step s s' → file s' = file s → catching_up s → catching_up s'.
Proof.
  unfold catching_up. intros [s0 c|s0 e| |]; cbn; intros Hf Hc; try done; [by rewrite Hf|].
  destruct Hc as [?|[?|[(k & Hin & Hk)|Hc]]]; auto. right. right. left. exists k. split; [|done].
  destruct (try_send_cases e (queue s0)) as [-> | ->]; set_solver.
Qed.

Lemma catching_up_verifier s s' :
  verifier_step s s' → token s' = token s ∨ (∃ raw, file s = Ok raw ∧ token s' = trim raw) →
  catching_up s → catching_up s'.
Proof.
  unfold catching_up. intros Hstep Ht Hc.
  assert (file s' = file s ∧ phase s' = phase s ∧ queue s' = queue s) as (-> & -> & ->) by by destruct Hstep.
  destruct Hc as [?|[?|[?|Hc]]]; auto. do 3 right. intros raw Hf.
  destruct (Hc _ Hf) as [?|[? Htok]]; [by left|right]. split; [done|].
  destruct Ht as [->|(raw' & Hf' & ->)]; [done|congruence].
Qed.

(** C23 The task keeps up with the file.  Take any run from a start at which the file did
    not change between its first reading and the set-up of the watcher, in which every
    later rotation is reported and its event finds room in the channel, and in which no
    verifier writes the cell with a content that it read before the last rotation; noise
    and errors of the watcher, its death, other refreshes and the end of the handle may
    come at any moment.  Whenever the task is idle with no change left to process, the
    cached credential is the trimmed current content of the file, however many rotations
    have taken place and however they fell between its steps.  Each of the three
    conditions is needed ([rotation_before_watch_is_missed], [full_channel_is_deaf],
    [refresh_can_undo_renewal] in [Credentials]). *)
Theorem idle_renewer_is_fresh raw s raw' :
  rtc orderly_step (started raw (Ok raw)) s →
  phase s = Waiting → (∀ k, Ok k ∈ queue s → is_change k = false) →
  file s = Ok raw' → token s = trim raw'.
Proof.
  intros Hsteps Hp Hq Hf.
  assert (catching_up s) as Hc.
  { assert (catching_up (started raw (Ok raw))) as H0
      by (do 3 right; intros ? [= <-]; by right).
    revert H0. clear Hp Hq Hf. induction Hsteps as [|s1 s2 s3 Hstep _ IH]; [done|].
    intros ?. apply IH. destruct Hstep;
      eauto using catching_up_task, catching_up_reported, catching_up_outside, catching_up_verifier. }
  destruct Hc as [?|[?|[(k & Hin & Hk)|Hc]]]; [congruence|congruence| |].
  - by rewrite (Hq _ Hin) in Hk.
  - destruct (Hc _ Hf) as [?|[_ ?]]; [congruence|done].
Qed.

(** ** Stopping *)

Definition phase_work (p : Phase) : nat :=
  match p with Stopped => 0 | Waiting => 1 | Writing _ => 2 | Reading => 3 end.
Definition work (s : RState) : nat := 3 * length (queue s) + phase_work (phase s).

Lemma task_step_work s s' : task_step s s' → (work s' < work s)%nat.
Proof.
  unfold work. destruct 1; cbn;
    repeat match goal with
    | H : phase _ = _ |- _ => rewrite H
    | H : queue _ = _ |- _ => rewrite H
    end; cbn; lia.
Qed.

Lemma task_step_progress s :
  phase s = Stopped ∨
  (phase s = Waiting ∧ queue s = [] ∧ closed s = false ∧ shutdown s = false) ∨
  ∃ s', task_step s s'.
Proof.
  destruct (phase s) as [| |raw|] eqn:Hp; [|right; right..|by left].
  - destruct (queue s) as [|e q] eqn:Hq.
    + destruct (closed s) eqn:Hc; [right; right; eexists; by apply recv_closed|].
      destruct (shutdown s) eqn:Hs; [right; right; eexists; by apply recv_shutdown|by right; left].
    + right. right. destruct (on_event e) as [[[]|]|] eqn:He; eexists;
        [by eapply recv_change|by eapply recv_error|by eapply recv_ignored].
  - destruct (file s) eqn:Hf; eexists; [by eapply read_ok|by eapply read_failed].
  - eexists. by eapply write_cell.
Qed.

Lemma idle_rests s :
  phase s = Waiting → queue s = [] → closed s = false → shutdown s = false → nf task_step s.
Proof. intros ? ? ? ? [s' Hs]. inversion Hs; congruence. Qed.

Lemma task_steps_shutdown s s' : rtc task_step s s' → shutdown s' = shutdown s ∧ closed s' = closed s.
Proof. induction 1 as [|s1 s2 s3 Hstep _ [-> ->]]; [done|]. by destruct Hstep. Qed.

Lemma task_steps_work n s s' : nsteps task_step n s s' → (n + work s' ≤ work s)%nat.
Proof. induction 1 as [|n s1 s2 s3 Hstep%task_step_work _ IH]; lia. Qed.

(** C26 Left to itself the task always comes to rest, after at most three steps for
    every event in the channel and three more, and at rest it is stopped or waiting with an empty
    channel. Once the handle has been dropped or the watcher is gone it can only come
    to rest by stopping, and a stopped task never touches the cell again. *)
Theorem renewer_comes_to_rest s :
  sn task_step s ∧ (∀ n s', nsteps task_step n s s' → n ≤ 3 * length (queue s) + 3)%nat ∧
  ∀ s', rtc task_step s s' → nf task_step s' →
    (phase s' = Stopped ∨ (phase s' = Waiting ∧ queue s' = [])) ∧
    (shutdown s = true ∨ closed s = true → phase s' = Stopped) ∧
    (phase s = Stopped → s' = s).
Proof.
  split_and!.
  - apply (wf_projected lt work); [|apply lt_wf]. intros x y. apply task_step_work.
  - intros n s' Hn%task_steps_work. unfold work in Hn at 2. destruct (phase s); cbn in Hn; lia.
  - intros s' Hsteps Hnf. destruct (task_steps_shutdown _ _ Hsteps) as [Hsh Hcl].
    destruct (task_step_progress s') as [Hp|[(Hp & Hq & Hc & Hs)|[s'' ?]]];
      [| |by destruct Hnf; exists s''].
    + split_and!; [by left|done|]. intros Hst. destruct Hsteps as [|s1 s2 s3 Hstep _]; [done|].
      destruct Hstep; congruence.
    + split_and!; [by right| |].
      * rewrite <- Hsh, <- Hcl, Hc, Hs. by intros [].
      * intros Hst. destruct Hsteps as [|s1 s2 s3 Hstep _]; [congruence|]. destruct Hstep; congruence.
Qed.

(** ** The gap at the start *)

(** [initialize] reads the file before it watches it: a rotation in between is reported
    by no event, and the task waits with a credential that is out of date. *)
Lemma rotation_before_watch_is_missed old new :
  let s := started old (Ok new) in
  nf task_step s ∧ phase s = Waiting ∧ file s = Ok new ∧ token s = trim old.
Proof. split_and!; [|done..]. intros [s' Hs]. by inversion Hs; subst. Qed.

(** A full channel drops the report of a rotation: the task empties the channel of the
    noise that filled it and waits, with a credential that is out of date. *)
Lemma full_channel_is_deaf old new :
  let noise := replicate CHANNEL_CAPACITY (Ok Access : Event) in
  ∃ s, rtc any_step (started old (Ok old)) s ∧ queue s = noise ∧
    let s1 := with_queue (try_send (Ok Modify) (queue s)) (with_file (Ok new) s) in
    ∃ s2, rtc task_step s1 s2 ∧ nf task_step s2 ∧ phase s2 = Waiting ∧
      file s2 = Ok new ∧ token s2 = trim old.
Proof.
  intros noise. set (s := with_queue noise (started old (Ok old))).
  exists s. split_and!; [|done|].
  - assert (∀ n, (n ≤ CHANNEL_CAPACITY)%nat →
      rtc any_step (started old (Ok old)) (with_queue (replicate n (Ok Access)) (started old (Ok old)))) as Hfill.
    { induction n as [|n IH]; intros Hn; [done|]. eapply rtc_r; [apply IH; lia|]. right. right.
      pose proof (event_arrives (with_queue (replicate n (Ok Access)) (started old (Ok old))) (Ok Access)) as Hev.
      cbn in Hev. rewrite try_send_room in Hev by (rewrite length_replicate; lia).
      rewrite replicate_S_end. exact Hev. }
    by apply Hfill.
  - intros s1. assert (s1 = with_queue noise (with_file (Ok new) s)) as Hs1 by reflexivity.
    clearbody s1. pose proof (wait_for_trigger_steps s1) as Hw. rewrite Hs1 in Hw |- *.
    change (wait_for_trigger _ _) with (@None (result JwtVerificationError unit), @nil Event) in Hw.
    eexists. split_and!; [by apply Hw| |done..].
    intros [s3 Hs]. by inversion Hs.
Qed.
