(* ===== verification/Token.v ===== *)
(** * Token: the token exchange

    Models [crates/jwtlet-core/src/token/mod.rs]: audience resolution, the
    assembly of the claims of the issued token and [exchange_token], written
    against the interfaces [JwtVerifier], [ResourceStore], [JwtGenerator] and
    [Ambient]. *)

From S2P Require Import Prelude Text Json Facet Resource K8s.

(** ** 64-bit signed arithmetic *)

Definition i64_min : Z := (- 2 ^ 63)%Z.
Definition i64_max : Z := (2 ^ 63 - 1)%Z.

(** Two's complement wrap-around, which is what a release build computes. *)
Definition wrap_i64 (z : Z) : Z := ((z + 2 ^ 63) mod 2 ^ 64 - 2 ^ 63)%Z.
Definition i64_add (a b : Z) : Z := wrap_i64 (a + b).

Definition MAX_TOKEN_TTL_SECS : Z := 86400.

Inductive ExchangeError (G : Type) : Type :=
  | TokenVerification (e : JwtVerificationError)
  | Unauthorized
  | ServiceError (e : ResourceError)
  | ScopeConflict (msg : str)
  | Generation (e : G).
Arguments TokenVerification {G} _. Arguments Unauthorized {G}.
Arguments ServiceError {G} _. Arguments ScopeConflict {G} _. Arguments Generation {G} _.

(** The settings of [TokenExchangeService]; its collaborators are instances. *)
Record TokenExchangeService : Set := {
  client_audience : str;
  audience : str;
  issuer : str;
  jwtlet_participant_context : str;
  token_ttl_secs : Z;
}.

Definition resolve_audience {G : Type} (requested : option str) (allowed : gset str)
    (default_aud : str) : result (ExchangeError G) str :=
  match requested with
  | None =>
      if bool_decide (allowed = ∅) then Ok default_aud
      else if bool_decide (default_aud ∈ allowed) then Ok default_aud
      else Err Unauthorized
  | Some req =>
      if bool_decide (allowed = ∅) && bool_decide (req = default_aud) then Ok req
      else if bool_decide (allowed = ∅) then Err Unauthorized
      else if bool_decide (req ∈ allowed) then Ok req
      else Err Unauthorized
  end.

(** The custom claims taken over from the scope mappings: reserved keys are
    dropped. *)
Definition keep_unreserved (entries : list (str * Value)) : JsonMap :=
  foldl (λ custom kv, if is_reserved_claim kv.1 then custom else <[kv.1 := kv.2]> custom)
    ∅ entries.

(** The [act] claim: the verified client, its issuer and its UID if it has one. *)
Definition act_claim (client : TokenClaims) : Value :=
  let act := Value.Object {[ "sub"%s := Value.String (tc_sub client);
                             "iss"%s := Value.String (tc_iss client) ]} in
  match tc_custom client !! K8S_UID_CLAIM with
  | Some u => object_set K8S_UID_CLAIM u act
  | None => act
  end.

Definition custom_claims `{HashOrder} (vr : VerificationResult) (client : TokenClaims) (jti : str) :
    JsonMap :=
  <["jti"%s := Value.String jti]>
    (<["act"%s := act_claim client]> (keep_unreserved (hash_map_iter (vr_claims vr)))).

Definition participant_claims (s : TokenExchangeService) (participant_context aud : str)
    (time : Z) (custom : JsonMap) : TokenClaims :=
  {| tc_sub := participant_context; tc_iss := issuer s; tc_aud := aud;
     tc_iat := time; tc_nbf := Some time; tc_exp := i64_add time (token_ttl_secs s);
     tc_custom := custom |}.

Section exchange.
Context {W : Type} `{JwtVerifier W} `{ResourceStore W} `{JwtGenerator W} `{Ambient W} `{HashOrder}.

(** The match on the result of [ResourceService::verify]. *)
Definition verification_outcome (r : result ResourceError VerificationResult) :
    result (ExchangeError JwtGenerationError) VerificationResult :=
  match r with
  | Ok vr => if verified vr then Ok vr else Err Unauthorized
  | Err (ClaimConflict msg) => Err (ScopeConflict msg)
  | Err e => Err (ServiceError e)
  end.

Definition checked_verification (client_id participant_context : str) (scopes : list str) :
    eff W (ExchangeError JwtGenerationError) VerificationResult := λ w,
  let '(r, w') := ResourceService.verify client_id participant_context scopes w in
  (verification_outcome r, w').

Definition exchange_token (s : TokenExchangeService) (participant_context : str)
    (scopes : list str) (auth_token : str) (requested_audience : option str) :
    eff W (ExchangeError JwtGenerationError) str :=
  client_claims ← eff_map_err TokenVerification (verify_token (client_audience s) auth_token);
  verification ← checked_verification (tc_sub client_claims) participant_context scopes;
  aud ← lift (resolve_audience requested_audience (vr_audiences verification) (audience s));
  jti ← total new_uuid;
  time ← total now;
  eff_map_err Generation
    (generate_token {| pc_id := jwtlet_participant_context s |}
       (participant_claims s participant_context aud time
          (custom_claims verification client_claims jti))).
End exchange.
