(* ===== verification/TokenProps.v ===== *)
(** * TokenProps: what an exchange guarantees

    The theorems on the definitions of [Token], over any verifier, conforming
    store and generator that leave each other's state alone. *)

From S2P Require Import Prelude Text Json Facet Resource Policy Service K8s Token.

(** The collaborators other than the store do not touch the policy. *)
Class ExchangeFrame (W : Type) `{StoreContract W} `{JwtVerifier W} `{Ambient W} : Prop := {
  verify_token_frame a t w r w' :
    verify_token a t w = (r, w') → store_inv w → store_inv w' ∧ view w' = view w;
  new_uuid_frame w u w' : new_uuid w = (u, w') → store_inv w → store_inv w' ∧ view w' = view w;
  now_frame w t w' : now w = (t, w') → store_inv w → store_inv w' ∧ view w' = view w;
}.

Class GeneratorFrame (W : Type) `{StoreContract W} `{JwtGenerator W} : Prop := {
  generate_token_frame pc c w r w' :
    generate_token pc c w = (r, w') → store_inv w → store_inv w' ∧ view w' = view w;
}.

(** ** Audience resolution *)

Lemma resolve_audience_run {G : Type} req allowed d (r : result (ExchangeError G) str) :
  resolve_audience req allowed d = r ↔
    let a := default d req in
    (r = Ok a ∧ (if bool_decide (allowed = ∅) then a = d else a ∈ allowed)) ∨
    (r = Err Unauthorized ∧ (if bool_decide (allowed = ∅) then a ≠ d else a ∉ allowed)).
Proof.
  unfold resolve_audience. destruct req as [a|]; cbn; repeat case_bool_decide; cbn;
    (split; [intros <-; first [left; by subst|right; by subst]|]); intros [[-> ?]|[-> ?]]; congruence.
Qed.

(** The audience of an issued token is the requested one, or the default when
    none is requested, and it is granted exactly when the mapping's allowlist holds
    it, an empty allowlist standing for the default audience alone; every other
    request is unauthorized. *)
Lemma resolve_audience_grants {G : Type} req allowed d :
  (∀ a, resolve_audience (G := G) req allowed d = Ok a ↔
     a = default d req ∧ (a ∈ allowed ∨ (allowed = ∅ ∧ a = d))) ∧
  (∀ e, resolve_audience (G := G) req allowed d = Err e → e = Unauthorized).
Proof.
  split.
  - intros a. rewrite resolve_audience_run. cbn. case_bool_decide as Ha; [subst|]; set_solver.
  - by intros e [[[=] _]|[[= ->] _]]%resolve_audience_run.
Qed.

(** ** The claims of the issued token *)

Section custom.
Context `{HashOrder}.

Lemma keep_unreserved_snoc l k v :
  keep_unreserved (l ++ [(k, v)]) =
    if is_reserved_claim k then keep_unreserved l else <[k := v]> (keep_unreserved l).
Proof. unfold keep_unreserved. by rewrite foldl_snoc. Qed.

Lemma keep_unreserved_lookup l k :
  NoDup l.*1 →
  keep_unreserved l !! k =
    if is_reserved_claim k then None else (list_to_map l : JsonMap) !! k.
Proof.
  induction l as [|[k' v] l IH] using rev_ind; intros Hnd.
  { cbn. unfold keep_unreserved. cbn. rewrite !lookup_empty. by destruct (is_reserved_claim k). }
  rewrite keep_unreserved_snoc. rewrite fmap_app in Hnd. cbn in Hnd.
  apply NoDup_app in Hnd as (Hnd & Hk & _).
  assert (k' ∉ l.*1) as Hk' by (intros Hin; apply (Hk _ Hin); by left).
  rewrite list_to_map_snoc by done.
  destruct (is_reserved_claim k') eqn:E', (decide (k' = k)) as [<-|Hne].
  - rewrite IH by done. by rewrite E'.
  - rewrite IH by done. by rewrite lookup_insert_ne.
  - rewrite E'. by rewrite !lookup_insert_eq.
  - rewrite !lookup_insert_ne by done. by rewrite IH.
Qed.

Lemma hash_map_iter_NoDup {V : Type} (m : gmap str V) : NoDup (hash_map_iter m).*1.
Proof. rewrite hash_map_iter_perm. apply NoDup_fst_map_to_list. Qed.

Lemma hash_map_iter_list_to_map {V : Type} (m : gmap str V) : list_to_map (hash_map_iter m) = m.
Proof.
  rewrite <- (list_to_map_to_list m) at 2. apply list_to_map_proper; [apply hash_map_iter_NoDup|].
  apply hash_map_iter_perm.
Qed.

(** The custom claims, key by key, whatever order the claims are iterated in. *)
Lemma custom_claims_lookup vr client jti k :
  custom_claims vr client jti !! k =
    if decide (k = "jti"%s) then Some (Value.String jti)
    else if decide (k = "act"%s) then Some (act_claim client)
    else if is_reserved_claim k then None else vr_claims vr !! k.
Proof.
  unfold custom_claims. rewrite !lookup_insert. repeat case_decide; subst; try done.
  rewrite keep_unreserved_lookup by apply hash_map_iter_NoDup.
  by rewrite hash_map_iter_list_to_map.
Qed.

(** C14 Whatever claims the store hands over, even claims written to it behind the
    service's back, the custom claims of the issued token hold none of the
    registered names [sub], [iss], [aud], [exp], [iat], [nbf]; [act] and [jti] are
    always present with the values jwtlet computed, and every other key is passed on
    unchanged. *)
Theorem reserved_claims_are_authoritative vr client jti :
  let custom := custom_claims vr client jti in
  (∀ k, k ∈ ["sub"; "iss"; "aud"; "exp"; "iat"; "nbf"]%s → custom !! k = None) ∧
  custom !! "act"%s = Some (act_claim client) ∧
  custom !! "jti"%s = Some (Value.String jti) ∧
  (∀ k, k ∉ RESERVED_CLAIMS → custom !! k = vr_claims vr !! k).
Proof.
  cbn. split_and!.
  - intros k Hk. rewrite custom_claims_lookup.
    assert (is_reserved_claim k = true) as ->.
    { apply is_reserved_claim_spec. unfold RESERVED_CLAIMS. set_solver. }
    repeat case_decide; subst; [|..|done]; set_solver.
  - by rewrite custom_claims_lookup.
  - by rewrite custom_claims_lookup.
  - intros k Hk. rewrite custom_claims_lookup.
    rewrite <- is_reserved_claim_spec, not_true_iff_false in Hk. rewrite Hk.
    repeat case_decide; subst; done.
Qed.
End custom.

(** The [act] claim of an issued token names the verified client and its
    issuer, and carries the Kubernetes UID exactly when the verification reported
    one. *)
Lemma act_claim_fields client k :
  field k (act_claim client) =
    if decide (k = K8S_UID_CLAIM) then tc_custom client !! K8S_UID_CLAIM
    else if decide (k = "sub"%s) then Some (Value.String (tc_sub client))
    else if decide (k = "iss"%s) then Some (Value.String (tc_iss client))
    else None.
Proof.
  unfold act_claim. destruct (tc_custom client !! K8S_UID_CLAIM) as [u|] eqn:E; cbn;
    rewrite ?lookup_insert; repeat case_decide; subst;
    rewrite ?lookup_singleton_ne, ?lookup_singleton_eq by done; done || congruence.
Qed.

(** ** Expiry *)

Lemma wrap_i64_id z : (i64_min ≤ z ≤ i64_max)%Z → wrap_i64 z = z.
Proof. unfold i64_min, i64_max, wrap_i64. intros ?. rewrite Z.mod_small; lia. Qed.

(** C28 With a time to live within the configured bounds and a clock that leaves a
    day of head room below the largest 64-bit integer, the expiry does not wrap: the
    token expires after it was issued, at most [MAX_TOKEN_TTL_SECS] later, and is
    valid from its issue time on. *)
Theorem participant_claims_expiry s pc aud time custom :
  (0 < token_ttl_secs s ≤ MAX_TOKEN_TTL_SECS)%Z →
  (i64_min ≤ time ≤ i64_max - MAX_TOKEN_TTL_SECS)%Z →
  let c := participant_claims s pc aud time custom in
  tc_exp c = (tc_iat c + token_ttl_secs s)%Z ∧
  (tc_iat c < tc_exp c ≤ tc_iat c + MAX_TOKEN_TTL_SECS)%Z ∧
  tc_nbf c = Some (tc_iat c) ∧ tc_iat c = time.
Proof.
  unfold MAX_TOKEN_TTL_SECS. intros Httl Htime. cbn. unfold i64_add.
  rewrite wrap_i64_id by (unfold i64_min, i64_max in *; lia). split_and!; lia || done.
Qed.

(** ** The exchange *)

Section exchange.
Context {W : Type} `{StoreContract W} `{JwtVerifier W} `{JwtGenerator W} `{Ambient W} `{HashOrder}.
Context `{!ExchangeFrame W}.
Implicit Types w : W.

Lemma checked_verification_Ok c p req w vr w' :
  store_inv w → checked_verification c p req w = (Ok vr, w') →
  store_inv w' ∧ view w' = view w ∧ verified vr = true ∧
  ∃ g, grants (view w) !! (c, p) = Some g ∧ (∀ s, s ∈ req → s ∈ grant_scopes g) ∧
    vr_audiences vr = grant_audiences g ∧
    ∀ k, compatible (policy_contributions (view w) req k) = true ∧
         vr_claims vr !! k = combined (policy_contributions (view w) req k).
Proof.
  unfold checked_verification. destruct (ResourceService.verify _ _ _ _) as [r w1] eqn:E.
  intros Hinv [= Hr <-]. apply verify_run in E as (? & ? & Hpost); [|done].
  destruct r as [vr'|[]]; cbn in Hr; try done. destruct (verified vr') eqn:Ev; [|done].
  injection Hr as ->. cbn in Hpost. rewrite Ev in Hpost. auto.
Qed.

Lemma exchange_token_granted s pc req tok aud w token w' :
  store_inv w → exchange_token s pc req tok aud w = (Ok token, w') →
  ∃ client w1 g, verify_token (client_audience s) tok w = (Ok client, w1) ∧
    grants (view w) !! (tc_sub client, pc) = Some g ∧ ∀ x, x ∈ req → x ∈ grant_scopes g.
Proof.
  unfold exchange_token. intros Hinv
    (client & w1 & Hver%eff_map_err_Ok & (vr & w2 & Hck & _)%eff_bind_Ok)%eff_bind_Ok.
  destruct (verify_token_frame _ _ _ _ _ Hver Hinv) as [Hinv1 Hview1].
  apply checked_verification_Ok in Hck as (_ & _ & _ & g & Hg & Hall & _); [|done].
  rewrite Hview1 in Hg. eauto 10.
Qed.

(** C4 A token is issued only to a client that the verifier identified, for a
    context and scopes that the policy grants to that client, with an audience its
    grant allows.  The signed claims are then determined: the requested context as
    subject, the configured issuer, the resolved audience, the issue time and the
    configured lifetime, and as custom claims exactly [act], [jti] and the
    unreserved claims that the requested scopes define. *)
Theorem exchange_token_sound s pc req tok aud w token w' :
  store_inv w → exchange_token s pc req tok aud w = (Ok token, w') →
  ∃ client w1 g claims w2,
    verify_token (client_audience s) tok w = (Ok client, w1) ∧
    grants (view w) !! (tc_sub client, pc) = Some g ∧
    (∀ x, x ∈ req → x ∈ grant_scopes g) ∧
    generate_token {| pc_id := jwtlet_participant_context s |} claims w2 = (Ok token, w') ∧
    tc_sub claims = pc ∧ tc_iss claims = issuer s ∧
    tc_aud claims = default (audience s) aud ∧
    (if bool_decide (grant_audiences g = ∅) then tc_aud claims = audience s
     else tc_aud claims ∈ grant_audiences g) ∧
    tc_nbf claims = Some (tc_iat claims) ∧
    tc_exp claims = i64_add (tc_iat claims) (token_ttl_secs s) ∧
    tc_custom claims !! "act"%s = Some (act_claim client) ∧
    (∃ jti, tc_custom claims !! "jti"%s = Some (Value.String jti)) ∧
    ∀ k, k ≠ "act"%s → k ≠ "jti"%s →
      tc_custom claims !! k =
        if is_reserved_claim k then None else combined (policy_contributions (view w) req k).
Proof.
  unfold exchange_token. intros Hinv Hex. inv_eff.
  match goal with H : verify_token _ _ _ = (Ok ?c, ?w1) |- _ =>
    rename c into client, w1 into w1', H into Hver end.
  destruct (verify_token_frame _ _ _ _ _ Hver Hinv) as [Hinv1 Hview1].
  match goal with H : checked_verification _ _ _ _ = _ |- _ =>
    apply checked_verification_Ok in H as (Hinv2 & Hview2 & _ & g & Hg & Hall & Haud & Hcl);
      [|done] end.
  match goal with H : Ok _ = resolve_audience _ _ _ |- _ => symmetry in H;
    apply resolve_audience_run in H as [[[= ->] Hallow]|[[=] _]] end.
  rewrite Hview1 in *.
  eexists client, w1', g, _, _. split_and!; [exact Hver|done|done|exact Hex|done|done|done| |done|done|..].
  - by rewrite <- Haud.
  - cbn. by rewrite custom_claims_lookup.
  - eexists. cbn. by rewrite custom_claims_lookup.
  - intros k Hact Hjti. cbn. rewrite custom_claims_lookup.
    rewrite !decide_False by done. by destruct (Hcl k) as [_ ->].
Qed.

(** C5 Every failure has its cause: an unverified subject token, a missing
    grant, an ungranted scope or a forbidden audience, clashing claims, a store
    failure, or a failed signature.  Unless signing itself failed, neither the
    generator, the clock nor the UUID source was used: the world is as the policy
    check left it. *)
Theorem exchange_token_failure s pc req tok aud w e w' :
  store_inv w → exchange_token s pc req tok aud w = (Err e, w') →
  match e with
  | TokenVerification je => verify_token (client_audience s) tok w = (Err je, w')
  | Unauthorized => ∃ client w1 vr,
      verify_token (client_audience s) tok w = (Ok client, w1) ∧
      ResourceService.verify (tc_sub client) pc req w1 = (Ok vr, w') ∧
      ∀ g, grants (view w) !! (tc_sub client, pc) = Some g →
        (∃ x, x ∈ req ∧ x ∉ grant_scopes g) ∨
        (if bool_decide (grant_audiences g = ∅) then default (audience s) aud ≠ audience s
         else default (audience s) aud ∉ grant_audiences g)
  | ScopeConflict _ => ∃ client w1 re g k,
      verify_token (client_audience s) tok w = (Ok client, w1) ∧
      ResourceService.verify (tc_sub client) pc req w1 = (Err re, w') ∧
      grants (view w) !! (tc_sub client, pc) = Some g ∧
      (∀ x, x ∈ req → x ∈ grant_scopes g) ∧
      compatible (policy_contributions (view w) req k) = false
  | ServiceError re => ∃ client w1,
      verify_token (client_audience s) tok w = (Ok client, w1) ∧
      ResourceService.verify (tc_sub client) pc req w1 = (Err re, w') ∧
      may_fail ∧ ∃ msg, re = DatabaseError msg
  | Generation ge => ∃ claims w2,
      generate_token {| pc_id := jwtlet_participant_context s |} claims w2 = (Err ge, w')
  end.
Proof.
  unfold exchange_token. intros Hinv.
  intros [(je & Hver & ->)%eff_map_err_Err|(client & w1 & Hver%eff_map_err_Ok & Hex)]%eff_bind_Err; [done|].
  destruct (verify_token_frame _ _ _ _ _ Hver Hinv) as [Hinv1 Hview1].
  apply eff_bind_Err in Hex as [Hex|(vr & w2 & Hck & Hex)].
  - unfold checked_verification in Hex.
    destruct (ResourceService.verify _ _ _ _) as [r w2] eqn:Hrs. injection Hex as Hr ->.
    pose proof (verify_run _ _ _ _ _ _ Hinv1 Hrs) as (_ & _ & Hpost). rewrite Hview1 in Hpost.
    destruct r as [vr|[]]; cbn in Hr, Hpost; simplify_eq; try done; [|by eauto 10..| ].
    + destruct (verified vr) eqn:Ev; simplify_eq. destruct Hpost as [-> Hmiss].
      eexists client, w1, _. split_and!; [done|done|]. intros g Hg. left. by apply Hmiss.
    + destruct Hpost as (g & k & ? & ? & ?). by exists client, w1, (ClaimConflict msg), g, k.
  - apply eff_bind_Err in Hex as [[Hres ->]%lift_eq|(a & w3 & [? ->]%lift_eq & Hex)].
    + pose proof (checked_verification_Ok _ _ _ _ _ _ Hinv1 Hck)
        as (_ & _ & Hv & g & Hg & Hall & Haud & _).
      symmetry in Hres. apply resolve_audience_run in Hres as [[? _]|[[= ->] Hforb]]; [done|].
      unfold checked_verification in Hck.
      destruct (ResourceService.verify _ _ _ _) as [r w3] eqn:Hrs. injection Hck as Hr ->.
      destruct r as [vr'|[]]; cbn in Hr; try done. destruct (verified vr'); simplify_eq.
      exists client, w1, vr. split_and!; [done|done|]. rewrite Hview1 in Hg.
      intros g' Hg'. assert (g' = g) as -> by congruence. right. by rewrite <- Haud.
    + apply eff_bind_Err in Hex as [Hex|(jti & w4 & _ & Hex)]; [by destruct (total_Err _ _ _ _ Hex)|].
      apply eff_bind_Err in Hex as [Hex|(time & w5 & _ & Hex)]; [by destruct (total_Err _ _ _ _ Hex)|].
      apply eff_map_err_Err in Hex as (ge & Hgen & ->). eauto.
Qed.
End exchange.

(** ** An exchange does not touch the policy *)

Section frame.
Context {W : Type} `{StoreContract W}.

Definition keeps_policy {E A : Type} (m : eff W E A) : Prop :=
  ∀ w r w', m w = (r, w') → store_inv w → store_inv w' ∧ view w' = view w.

Lemma keeps_bind {E A B : Type} (m : eff W E A) (f : A → eff W E B) :
  keeps_policy m → (∀ a, keeps_policy (f a)) → keeps_policy (m ≫= f).
Proof.
  intros Hm Hf w r w'. unfold mbind, eff_bind. destruct (m w) as [[a|e] w1] eqn:Hrun.
  - intros Hr Hinv. destruct (Hm _ _ _ Hrun Hinv) as [Hinv1 Hv1].
    destruct (Hf a _ _ _ Hr Hinv1) as [? ->]. done.
  - intros [= <- <-]. by apply (Hm _ _ _ Hrun).
Qed.

Lemma keeps_map_err {E F A : Type} (f : E → F) (m : eff W E A) :
  keeps_policy m → keeps_policy (eff_map_err f m).
Proof.
  intros Hm w r w'. unfold eff_map_err. destruct (m w) as [r0 w0] eqn:Hrun.
  intros [= <- <-]. by apply (Hm _ _ _ Hrun).
Qed.

Lemma keeps_lift {E A : Type} (r : result E A) : keeps_policy (lift r).
Proof. intros w r' w' [= <- <-]. done. Qed.

Lemma keeps_total {E A : Type} (m : W → A * W) :
  (∀ w a w', m w = (a, w') → store_inv w → store_inv w' ∧ view w' = view w) →
  keeps_policy (total m : eff W E A).
Proof. intros Hm w r w'. unfold total. destruct (m w) eqn:Hrun. intros [= <- <-]. by apply (Hm _ _ _ Hrun). Qed.

Context `{JwtVerifier W} `{JwtGenerator W} `{Ambient W} `{HashOrder}.
Context `{!ExchangeFrame W} `{!GeneratorFrame W}.

Lemma exchange_token_keeps s pc req tok aud : keeps_policy (exchange_token s pc req tok aud).
Proof.
  unfold exchange_token.
  apply keeps_bind; [apply keeps_map_err; intros ???; apply verify_token_frame|intros client].
  apply keeps_bind.
  { intros w r w'. unfold checked_verification. destruct (ResourceService.verify _ _ _ _) eqn:E.
    intros [= <- <-] Hinv. by apply verify_run in E as (? & ? & _). }
  intros vr. apply keeps_bind; [apply keeps_lift|intros a].
  apply keeps_bind; [apply keeps_total; intros ???; apply new_uuid_frame|intros jti].
  apply keeps_bind; [apply keeps_total; intros ???; apply now_frame|intros time].
  apply keeps_map_err. intros ???. apply generate_token_frame.
Qed.
End frame.
