(* ===== verification/System.v ===== *)
(** * System: putting a store beside the rest of the world

    The runtime of [assembly/mod.rs] hands one shared store to the exchange
    service and to the management service.  [World] is that composition: the
    state of the store and, beside it, the state [X] that the verifier, the
    signer, the clock and the UUID source run on.  A component of one part is
    lifted to the whole and leaves the other part alone, so the contract of the
    store and the frame conditions hold for the whole world. *)

From S2P Require Import Prelude Text Json Facet Resource Policy Service SAccount Token TokenProps.

Record World (S X : Type) : Type := { w_store : S; w_rest : X }.
Arguments w_store {S X} _. Arguments w_rest {S X} _.

Section world.
Context {S X : Type}.

Definition set_store (s : S) (w : World S X) : World S X := {| w_store := s; w_rest := w_rest w |}.
Definition set_rest (x : X) (w : World S X) : World S X := {| w_store := w_store w; w_rest := x |}.

Definition on_store {E A : Type} (m : eff S E A) : eff (World S X) E A := zoom w_store set_store m.
Definition on_rest {E A : Type} (m : eff X E A) : eff (World S X) E A := zoom w_rest set_rest m.

#[export] Instance world_store `{ResourceStore S} : ResourceStore (World S X) := {|
  resolve_mapping c p := on_store (resolve_mapping c p);
  save_mapping m := on_store (save_mapping m);
  update_mapping m := on_store (update_mapping m);
  remove_mapping c p := on_store (remove_mapping c p);
  remove_mappings_for c := on_store (remove_mappings_for c);
  save_scope_mappings ms := on_store (save_scope_mappings ms);
  update_scope_mapping m := on_store (update_scope_mapping m);
  remove_scope_mapping s := on_store (remove_scope_mapping s);
  list_mappings := on_store list_mappings;
  list_scope_mappings := on_store list_scope_mappings;
|}.

#[export] Instance world_verifier `{JwtVerifier X} : JwtVerifier (World S X) :=
  {| verify_token a t := on_rest (verify_token a t) |}.

#[export] Instance world_generator `{JwtGenerator X} : JwtGenerator (World S X) :=
  {| generate_token pc c := on_rest (generate_token pc c) |}.

#[export] Instance world_ambient `{Ambient X} : Ambient (World S X) := {|
  now w := let '(t, x) := now (w_rest w) in (t, set_rest x w);
  new_uuid w := let '(u, x) := new_uuid (w_rest w) in (u, set_rest x w);
|}.

Lemma on_rest_store {E A : Type} (m : eff X E A) w r w' :
  on_rest m w = (r, w') → w_store w' = w_store w.
Proof. unfold on_rest, zoom. destruct (m (w_rest w)). by intros [= _ <-]. Qed.

Lemma on_store_rest {E A : Type} (m : eff S E A) w r w' :
  on_store m w = (r, w') → w_rest w' = w_rest w.
Proof. unfold on_store, zoom. destruct (m (w_store w)). by intros [= _ <-]. Qed.

(** Refinement is preserved by the lifting. *)
Lemma on_store_refines {A : Type} inv vw fails (R : A → A → Prop) spec (m : eff S ResourceError A) :
  refines inv vw fails R spec m →
  refines (λ w, inv (w_store w)) (λ w, vw (w_store w)) fails R spec (on_store m).
Proof.
  intros Href w r w' Hinv. unfold on_store, zoom.
  destruct (m (w_store w)) as [r0 s0] eqn:E. intros [= <- <-]. cbn. by apply Href.
Qed.

#[export] Instance world_contract `{StoreContract S} : StoreContract (World S X) := {|
  store_inv w := store_inv (w_store w);
  view w := view (w_store w);
  may_fail := may_fail;
  resolve_mapping_refines c p := on_store_refines _ _ _ _ _ _ (resolve_mapping_refines c p);
  save_mapping_refines m := on_store_refines _ _ _ _ _ _ (save_mapping_refines m);
  update_mapping_refines m := on_store_refines _ _ _ _ _ _ (update_mapping_refines m);
  remove_mapping_refines c p := on_store_refines _ _ _ _ _ _ (remove_mapping_refines c p);
  remove_mappings_for_refines c := on_store_refines _ _ _ _ _ _ (remove_mappings_for_refines c);
  save_scope_mappings_refines ms := on_store_refines _ _ _ _ _ _ (save_scope_mappings_refines ms);
  update_scope_mapping_refines m := on_store_refines _ _ _ _ _ _ (update_scope_mapping_refines m);
  remove_scope_mapping_refines s := on_store_refines _ _ _ _ _ _ (remove_scope_mapping_refines s);
  list_mappings_refines := on_store_refines _ _ _ _ _ _ list_mappings_refines;
  list_scope_mappings_refines := on_store_refines _ _ _ _ _ _ list_scope_mappings_refines;
|}.

#[export] Instance world_frame `{StoreContract S, JwtVerifier X, Ambient X} :
  ExchangeFrame (World S X).
Proof.
  split.
  - intros a t w r w' Hv%on_rest_store Hinv. cbn in *. by rewrite Hv.
  - cbn. intros w u w'. destruct (new_uuid (w_rest w)). by intros [= _ <-].
  - cbn. intros w t w'. destruct (now (w_rest w)). by intros [= _ <-].
Qed.

#[export] Instance world_generator_frame `{StoreContract S, JwtGenerator X} :
  GeneratorFrame (World S X).
Proof. split. intros pc c w r w' Hg%on_rest_store Hinv. cbn in *. by rewrite Hg. Qed.
End world.
