(* ===== verification/Steps.v ===== *)
(** * Steps: the verification of a token, cut at its awaits

    [verify_token] of [jwtlet-core/src/k8s/mod.rs] waits for the lock of the credential
    cell, for the API server, for the file and for the API server again.  [SteppedVerifier]
    is a verifier that is cut at such points: a verification has a state of its own between
    two steps, it takes boundedly many steps, and undisturbed it does what [verify_token]
    does.  [k8s_steps] are the steps of the Kubernetes verifier. *)

From S2P Require Import Prelude Text Facet Resource Policy K8s TokenProps System.

(** A computation that gives way between its steps, run without a disturbance. *)
Fixpoint run_steps {W V R : Type} (step : V → W → (V + R) * W) (fuel : nat) (v : V) (w : W) :
    option (R * W) :=
  match fuel with
  | O => None
  | S fuel =>
      match step v w with
      | (inl v', w') => run_steps step fuel v' w'
      | (inr r, w') => Some (r, w')
      end
  end.

Class SteppedVerifier (W : Type) `{JwtVerifier W} : Type := {
  Verification : Type;
  v_begin : str → str → Verification;
  v_step : Verification → W → (Verification + result JwtVerificationError TokenClaims) * W;
  v_work : Verification → nat;
  v_step_work v w v' w' : v_step v w = (inl v', w') → (v_work v' < v_work v)%nat;
  v_agrees aud tok w :
    run_steps v_step (S (v_work (v_begin aud tok))) (v_begin aud tok) w = Some (verify_token aud tok w);
}.

(** None of its steps touches the policy. *)
Class SteppedFrame (W : Type) `{StoreContract W, SteppedVerifier W} : Prop := {
  v_step_frame v w r w' :
    v_step v w = (r, w') → store_inv w → store_inv w' ∧ view w' = view w;
}.

(** A verifier that does not wait. *)
Definition one_step {W : Type} `{JwtVerifier W} : SteppedVerifier W.
Proof.
  refine {| Verification := str * str; v_begin := pair;
            v_step v w := let '(r, w') := verify_token v.1 v.2 w in (inr r, w');
            v_work _ := 0%nat |}.
  - intros v w v' w'. by destruct (verify_token _ _ _).
  - intros aud tok w. cbn. by destruct (verify_token _ _ _).
Defined.

(** ** The Kubernetes verifier *)

(** Where a verification is: about to read the credential from the cell, to send the
    first review, to read the file after a refusal, to write what it read into the cell,
    or to send the second review. *)
Inductive KPhase : Set :=
  | ReadCell
  | Ask (sa : str)
  | ReadFile
  | WriteCell (raw : str)
  | AskAgain (sa : str).

Record KVerification : Set := { kv_audience : str; kv_token : str; kv_phase : KPhase }.

Section k8s_steps.
Context {X : Type} `{K8sExternal X} (v : K8sTokenReviewVerifier).
Implicit Types (w : KWorld X) (a : KVerification).

Definition kv_begin (audience token : str) : KVerification :=
  {| kv_audience := audience; kv_token := token; kv_phase := ReadCell |}.

Definition at_phase (p : KPhase) a : KVerification :=
  {| kv_audience := kv_audience a; kv_token := kv_token a; kv_phase := p |}.

(** What follows an accepted review. *)
Definition conclude a (r : result JwtVerificationError TokenReviewResponse) :
    result JwtVerificationError TokenClaims :=
  r ≫= K8sVerifier.claims_of_review v (kv_audience a).

Definition kv_step a w : (KVerification + result JwtVerificationError TokenClaims) * KWorld X :=
  match kv_phase a with
  | ReadCell =>
      match K8sVerifier.ensure_initialized w with
      | (Ok st, w') => (inl (at_phase (Ask (sa_token st)) a), w')
      | (Err e, w') => (inr (Err e), w')
      end
  | Ask sa =>
      match K8sVerifier.call_token_review v sa (kv_audience a) (kv_token a) w with
      | (Ok review, w') => (inr (conclude a (Ok review)), w')
      | (Err (code, e), w') =>
          (if N.eqb code UNAUTHORIZED then inl (at_phase ReadFile a) else inr (Err e), w')
      end
  | ReadFile =>
      match outside (read_to_string (token_file v)) w with
      | (Ok raw, w') => (inl (at_phase (WriteCell raw) a), w')
      | (Err e, w') =>
          (inr (Err (VerificationFailed
             ("Failed to re-read SA token file " +:+ token_file v +:+ ": " +:+ e)%s)), w')
      end
  | WriteCell raw =>
      match (_ ← K8sVerifier.ensure_initialized; K8sVerifier.put_token (trim raw)
             : eff (KWorld X) JwtVerificationError unit) w with
      | (Ok _, w') => (inl (at_phase (AskAgain (trim raw)) a), w')
      | (Err e, w') => (inr (Err e), w')
      end
  | AskAgain sa =>
      let '(r, w') := K8sVerifier.call_token_review v sa (kv_audience a) (kv_token a) w in
      (inr (conclude a (map_err snd r)), w')
  end.

Definition kv_work a : nat :=
  match kv_phase a with ReadCell => 4 | Ask _ => 3 | ReadFile => 2 | WriteCell _ => 1 | AskAgain _ => 0 end.

Lemma kv_step_work a w a' w' : kv_step a w = (inl a', w') → (kv_work a' < kv_work a)%nat.
Proof.
  unfold kv_step, kv_work. destruct (kv_phase a) as [|sa| |raw|sa].
  - destruct (K8sVerifier.ensure_initialized w) as [[st|e] w1]; [|done]. intros [= <- _]. cbn. lia.
  - destruct (K8sVerifier.call_token_review _ _ _ _ w) as [[r|[code e]] w1]; [done|].
    destruct (N.eqb _ _); [|done]. intros [= <- _]. cbn. lia.
  - destruct (outside _ w) as [[raw|e] w1]; [|done]. intros [= <- _]. cbn. lia.
  - case_match. case_match; intros [= <- _]. cbn. lia.
  - by destruct (K8sVerifier.call_token_review _ _ _ _ w).
Qed.

(** The token and the audience stay what they were. *)
Lemma kv_step_subject a w a' w' :
  kv_step a w = (inl a', w') → kv_audience a' = kv_audience a ∧ kv_token a' = kv_token a.
Proof.
  unfold kv_step. intros Hs. repeat case_match; by simplify_eq.
Qed.

(** Undisturbed, the steps are [verify_token]. *)
Lemma kv_agrees aud tok w :
  run_steps kv_step 5 (kv_begin aud tok) w = Some (K8sVerifier.verify_token v aud tok w).
Proof.
  unfold K8sVerifier.verify_token, K8sVerifier.review_with_retry, K8sVerifier.refresh_sa_token.
  unfold mbind, eff_bind, eff_map_err, lift. cbn.
  destruct (K8sVerifier.ensure_initialized w) as [[st|e] w1]; cbn; [|done].
  destruct (K8sVerifier.call_token_review v (sa_token st) aud tok w1) as [[rv|[code e]] w2]; cbn; [done|].
  destruct (N.eqb code UNAUTHORIZED); [|done]. cbn.
  destruct (outside _ w2) as [[raw|e1] w3]; cbn; [|done].
  unfold mbind, eff_bind. destruct (K8sVerifier.ensure_initialized w3) as [[st2|e2] w4]; cbn; [|done].
  destruct (K8sVerifier.call_token_review v (trim raw) aud tok _) as [[rv|[code2 e3]] w5]; done.
Qed.

(** Claims come with the last step, and the API server vouched for them there. *)
Lemma kv_step_vouched a w c w' :
  require_service_account v = true → kv_step a w = (inr (Ok c), w') →
  vouched_for (api_server_url v) (kv_audience a) (kv_token a) (tc_sub c) ∧
  tc_iss c = cluster_issuer v.
Proof.
  intros Hreq. unfold kv_step, conclude. destruct (kv_phase a) as [|sa| |raw|sa].
  - by destruct (K8sVerifier.ensure_initialized w) as [[st|e] w1].
  - destruct (K8sVerifier.call_token_review _ _ _ _ w) as [[rv|[code e]] w1] eqn:E.
    + intros [= Hc _]. by eapply claims_vouched.
    + by destruct (N.eqb code UNAUTHORIZED).
  - by destruct (outside _ w) as [[raw|e] w1].
  - by repeat case_match.
  - destruct (K8sVerifier.call_token_review _ _ _ _ w) as [[rv|[code e]] w1] eqn:E; [|done].
    intros [= Hc _]. by eapply claims_vouched.
Qed.

Definition k8s_steps : SteppedVerifier (KWorld X) (H := K8sVerifier.k8s_verifier v) :=
  Build_SteppedVerifier (KWorld X) (K8sVerifier.k8s_verifier v) KVerification kv_begin kv_step kv_work
    kv_step_work kv_agrees.
End k8s_steps.

(** ** Steps on a part of the world *)

Section zoomed.
Context {V W R A : Type} (get : W → V) (set : V → W → W) (step : A → V → (A + R) * V).
Hypothesis get_set : ∀ x w, get (set x w) = x.
Hypothesis set_set : ∀ x y w, set x (set y w) = set x w.

Definition zoom_step (a : A) (w : W) : (A + R) * W :=
  let '(r, x) := step a (get w) in (r, set x w).

Lemma zoom_steps n a w :
  run_steps zoom_step n a w = (λ rx, (rx.1, set rx.2 w)) <$> run_steps step n a (get w).
Proof.
  revert a w. induction n as [|n IH]; intros a w; cbn; [done|].
  unfold zoom_step at 1. destruct (step a (get w)) as [[a'|r] x]; [|done].
  rewrite IH, get_set. destruct (run_steps step n a' x) as [[r y]|]; cbn; [|done]. by rewrite set_set.
Qed.
End zoomed.

Lemma zoom_step_inv {V W R A : Type} (get : W → V) set (step : A → V → (A + R) * V) a w r w' :
  zoom_step get set step a w = (r, w') → ∃ x, step a (get w) = (r, x).
Proof. unfold zoom_step. destruct (step a (get w)) as [r0 x]. intros [= -> _]. by exists x. Qed.

(** A verifier that runs on a part of the world, cut where the verifier of the part is. *)
Definition zoomed_steps {V W : Type} (get : W → V) (set : V → W → W)
    (get_set : ∀ x w, get (set x w) = x) (set_set : ∀ x y w, set x (set y w) = set x w)
    `{SV : SteppedVerifier V} :
  SteppedVerifier W (H := {| verify_token aud tok := zoom get set (verify_token aud tok) |}).
Proof.
  refine (Build_SteppedVerifier W _ Verification v_begin (zoom_step get set v_step) v_work _ _).
  - intros a w a' w'. unfold zoom_step. destruct (v_step a (get w)) as [r x] eqn:E.
    intros [= -> _]. by eapply v_step_work.
  - intros aud tok w. rewrite zoom_steps by done. rewrite v_agrees. cbn. unfold zoom.
    by destruct (verify_token aud tok (get w)).
Defined.

Section world_steps.
Context {S X : Type}.

#[export] Instance world_steps `{SteppedVerifier X} : SteppedVerifier (World S X) :=
  zoomed_steps w_rest set_rest (λ _ _, eq_refl) (λ _ _ _, eq_refl).

#[export] Instance world_stepped_frame `{StoreContract S, SteppedVerifier X} :
  SteppedFrame (World S X).
Proof.
  split. intros v w r w'. cbn. unfold zoom_step. destruct (v_step (W := X) v (w_rest w)).
  by intros [= _ <-].
Qed.
End world_steps.
