(* ===== verification/Credentials.v ===== *)
(** * Credentials: verifications and the renewal share a cell

    Any number of verifications of the Kubernetes verifier ([Steps]), the renewal task
    and the world around it ([Renewal]), step by step on one credential cell and one token
    file, with an API server that may answer anything.  The machine is shown to refine
    that of [Renewal], which only knows that verifiers read the file and write the cell. *)

From S2P Require Import Prelude Text Facet K8s Renewal TokenProps Steps.

(** What a verification meets outside: the content of the file and the answer that the
    API server is going to give. *)
Record Site : Set := {
  on_disk : result str str;
  reply : result ReqwestError HttpResponse;
}.

(** Its request may be dropped at any of its awaits. *)
Inductive Fate : Set :=
  | UnderWay
  | Finished (r : result JwtVerificationError TokenClaims)
  | Abandoned.

Record Credentials : Set := {
  renewer : RState;                             (* file, channel, task and cell *)
  verifications : list (KVerification * Fate);
  asked : list (nat * ReviewCall);              (* every review sent, by verification *)
}.

Section credentials.
Context (show_code : N → str) (v : K8sTokenReviewVerifier).

#[local] Instance site : K8sExternal Site := {|
  read_to_string path x := (on_disk x, x);
  post_review url bearer q x := (reply x, x);
  recommended_watcher x := (Ok tt, x);
  watch path x := (Ok tt, x);
  show_status := show_code;
|}.
#[local] Instance recorded_site : K8sExternal (list ReviewCall * Site) := recorded Site.
Implicit Types s : Credentials.

Definition with_renewer (r : RState) s : Credentials :=
  {| renewer := r; verifications := verifications s; asked := asked s |}.

(** The cell and the world as a verification finds them, the API server about to give [o]. *)
Definition around (o : result ReqwestError HttpResponse) s : KWorld (list ReviewCall * Site) :=
  {| cell := Some {| sa_token := token (renewer s) |};
     ext := ([], {| on_disk := file (renewer s); reply := o |}) |}.

(** What the step of verification [i] leaves behind. *)
Definition after_step (i : nat) (a : KVerification)
    (r : KVerification + result JwtVerificationError TokenClaims)
    (w : KWorld (list ReviewCall * Site)) s : Credentials :=
  {| renewer := match cell w with Some st => with_token (sa_token st) (renewer s) | None => renewer s end;
     verifications := <[i := match r with inl a' => (a', UnderWay) | inr c => (a, Finished c) end]>
                        (verifications s);
     asked := asked s ++ (pair i <$> (ext w).1) |}.

Inductive cred_step : Credentials → Credentials → Prop :=
  | renewal_moves s r : task_step (renewer s) r → cred_step s (with_renewer r s)
  | world_moves s r : outside_step (renewer s) r → cred_step s (with_renewer r s)
  | verification_begins s aud tok :
      cred_step s {| renewer := renewer s; verifications := verifications s ++ [(kv_begin aud tok, UnderWay)];
                     asked := asked s |}
  | verification_moves s i a o r w :
      verifications s !! i = Some (a, UnderWay) → kv_step v a (around o s) = (r, w) →
      cred_step s (after_step i a r w s)
  | verification_dropped s i a :
      verifications s !! i = Some (a, UnderWay) →
      cred_step s {| renewer := renewer s; verifications := <[i := (a, Abandoned)]> (verifications s);
                     asked := asked s |}.

(** Any step, as long as the file changes only in rotations that are reported. *)
Inductive reported_step : Credentials → Credentials → Prop :=
  | leaves_file s s' :
      cred_step s s' → file (renewer s') = file (renewer s) → reported_step s s'
  | rotation s r : reported_change (renewer s) r → reported_step s (with_renewer r s).

(** [initialize] has read [raw], set up the watcher and spawned the task. *)
Definition cred_started (raw : str) (c : result str str) : Credentials :=
  {| renewer := started raw c; verifications := []; asked := [] |}.

(** A given verification, moved on, with the answer that the API server would give. *)
Definition move (i : nat) (o : result ReqwestError HttpResponse) s : Credentials :=
  match verifications s !! i with
  | Some (a, UnderWay) => let '(r, w) := kv_step v a (around o s) in after_step i a r w s
  | _ => s
  end.

Lemma move_reachable i o s : rtc cred_step s (move i o s).
Proof.
  unfold move. destruct (verifications s !! i) as [[a []]|] eqn:Hi; try done.
  destruct (kv_step v a (around o s)) as [r w] eqn:Hs. apply rtc_once. by eapply verification_moves.
Qed.

(** ** The steps of a verification, here *)

(** What a step does to the cell, to the record of reviews, and to the verification. *)
Lemma kv_step_around a o s r w :
  kv_step v a (around o s) = (r, w) →
  match kv_phase a with
  | ReadCell => cell w = cell (around o s) ∧ (ext w).1 = [] ∧ r = inl (at_phase (Ask (token (renewer s))) a)
  | Ask sa | AskAgain sa =>
      cell w = cell (around o s) ∧ ∃ c, (ext w).1 = [c] ∧ call_bearer c = sa ∧
        call_request c = K8sVerifier.review_request (kv_audience a) (kv_token a) ∧
        match r with
        | inl a' => (∃ sa, kv_phase a = Ask sa) ∧ a' = at_phase ReadFile a ∧ refused (call_outcome c) = true
        | inr (Ok claims) => ∃ rv, review_of (call_outcome c) = Some rv ∧
            K8sVerifier.claims_of_review v (kv_audience a) rv = Ok claims
        | inr (Err _) => True
        end
  | ReadFile =>
      cell w = cell (around o s) ∧ (ext w).1 = [] ∧
      match file (renewer s) with
      | Ok raw => r = inl (at_phase (WriteCell raw) a)
      | Err _ => ∃ e, r = inr (Err e)
      end
  | WriteCell raw =>
      cell w = Some {| sa_token := trim raw |} ∧ (ext w).1 = [] ∧ r = inl (at_phase (AskAgain (trim raw)) a)
  end.
Proof.
  unfold kv_step, conclude. destruct (kv_phase a) as [|sa| |raw|sa] eqn:Hp.
  - by intros [= <- <-].
  - destruct (K8sVerifier.call_token_review _ _ _ _ _) as [r0 w0] eqn:E.
    apply call_recorded in E as (c & Hc & Hcell & Hb & Hq & _ & Hr).
    destruct r0 as [rv|[code e]].
    + intros [= <- <-]. split; [done|]. exists c. split_and!; [done..|]. cbn.
      destruct (K8sVerifier.claims_of_review v _ rv) eqn:Hcl; [|done]. exists rv. by destruct Hr.
    + intros [= <- <-]. split; [done|]. exists c. split_and!; [done..|].
      destruct (N.eqb code UNAUTHORIZED); [|done]. destruct Hr as (Hr & _). by eauto 6.
  - unfold outside, zoom. cbn. destruct (file (renewer s)); intros [= <- <-]; cbn; eauto.
  - by intros [= <- <-].
  - destruct (K8sVerifier.call_token_review _ _ _ _ _) as [r0 w0] eqn:E.
    apply call_recorded in E as (c & Hc & Hcell & Hb & Hq & _ & Hr).
    intros [= <- <-]. split; [done|]. exists c. split_and!; [done..|]. destruct r0 as [rv|[code e]]; cbn; [|done].
    destruct (K8sVerifier.claims_of_review v _ rv) eqn:Hcl; [|done]. exists rv. by destruct Hr.
Qed.

(** A step leaves the renewal alone, or writes the cell. *)
Lemma after_step_renewer i a o r w s :
  kv_step v a (around o s) = (r, w) →
  renewer (after_step i a r w s) =
    match kv_phase a with WriteCell raw => with_token (trim raw) (renewer s) | _ => renewer s end.
Proof.
  intros Hs%kv_step_around. cbn. destruct (kv_phase a); destruct Hs as [-> _]; cbn; try done;
    by destruct (renewer s).
Qed.

(** ** Refinement of the renewal machine *)

(** What a verification holds between its read of the file and its write of the cell. *)
Definition held (vf : KVerification * Fate) : option str :=
  match vf with
  | (a, UnderWay) => match kv_phase a with WriteCell raw => Some raw | _ => None end
  | _ => None
  end.

(** What [Renewal] sees of a state. *)
Definition seen s : RState := with_refreshing (omap held (verifications s)) (renewer s).

Lemma seen_update s i vf :
  verifications s !! i = Some vf →
  ∃ l1 l2, omap held (verifications s) = l1 ++ option_list (held vf) ++ l2 ∧
    ∀ vf', omap held (<[i := vf']> (verifications s)) = l1 ++ option_list (held vf') ++ l2.
Proof.
  intros Hi. exists (omap held (take i (verifications s))), (omap held (drop (S i) (verifications s))). split.
  - rewrite <- (take_drop_middle _ _ _ Hi) at 1. rewrite omap_app. cbn. by destruct (held vf).
  - intros vf'. rewrite insert_take_drop by (by eapply lookup_lt_Some).
    rewrite omap_app. cbn. by destruct (held vf').
Qed.

Lemma task_step_seen r r' l : task_step r r' → task_step (with_refreshing l r) (with_refreshing l r').
Proof.
  destruct 1;
    [eapply (recv_ignored (with_refreshing l s))|eapply (recv_change (with_refreshing l s))
    |eapply (recv_error (with_refreshing l s))|apply (recv_closed (with_refreshing l s))
    |apply (recv_shutdown (with_refreshing l s))|apply (read_ok (with_refreshing l s))
    |eapply (read_failed (with_refreshing l s))|apply (write_cell (with_refreshing l s))]; done.
Qed.

Lemma outside_step_seen r r' l : outside_step r r' → outside_step (with_refreshing l r) (with_refreshing l r').
Proof.
  destruct 1; [apply (file_changes (with_refreshing l s))|apply (event_arrives (with_refreshing l s))
    |apply (watcher_dies (with_refreshing l s))|apply (handle_dropped (with_refreshing l s))].
Qed.

(** Every step is one of [Renewal]'s, or invisible to it. *)
Lemma cred_step_seen s s' : cred_step s s' → seen s' = seen s ∨ any_step (seen s) (seen s').
Proof.
  destruct 1 as [s r Hr|s r Hr|s aud tok|s i a o r w Hi Hs|s i a Hi].
  - right. left. by apply task_step_seen.
  - right. right. right. by apply outside_step_seen.
  - left. unfold seen. cbn. rewrite omap_app. cbn. by rewrite app_nil_r.
  - destruct (seen_update _ _ _ Hi) as (l1 & l2 & Hold & Hnew).
    pose proof (after_step_renewer i a o r w s Hs) as Hren. apply kv_step_around in Hs.
    assert (seen (after_step i a r w s) = with_refreshing (l1 ++ option_list
      (held (match r with inl a' => (a', UnderWay) | inr c => (a, Finished c) end)) ++ l2)
        (match kv_phase a with WriteCell raw => with_token (trim raw) (renewer s) | _ => renewer s end)) as ->
      by (unfold seen; by rewrite Hren, <- Hnew).
    assert (seen s = with_refreshing (l1 ++ option_list (held (a, UnderWay)) ++ l2) (renewer s)) as ->
      by (unfold seen; by rewrite Hold).
    cbn. destruct (kv_phase a) as [|sa| |raw|sa] eqn:Hp; cbn.
    + destruct Hs as (_ & _ & ->). by left.
    + destruct Hs as (_ & c & _ & _ & _ & Hr). left. destruct r as [a'|r]; [|done].
      by destruct Hr as (_ & -> & _).
    + destruct Hs as (_ & _ & Hr). destruct (file (renewer s)) as [raw|e] eqn:Hf.
      * subst r. right. right. left. by apply (refresh_read (with_refreshing (l1 ++ l2) (renewer s)) l1 raw l2).
      * destruct Hr as [e' ->]. by left.
    + destruct Hs as (_ & _ & ->). right. right. left. by apply (refresh_write (with_refreshing (l1 ++ raw :: l2) (renewer s)) l1 raw l2).
    + destruct Hs as (_ & c & _ & _ & _ & Hr). left. destruct r as [a'|r]; [|done].
      by destruct Hr as ([? [=]] & _).
  - destruct (seen_update _ _ _ Hi) as (l1 & l2 & Hold & Hnew).
    unfold seen. cbn [renewer verifications]. rewrite Hold, Hnew. cbn.
    destruct (kv_phase a) as [|sa| |raw|sa]; [by left..| |by left].
    right. right. left. by apply (refresh_dropped (with_refreshing (l1 ++ raw :: l2) (renewer s)) l1 raw l2).
Qed.

Lemma seen_reachable raw c s : rtc cred_step (cred_started raw c) s → rtc any_step (started raw c) (seen s).
Proof.
  apply (rtc_ind_r (λ s, rtc any_step (started raw c) (seen s))); [done|].
  intros s1 s2 _ [-> | Hs]%cred_step_seen IH; [done|by eapply rtc_r].
Qed.

Lemma credentials_known raw c s :
  rtc cred_step (cred_started raw c) s →
  (∀ raw', file (renewer s) = Ok raw' → raw' ∈ contents (renewer s)) ∧
  ∃ raw', raw' ∈ contents (renewer s) ∧ token (renewer s) = trim raw'.
Proof. intros [Hf _ _ Ht]%seen_reachable%known_reachable. by split. Qed.

(** C25 Verifications and renewal refine the renewal machine.  However verifications and
    the steps of the renewal task interleave, with requests dropped and an API server that
    answers anything, what happens to file, channel, task and cell is a run of [Renewal];
    and the contents that verifications hold between reading the file and writing the cell
    are exactly those that [Renewal] takes account of. *)
Theorem credentials_refine_renewal raw c s :
  rtc cred_step (cred_started raw c) s →
  rtc any_step (started raw c) (seen s) ∧
  token (seen s) = token (renewer s) ∧ phase (seen s) = phase (renewer s) ∧
  ∀ raw', raw' ∈ refreshing (seen s) ↔
    ∃ i a, verifications s !! i = Some (a, UnderWay) ∧ kv_phase a = WriteCell raw'.
Proof.
  intros Hr%seen_reachable. split_and!; [done|done|done|]. intros raw'. cbn.
  rewrite list_elem_of_omap. split.
  - intros ([a f] & [i Hi]%list_elem_of_lookup_1 & Hh). exists i, a.
    destruct f; cbn in Hh; try done. destruct (kv_phase a) eqn:Hp; by simplify_eq.
  - intros (i & a & Hi & Hp). exists (a, UnderWay). split; [by eapply list_elem_of_lookup_2|].
    cbn. by rewrite Hp.
Qed.

(** ** What is sent to the API server *)

(** The reviews sent by verification [i]. *)
Definition calls_of (i : nat) s : list ReviewCall := (filter (λ p, p.1 = i) (asked s)).*2.

Lemma calls_of_after i k a r w s :
  calls_of i (after_step k a r w s) = calls_of i s ++ (if decide (k = i) then (ext w).1 else []).
Proof.
  unfold calls_of. cbn. rewrite filter_app, fmap_app. f_equal.
  induction (ext w).1 as [|c l IH]; [by case_decide|].
  rewrite fmap_cons, filter_cons. cbn [fst]. case_decide; [|done]. rewrite fmap_cons, IH. done.
Qed.

(** The file is known to have had the content that [call] bears. *)
Definition bears_content s (call : ReviewCall) : Prop :=
  ∃ raw, raw ∈ contents (renewer s) ∧ call_bearer call = trim raw.

(** After the refusal of [c1], the file was found to hold [raw]. *)
Definition reread (s0 s : Credentials) (i : nat) (c1 : ReviewCall) (raw : str) : Prop :=
  ∃ s1, rtc cred_step s0 s1 ∧ rtc cred_step s1 s ∧ calls_of i s1 = [c1] ∧ file (renewer s1) = Ok raw.

(** What there is to say of a verification by the reviews it has sent, *)
Definition chronicle (s0 s : Credentials) (i : nat) (l : list ReviewCall) : Prop :=
  match l with
  | [] | [_] => True
  | [c1; c2] => refused (call_outcome c1) = true ∧
      ∃ raw, reread s0 s i c1 raw ∧ call_bearer c2 = trim raw
  | _ => False
  end.

(** by where it is, *)
Definition position (s0 s : Credentials) (i : nat) (l : list ReviewCall) (p : KPhase) : Prop :=
  match p with
  | ReadCell => l = []
  | Ask sa => l = [] ∧ ∃ raw, raw ∈ contents (renewer s) ∧ sa = trim raw
  | ReadFile => ∃ c1, l = [c1] ∧ refused (call_outcome c1) = true
  | WriteCell raw => ∃ c1, l = [c1] ∧ refused (call_outcome c1) = true ∧ reread s0 s i c1 raw
  | AskAgain sa => ∃ c1 raw, l = [c1] ∧ refused (call_outcome c1) = true ∧ reread s0 s i c1 raw ∧ sa = trim raw
  end.

(** and by how it ended. *)
Definition ended (a : KVerification) (f : Fate) (l : list ReviewCall) : Prop :=
  ∀ claims, f = Finished (Ok claims) → ∃ c rv, last l = Some c ∧
    review_of (call_outcome c) = Some rv ∧ K8sVerifier.claims_of_review v (kv_audience a) rv = Ok claims.

Definition concerns s (a : KVerification) (call : ReviewCall) : Prop :=
  call_request call = K8sVerifier.review_request (kv_audience a) (kv_token a) ∧ bears_content s call.

Definition verification_ok (s0 s : Credentials) (i : nat) (l : list ReviewCall) (vf : KVerification * Fate) : Prop :=
  Forall (concerns s vf.1) l ∧ chronicle s0 s i l ∧
  (vf.2 = UnderWay → position s0 s i l (kv_phase vf.1)) ∧ ended vf.1 vf.2 l.

Lemma cred_step_contents s s' raw :
  cred_step s s' → raw ∈ contents (renewer s) → raw ∈ contents (renewer s').
Proof.
  destruct 1 as [s r Hr|s r Hr|s aud tok|s i a o r w Hi Hs|s i a Hi]; cbn; try done.
  - by destruct Hr.
  - destruct Hr as [? []|?|?|?]; cbn; [set_solver|done..].
  - by destruct (cell w).
Qed.

Lemma reread_mono s0 s s' i c1 raw : cred_step s s' → reread s0 s i c1 raw → reread s0 s' i c1 raw.
Proof. intros Hstep (s1 & ? & ? & ?). exists s1. split_and!; [done|by eapply rtc_r|naive_solver..]. Qed.

Lemma verification_ok_mono s0 s s' i l vf :
  cred_step s s' → verification_ok s0 s i l vf → verification_ok s0 s' i l vf.
Proof.
  intros Hstep (Hcon & Hch & Hpos & Hend). split_and!; [| | |done].
  - eapply Forall_impl; [exact Hcon|]. intros c (? & raw & ? & ?). split; [done|].
    exists raw. split; [by eapply cred_step_contents|done].
  - destruct l as [|c1 [|c2 []]]; try done.
    destruct Hch as (? & raw & ? & ?). split; [done|]. exists raw. eauto using reread_mono.
  - intros Hf. specialize (Hpos Hf). destruct (kv_phase vf.1); cbn in *; try done.
    + destruct Hpos as (? & raw & ? & ?). split; [done|]. exists raw. eauto using cred_step_contents.
    + destruct Hpos as (c1 & ? & ? & ?). exists c1. eauto using reread_mono.
    + destruct Hpos as (c1 & raw & ? & ? & ? & ?). exists c1, raw. eauto using reread_mono.
Qed.

(** A step adds at most one review, and says where the verification is then. *)
Lemma verification_moves_ok raw0 c0 s i a o r w :
  let s0 := cred_started raw0 c0 in
  let s' := after_step i a r w s in
  rtc cred_step s0 s → verifications s !! i = Some (a, UnderWay) →
  kv_step v a (around o s) = (r, w) → verification_ok s0 s i (calls_of i s) (a, UnderWay) →
  verification_ok s0 s' i (calls_of i s ++ (ext w).1)
    (match r with inl a' => (a', UnderWay) | inr c => (a, Finished c) end).
Proof.
  intros s0 s' Hreach Hi Hs Hok.
  assert (cred_step s s') as Hstep by by eapply verification_moves.
  destruct (credentials_known _ _ _ Hreach) as [Hfile (rawt & Ht & Htok)].
  assert (∀ raw c1, file (renewer s) = Ok raw → calls_of i s = [c1] → reread s0 s' i c1 raw) as Hre
    by (intros raw c1 ? ?; exists s; split_and!; [done|by apply rtc_once|done..]).
  pose proof (verification_ok_mono _ _ _ _ _ _ Hstep Hok) as (Hcon & _ & Hpos & _).
  specialize (Hpos eq_refl). cbn in Hcon, Hpos. apply kv_step_around in Hs.
  destruct (kv_phase a) as [|sa| |raw|sa]; cbn in Hpos.
  - destruct Hs as (_ & -> & ->). rewrite Hpos. split_and!; [constructor|done| |done].
    intros _. split; [done|]. exists rawt. split; [by eapply cred_step_contents|done].
  - destruct Hs as (_ & c & -> & Hb & Hq & Hr). destruct Hpos as (-> & raw & Hin & ->). cbn.
    assert (concerns s' a c) as Hc by (split; [done|by exists raw]).
    destruct r as [a'|[claims|e]].
    + destruct Hr as (_ & -> & Href). split_and!; [by apply Forall_singleton|done|by exists c|done].
    + destruct Hr as (rv & ? & ?). split_and!; [by apply Forall_singleton|done|done|].
      intros ? [= <-]. by exists c, rv.
    + split_and!; [by apply Forall_singleton|done..].
  - destruct Hs as (_ & -> & Hr). destruct Hpos as (c1 & Hl & Href). rewrite Hl in *.
    destruct (file (renewer s)) as [raw|e] eqn:Hf.
    + subst r. split_and!; [done|done| |done]. intros _. exists c1. split_and!; [done|done|].
      by apply Hre.
    + destruct Hr as [e' ->]. by split_and!.
  - destruct Hs as (_ & -> & ->). destruct Hpos as (c1 & Hl & Href & Hrr). rewrite Hl in *.
    split_and!; [done|done| |done]. intros _. by exists c1, raw.
  - destruct Hs as (_ & c & -> & Hb & Hq & Hr). destruct Hpos as (c1 & raw & Hl & Href & Hrr & ->). rewrite Hl in *.
    assert (concerns s' a c) as Hc.
    { split; [done|]. destruct Hrr as (s1 & Hr1 & Hr2 & _ & Hf). exists raw. split; [|done].
      destruct (credentials_known _ _ _ Hr1) as [Hf1 _]. specialize (Hf1 _ Hf).
      clear -Hr2 Hf1. induction Hr2; eauto using cred_step_contents. }
    assert (Forall (concerns s' a) [c1; c]) as Hall by (apply (Forall_app _ [c1]); split; [done|by apply Forall_singleton]).
    assert (chronicle s0 s' i [c1; c]) as Hch by (split; [done|by exists raw]).
    destruct r as [a'|[claims|e]]; [by destruct Hr as ([? [=]] & _)| |by split_and!].
    destruct Hr as (rv & ? & ?). split_and!; [done|done|done|]. intros ? [= <-]. by exists c, rv.
Qed.

Record chronicled (s0 s : Credentials) : Prop := {
  asked_known i : i ∈ (asked s).*1 → (i < length (verifications s))%nat;
  all_ok i vf : verifications s !! i = Some vf → verification_ok s0 s i (calls_of i s) vf;
}.

Lemma calls_of_unknown i s : i ∉ (asked s).*1 → calls_of i s = [].
Proof.
  unfold calls_of. induction (asked s) as [|[k c] l IH]; [done|]. cbn [fmap list_fmap fst].
  intros [Hne Hl]%not_elem_of_cons. rewrite filter_cons. cbn. rewrite decide_False by done. by apply IH.
Qed.

Lemma chronicled_step raw0 c0 s s' :
  rtc cred_step (cred_started raw0 c0) s → cred_step s s' →
  chronicled (cred_started raw0 c0) s → chronicled (cred_started raw0 c0) s'.
Proof.
  set (s0 := cred_started raw0 c0). intros Hreach Hstep [Hknown Hall].
  assert (∀ i vf, verifications s !! i = Some vf → verification_ok s0 s' i (calls_of i s) vf) as Hmono
    by eauto using verification_ok_mono.
  destruct Hstep as [s r Hr|s r Hr|s aud tok|s k a o r w Hk Hs|s k a Hk].
  - by split.
  - by split.
  - split; cbn; [intros i ?%Hknown; rewrite length_app; lia|].
    intros i vf [Hi|[Hlen Hlk]]%lookup_app_Some; [by apply Hmono|].
    apply list_lookup_singleton_Some in Hlk as [Heq <-].
    assert (calls_of i s = []) as Hnil by (apply calls_of_unknown; intros ?%Hknown; lia).
    fold (calls_of i s). rewrite Hnil. by split_and!.
  - split.
    + intros i. cbn. rewrite length_insert, fmap_app. intros [?|Hin]%elem_of_app; [by apply Hknown|].
      apply lookup_lt_Some in Hk. apply list_elem_of_fmap in Hin as ([] & -> & (? & [= -> ->] & _)%list_elem_of_fmap).
      done.
    + intros i vf Hi. rewrite calls_of_after. cbn in Hi.
      apply list_lookup_insert_Some in Hi as [(<- & <- & _)|[Hne Hi]].
      * rewrite decide_True by done. by eapply verification_moves_ok; [| | |apply Hall].
      * rewrite decide_False by done. rewrite app_nil_r. by apply Hmono.
  - split; cbn; [by rewrite length_insert|].
    intros i vf [(<- & <- & _)|[Hne Hi]]%list_lookup_insert_Some; [|by apply Hmono].
    destruct (Hmono _ _ Hk) as (? & ? & _). by split_and!.
Qed.

(** C24 What the API server is sent.  However verifications, renewal, rotations and
    dropped requests interleave and whatever the API server answers, a verification sends
    at most two reviews, each for its own token and audience and each bearing a content
    the token file is known to have had, trimmed.  The second is sent only after the first
    was refused with 401, and it bears the content that the file had at a moment after
    that refusal, no matter what the cell holds by then.  Claims are returned only from
    the last review sent. *)
Theorem reviews_bear_file_contents raw0 c0 s :
  let s0 := cred_started raw0 c0 in
  rtc cred_step s0 s →
  (∀ i, i ∈ (asked s).*1 → is_Some (verifications s !! i)) ∧
  ∀ i a fate, verifications s !! i = Some (a, fate) →
    Forall (concerns s a) (calls_of i s) ∧ ended a fate (calls_of i s) ∧
    match calls_of i s with
    | [] | [_] => True
    | [c1; c2] => refused (call_outcome c1) = true ∧
        ∃ s1 raw, rtc cred_step s0 s1 ∧ rtc cred_step s1 s ∧ calls_of i s1 = [c1] ∧
          file (renewer s1) = Ok raw ∧ call_bearer c2 = trim raw
    | _ => False
    end.
Proof.
  intros s0 Hreach. assert (chronicled s0 s) as [Hknown Hall].
  { revert Hreach. apply (rtc_ind_r (chronicled s0)); [split; [by intros i ?%not_elem_of_nil|done]|].
    intros s1 s2 ? ?. by apply chronicled_step. }
  split; [by intros i ?%Hknown%lookup_lt_is_Some|]. intros i a fate Hi.
  destruct (Hall _ _ Hi) as (Hcon & Hch & _ & Hend). split_and!; [done|done|].
  destruct (calls_of i s) as [|c1 [|c2 []]]; try done.
  destruct Hch as (? & raw & (s1 & ? & ? & ? & ?) & ?). split; [done|]. by exists s1, raw.
Qed.

(** ** The race of a verification with the renewal *)

(** A reported rotation is a step of the machine, or two: the change and its event. *)
Lemma reported_reachable s s' : rtc reported_step s s' → rtc cred_step s s'.
Proof.
  induction 1 as [|s1 s2 s3 Hstep _ IH]; [done|]. etrans; [|exact IH].
  destruct Hstep as [s s' Hs _|s r Hr]; [by apply rtc_once|].
  inversion Hr as [r0 c k Hk Hroom]; subst.
  eapply (rtc_l _ _ (with_renewer (with_file c (renewer s)) s)); [by apply world_moves, file_changes|].
  eapply rtc_once. eapply (world_moves (with_renewer (with_file c (renewer s)) s)).
  apply (event_arrives (with_file c (renewer s))).
Qed.

Lemma task_leaves_file s r :
  task_step (renewer s) r → reported_step s (with_renewer r s).
Proof. intros Hs. apply leaves_file; [by apply renewal_moves|]. cbn. by destruct Hs. Qed.

Lemma rotates s raw k :
  is_change k = true → (length (queue (renewer s)) < CHANNEL_CAPACITY)%nat →
  reported_step s (with_renewer (with_queue (queue (renewer s) ++ [Ok k]) (with_file (Ok raw) (renewer s))) s).
Proof.
  intros Hk Hroom. apply rotation. rewrite <- (try_send_room (Ok k)) by done. by apply change_reported.
Qed.

Lemma verification_leaves_file s i a o r w :
  verifications s !! i = Some (a, UnderWay) → kv_step v a (around o s) = (r, w) →
  reported_step s (after_step i a r w s).
Proof.
  intros Hi Hs. apply leaves_file; [by eapply verification_moves|].
  rewrite (after_step_renewer i a o r w s Hs). by destruct (kv_phase a).
Qed.

(** The task works off the report of a change: it reads the file and writes the cell. *)
Lemma task_renews s k q raw :
  phase (renewer s) = Waiting → queue (renewer s) = Ok k :: q → is_change k = true →
  file (renewer s) = Ok raw →
  rtc reported_step s (with_renewer (with_phase Waiting (with_token (trim raw) (with_queue q (renewer s)))) s).
Proof.
  intros Hp Hq Hk Hf. destruct s as [r vs l]. cbn in *.
  eapply rtc_l; [apply task_leaves_file; eapply recv_change; [exact Hp|exact Hq|]; cbn; by rewrite Hk|].
  eapply rtc_l; [apply task_leaves_file; by apply read_ok|].
  apply rtc_once. set (held_raw := with_phase (Writing raw) (with_queue q r)).
  exact (task_leaves_file (with_renewer held_raw {| renewer := r; verifications := vs; asked := l |}) _
    (write_cell held_raw raw eq_refl)).
Qed.

(** The API server refuses the credential of the caller. *)
Definition unauthorized : result ReqwestError HttpResponse :=
  Ok {| resp_status := 401; resp_json := Err ""%s |}.

(** C27 A verification can undo a renewal.  Although every rotation is reported in time
    and the API server refuses superseded credentials only, a verification whose first
    review was refused can read the new content [b] of the file, be overtaken by the next
    rotation to [c], which the task brings to the cell, and then write [b]: the task has
    nothing left to do, no verification holds anything, and the cell keeps a credential
    that is not the file's.  The verification itself fails, refused twice. *)
Theorem refresh_can_undo_renewal (a b c aud tok : str) :
  ∃ s, rtc reported_step (cred_started a (Ok a)) s ∧
    file (renewer s) = Ok c ∧ token (renewer s) = trim b ∧
    phase (renewer s) = Waiting ∧ nf task_step (renewer s) ∧ omap held (verifications s) = [] ∧
    (∃ vf e, verifications s = [(vf, Finished (Err e))]) ∧
    ∃ c1 c2, calls_of 0 s = [c1; c2] ∧
      call_bearer c1 = trim a ∧ refused (call_outcome c1) = true ∧
      call_bearer c2 = trim b ∧ refused (call_outcome c2) = true.
Proof.
  eexists. split.
  - eapply rtc_l; [apply leaves_file; [apply (verification_begins _ aud tok)|done]|].
    eapply rtc_l; [by eapply (verification_leaves_file _ 0 _ unauthorized)|].
    eapply rtc_l; [apply (rotates _ b Modify); [done|cbn; unfold CHANNEL_CAPACITY; lia]|].
    eapply rtc_l; [by eapply (verification_leaves_file _ 0 _ unauthorized)|].
    eapply rtc_l; [by eapply (verification_leaves_file _ 0 _ unauthorized)|].
    eapply rtc_l; [apply (rotates _ c Modify); [done|cbn; unfold CHANNEL_CAPACITY; lia]|].
    etrans; [by eapply (task_renews _ Modify [Ok Modify] c)|].
    etrans; [by eapply (task_renews _ Modify [] c)|].
    eapply rtc_l; [by eapply (verification_leaves_file _ 0 _ unauthorized)|].
    eapply rtc_l; [by eapply (verification_leaves_file _ 0 _ unauthorized)|].
    apply rtc_refl.
  - split_and!; try done.
    + by apply idle_rests.
    + by eexists _, _.
    + by eexists _, _.
Qed.
End credentials.
