(* ===== verification/Reads.v ===== *)
(** * Reads: how a store answers [resolve_mapping]

    The in-memory store answers [resolve_mapping] under one lock.  Postgres asks two
    queries, and other sessions may commit between them.  [SplitStore] cuts the
    operation where a store gives way to others, [SplitContract] says which policies
    the answer then draws on: the grant of the moment of the first part, and the
    scope definitions of that moment or of the moment of the second. *)

From S2P Require Import Prelude Text Json Resource Policy MemStore PgStore Service System.

(** ** The two parts of [resolve_mapping] *)

Class SplitStore (W : Type) `{ResourceStore W} : Type := {
  Found : Type;
  find_mapping : str → str → eff W ResourceError Found;
  find_scopes : Found → eff W ResourceError (option MappingPair);
  resolve_split c p w : resolve_mapping c p w = (f ← find_mapping c p; find_scopes f) w;
}.

(** The policy that a reader sees who reads the grants in [P] and, if it comes back for
    the scope definitions, those in [Q]. *)
Definition read_policy (two_reads : bool) (P Q : Policy) : Policy :=
  {| grants := grants P; scope_defs := scope_defs (if two_reads then Q else P) |}.

(** A part of a read: it leaves the policy alone, and its answer satisfies [ans]. *)
Definition reads {W A : Type} (inv : W → Prop) (view : W → Policy) (fails : Prop)
    (m : eff W ResourceError A) (ans : Policy → A → Prop) : Prop :=
  ∀ w r w', inv w → m w = (r, w') → inv w' ∧ view w' = view w ∧
    match r with
    | Ok a => ans (view w) a
    | Err e => fails ∧ ∃ msg, e = DatabaseError msg
    end.

Class SplitContract (W : Type) `{StoreContract W, !SplitStore W} : Type := {
  two_reads : bool;
  found_in : Policy → str → str → Found → Prop;
  find_mapping_reads c p :
    reads store_inv view may_fail (find_mapping c p) (λ P f, found_in P c p f);
  find_scopes_reads f :
    reads store_inv view may_fail (find_scopes f)
      (λ Q found, ∀ P c p, found_in P c p f → found = resolve c p (read_policy two_reads P Q));
}.

(** ** The in-memory store *)

Section mem_reads.
Context `{HashOrder}.

Lemma mem_resolve_split c p s :
  MemoryResourceStore.resolve_mapping c p s =
  (f ← MemoryResourceStore.resolve_mapping c p; mret f) s.
Proof. unfold mbind, eff_bind. by destruct (MemoryResourceStore.resolve_mapping c p s) as [[]]. Qed.

#[export] Instance mem_split : SplitStore InnerStore := {|
  Found := option MappingPair;
  find_mapping := MemoryResourceStore.resolve_mapping;
  find_scopes := mret;
  resolve_split := mem_resolve_split;
|}.

(** The first part has the whole answer. *)
Definition mem_found (P : Policy) (c p : str) (f : option MappingPair) : Prop := f = resolve c p P.

Lemma mem_mapping_reads c p :
  reads mem_inv mem_view False (MemoryResourceStore.resolve_mapping c p) (λ P, mem_found P c p).
Proof.
  intros w r w' Hinv Hr.
  destruct (mem_resolve_refines c p w r w' Hinv Hr) as [? [(r0 & Hs & Hrel)|([] & _)]].
  apply (f_equal snd) in Hs as Hv. apply (f_equal fst) in Hs. cbn in Hs. subst r0.
  split_and!; [done|done|by inversion Hrel].
Qed.

Lemma mem_scopes_reads (f : option MappingPair) :
  reads mem_inv mem_view False (mret f)
    (λ Q found, ∀ P c p, mem_found P c p f → found = resolve c p (read_policy false P Q)).
Proof. intros w r w' Hinv [= <- <-]. split_and!; [done|done|]. by intros [] c p ->. Qed.

#[export] Instance mem_split_contract : SplitContract InnerStore :=
  Build_SplitContract InnerStore _ _ mem_split false mem_found mem_mapping_reads mem_scopes_reads.
End mem_reads.

(** ** The Postgres store *)

Section pg_reads.
Context {D : Type} `{PgLaws D} `{HashOrder}.

(** The first query, and what follows it. *)
Definition select_mapping (c p : str) : eff D ResourceError (option ResourceMappingRow) :=
  eff_map_err db_error (fetch_optional_mapping SELECT_MAPPING [BText c; BText p]).

Definition then_scopes (row : option ResourceMappingRow) : eff D ResourceError (option MappingPair) :=
  match row with
  | None => mret None
  | Some row => PostgresResourceStore.resolve_scopes (row_to_resource_mapping row)
  end.

Lemma pg_resolve_split c p d :
  PostgresResourceStore.resolve_mapping c p d = (row ← select_mapping c p; then_scopes row) d.
Proof. done. Qed.

#[export] Instance pg_split : SplitStore D := {|
  Found := option ResourceMappingRow;
  find_mapping := select_mapping;
  find_scopes := then_scopes;
  resolve_split := pg_resolve_split;
|}.

(** The row is the grant. *)
Definition row_found (P : Policy) (c p : str) (row : option ResourceMappingRow) : Prop :=
  row_to_resource_mapping <$> row = mapping_of (c, p) <$> grants P !! (c, p).

Abbreviation pg_reads := (reads (λ _ : D, True) (λ d, pg_view (tables d)) True).

Lemma pg_mapping_reads c p : pg_reads (select_mapping c p) (λ P, row_found P c p).
Proof.
  intros d r d' _. unfold select_mapping, eff_map_err.
  destruct (fetch_optional_mapping _ _ d) as [r0 d0] eqn:E.
  destruct (select_mapping_law _ _ _ _ _ E) as [Ht Ha]. intros [= <- <-]. rewrite Ht.
  split_and!; [done|done|]. destruct r0 as [row|e]; cbn; [|by eauto]. subst row.
  unfold row_found. cbn. rewrite lookup_fmap. by destruct (mapping_rows (tables d) !! (c, p)).
Qed.

Lemma pg_scopes_reads row :
  pg_reads (then_scopes row)
    (λ Q found, ∀ P c p, row_found P c p row → found = resolve c p (read_policy true P Q)).
Proof.
  unfold row_found, resolve. intros d r d' _ Hr. cbn [read_policy grants].
  destruct row as [row|]; cbn [then_scopes] in Hr.
  - destruct (resolve_scopes_run _ _ _ _ Hr) as [Ht Ha]. rewrite Ht.
    split_and!; [done|done|]. destruct r; [|by eauto]. intros P c p Hrow.
    destruct (grants P !! (c, p)) as [g|]; [|done]. apply (inj Some) in Hrow.
    by rewrite Ha, Hrow.
  - injection Hr as <- <-. split_and!; [done|done|]. intros P c p Hrow.
    by destruct (grants P !! (c, p)).
Qed.

#[export] Instance pg_split_contract : SplitContract D :=
  Build_SplitContract D _ _ pg_split true row_found pg_mapping_reads pg_scopes_reads.
End pg_reads.

(** ** A store beside the rest of the world *)

Section world_reads.
Context {S X : Type}.

Lemma on_store_bind {E A B : Type} (m : eff S E A) (f : A → eff S E B) (w : World S X) :
  on_store (m ≫= f) w = (on_store m ≫= λ a, on_store (f a)) w.
Proof.
  unfold on_store, zoom, mbind, eff_bind. destruct (m (w_store w)) as [[a|e] s]; [|done].
  cbn. by destruct (f a s).
Qed.

Lemma on_store_reads {A : Type} inv vw fails (ans : Policy → A → Prop) (m : eff S ResourceError A) :
  reads inv vw fails m ans →
  reads (λ w : World S X, inv (w_store w)) (λ w, vw (w_store w)) fails (on_store m) ans.
Proof.
  intros Hm w r w' Hinv. unfold on_store, zoom. destruct (m (w_store w)) as [r0 s] eqn:E.
  intros [= <- <-]. by eapply Hm.
Qed.

Lemma on_store_split `{ResourceStore S, !SplitStore S} c p (w : World S X) :
  on_store (resolve_mapping c p) w =
  (f ← on_store (find_mapping c p); on_store (find_scopes f)) w.
Proof. rewrite <- on_store_bind. unfold on_store, zoom. by rewrite resolve_split. Qed.

#[export] Instance world_split `{ResourceStore S, !SplitStore S} : SplitStore (World S X) :=
  Build_SplitStore (World S X) _ Found (λ c p, on_store (find_mapping c p))
    (λ f, on_store (find_scopes f)) on_store_split.

#[export] Instance world_split_contract `{SplitContract S} : SplitContract (World S X) :=
  Build_SplitContract (World S X) world_store world_contract world_split
    (two_reads (W := S)) (found_in (W := S))
    (λ c p, on_store_reads _ _ _ _ _ (find_mapping_reads (W := S) c p))
    (λ f, on_store_reads _ _ _ _ _ (find_scopes_reads (W := S) f)).
End world_reads.
