(* ===== verification/Exchange.v ===== *)
(** * Exchange: the HTTP token endpoint

    Models [crates/jwtlet-server/src/exchange/mod.rs] and [exchange/error.rs]: the
    RFC 8693 form, the handler [token_exchange] and the mapping of errors to OAuth
    error responses.  Decoding the form and writing the response are axum's. *)

From S2P Require Import Prelude Text Json Facet Resource Policy Service K8s Token TokenProps.

Definition TOKEN_EXCHANGE_GRANT_TYPE : str := "urn:ietf:params:oauth:grant-type:token-exchange"%s.
Definition ISSUED_TOKEN_TYPE : str := "urn:ietf:params:oauth:token-type:jwt"%s.

Record TokenExchangeForm : Set := {
  grant_type : str;
  subject_token : str;
  subject_token_type : str;
  resource : str;
  form_scope : option str;
  form_audience : option str;
}.

Record TokenExchangeResponse : Set := {
  access_token : str;
  issued_token_type : str;
  token_type : str;
  expires_in : Z;
  resp_scope : option str;
}.

Inductive ExchangeApiError (G : Type) : Type :=
  | UnsupportedGrantType (s : str)
  | UnsupportedTokenType (s : str)
  | ExchangeFailed (e : ExchangeError G).
Arguments UnsupportedGrantType {G} _. Arguments UnsupportedTokenType {G} _.
Arguments ExchangeFailed {G} _.

(** [StatusCode] constants. *)
Definition OK : N := 200.
Definition BAD_REQUEST : N := 400.
Definition FORBIDDEN : N := 403.

(** [OAuthErrorResponse]; the description is skipped when absent. *)
Record OAuthErrorResponse : Set := { oauth_error : str; error_description : option str }.

Definition into_response {G : Type} (e : ExchangeApiError G) : N * OAuthErrorResponse :=
  let '(status, error) :=
    match e with
    | UnsupportedGrantType _ => (BAD_REQUEST, "unsupported_grant_type"%s)
    | UnsupportedTokenType _ => (BAD_REQUEST, "invalid_request"%s)
    | ExchangeFailed (TokenVerification _) => (BAD_REQUEST, "invalid_grant"%s)
    | ExchangeFailed Unauthorized => (FORBIDDEN, "unauthorized_client"%s)
    | ExchangeFailed (ScopeConflict _) => (BAD_REQUEST, "invalid_scope"%s)
    | ExchangeFailed (ServiceError _) | ExchangeFailed (Generation _) =>
        (INTERNAL_SERVER_ERROR, "server_error"%s)
    end in
  (status, {| oauth_error := error; error_description := None |}).

(** The requested scopes: deduplicated and sorted. *)
Definition form_scopes (form : TokenExchangeForm) : list str :=
  btree_set (split_whitespace (default ""%s (form_scope form))).

Definition granted_scope (scopes : list str) : option str :=
  match scopes with
  | [] => None
  | _ => Some (join " "%s scopes)
  end.

Section handler.
Context {W : Type} `{JwtVerifier W} `{ResourceStore W} `{JwtGenerator W} `{Ambient W} `{HashOrder}.

Definition token_exchange (service : TokenExchangeService) (form : TokenExchangeForm) :
    eff W (ExchangeApiError JwtGenerationError) (N * TokenExchangeResponse) :=
  if negb (bool_decide (grant_type form = TOKEN_EXCHANGE_GRANT_TYPE)) then
    lift (Err (UnsupportedGrantType (grant_type form)))
  else if negb (bool_decide (subject_token_type form = ISSUED_TOKEN_TYPE)) then
    lift (Err (UnsupportedTokenType (subject_token_type form)))
  else
    let scopes := form_scopes form in
    token ← eff_map_err ExchangeFailed
      (exchange_token service (resource form) scopes (subject_token form) (form_audience form));
    mret (OK, {| access_token := token; issued_token_type := ISSUED_TOKEN_TYPE;
                 token_type := "Bearer"%s; expires_in := token_ttl_secs service;
                 resp_scope := granted_scope scopes |}).
End handler.

(** ** Lemmas *)

Lemma form_scopes_ok form : Forall scope_name_ok (form_scopes form).
Proof.
  apply Forall_forall. intros x. unfold form_scopes. rewrite btree_set_elem. intros Hx.
  pose proof (split_whitespace_Forall (default ""%s (form_scope form))) as Hf.
  rewrite Forall_forall in Hf. exact (Hf x Hx).
Qed.

(** C29 The [scope] of a response is absent exactly when no scope was requested;
    otherwise it lists the requested scopes, sorted and without repetition, and a
    client that splits it at whitespace recovers exactly the granted scopes. *)
Theorem granted_scope_roundtrip form :
  let scopes := form_scopes form in
  (granted_scope scopes = None ↔ split_whitespace (default ""%s (form_scope form)) = []) ∧
  split_whitespace (default ""%s (granted_scope scopes)) = scopes ∧
  btree_set scopes = scopes ∧
  (∀ x, x ∈ scopes ↔ x ∈ split_whitespace (default ""%s (form_scope form))).
Proof.
  cbn. split_and!.
  - unfold form_scopes. destruct (split_whitespace _) as [|x l] eqn:E; [done|].
    assert (x ∈ btree_set (x :: l)) as Hx by (apply btree_set_elem; by left).
    split; [|done]. unfold granted_scope. destruct (btree_set (x :: l)); [by apply not_elem_of_nil in Hx|done].
  - pose proof (form_scopes_ok form) as Hok. unfold granted_scope.
    destruct (form_scopes form) as [|x l] eqn:E; [done|].
    change (split_whitespace (join " "%s (x :: l)) = x :: l). by apply split_whitespace_join.
  - apply btree_set_sorted_id, btree_set_sorted.
  - intros x. apply btree_set_elem.
Qed.

(** An error response is a server error exactly when jwtlet's own store or
    signer failed; every other failure is reported as the client's, with one of the
    OAuth error codes, never with a description that would leak internals; only an
    authorization failure is answered with 403. *)
Lemma into_response_classifies {G : Type} (e : ExchangeApiError G) :
  let '(status, body) := into_response e in
  (status = INTERNAL_SERVER_ERROR ↔
     (∃ re, e = ExchangeFailed (ServiceError re)) ∨ (∃ ge, e = ExchangeFailed (Generation ge))) ∧
  (status = FORBIDDEN ↔ e = ExchangeFailed Unauthorized) ∧
  (status = BAD_REQUEST ∨ status = FORBIDDEN ∨ status = INTERNAL_SERVER_ERROR) ∧
  error_description body = None ∧
  oauth_error body ∈ ["unsupported_grant_type"; "invalid_request"; "invalid_grant";
                      "unauthorized_client"; "invalid_scope"; "server_error"]%s.
Proof.
  destruct e as [s|s|[]]; cbn; split_and!; try done; try set_solver; naive_solver.
Qed.

Section handler_props.
Context {W : Type} `{JwtVerifier W} `{ResourceStore W} `{JwtGenerator W} `{Ambient W} `{HashOrder}.
Implicit Types w : W.

(** C20 The endpoint answers 200 exactly when both type parameters have the one
    supported value and the exchange of the form's token, context, scope set and
    audience succeeds; it then returns that token as a bearer token with the
    configured lifetime. A wrong type parameter is refused before any token is
    looked at. *)
Theorem token_exchange_spec service form w r w' :
  token_exchange service form w = (r, w') ↔
    (grant_type form ≠ TOKEN_EXCHANGE_GRANT_TYPE ∧ w' = w ∧
       r = Err (UnsupportedGrantType (grant_type form))) ∨
    (grant_type form = TOKEN_EXCHANGE_GRANT_TYPE ∧ subject_token_type form ≠ ISSUED_TOKEN_TYPE ∧
       w' = w ∧ r = Err (UnsupportedTokenType (subject_token_type form))) ∨
    (grant_type form = TOKEN_EXCHANGE_GRANT_TYPE ∧ subject_token_type form = ISSUED_TOKEN_TYPE ∧
       ∃ x, exchange_token service (resource form)
              (split_whitespace (default ""%s (form_scope form)))
              (subject_token form) (form_audience form) w = (x, w') ∧
            r = match x with
                | Err e => Err (ExchangeFailed e)
                | Ok token => Ok (OK,
                    {| access_token := token; issued_token_type := ISSUED_TOKEN_TYPE;
                       token_type := "Bearer"%s; expires_in := token_ttl_secs service;
                       resp_scope := granted_scope (form_scopes form) |})
                end).
Proof.
  assert (exchange_token service (resource form) (split_whitespace (default ""%s (form_scope form)))
            (subject_token form) (form_audience form) w =
          exchange_token service (resource form) (form_scopes form)
            (subject_token form) (form_audience form) w) as ->.
  { unfold exchange_token, checked_verification, ResourceService.verify, form_scopes.
    by rewrite (btree_set_sorted_id (btree_set _)) by apply btree_set_sorted. }
  unfold token_exchange. case_bool_decide as Hg; cbn; [|unfold lift; naive_solver].
  case_bool_decide as Ht; cbn; [|unfold lift; naive_solver].
  unfold mbind, eff_bind, eff_map_err, mret, eff_ret.
  destruct (exchange_token _ _ _ _ _ w) as [[token|e] w1]; cbn; split.
  1,3: intros [= <- <-]; right; right; split_and!; [done|done|]; eexists; by split.
  all: intros [(?&_)|[(_&?&_)|(_&_&x&[= <- <-]&->)]]; done.
Qed.
End handler_props.
