(* ===== verification/Management.v ===== *)
(** * Management: the management API

    Models [crates/jwtlet-server/src/management/mod.rs] and [management/error.rs]:
    the route groups with the role each requires, the authorization middleware, the
    nine handlers with their audit events, and the mapping of errors to responses.
    Routing a request to its handler and decoding path and body are axum's: a
    [Call] is a request after routing, with its decoded path parameters and the
    outcome of decoding its JSON body. *)

From S2P Require Import Prelude Text Json Facet Resource Policy Service SAccount.

(** ** Requests and responses *)

Inductive OneOrMany (T : Type) : Type :=
  | One (item : T)
  | Many (items : list T).
Arguments One {T} _. Arguments Many {T} _.

Definition into_vec {T : Type} (x : OneOrMany T) : list T :=
  match x with One item => [item] | Many items => items end.

(** The outcome of the [Json] extractor; a rejection is axum's own response. *)
Definition Extracted (T : Type) : Type := result N T.

Inductive Call : Type :=
  | ListMappings
  | ListScopeMappings
  | CreateMapping (body : Extracted ResourceMapping)
  | UpdateMapping (client_id context : str) (body : Extracted ResourceMapping)
  | DeleteMapping (client_id context : str)
  | DeleteClientMappings (client_id : str)
  | CreateScopeMapping (body : Extracted (OneOrMany ScopeMapping))
  | UpdateScopeMapping (scope : str) (body : Extracted ScopeMapping)
  | DeleteScopeMapping (scope : str).

Inductive Body : Type :=
  | NoBody
  | ErrorBody (msg : str)
  | MappingsBody (l : list ResourceMapping)
  | ScopesBody (l : list ScopeMapping).

Record Response : Type := { resp_code : N; resp_body : Body }.

Definition status_only (code : N) : Response := {| resp_code := code; resp_body := NoBody |}.

Definition OK : N := 200.
Definition CREATED : N := 201.
Definition NO_CONTENT : N := 204.
Definition BAD_REQUEST : N := 400.
Definition UNAUTHORIZED : N := 401.
Definition FORBIDDEN : N := 403.
Definition NOT_FOUND : N := 404.
Definition CONFLICT : N := 409.
Definition INTERNAL_SERVER_ERROR : N := 500.

Inductive ManagementApiError : Set :=
  | PathMismatch
  | ResourceFailed (e : ResourceError).

Definition into_response (e : ManagementApiError) : Response :=
  match e with
  | PathMismatch => status_only BAD_REQUEST
  | ResourceFailed (NotFound _) => status_only NOT_FOUND
  | ResourceFailed (Conflict _) => status_only CONFLICT
  | ResourceFailed (ReservedClaim key) =>
      {| resp_code := BAD_REQUEST;
         resp_body := ErrorBody ("Claim key '" +:+ key +:+
           "' is reserved and cannot be set via scope mapping")%s |}
  | ResourceFailed (InvalidMapping msg) =>
      {| resp_code := BAD_REQUEST; resp_body := ErrorBody msg |}
  | ResourceFailed (ClaimConflict _) => status_only INTERNAL_SERVER_ERROR
  | ResourceFailed (DatabaseError _) => status_only INTERNAL_SERVER_ERROR
  end.

(** ** Roles and routes *)

Definition ROLE_MANAGEMENT_READ : str := "jwtlet:management:read"%s.
Definition ROLE_MAPPINGS_WRITE : str := "jwtlet:management:mappings:write"%s.
Definition ROLE_SCOPES_WRITE : str := "jwtlet:management:scope:write"%s.

Inductive Method : Set := GET | POST | PUT | DELETE.
Inductive Handler : Set :=
  | list_mappings | list_scope_mappings
  | create_mapping | update_mapping | delete_mapping | delete_client_mappings
  | create_scope_mapping | update_scope_mapping | delete_scope_mapping.

#[export] Instance method_eq_dec : EqDecision Method.
Proof. solve_decision. Defined.
#[export] Instance handler_eq_dec : EqDecision Handler.
Proof. solve_decision. Defined.

(** One router of [management_routes]: its routes, and the role that its
    [route_layer] demands for all of them. *)
Record RouteGroup : Set := {
  rg_routes : list (Method * str * Handler);
  rg_role : str;
}.

Definition management_routes : list RouteGroup := [
  {| rg_routes := [(GET, "/mappings"%s, list_mappings); (GET, "/scopes"%s, list_scope_mappings)];
     rg_role := ROLE_MANAGEMENT_READ |};
  {| rg_routes := [(POST, "/mappings"%s, create_mapping);
                   (PUT, "/mappings/{client_id}/{context}"%s, update_mapping);
                   (DELETE, "/mappings/{client_id}/{context}"%s, delete_mapping);
                   (DELETE, "/mappings/{client_id}"%s, delete_client_mappings)];
     rg_role := ROLE_MAPPINGS_WRITE |};
  {| rg_routes := [(POST, "/scopes"%s, create_scope_mapping);
                   (PUT, "/scopes/{scope}"%s, update_scope_mapping);
                   (DELETE, "/scopes/{scope}"%s, delete_scope_mapping)];
     rg_role := ROLE_SCOPES_WRITE |}
].

(** The roles under which the table exposes a handler. *)
Definition roles_of (h : Handler) : list str :=
  rg_role <$> List.filter (λ g, existsb (λ r, bool_decide (r.2 = h)) (rg_routes g)) management_routes.

Definition handler_of (c : Call) : Handler :=
  match c with
  | ListMappings => list_mappings
  | ListScopeMappings => list_scope_mappings
  | CreateMapping _ => create_mapping
  | UpdateMapping _ _ _ => update_mapping
  | DeleteMapping _ _ => delete_mapping
  | DeleteClientMappings _ => delete_client_mappings
  | CreateScopeMapping _ => create_scope_mapping
  | UpdateScopeMapping _ _ => update_scope_mapping
  | DeleteScopeMapping _ => delete_scope_mapping
  end.

(** ** Audit events, the [info!] lines of the handlers *)

Inductive AuditEvent : Set :=
  | mapping_created (actor client_id context : str)
  | mapping_updated (actor client_id context : str)
  | mapping_deleted (actor client_id context : str)
  | client_mappings_deleted (actor client_id : str)
  | scope_created (actor scope : str)
  | scope_updated (actor scope : str)
  | scope_deleted (actor scope : str).

Definition event_actor (e : AuditEvent) : str :=
  match e with
  | mapping_created a _ _ | mapping_updated a _ _ | mapping_deleted a _ _
  | client_mappings_deleted a _ | scope_created a _ | scope_updated a _ | scope_deleted a _ => a
  end.

(** The server's state: the world of the services and the audit log. *)
Record MWorld (W : Type) : Type := { inner : W; audit : list AuditEvent }.
Arguments inner {W} _. Arguments audit {W} _. Arguments Build_MWorld {W} _ _.

Section api.
Context {W : Type} `{ResourceStore W} `{JwtVerifier W} `{ServiceAccountAuthorizer W} `{HashOrder}.

Definition set_inner (x : W) (w : MWorld W) : MWorld W := {| inner := x; audit := audit w |}.

(** A service call from a handler, with the [?] conversion of its error. *)
Definition service {A : Type} (m : eff W ResourceError A) : eff (MWorld W) ManagementApiError A :=
  eff_map_err ResourceFailed (zoom inner set_inner m).

Definition info (e : AuditEvent) : eff (MWorld W) ManagementApiError unit := λ w,
  (Ok tt, {| inner := inner w; audit := audit w ++ [e] |}).

Fixpoint info_all (l : list AuditEvent) : eff (MWorld W) ManagementApiError unit :=
  match l with
  | [] => mret tt
  | e :: l => _ ← info e; info_all l
  end.

(** ** The handlers *)

Definition do_list_mappings : eff (MWorld W) ManagementApiError Response :=
  l ← service ResourceService.list_mappings;
  mret {| resp_code := OK; resp_body := MappingsBody l |}.

Definition do_list_scope_mappings : eff (MWorld W) ManagementApiError Response :=
  l ← service ResourceService.list_scope_mappings;
  mret {| resp_code := OK; resp_body := ScopesBody l |}.

Definition do_create_mapping (actor : str) (mapping : ResourceMapping) :
    eff (MWorld W) ManagementApiError Response :=
  _ ← service (ResourceService.save mapping);
  _ ← info (mapping_created actor (client_identifier mapping) (participant_context mapping));
  mret (status_only CREATED).

Definition do_update_mapping (actor client_id context : str) (mapping : ResourceMapping) :
    eff (MWorld W) ManagementApiError Response :=
  if bool_decide (client_id ≠ client_identifier mapping)
     || bool_decide (context ≠ participant_context mapping)
  then lift (Err PathMismatch)
  else
    _ ← service (ResourceService.update mapping);
    _ ← info (mapping_updated actor (client_identifier mapping) (participant_context mapping));
    mret (status_only NO_CONTENT).

Definition do_delete_mapping (actor client_id context : str) :
    eff (MWorld W) ManagementApiError Response :=
  _ ← service (ResourceService.remove client_id context);
  _ ← info (mapping_deleted actor client_id context);
  mret (status_only NO_CONTENT).

Definition do_delete_client_mappings (actor client_id : str) :
    eff (MWorld W) ManagementApiError Response :=
  _ ← service (ResourceService.remove_for client_id);
  _ ← info (client_mappings_deleted actor client_id);
  mret (status_only NO_CONTENT).

Definition do_create_scope_mapping (actor : str) (payload : OneOrMany ScopeMapping) :
    eff (MWorld W) ManagementApiError Response :=
  let mappings := into_vec payload in
  _ ← service (ResourceService.save_scope_mappings mappings);
  _ ← info_all ((λ m, scope_created actor (scope m)) <$> mappings);
  mret (status_only CREATED).

Definition do_update_scope_mapping (actor s : str) (mapping : ScopeMapping) :
    eff (MWorld W) ManagementApiError Response :=
  if bool_decide (s ≠ scope mapping) then lift (Err PathMismatch)
  else
    _ ← service (ResourceService.update_scope_mapping mapping);
    _ ← info (scope_updated actor (scope mapping));
    mret (status_only NO_CONTENT).

Definition do_delete_scope_mapping (actor s : str) : eff (MWorld W) ManagementApiError Response :=
  _ ← service (ResourceService.delete_scope_mapping s);
  _ ← info (scope_deleted actor s);
  mret (status_only NO_CONTENT).

(** A handler as axum runs it: a rejected body is answered before the handler's
    own code, an error is turned into its response. *)
Definition with_body {T : Type} (body : Extracted T)
    (h : T → eff (MWorld W) ManagementApiError Response) : eff (MWorld W) ManagementApiError Response :=
  match body with
  | Ok b => h b
  | Err code => mret (status_only code)
  end.

Definition run_handler (actor : str) (c : Call) : eff (MWorld W) ManagementApiError Response :=
  match c with
  | ListMappings => do_list_mappings
  | ListScopeMappings => do_list_scope_mappings
  | CreateMapping body => with_body body (do_create_mapping actor)
  | UpdateMapping client context body => with_body body (do_update_mapping actor client context)
  | DeleteMapping client context => do_delete_mapping actor client context
  | DeleteClientMappings client => do_delete_client_mappings actor client
  | CreateScopeMapping body => with_body body (do_create_scope_mapping actor)
  | UpdateScopeMapping s body => with_body body (do_update_scope_mapping actor s)
  | DeleteScopeMapping s => do_delete_scope_mapping actor s
  end.

Definition next (actor : str) (c : Call) (w : MWorld W) : Response * MWorld W :=
  match run_handler actor c w with
  | (Ok resp, w') => (resp, w')
  | (Err e, w') => (into_response e, w')
  end.

(** ** Authentication and authorization *)

Section auth.
(** The header map's value type and its conversion to text. *)
Context {HeaderValue : Type} (to_str : HeaderValue → option str).

Definition extract_bearer_token (authorization : option HeaderValue) : option str :=
  v ← authorization ≫= to_str;
  let lower := to_ascii_lowercase v in
  (λ _, slice_from (length (chars "bearer "%s)) v) <$> strip_prefix "bearer "%s lower.

Definition authorize_with_role (client_audience required_role : str)
    (authorization : option HeaderValue) (c : Call) (w : MWorld W) : Response * MWorld W :=
  match extract_bearer_token authorization with
  | None => (status_only UNAUTHORIZED, w)
  | Some token =>
      match verify_token client_audience token (inner w) with
      | (Err _, x) => (status_only UNAUTHORIZED, set_inner x w)
      | (Ok claims, x) =>
          match authorize (tc_sub claims) {[ required_role ]} x with
          | (Ok true, y) => next (tc_sub claims) c (set_inner y w)
          | (Ok false, y) => (status_only FORBIDDEN, set_inner y w)
          | (Err (GeneralError _), y) => (status_only INTERNAL_SERVER_ERROR, set_inner y w)
          end
      end
  end.

(** A routed request runs the layer of the group its route belongs to. *)
Definition serve (client_audience : str) (authorization : option HeaderValue) (c : Call)
    (w : MWorld W) : Response * MWorld W :=
  match roles_of (handler_of c) with
  | role :: _ => authorize_with_role client_audience role authorization c w
  | [] => (status_only NOT_FOUND, w)
  end.
End auth.
End api.
