(* ===== verification/ManagementProps.v ===== *)
(** * ManagementProps: who may change the policy, and what is recorded

    Theorems on the definitions of [Management] over any conforming store and any
    verifier and authorizer that leave the policy alone. *)

From S2P Require Import Prelude Text Json Facet Resource Policy Service ServiceSpec SAccount Management.

(** Verifying and authorizing a caller does not touch the policy. *)
Class ManagementFrame (W : Type) `{StoreContract W} `{JwtVerifier W}
    `{ServiceAccountAuthorizer W} : Prop := {
  verify_frame a t w r w' :
    verify_token a t w = (r, w') → store_inv w → store_inv w' ∧ view w' = view w;
  authorize_frame c req w r w' :
    authorize c req w = (r, w') → store_inv w → store_inv w' ∧ view w' = view w;
}.

(** The two calls that only read, and the bodies that disclose the policy. *)
Definition is_read (c : Call) : bool :=
  match c with ListMappings | ListScopeMappings => true | _ => false end.
Definition discloses (b : Body) : bool :=
  match b with MappingsBody _ | ScopesBody _ => true | _ => false end.

(** The audit events a call owes when it succeeds. *)
Definition expected_events (actor : str) (c : Call) : list AuditEvent :=
  match c with
  | CreateMapping (Ok m) => [mapping_created actor (client_identifier m) (participant_context m)]
  | UpdateMapping _ _ (Ok m) => [mapping_updated actor (client_identifier m) (participant_context m)]
  | DeleteMapping client context => [mapping_deleted actor client context]
  | DeleteClientMappings client => [client_mappings_deleted actor client]
  | CreateScopeMapping (Ok p) => (λ m, scope_created actor (scope m)) <$> into_vec p
  | UpdateScopeMapping _ (Ok m) => [scope_updated actor (scope m)]
  | DeleteScopeMapping s => [scope_deleted actor s]
  | _ => []
  end.

Lemma expected_events_actor actor c : Forall (λ e, event_actor e = actor) (expected_events actor c).
Proof.
  destruct c as [| |[]|? ? []|? ?|?|[p|]|? []|?]; repeat constructor.
  apply Forall_fmap, Forall_forall. done.
Qed.

(** Every handler is exposed under exactly one role, and writes never under the
    reading role. *)
Lemma handler_roles h :
  roles_of h = match h with
    | list_mappings | list_scope_mappings => [ROLE_MANAGEMENT_READ]
    | create_mapping | update_mapping | delete_mapping | delete_client_mappings => [ROLE_MAPPINGS_WRITE]
    | create_scope_mapping | update_scope_mapping | delete_scope_mapping => [ROLE_SCOPES_WRITE]
    end.
Proof. by destruct h. Qed.

(** ** Bearer tokens *)

Lemma lower_prefix_length p v rest :
  strip_prefix p (to_ascii_lowercase v) = Some rest → (length (chars p) ≤ length (chars v))%nat.
Proof.
  intros [= H]%strip_prefix_Some. pose proof (to_ascii_lowercase_length v) as Hl.
  unfold to_ascii_lowercase in Hl. cbn in Hl. rewrite H in Hl. rewrite length_app in Hl. lia.
Qed.

(** C35 A bearer token is read off the header exactly when the header is present
    and textual and starts with the word "Bearer" in any casing and one space; the
    token is then everything after these seven characters, in its original casing. *)
Theorem extract_bearer_token_spec {HV : Type} (to_str : HV → option str) h t :
  extract_bearer_token to_str h = Some t ↔
    ∃ hv v p, h = Some hv ∧ to_str hv = Some v ∧ v = (p +:+ t)%s ∧
      to_ascii_lowercase p = "bearer "%s.
Proof.
  unfold extract_bearer_token. split.
  - destruct h as [hv|]; cbn; [|done]. destruct (to_str hv) as [v|] eqn:Hv; cbn; [|done].
    destruct (strip_prefix _ _) as [rest|] eqn:Hs; cbn; [|done]. intros [= <-].
    exists hv, v, (Str (take 7 (chars v))). split_and!; [done|done| |].
    + unfold slice_from, str_app. cbn. rewrite take_drop. by destruct v.
    + apply strip_prefix_Some in Hs. unfold to_ascii_lowercase in *. cbn.
      injection Hs as Hs. rewrite fmap_take, Hs. done.
  - intros (hv & v & p & -> & Hv & -> & Hp). cbn. rewrite Hv. cbn.
    assert (strip_prefix "bearer "%s (to_ascii_lowercase (p +:+ t)%s) = Some (to_ascii_lowercase t)) as Hs.
    { apply strip_prefix_Some. rewrite <- Hp. unfold to_ascii_lowercase, str_app. cbn.
      by rewrite fmap_app. }
    cbn in Hs. rewrite Hs. cbn. f_equal. unfold slice_from, str_app. cbn.
    assert (length (chars p) = 7%nat) as Hlen.
    { rewrite <- (to_ascii_lowercase_length p), Hp. done. }
    rewrite drop_app_length' by done. by destruct t.
Qed.

Section handlers.
Context {W : Type} `{StoreContract W} `{JwtVerifier W} `{ServiceAccountAuthorizer W} `{HashOrder}.
Implicit Types w : MWorld W.

Lemma service_run {A : Type} (m : eff W ResourceError A) w r w' :
  service m w = (r, w') → ∃ r0 x, m (inner w) = (r0, x) ∧
    r = map_err ResourceFailed r0 ∧ w' = set_inner x w.
Proof.
  unfold service, eff_map_err, zoom. destruct (m (inner w)) as [r0 x].
  intros [= <- <-]. eauto.
Qed.

Lemma info_all_run l w :
  info_all l w = (Ok tt, {| inner := inner w; audit := audit w ++ l |}).
Proof.
  revert w. induction l as [|e l IH]; intros w; cbn.
  { rewrite app_nil_r. by destruct w. }
  unfold mbind, eff_bind, info. rewrite IH. cbn. by rewrite <- app_assoc.
Qed.

(** The operation behind a call, when its body was decoded and its path agrees. *)
Definition call_op (c : Call) : option ServiceOp :=
  match c with
  | CreateMapping (Ok m) => Some (OpSave m)
  | UpdateMapping client context (Ok m) =>
      if bool_decide (client ≠ client_identifier m) || bool_decide (context ≠ participant_context m)
      then None else Some (OpUpdate m)
  | DeleteMapping client context => Some (OpRemove client context)
  | DeleteClientMappings client => Some (OpRemoveFor client)
  | CreateScopeMapping (Ok p) => Some (OpSaveScopes (into_vec p))
  | UpdateScopeMapping s (Ok m) => if bool_decide (s ≠ scope m) then None else Some (OpUpdateScope m)
  | DeleteScopeMapping s => Some (OpDeleteScope s)
  | ListMappings => Some OpListMappings
  | ListScopeMappings => Some OpListScopes
  | _ => None
  end.

Definition success_code (c : Call) : N :=
  match c with
  | ListMappings | ListScopeMappings => OK
  | CreateMapping _ | CreateScopeMapping _ => CREATED
  | _ => NO_CONTENT
  end.

(** What the response body shows of the service's answer. *)
Definition shown (a : Answer) : Body :=
  match a with
  | Mappings l => MappingsBody l
  | Scopes l => ScopesBody l
  | _ => NoBody
  end.

(** How a handler ends once it has called the service: with its success code, the
    answer and its events, or with the error of the service and no event. *)
Definition ended (actor : str) (c : Call) (op : ServiceOp) w
    (r : result ManagementApiError Response) w' : Prop :=
  (∃ a, r = Ok {| resp_code := success_code c; resp_body := shown a |} ∧
     (is_read c = false → a = Done) ∧
     audit w' = audit w ++ expected_events actor c ∧ run_op op (inner w) = (Ok a, inner w')) ∨
  (∃ e, r = Err (ResourceFailed e) ∧ audit w' = audit w ∧ run_op op (inner w) = (Err e, inner w')).

(** The shape of every handler: a service call, the events, the response. *)
Lemma handler_ended {A : Type} actor c op (f : A → Answer) (m0 : eff W ResourceError A)
    (m : eff (MWorld W) ManagementApiError Response) w r w' :
  run_op op = answer f m0 → (is_read c = false → ∀ a, f a = Done) →
  (∀ w, m w = (a ← service m0; _ ← info_all (expected_events actor c);
               mret {| resp_code := success_code c; resp_body := shown (f a) |}) w) →
  m w = (r, w') → ended actor c op w r w'.
Proof.
  intros Hop Hf Hm Hrun. rewrite Hm in Hrun. unfold mbind at 1, eff_bind at 1 in Hrun.
  destruct (service _ w) as [r1 w1] eqn:Hs. apply service_run in Hs as (r0 & x & Hx & -> & ->).
  assert (run_op op (inner w) = (f <$> r0, x)) as Hro by by rewrite Hop, answer_run, Hx.
  destruct r0 as [a|e]; cbn in Hrun.
  - unfold mbind, eff_bind in Hrun. rewrite info_all_run in Hrun. injection Hrun as <- <-.
    left. exists (f a). by split_and!; auto.
  - injection Hrun as <- <-. right. by exists e.
Qed.

Lemma info_info_all e w : info e w = info_all [e] w.
Proof. by rewrite info_all_run. Qed.

Lemma bind_info {A : Type} (e : AuditEvent) (m : eff (MWorld W) ManagementApiError A) (resp : Response) w :
  (_ ← m; _ ← info e; mret resp) w = (_ ← m; _ ← info_all [e]; mret resp) w.
Proof. unfold mbind, eff_bind. destruct (m w) as [[] w1]; [|done]. by rewrite info_info_all. Qed.

(** Every handler: refused before its service call, or the call and its events. *)
Lemma run_handler_run actor c w r w' :
  run_handler actor c w = (r, w') →
  (call_op c = None ∧ w' = w ∧ (r = Err PathMismatch ∨ ∃ code, r = Ok (status_only code))) ∨
  ∃ op, call_op c = Some op ∧ ended actor c op w r w'.
Proof.
  intros Hrun.
  destruct c as [| |body|client ctx body|client ctx|client|body|s body|s]; cbn in Hrun;
    try (destruct body as [m|code]; cbn in Hrun; [|injection Hrun as <- <-; left; eauto]).
  4: unfold do_update_mapping in Hrun; cbn;
     destruct (_ || _); [injection Hrun as <- <-; left; eauto|].
  8: unfold do_update_scope_mapping in Hrun; cbn;
     destruct (bool_decide _); [injection Hrun as <- <-; left; eauto|].
  all: right; eexists; (split; [done|]);
    (eapply handler_ended; [reflexivity| | |exact Hrun]; [done|]); intros; try apply bind_info; done.
Qed.

(** A request that never reaches the service, and its status: axum rejected the body
    with [code], or the body is about another mapping than the path names. *)
Inductive malformed : Call → N → Prop :=
  | rejected_mapping code : malformed (CreateMapping (Err code)) code
  | rejected_update client ctx code : malformed (UpdateMapping client ctx (Err code)) code
  | rejected_scopes code : malformed (CreateScopeMapping (Err code)) code
  | rejected_scope s code : malformed (UpdateScopeMapping s (Err code)) code
  | other_mapping client ctx m :
      (client, ctx) ≠ (client_identifier m, participant_context m) →
      malformed (UpdateMapping client ctx (Ok m)) 400
  | other_scope s m : s ≠ scope m → malformed (UpdateScopeMapping s (Ok m)) 400.

Lemma malformed_refused actor c w :
  call_op c = None → ∃ code, malformed c code ∧ next actor c w = (status_only code, w).
Proof.
  destruct c as [| |[m|code]|client ctx [m|code]|client ctx|client|[m|code]|s [m|code]|s]; cbn;
    try done; try (intros _; eexists; split; [constructor|done]).
  - destruct (_ || _) eqn:E; [|done]. intros _. exists 400%N. split.
    + constructor. intros [= -> ->]. by rewrite !bool_decide_eq_false_2 in E by tauto.
    + unfold next, run_handler, with_body, do_update_mapping. by rewrite E.
  - destruct (bool_decide _) eqn:E; [|done]. intros _. exists 400%N. split.
    + constructor. by apply bool_decide_eq_true in E.
    + unfold next, run_handler, with_body, do_update_scope_mapping. by rewrite E.
Qed.

Lemma wellformed_call c op code : call_op c = Some op → ¬ malformed c code.
Proof.
  intros Hop Hm. destruct Hm as [| | | |? ? ? Hne|? ? Hne]; cbn in Hop; try done.
  - destruct (decide (client = client_identifier m)) as [->|];
      [|by rewrite bool_decide_eq_true_2 in Hop by done].
    destruct (decide (ctx = participant_context m)) as [->|]; [done|].
    by rewrite orb_comm, bool_decide_eq_true_2 in Hop by done.
  - by rewrite bool_decide_eq_true_2 in Hop by done.
Qed.
End handlers.

(** ** The whole API *)

Section api.
Context {W : Type} `{StoreContract W} `{JwtVerifier W} `{ServiceAccountAuthorizer W} `{HashOrder}.
Context `{!ManagementFrame W}.
Context {HV : Type} (to_str : HV → option str) (client_audience : str).
Implicit Types w : MWorld W.

(** The caller presented a bearer token that verifies for the management
    audience as [actor], and [actor] holds [role]. *)
Definition authorized_as (role : str) (auth : option HV) w (actor : str) : Prop :=
  ∃ token claims x y, extract_bearer_token to_str auth = Some token ∧
    verify_token client_audience token (inner w) = (Ok claims, x) ∧ actor = tc_sub claims ∧
    authorize actor {[ role ]} x = (Ok true, y).

Definition role_of (c : Call) : str := default ""%s (head (roles_of (handler_of c))).

Lemma serve_run auth c w resp w' :
  store_inv (inner w) → serve to_str client_audience auth c w = (resp, w') →
  (∃ actor w1, authorized_as (role_of c) auth w actor ∧ next actor c w1 = (resp, w') ∧
     store_inv (inner w1) ∧ view (inner w1) = view (inner w) ∧ audit w1 = audit w) ∨
  (resp_code resp ∈ [UNAUTHORIZED; FORBIDDEN; INTERNAL_SERVER_ERROR] ∧ resp_body resp = NoBody ∧
     audit w' = audit w ∧ view (inner w') = view (inner w) ∧ store_inv (inner w')).
Proof.
  intros Hinv. unfold serve, role_of. rewrite handler_roles.
  assert (∀ role, authorize_with_role to_str client_audience role auth c w = (resp, w') →
    (∃ actor w1, authorized_as role auth w actor ∧ next actor c w1 = (resp, w') ∧
       store_inv (inner w1) ∧ view (inner w1) = view (inner w) ∧ audit w1 = audit w) ∨
    (resp_code resp ∈ [UNAUTHORIZED; FORBIDDEN; INTERNAL_SERVER_ERROR] ∧ resp_body resp = NoBody ∧
       audit w' = audit w ∧ view (inner w') = view (inner w) ∧ store_inv (inner w'))) as Hrole.
  { intros role. unfold authorize_with_role.
    destruct (extract_bearer_token _ _) as [token|] eqn:Ht.
    2: { intros [= <- <-]. right. split_and!; [set_solver|done..]. }
    destruct (verify_token _ _ _) as [[claims|e] x] eqn:Hv;
      destruct (verify_frame _ _ _ _ _ Hv Hinv) as [Hx Hxv].
    2: { intros [= <- <-]. right. split_and!; [set_solver|done..]. }
    destruct (authorize _ _ _) as [[[]|[msg]] y] eqn:Ha;
      destruct (authorize_frame _ _ _ _ _ Ha Hx) as [Hy Hyv];
      [|intros [= <- <-]; right; split_and!; [set_solver|done|done|by rewrite <- Hxv|done]..].
    intros Hn. left. exists (tc_sub claims), (set_inner y w). split_and!; [|done|done|by rewrite <- Hxv|done].
    by exists token, claims, x, y. }
  destruct c; apply Hrole.
Qed.

Lemma call_roles c op :
  call_op c = Some op →
  (writes_grants op = true → role_of c = ROLE_MAPPINGS_WRITE) ∧
  (writes_scopes op = true → role_of c = ROLE_SCOPES_WRITE) ∧
  (is_read c = true → role_of c = ROLE_MANAGEMENT_READ).
Proof.
  unfold role_of. rewrite handler_roles.
  destruct c as [| |[]|? ? []|? ?|?|[]|? []|?]; cbn; try done;
    repeat (destruct (bool_decide _); cbn); try done; by intros [= <-].
Qed.

(** A successful call that changed the policy owes at least one event. *)
Lemma changed_events actor c op a (x y : W) :
  call_op c = Some op → run_op op x = (Ok a, y) → store_inv x → view y ≠ view x →
  expected_events actor c ≠ [].
Proof.
  intros Hop Hrun Hinv Hch.
  destruct c as [| |[]|? ? []|? ?|?|[p|]|? []|?]; cbn in Hop |- *; try done; simplify_eq.
  - destruct (run_op_frame _ _ _ _ Hrun Hinv) as [Hg Hs]. destruct Hch.
    destruct (view x), (view y); cbn in *. by rewrite Hg, Hs.
  - destruct (run_op_frame _ _ _ _ Hrun Hinv) as [Hg Hs]. destruct Hch.
    destruct (view x), (view y); cbn in *. by rewrite Hg, Hs.
  - destruct (into_vec p) as [|m ms] eqn:E; [|done].
    destruct Hch. by eapply (empty_batch_changes_nothing x).
Qed.

(** C12 The policy can only be changed by a caller whose bearer token verifies for
    the management audience and who holds the matching write role: a change of the
    grants needs [jwtlet:management:mappings:write], a change of the scope
    definitions [jwtlet:management:scope:write], and the policy is only disclosed to
    a holder of [jwtlet:management:read]. *)
Theorem serve_needs_role auth c w resp w' :
  store_inv (inner w) → serve to_str client_audience auth c w = (resp, w') →
  (grants (view (inner w')) ≠ grants (view (inner w)) →
     ∃ actor, authorized_as ROLE_MAPPINGS_WRITE auth w actor) ∧
  (scope_defs (view (inner w')) ≠ scope_defs (view (inner w)) →
     ∃ actor, authorized_as ROLE_SCOPES_WRITE auth w actor) ∧
  (discloses (resp_body resp) = true → ∃ actor, authorized_as ROLE_MANAGEMENT_READ auth w actor).
Proof.
  intros Hinv Hs. apply serve_run in Hs as [(actor & w1 & Hauth & Hn & Hinv1 & Hv & _)
    |(_ & Hb & _ & Hv & _)]; [|rewrite Hb, Hv; done|done].
  rewrite <- Hv.
  unfold next in Hn. destruct (run_handler actor c w1) as [r w2] eqn:Hr.
  assert (w' = w2) as -> by (destruct r; by injection Hn).
  apply run_handler_run in Hr as [(Hop & -> & Hr)|(op & Hop & Hend)].
  { split_and!; [done|done|]. intros Hd.
    destruct Hr as [->|[code ->]]; injection Hn as <-; done. }
  assert (∃ ro, run_op op (inner w1) = (ro, inner w2)) as [ro Hro].
  { destruct Hend as [(? & _ & _ & _ & ?)|(? & _ & _ & ?)]; eauto. }
  destruct (run_op_frame _ _ _ _ Hro Hinv1) as [Hg Hsd].
  assert (discloses (resp_body resp) = true → is_read c = true) as Hdisc.
  { intros Hd. destruct (is_read c) eqn:E; [done|].
    destruct Hend as [(a & -> & Ha & _)|(e & -> & _)].
    - injection Hn as <-. by rewrite Ha in Hd.
    - injection Hn as <-. by destruct e. }
  destruct (call_roles c op Hop) as (Hwg & Hws & Hrd).
  split_and!; intros Hch.
  - destruct (writes_grants op); [|by destruct Hch; apply Hg]. rewrite <- Hwg by done. eauto.
  - destruct (writes_scopes op); [|by destruct Hch; apply Hsd]. rewrite <- Hws by done. eauto.
  - rewrite <- Hrd by auto. eauto.
Qed.

(** C13 Every change of the policy that the store reported to a handler is on the audit
    record.  A request that runs to its end appends either nothing, or exactly the
    events its call owes, all naming the verified caller, and then it was answered
    with its success code.  If it changed the policy, then events were appended, with
    one exception: a database failure that hid a committed change from the handler,
    which is answered with 500 and leaves no event.  A handler that is dropped because
    its client disconnected does not run to its end ([disconnected_call_is_not_logged]
    in [Witnesses]). *)
Theorem serve_audit_trail auth c w resp w' :
  store_inv (inner w) → serve to_str client_audience auth c w = (resp, w') →
  ∃ evs, audit w' = audit w ++ evs ∧
    (evs = [] ∨ ∃ actor, authorized_as (role_of c) auth w actor ∧
       evs = expected_events actor c ∧ Forall (λ e, event_actor e = actor) evs ∧
       resp_code resp = success_code c) ∧
    (view (inner w') ≠ view (inner w) →
       evs ≠ [] ∨ (may_fail ∧ resp_code resp = INTERNAL_SERVER_ERROR)).
Proof.
  intros Hinv Hs. apply serve_run in Hs as [(actor & w1 & Hauth & Hn & Hinv1 & Hv & Ha)
    |(_ & _ & Ha & Hv & _)]; [| |done].
  2: { exists []. rewrite app_nil_r. split_and!; [done|by left|done]. }
  rewrite <- Hv, <- Ha. unfold next in Hn.
  destruct (run_handler actor c w1) as [r w2] eqn:Hr.
  assert (w' = w2) as -> by (destruct r; by injection Hn).
  apply run_handler_run in Hr as [(_ & -> & _)|(op & Hop & [(a & -> & _ & Ha2 & Hrun)|(e & -> & Ha2 & Hrun)])].
  - exists []. rewrite app_nil_r. split_and!; [done|by left|done].
  - injection Hn as <-. exists (expected_events actor c). split_and!; [done| |].
    + right. exists actor. split_and!; auto using expected_events_actor.
    + intros Hch. left. by eapply changed_events.
  - injection Hn as <-. exists []. rewrite app_nil_r. split_and!; [done|by left|].
    intros Hch. right.
    destruct (run_op_failed _ _ _ _ Hrun Hinv1) as [(? & _)|(? & [msg ->] & _)]; done.
Qed.

(** C21 What the answer to an authorized request says about the policy, branch by
    branch.  A request whose body axum rejected is answered with the rejection's
    status, one whose path and body disagree with 400, and nothing is touched.  Any
    other request is for one operation of the service.  The success code means that
    the policy changed exactly as that operation promises and that the body shows its
    answer; 400 that the body is not valid; 404 that the target of an update does not
    exist; 409 that a key was taken; all three leave the policy as it was.  500 is
    answered only when the database failed. *)
Theorem next_status actor c w resp w' :
  store_inv (inner w) → next actor c w = (resp, w') →
  let P := view (inner w) in
  match call_op c with
  | None => ∃ code, malformed c code ∧ resp = status_only code ∧ w' = w
  | Some op =>
      (∀ code, ¬ malformed c code) ∧
      ((∃ a, resp = {| resp_code := success_code c; resp_body := shown a |} ∧
          promised op P (Ok a) (view (inner w')) ∧
          op_ok op ∧ ¬ op_missing op P ∧ ¬ op_taken op P) ∨
       (view (inner w') = P ∧
          ((resp_code resp = 400%N ∧ ¬ op_ok op ∧ ∃ msg, resp_body resp = ErrorBody msg) ∨
           (resp = status_only 404 ∧ op_missing op P) ∨
           (resp = status_only 409 ∧ op_taken op P))) ∨
       (may_fail ∧ resp = status_only 500))
  end.
Proof.
  intros Hinv Hn P. destruct (call_op c) as [op|] eqn:Hop.
  2: { destruct (malformed_refused actor c w Hop) as (code & ? & Heq). rewrite Heq in Hn.
       exists code. by injection Hn as <- <-. }
  split; [intros code; by eapply wellformed_call|].
  unfold next in Hn. destruct (run_handler actor c w) as [r w2] eqn:Hr.
  assert (w' = w2) as -> by (destruct r; by injection Hn).
  apply run_handler_run in Hr as [(? & _)|(op' & Hop' & Hend)]; [congruence|].
  assert (op' = op) as -> by congruence.
  destruct Hend as [(a & -> & _ & _ & Hrun)|(e & -> & _ & Hrun)]; injection Hn as <-.
  - left. exists a. destruct (run_op_refines op _ _ _ Hinv Hrun)
      as [_ [(r0 & Hs & Hrel)|(_ & [? ?] & _)]]; [|done].
    split_and!; [done|by eapply op_promised|..]; inversion Hrel; subst;
      pose proof (policy_op_outcome _ _ _ _ Hs); naive_solver.
  - right. destruct (run_op_failed _ _ _ _ Hrun Hinv) as [(Hv & Hs & _)|(? & [msg ->] & _)];
      [left|by right]. split; [done|]. pose proof (policy_op_outcome _ _ _ _ Hs) as Ho.
    destruct e; cbn in *; try done; try (by eauto 8); try tauto. destruct Ho as (? & ? & ? & ->).
    by destruct c as [| |[]|? ? []|? ?|?|[]|? []|?]; cbn in Hop; repeat case_bool_decide.
Qed.

(** No request, authorized or not, can break the invariants of the store or
    the well-formedness of the policy. *)
Lemma serve_preserves_policy_ok auth c w resp w' :
  store_inv (inner w) → policy_ok (view (inner w)) →
  serve to_str client_audience auth c w = (resp, w') →
  store_inv (inner w') ∧ policy_ok (view (inner w')).
Proof.
  intros Hinv Hok Hs. apply serve_run in Hs as [(actor & w1 & _ & Hn & Hinv1 & Hv & _)
    |(_ & _ & _ & Hv & ?)]; [|by rewrite Hv|done].
  rewrite <- Hv in Hok. unfold next in Hn.
  destruct (run_handler actor c w1) as [r w2] eqn:Hr.
  assert (w' = w2) as -> by (destruct r; by injection Hn).
  apply run_handler_run in Hr as [(_ & -> & _)|(op & _ & [(? & _ & _ & _ & Hrun)|(? & _ & _ & Hrun)])];
    [done|by apply run_op_ok in Hrun..].
Qed.
End api.
