(* ===== verification/Deployment.v ===== *)
(** * Deployment: both APIs at work on one store

    The whole server as a machine: management requests and token exchanges arrive in
    any order and run against the one store that [assemble] hands to both services.
    The two APIs have verifiers of their own.  Requests are atomic here, as they are
    for the in-memory store, which holds its lock for the whole of each operation. *)

From S2P Require Import Prelude Text Json Facet Resource Policy Service SAccount Token.
From S2P Require Import TokenProps Exchange Management ManagementProps.

Section deployment.
Context {W : Type} {Sto : ResourceStore W} {Con : @StoreContract W Sto} `{HashOrder}.
Context (exchange_verifier management_verifier : JwtVerifier W).
Context `{ServiceAccountAuthorizer W} `{JwtGenerator W} `{Ambient W}.
Context {HV : Type} (to_str : HV → option str) (management_audience : str).
Context (service : TokenExchangeService).
Implicit Types w : MWorld W.

Definition manage (auth : option HV) (c : Call) w : Response * MWorld W :=
  serve (H0 := management_verifier) to_str management_audience auth c w.

Definition exchange (form : TokenExchangeForm) :
    eff W (ExchangeApiError JwtGenerationError) (N * TokenExchangeResponse) :=
  token_exchange (H := exchange_verifier) service form.

(** One request, handled. *)
Inductive request_step : MWorld W → MWorld W → Prop :=
  | management_request auth c w resp w' :
      manage auth c w = (resp, w') → request_step w w'
  | exchange_request form w r x :
      exchange form (inner w) = (r, x) → request_step w (set_inner x w).

Context `{!ExchangeFrame (H := Sto) (H1 := exchange_verifier) W}.
Context `{!GeneratorFrame (H := Sto) W}.
Context `{!ManagementFrame (H := Sto) (H1 := management_verifier) W}.

Lemma exchange_keeps form : keeps_policy (exchange form).
Proof.
  unfold exchange, token_exchange. destruct (negb _); [apply keeps_lift|].
  destruct (negb _); [apply keeps_lift|].
  apply keeps_bind; [apply keeps_map_err, exchange_token_keeps|intros token].
  intros w r w' [= <- <-]. done.
Qed.

(** A holder of the mappings-write role, identified at [w], created the grant. *)
Definition granted_by (auth : option HV) w (actor : str) (k : str * str) (l : list AuditEvent) : Prop :=
  authorized_as (H1 := management_verifier) to_str management_audience ROLE_MAPPINGS_WRITE auth w actor ∧
  mapping_created actor k.1 k.2 ∈ l.

(** Every grant goes back to an authorized, recorded creation. *)
Definition accounted (w0 w : MWorld W) : Prop :=
  store_inv (inner w) ∧ policy_ok (view (inner w)) ∧
  ∀ k, is_Some (grants (view (inner w)) !! k) →
    ∃ w1 auth actor, rtc request_step w0 w1 ∧ rtc request_step w1 w ∧
      granted_by auth w1 actor k (audit w).

Lemma management_accounted w0 w auth c resp w' :
  ¬ may_fail → rtc request_step w0 w → manage auth c w = (resp, w') →
  accounted w0 w → accounted w0 w'.
Proof.
  intros Hnf Hreach Hm (Hinv & Hok & Hacc).
  assert (rtc request_step w w') as Hstep by (eapply rtc_once, management_request, Hm).
  destruct (serve_preserves_policy_ok _ _ _ _ _ _ _ Hinv Hok Hm) as [Hinv' Hok'].
  split_and!; [done..|]. intros k Hk.
  apply serve_run in Hm as [(actor & w1 & Hauth & Hn & Hinv1 & Hv & Ha)|(_ & _ & Ha & Hv & _)]; [..|done].
  2: { rewrite Hv in Hk. rewrite Ha. destruct (Hacc k Hk) as (w2 & auth2 & actor2 & ? & ? & ?).
       exists w2, auth2, actor2. split_and!; [done|by etrans|done]. }
  unfold next in Hn. destruct (run_handler actor c w1) as [r w2] eqn:Hr.
  assert (w' = w2) as -> by (destruct r; by injection Hn).
  assert (∀ l, audit w2 = audit w ++ l → is_Some (grants (view (inner w)) !! k) →
    ∃ w1 auth actor, rtc request_step w0 w1 ∧ rtc request_step w1 w2 ∧
      granted_by auth w1 actor k (audit w2)) as Hold.
  { intros l -> Hkw. destruct (Hacc k Hkw) as (w3 & auth3 & actor3 & ? & ? & [? ?]).
    exists w3, auth3, actor3. split_and!; [done|by etrans|]. split; [done|set_solver]. }
  rewrite <- Ha, <- Hv in Hold.
  apply run_handler_run in Hr as [(_ & -> & _)|(op & Hop & [(a & -> & _ & Ha2 & Hrun)|(e & -> & Ha2 & Hrun)])].
  - apply (Hold []); [by rewrite app_nil_r|done].
  - destruct (grants (view (inner w1)) !! k) as [g|] eqn:E; [by eapply Hold|].
    destruct (run_op_run _ _ _ _ Hrun Hinv1) as [_ [Hv2|Hv2]]; rewrite Hv2 in Hk;
      [rewrite E in Hk; by destruct Hk|].
    destruct (policy_new_grant _ _ _ E Hk) as (m & -> & <-).
    exists w, auth, actor. split_and!; [done|done|].
    destruct c as [| |[m'|]|? ? []|? ?|?|[]|? []|?]; cbn in Hop; simplify_eq;
      try (by repeat case_bool_decide).
    split; [done|]. rewrite Ha2. cbn. set_solver.
  - destruct (run_op_failed _ _ _ _ Hrun Hinv1) as [(Hv2 & _)|(? & _)]; [|done].
    rewrite Hv2 in Hk. apply (Hold []); [by rewrite app_nil_r, Ha2|done].
Qed.

Lemma reachable_accounted w0 w :
  ¬ may_fail → store_inv (inner w0) → view (inner w0) = empty_policy →
  rtc request_step w0 w → accounted w0 w.
Proof.
  intros Hnf Hinv0 Hv0. revert w. apply (rtc_ind_r (accounted w0) w0); [|intros w w' Hreach Hstep IH].
  - split_and!; [done|rewrite Hv0; apply empty_policy_ok|]. rewrite Hv0. cbn. intros k [? ?].
    by rewrite lookup_empty in *.
  - destruct Hstep as [auth c w resp w' Hm|form w r x Hx]; [by eapply management_accounted|].
    destruct IH as (Hinv & Hok & Hacc).
    assert (rtc request_step w (set_inner x w)) as Hs by (eapply rtc_once, exchange_request, Hx).
    destruct (exchange_keeps _ _ _ _ Hx Hinv) as [Hinv' Hv]. split_and!; cbn; [done|by rewrite Hv|].
    rewrite Hv. intros k Hk. destruct (Hacc k Hk) as (w1 & auth & actor & ? & ? & ?).
    exists w1, auth, actor. split_and!; [done|by etrans|done].
Qed.

(** Accountability of the whole server. Starting from an empty store that cannot
    fail, after any interleaving of management requests and token exchanges by any
    callers: a token is only ever issued for a client and a context whose grant was
    created by an earlier request of a caller who held the mappings-write role, and
    that creation, with the caller's name, is on the audit record. The policy is then
    also well formed, so the token's scopes define no reserved claim. *)
Lemma every_token_is_accountable w0 w form resp x :
  ¬ may_fail → store_inv (inner w0) → view (inner w0) = empty_policy →
  rtc request_step w0 w → exchange form (inner w) = (Ok resp, x) →
  ∃ client y w1 auth actor,
    verify_token (JwtVerifier := exchange_verifier) (client_audience service) (subject_token form)
      (inner w) = (Ok client, y) ∧
    rtc request_step w0 w1 ∧ rtc request_step w1 w ∧
    granted_by auth w1 actor (tc_sub client, resource form) (audit w) ∧
    policy_ok (view (inner w)).
Proof.
  intros Hnf Hinv0 Hv0 Hreach Hx.
  destruct (reachable_accounted _ _ Hnf Hinv0 Hv0 Hreach) as (Hinv & Hok & Hacc).
  unfold exchange, token_exchange in Hx. destruct (negb _); [done|]. destruct (negb _); [done|].
  apply eff_bind_Ok in Hx as (token & x1 & Hx%eff_map_err_Ok & _).
  apply exchange_token_granted in Hx as (client & y & g & Hver & Hg & _); [|done].
  destruct (Hacc (tc_sub client, resource form)) as (w1 & auth & actor & ? & ? & ?); [by rewrite Hg|].
  exists client, y, w1, auth, actor. by split_and!.
Qed.
End deployment.
