(* ===== verification/Phases.v ===== *)
(** * Phases: the handlers, cut at their awaits

    [token_exchange] and the guarded management handlers as sequences of phases, each of
    which asks one thing of the world outside the handler, and the lemmas that a handler
    is the composition of its phases.  The verification of a token is one phase here; its
    own steps are in [Steps]. *)

From S2P Require Import Prelude Text Json Facet Resource Policy Service SAccount Token.
From S2P Require Import TokenProps Reads Exchange Management ManagementProps.

(** ** The phases of a token exchange *)

Section exchange_phases.
Context {W : Type} {Ver : JwtVerifier W} `{SplitStore W} `{JwtGenerator W} `{Ambient W} `{HashOrder}.
Context (service : TokenExchangeService).
Implicit Types form : TokenExchangeForm.

(** Before anything is asked of anybody. *)
Definition check_types form : result (ExchangeApiError JwtGenerationError) unit :=
  if negb (bool_decide (grant_type form = TOKEN_EXCHANGE_GRANT_TYPE)) then
    Err (UnsupportedGrantType (grant_type form))
  else if negb (bool_decide (subject_token_type form = ISSUED_TOKEN_TYPE)) then
    Err (UnsupportedTokenType (subject_token_type form))
  else Ok tt.

(** The verification of the subject token, itself cut in [Steps]. *)
Definition verify_subject form : eff W (ExchangeApiError JwtGenerationError) TokenClaims :=
  eff_map_err (ExchangeFailed ∘ TokenVerification)
    (verify_token (client_audience service) (subject_token form)).

(** The error that an exchange makes of the store's. *)
Definition verification_error (e : ResourceError) : ExchangeError JwtGenerationError :=
  match e with ClaimConflict msg => ScopeConflict msg | _ => ServiceError e end.

(** The check of the client against the store: its grant is looked up; *)
Definition find_grant form (client : TokenClaims) : eff W (ExchangeApiError JwtGenerationError) Found :=
  eff_map_err (ExchangeFailed ∘ verification_error) (find_mapping (tc_sub client) (resource form)).

(** what is made of the store's answer; *)
Definition outcome form (r : result ResourceError (option MappingPair)) :
    result (ExchangeApiError JwtGenerationError) VerificationResult :=
  map_err ExchangeFailed (verification_outcome (r ≫= verify_answer (form_scopes form))).

(** then the scopes are, and the request is decided. *)
Definition check_scopes form (found : Found) : eff W (ExchangeApiError JwtGenerationError) VerificationResult := λ w,
  let '(r, w') := find_scopes found w in (outcome form r, w').

(** The rest: audience, claims, signature, response. *)
Definition finish_exchange form (client : TokenClaims) (vr : VerificationResult) :
    eff W (ExchangeApiError JwtGenerationError) (N * TokenExchangeResponse) :=
  token ← eff_map_err ExchangeFailed (
    aud ← lift (resolve_audience (form_audience form) (vr_audiences vr) (audience service));
    jti ← total new_uuid;
    time ← total now;
    eff_map_err Generation
      (generate_token {| pc_id := jwtlet_participant_context service |}
         (participant_claims service (resource form) aud time (custom_claims vr client jti))));
  mret (Exchange.OK,
        {| access_token := token; issued_token_type := ISSUED_TOKEN_TYPE;
           token_type := "Bearer"%s; expires_in := token_ttl_secs service;
           resp_scope := granted_scope (form_scopes form) |}).

Lemma checked_verification_phases form client w :
  eff_map_err ExchangeFailed
    (checked_verification (tc_sub client) (resource form) (form_scopes form)) w =
  (found ← find_grant form client; check_scopes form found) w.
Proof.
  unfold eff_map_err, checked_verification, find_grant, check_scopes, outcome, eff_map_err.
  rewrite verify_phases, resolve_split. unfold mbind, eff_bind.
  destruct (find_mapping _ _ w) as [[found|e] w1]; cbn; [|by destruct e].
  by destruct (find_scopes found w1).
Qed.

(** The handler is its phases in sequence. *)
Lemma exchange_phases form w :
  token_exchange service form w =
  (_ ← lift (check_types form); client ← verify_subject form; found ← find_grant form client; vr ← check_scopes form found;
   finish_exchange form client vr) w.
Proof.
  unfold token_exchange, check_types, verify_subject. rewrite lift_bind.
  destruct (negb _); [done|]. destruct (negb _); [done|].
  pose proof (λ client, checked_verification_phases form client) as Hck.
  unfold exchange_token, finish_exchange, eff_map_err, mbind, eff_bind in *. cbn.
  destruct (verify_token _ _ w) as [[client|e] w1]; cbn; [|done].
  specialize (Hck client w1). destruct (checked_verification _ _ _ w1) as [[vr|e] w2];
    destruct (find_grant form client w1) as [[found|e1] w3]; cbn in *; try (by simplify_eq);
    destruct (check_scopes form found w3) as [[vr'|e2] w4]; by simplify_eq/=.
Qed.
End exchange_phases.

(** ** The phases of a management request *)

Section management_phases.
Context {W : Type} {Ver : JwtVerifier W} `{ResourceStore W} `{ServiceAccountAuthorizer W} `{HashOrder}.
Context {HV : Type} (to_str : HV → option str) (audience : str).
Implicit Types w : MWorld W.

(** The middleware up to the verification of the bearer token. *)
Definition verify_caller (authorization : option HV) : eff W Response str :=
  match extract_bearer_token to_str authorization with
  | None => lift (Err (status_only UNAUTHORIZED))
  | Some token =>
      claims ← eff_map_err (λ _, status_only UNAUTHORIZED) (verify_token audience token);
      mret (tc_sub claims)
  end.

(** The middleware's check of the role. *)
Definition check_role (actor role : str) : eff W Response unit := λ x,
  match authorize actor {[ role ]} x with
  | (Ok true, y) => (Ok tt, y)
  | (Ok false, y) => (Err (status_only FORBIDDEN), y)
  | (Err (GeneralError _), y) => (Err (status_only INTERNAL_SERVER_ERROR), y)
  end.

(** The handler, with the events that it is about to log. *)
Definition handle_call (actor : str) (c : Call) (x : W) : Response * list AuditEvent * W :=
  let '(resp, w) := next actor c {| inner := x; audit := [] |} in (resp, audit w, inner w).

(** The lines the handler logs. *)
Definition log_events (evs : list AuditEvent) (w : MWorld W) : MWorld W :=
  {| inner := inner w; audit := audit w ++ evs |}.

(** A handler does not read the log: it adds its lines to whatever the log holds. *)
Definition appends {E A : Type} (m : eff (MWorld W) E A) : Prop := ∀ x l,
  m {| inner := x; audit := l |} =
    let '(r, w) := m {| inner := x; audit := [] |} in (r, log_events (audit w) {| inner := inner w; audit := l |}).

Lemma appends_ret {E A : Type} (a : A) : appends (mret a : eff (MWorld W) E A).
Proof. intros x l. unfold mret, eff_ret, log_events. cbn. by rewrite app_nil_r. Qed.

Lemma appends_lift {E A : Type} (r : result E A) : appends (lift r).
Proof. intros x l. unfold lift, log_events. cbn. by rewrite app_nil_r. Qed.

Lemma appends_service {A : Type} (m : eff W ResourceError A) : appends (service m).
Proof.
  intros x l. unfold service, eff_map_err, zoom, log_events. cbn.
  destruct (m x). cbn. by rewrite app_nil_r.
Qed.

Lemma appends_info e : appends (info e).
Proof. done. Qed.

Lemma appends_bind {E A B : Type} (m : eff (MWorld W) E A) (f : A → eff (MWorld W) E B) :
  appends m → (∀ a, appends (f a)) → appends (m ≫= f).
Proof.
  intros Hm Hf x l. unfold mbind, eff_bind. rewrite Hm.
  destruct (m {| inner := x; audit := [] |}) as [[a|e] [y evs]]; [|done].
  unfold log_events at 1. cbn. rewrite (Hf a y (l ++ evs)), (Hf a y evs).
  destruct (f a {| inner := y; audit := [] |}) as [r [z evs']]. unfold log_events. cbn.
  by rewrite app_assoc.
Qed.

Lemma appends_info_all evs : appends (info_all evs).
Proof.
  induction evs as [|e evs IH]; [apply appends_ret|].
  apply appends_bind; [apply appends_info|by intros _].
Qed.

Create HintDb appends.
#[local] Hint Resolve appends_ret appends_lift appends_service appends_info appends_info_all : appends.
#[local] Hint Resolve appends_bind : appends.
#[local] Hint Unfold do_list_mappings do_list_scope_mappings do_create_mapping do_update_mapping
  do_delete_mapping do_delete_client_mappings do_create_scope_mapping do_update_scope_mapping
  do_delete_scope_mapping : appends.

Lemma appends_handler actor c : appends (run_handler actor c).
Proof.
  destruct c as [| |[]|? ? []|? ?|?|[]|? []|?]; cbn; autounfold with appends;
    try case_match; auto 6 with appends.
Qed.

Lemma next_phases actor c w :
  next actor c w =
  let '(resp, evs, x) := handle_call actor c (inner w) in (resp, log_events evs (set_inner x w)).
Proof.
  unfold handle_call, next. destruct w as [x l]. rewrite appends_handler. cbn.
  by destruct (run_handler _ _ _) as [[resp|e] [y evs]].
Qed.

(** The guarded handler is its phases in sequence. *)
Lemma serve_phases authorization c w :
  serve to_str audience authorization c w =
  match verify_caller authorization (inner w) with
  | (Err resp, x) => (resp, set_inner x w)
  | (Ok actor, x) =>
      match check_role actor (role_of c) x with
      | (Err resp, y) => (resp, set_inner y w)
      | (Ok _, y) => let '(resp, evs, z) := handle_call actor c y in (resp, log_events evs (set_inner z w))
      end
  end.
Proof.
  assert (serve to_str audience authorization c w =
          authorize_with_role to_str audience (role_of c) authorization c w) as ->.
  { unfold serve, role_of. rewrite handler_roles. by destruct c. }
  unfold authorize_with_role, verify_caller. destruct (extract_bearer_token _ _) as [token|]; cbn.
  2: by destruct w.
  unfold mbind, eff_bind, eff_map_err.
  destruct (verify_token _ _ _) as [[claims|e] x]; cbn; [|done].
  unfold check_role. destruct (authorize _ _ _) as [[[]|[msg]] y]; cbn; [|done..].
  rewrite next_phases. cbn. by destruct (handle_call _ _ _) as [[resp evs] z].
Qed.
End management_phases.
