(* ===== verification/Concurrent.v ===== *)
(** * Concurrent: requests that interleave

    The handlers of both APIs are asynchronous and run in parallel, each suspended at
    its [await]s while others proceed.  Here any number of requests interleave, phase
    by phase ([Phases]), the verification of a token step by step ([Steps]).  A management
    call has at most one store operation.  It is atomic: the in-memory store holds its
    lock throughout, Postgres runs one statement or one transaction.  An exchange reads
    the store in the two parts of [Reads], between which other requests may write.  A
    client that disconnects has its handler dropped at an [await]; a statement that was
    in flight may then have been carried out. *)

From S2P Require Import Prelude Text Json Facet Resource Policy Service ServiceSpec SAccount Token.
From S2P Require Import TokenProps Reads Exchange Management ManagementProps Phases Steps.

(** ** Requests in flight *)

(** Where the handling of a request is, between two of its phases. *)
Inductive Job (HV G F VS VC : Type) : Type :=
  | ExchangeArrived (form : TokenExchangeForm)
  | VerifyingSubject (form : TokenExchangeForm) (a : VS)
  | SubjectVerified (form : TokenExchangeForm) (client : TokenClaims)
  | GrantFound (form : TokenExchangeForm) (client : TokenClaims) (found : F)
  | PolicyChecked (form : TokenExchangeForm) (client : TokenClaims) (vr : VerificationResult)
  | ExchangeDone (form : TokenExchangeForm)
      (r : result (ExchangeApiError G) (N * TokenExchangeResponse))
  | CallArrived (auth : option HV) (c : Call)
  | VerifyingCaller (auth : option HV) (c : Call) (a : VC)
  | CallerVerified (auth : option HV) (c : Call) (actor : str)
  | RoleChecked (auth : option HV) (c : Call) (actor : str)
  | CallHandled (auth : option HV) (c : Call) (actor : str) (resp : Response) (evs : list AuditEvent)
  | CallDone (auth : option HV) (c : Call) (resp : Response)
  | Dropped.
Arguments ExchangeArrived {HV G F VS VC} _. Arguments VerifyingSubject {HV G F VS VC} _ _.
Arguments SubjectVerified {HV G F VS VC} _ _. Arguments GrantFound {HV G F VS VC} _ _ _.
Arguments PolicyChecked {HV G F VS VC} _ _ _. Arguments ExchangeDone {HV G F VS VC} _ _.
Arguments CallArrived {HV G F VS VC} _ _. Arguments VerifyingCaller {HV G F VS VC} _ _ _.
Arguments CallerVerified {HV G F VS VC} _ _ _. Arguments RoleChecked {HV G F VS VC} _ _ _.
Arguments CallHandled {HV G F VS VC} _ _ _ _ _. Arguments CallDone {HV G F VS VC} _ _ _.
Arguments Dropped {HV G F VS VC}.

(** A handler that waits for something may be dropped there; the lines that follow a
    store operation are logged without waiting. *)
Definition droppable {HV G F VS VC : Type} (j : Job HV G F VS VC) : bool :=
  match j with CallHandled _ _ _ _ _ | ExchangeDone _ _ | CallDone _ _ _ | Dropped => false | _ => true end.

(** A store operation with its answer. *)
Definition Performed : Type := ServiceOp * result ResourceError Answer.

Section machine.
Context {W : Type} {Sto : ResourceStore W} {Con : @StoreContract W Sto} `{HashOrder}.
Context {Spl : SplitStore W} {Rea : SplitContract W}.
Context (exchange_verifier management_verifier : JwtVerifier W).
Context {SVe : SteppedVerifier W (H := exchange_verifier)} {SVm : SteppedVerifier W (H := management_verifier)}.
Context `{ServiceAccountAuthorizer W} {Gen : JwtGenerator W} {Amb : Ambient W}.
Context {HV : Type} (to_str : HV → option str) (management_audience : str).
Context (service : TokenExchangeService).
Implicit Types w : MWorld W.

(** A request in flight, over this store and these verifiers. *)
Abbreviation Request :=
  (Job HV JwtGenerationError Found (Verification (SteppedVerifier := SVe)) (Verification (SteppedVerifier := SVm))).
Implicit Types j : Request.

(** One phase of one request; the third component notes the store operation. *)
Definition job_step j w :
    option (Request * MWorld W * option Performed) :=
  match j with
  | ExchangeArrived form =>
      Some (match check_types form with
            | Ok _ => VerifyingSubject form (v_begin (client_audience service) (subject_token form))
            | Err e => ExchangeDone form (Err e)
            end, w, None)
  | VerifyingSubject form a =>
      let '(r, x) := v_step (SteppedVerifier := SVe) a (inner w) in
      Some (match r with
            | inl a' => VerifyingSubject form a'
            | inr (Ok client) => SubjectVerified form client
            | inr (Err e) => ExchangeDone form (Err (ExchangeFailed (TokenVerification e)))
            end, set_inner x w, None)
  | SubjectVerified form client =>
      let '(r, x) := find_grant form client (inner w) in
      Some (match r with Ok found => GrantFound form client found | Err e => ExchangeDone form (Err e) end,
            set_inner x w, None)
  | GrantFound form client found =>
      let '(r, x) := check_scopes form found (inner w) in
      Some (match r with Ok vr => PolicyChecked form client vr | Err e => ExchangeDone form (Err e) end,
            set_inner x w, None)
  | PolicyChecked form client vr =>
      let '(r, x) := finish_exchange service form client vr (inner w) in
      Some (ExchangeDone form r, set_inner x w, None)
  | CallArrived auth c =>
      Some (match extract_bearer_token to_str auth with
            | Some tok => VerifyingCaller auth c (v_begin management_audience tok)
            | None => CallDone auth c (status_only UNAUTHORIZED)
            end, w, None)
  | VerifyingCaller auth c a =>
      let '(r, x) := v_step (SteppedVerifier := SVm) a (inner w) in
      Some (match r with
            | inl a' => VerifyingCaller auth c a'
            | inr (Ok claims) => CallerVerified auth c (tc_sub claims)
            | inr (Err _) => CallDone auth c (status_only UNAUTHORIZED)
            end, set_inner x w, None)
  | CallerVerified auth c actor =>
      let '(r, x) := check_role actor (role_of c) (inner w) in
      Some (match r with Ok _ => RoleChecked auth c actor | Err resp => CallDone auth c resp end,
            set_inner x w, None)
  | RoleChecked auth c actor =>
      let '(resp, evs, x) := handle_call actor c (inner w) in
      Some (CallHandled auth c actor resp evs, set_inner x w,
            (λ op, (op, (run_op op (inner w)).1)) <$> call_op c)
  | CallHandled auth c actor resp evs => Some (CallDone auth c resp, log_events evs w, None)
  | ExchangeDone _ _ | CallDone _ _ _ | Dropped => None
  end.

(** The requests so far, and (for the proofs only) the store operations of the calls in
    the order in which they took effect, each with the request it belongs to. *)
Record CState : Type := {
  shared : MWorld W;
  jobs : list (Request);
  history : list (nat * Performed);
}.

Definition begins (w : MWorld W) : CState := {| shared := w; jobs := []; history := [] |}.

Definition entry (i : nat) (h : option Performed) : list (nat * Performed) :=
  match h with Some p => [(i, p)] | None => [] end.

Definition is_arrival j : bool :=
  match j with ExchangeArrived _ | CallArrived _ _ => true | _ => false end.

Inductive conc_step : CState → CState → Prop :=
  | arrives s j :
      is_arrival j = true →
      conc_step s {| shared := shared s; jobs := jobs s ++ [j]; history := history s |}
  | proceeds s i j j' w' h :
      jobs s !! i = Some j → job_step j (shared s) = Some (j', w', h) →
      conc_step s {| shared := w'; jobs := <[i := j']> (jobs s); history := history s ++ entry i h |}
  | disconnects s i j :
      jobs s !! i = Some j → droppable j = true →
      conc_step s {| shared := shared s; jobs := <[i := Dropped]> (jobs s); history := history s |}
  (** With a store behind a connection, the operation may still be carried out. *)
  | disconnects_late s i auth c actor op r x :
      may_fail → jobs s !! i = Some (RoleChecked auth c actor) → call_op c = Some op →
      run_op op (inner (shared s)) = (r, x) →
      conc_step s {| shared := set_inner x (shared s); jobs := <[i := Dropped]> (jobs s);
                     history := history s ++ [(i, (op, r))] |}
  (** Beside the requests, whatever is not the policy may change: clocks, files, the
      API server, the credentials that the renewal tasks put into the cells. *)
  | elapses s x :
      store_inv x → view x = view (inner (shared s)) →
      conc_step s {| shared := set_inner x (shared s); jobs := jobs s; history := history s |}.

(** A given schedule, executed. *)
Definition proceed (s : CState) (i : nat) : option CState :=
  j ← jobs s !! i; p ← job_step j (shared s);
  Some {| shared := p.1.2; jobs := <[i := p.1.1]> (jobs s); history := history s ++ entry i p.2 |}.

Fixpoint run_schedule (l : list nat) (s : CState) : option CState :=
  match l with
  | [] => Some s
  | i :: l => s' ← proceed s i; run_schedule l s'
  end.

Lemma run_schedule_reachable l s s' : run_schedule l s = Some s' → rtc conc_step s s'.
Proof.
  revert s. induction l as [|i l IH]; intros s; cbn; [by intros [= ->]|].
  destruct (proceed s i) as [s1|] eqn:E; cbn; [|done]. intros Hl.
  eapply rtc_l; [|by apply IH]. unfold proceed in E.
  destruct (jobs s !! i) as [j|] eqn:Hi; cbn in E; [|done].
  destruct (job_step j (shared s)) as [[[j' w'] h]|] eqn:Hj; cbn in E; [|done].
  injection E as <-. by eapply proceeds.
Qed.

Lemma arrivals_reachable w js s0 :
  forallb is_arrival js = true →
  rtc conc_step {| shared := w; jobs := s0; history := [] |}
    {| shared := w; jobs := s0 ++ js; history := [] |}.
Proof.
  revert s0. induction js as [|j js IH]; intros s0; cbn; [by rewrite app_nil_r|].
  intros [Ha Hjs]%andb_prop. eapply rtc_l; [by apply arrives|]. cbn.
  specialize (IH (s0 ++ [j]) Hjs). by rewrite <- app_assoc in IH.
Qed.

(** ** The order of the store operations *)

(** The calls that have had their store operation. *)
Definition served (hist : list (nat * Performed)) : list nat := hist.*1.

(** How a handled call relates to its operation. *)
Definition call_explained (hist : list (nat * Performed)) (i : nat) (c : Call) (actor : str)
    (resp : Response) (evs : list AuditEvent) : Prop :=
  match call_op c with
  | None => (i ∉ served hist) ∧ evs = [] ∧ resp_body resp = NoBody
  | Some op => ∃ r, (i, (op, r)) ∈ hist ∧
      match r with
      | Ok a => resp = {| resp_code := success_code c; resp_body := shown a |} ∧
                evs = expected_events actor c
      | Err e => resp = Management.into_response (ResourceFailed e) ∧ evs = []
      end
  end.

(** What holds of a request between two phases, given the history. *)
Definition job_ok (hist : list (nat * Performed)) (i : nat) j : Prop :=
  match j with
  | CallHandled _ c actor resp evs => call_explained hist i c actor resp evs
  | CallDone _ c resp =>
      ((i ∉ served hist) ∧ resp_code resp ∈ [UNAUTHORIZED; FORBIDDEN; INTERNAL_SERVER_ERROR]) ∨
      ∃ actor evs, call_explained hist i c actor resp evs
  | Dropped => True
  | _ => i ∉ served hist
  end.

Lemma served_app hist more : served (hist ++ more) = served hist ++ served more.
Proof. apply fmap_app. Qed.

Lemma call_explained_mono hist more i c actor resp evs :
  i ∉ served more → call_explained hist i c actor resp evs →
  call_explained (hist ++ more) i c actor resp evs.
Proof.
  unfold call_explained. rewrite served_app. intros Hi. destruct (call_op c) as [op|].
  - intros (r & Hin & Hr). exists r. split; [set_solver|done].
  - set_solver.
Qed.

Lemma job_ok_mono hist more i j :
  i ∉ served more → job_ok hist i j → job_ok (hist ++ more) i j.
Proof.
  intros Hi. destruct j; cbn; rewrite ?served_app; try set_solver.
  - by apply call_explained_mono.
  - intros [[? ?]|(actor & evs & ?)]; [left; set_solver|right].
    exists actor, evs. by apply call_explained_mono.
Qed.

Lemma handle_call_run actor c x resp evs y :
  handle_call actor c x = (resp, evs, y) →
  (call_op c = None ∧ y = x ∧ evs = [] ∧ resp_body resp = NoBody) ∨
  ∃ op r, call_op c = Some op ∧ run_op op x = (r, y) ∧
    match r with
    | Ok a => resp = {| resp_code := success_code c; resp_body := shown a |} ∧
              evs = expected_events actor c
    | Err e => resp = Management.into_response (ResourceFailed e) ∧ evs = []
    end.
Proof.
  unfold handle_call, next. destruct (run_handler _ _ _) as [r w1] eqn:Hr.
  apply run_handler_run in Hr as [(Hop & -> & Hr)|(op & Hop & [(a & -> & _ & Ha & Hrun)|(e & -> & Ha & Hrun)])];
    cbn in *.
  - intros Heq. left. destruct Hr as [-> | [code ->]]; by simplify_eq/=.
  - intros [= <- <- <-]. right. exists op, (Ok a). by rewrite Ha.
  - intros [= <- <- <-]. right. exists op, (Err e). by rewrite Ha.
Qed.

Context `{!ExchangeFrame (H := Sto) (H1 := exchange_verifier) W}.
Context `{!GeneratorFrame (H := Sto) W}.
Context `{!ManagementFrame (H := Sto) (H1 := management_verifier) W}.
Context {SFe : SteppedFrame W (H2 := SVe)} {SFm : SteppedFrame W (H2 := SVm)}.

Lemma reads_keeps {A : Type} (m : eff W ResourceError A) ans :
  reads store_inv view may_fail m ans → keeps_policy m.
Proof. intros Hm w r w' Hrun Hinv. by destruct (Hm _ _ _ Hinv Hrun) as (? & ? & _). Qed.

Lemma find_grant_keeps form client : keeps_policy (find_grant form client).
Proof. apply keeps_map_err. eapply reads_keeps, find_mapping_reads. Qed.

Lemma check_scopes_keeps form found : keeps_policy (check_scopes form found).
Proof.
  intros w r w'. unfold check_scopes. destruct (find_scopes found w) as [r0 w0] eqn:E.
  intros [= _ <-]. by eapply reads_keeps; [apply find_scopes_reads|].
Qed.

Lemma finish_exchange_keeps form client vr : keeps_policy (finish_exchange service form client vr).
Proof.
  unfold finish_exchange. apply keeps_bind; [apply keeps_map_err|intros token w r w' [= <- <-]; done].
  apply keeps_bind; [apply keeps_lift|intros aud].
  apply keeps_bind; [apply keeps_total, new_uuid_frame|intros jti].
  apply keeps_bind; [apply keeps_total, now_frame|intros time].
  apply keeps_map_err. intros ???. apply generate_token_frame.
Qed.

Lemma check_role_keeps actor role : keeps_policy (check_role actor role).
Proof.
  intros w r w'. unfold check_role. destruct (authorize _ _ _) as [r0 y] eqn:Ha.
  intros Hr Hinv. destruct (authorize_frame _ _ _ _ _ Ha Hinv).
  destruct r0 as [[]|[]]; by simplify_eq.
Qed.

(** A phase performs the operation it notes, or leaves the policy alone. *)
Lemma job_step_store j w j' w' h :
  store_inv (inner w) → job_step j w = Some (j', w', h) →
  match h with
  | Some (op, r) => run_op op (inner w) = (r, inner w')
  | None => store_inv (inner w') ∧ view (inner w') = view (inner w)
  end.
Proof.
  intros Hinv. destruct j; cbn; try done.
  - by intros [= _ <- <-].
  - destruct (v_step _ _) as [r x] eqn:E. intros [= _ <- <-]. by eapply (v_step_frame (SteppedFrame := SFe)).
  - destruct (find_grant _ _ _) as [r x] eqn:E. intros [= _ <- <-]. by eapply find_grant_keeps.
  - destruct (check_scopes _ _ _) as [r x] eqn:E. intros [= _ <- <-]. by eapply check_scopes_keeps.
  - destruct (finish_exchange _ _ _ _ _) as [r0 x] eqn:E. intros [= _ <- <-]. by eapply finish_exchange_keeps.
  - by intros [= _ <- <-].
  - destruct (v_step _ _) as [r x] eqn:E. intros [= _ <- <-]. by eapply (v_step_frame (SteppedFrame := SFm)).
  - destruct (check_role _ _ _) as [r x] eqn:E. intros [= _ <- <-]. by eapply check_role_keeps.
  - destruct (handle_call _ _ _) as [[resp evs] x] eqn:E. intros [= _ <- <-].
    apply handle_call_run in E as [(-> & -> & _)|(op & r & -> & Hrun & _)]; [done|].
    cbn. by rewrite Hrun.
  - by intros [= _ <- <-].
Qed.

(** A phase keeps the request explained. *)
Lemma job_step_ok hist i j w j' w' h :
  job_step j w = Some (j', w', h) → job_ok hist i j → job_ok (hist ++ entry i h) i j'.
Proof.
  destruct j; cbn [job_step]; try done.
  2-5: case_match.
  1-5: intros [= <- _ <-]; cbn; rewrite app_nil_r; by repeat case_match.
  - intros [= <- _ <-] Hi. cbn. rewrite app_nil_r.
    destruct (extract_bearer_token _ _); cbn; [done|]. left. split; [done|set_solver].
  - destruct (v_step _ _) as [r x]. intros [= <- _ <-] Hi. cbn. rewrite app_nil_r.
    destruct r as [a'|[claims|e]]; cbn; [done..|]. left. split; [done|set_solver].
  - destruct (check_role _ _ _) as [r x] eqn:E. intros [= <- _ <-] Hi. cbn. rewrite app_nil_r.
    destruct r as [[]|resp]; cbn; [done|]. left. split; [done|].
    unfold check_role in E. destruct (authorize _ _ _) as [[[]|[]] y]; simplify_eq; set_solver.
  - destruct (handle_call _ _ _) as [[resp evs] x] eqn:E. intros [= <- _ <-] Hi. cbn.
    unfold call_explained.
    apply handle_call_run in E as [(-> & -> & -> & Hb)|(op & r & -> & Hrun & Hr)]; cbn.
    + by rewrite app_nil_r.
    + rewrite Hrun. exists r. split; [set_solver|done].
  - intros [= <- _ <-] Hj. cbn. rewrite app_nil_r. right. eauto.
Qed.

(** The operations and answers of a history. *)
Definition operations (hist : list (nat * Performed)) : list ServiceOp := (λ e, e.2.1) <$> hist.
Definition answers_of (hist : list (nat * Performed)) : list (result ResourceError Answer) :=
  (λ e, e.2.2) <$> hist.

Lemma spec_run_snoc fails ops P rs x op r y :
  spec_run fails ops P rs (view x) → store_inv x → run_op op x = (r, y) → (may_fail → fails) →
  spec_run fails (ops ++ [op]) P (rs ++ [r]) (view y).
Proof.
  intros Hs Hinv Hrun Hf. remember (view x) as Q eqn:HQ. induction Hs; subst.
  - destruct (run_op_refines op _ _ _ Hinv Hrun) as [_ [(r0 & ? & ?)|(? & [msg ->] & ?)]].
    + eapply spec_answered; [done..|constructor].
    + eapply spec_lost; [by auto|done|constructor].
  - eapply spec_answered; [done..|]. by apply IHHs.
  - eapply spec_lost; [done..|]. by apply IHHs.
Qed.

Record linear (w0 : MWorld W) (s : CState) : Prop := {
  linear_inv : store_inv (inner (shared s));
  linear_run : spec_run may_fail (operations (history s)) (view (inner w0))
                 (answers_of (history s)) (view (inner (shared s)));
  linear_once : NoDup (served (history s));
  linear_known i : i ∈ served (history s) → (i < length (jobs s))%nat;
  linear_jobs i j : jobs s !! i = Some j → job_ok (history s) i j;
}.

(** One request had its store operation. *)
Lemma linear_performed w0 s i j j' op r w' :
  linear w0 s → jobs s !! i = Some j → i ∉ served (history s) →
  run_op op (inner (shared s)) = (r, inner w') →
  job_ok (history s ++ [(i, (op, r))]) i j' →
  linear w0 {| shared := w'; jobs := <[i := j']> (jobs s); history := history s ++ [(i, (op, r))] |}.
Proof.
  intros [Hinv Hs Hnd Hk Hj] Hi Hfresh Hrun Hj'.
  destruct (run_op_run _ _ _ _ Hrun Hinv) as [Hinv' _]. split; cbn; [done| | | |].
  - unfold operations, answers_of. rewrite !fmap_app. by eapply spec_run_snoc.
  - rewrite served_app. apply NoDup_app. split_and!; [done|set_solver|by apply NoDup_singleton].
  - intros k. rewrite served_app, length_insert. intros [?|Hin]%elem_of_app; [by apply Hk|].
    apply list_elem_of_singleton in Hin as ->. by eapply lookup_lt_Some.
  - intros k jk. destruct (decide (k = i)) as [->|Hne].
    + rewrite list_lookup_insert_eq by (by eapply lookup_lt_Some). by intros [= <-].
    + rewrite list_lookup_insert_ne by done. intros ?%Hj. apply job_ok_mono; [set_solver|done].
Qed.

(** One request proceeded without one. *)
Lemma linear_silent w0 s i j' w' :
  linear w0 s → store_inv (inner w') → view (inner w') = view (inner (shared s)) →
  job_ok (history s) i j' →
  linear w0 {| shared := w'; jobs := <[i := j']> (jobs s); history := history s |}.
Proof.
  intros [Hinv Hs Hnd Hk Hj] Hinv' Hv Hj'. split; cbn; [done|by rewrite Hv|done| |].
  - intros k. rewrite length_insert. apply Hk.
  - intros k jk Hlk. destruct (decide (k = i)) as [->|Hne].
    + assert (i < length (jobs s))%nat.
      { apply lookup_lt_Some in Hlk. by rewrite length_insert in Hlk. }
      rewrite list_lookup_insert_eq in Hlk by done. by simplify_eq.
    + rewrite list_lookup_insert_ne in Hlk by done. by apply Hj.
Qed.

(** Only a request that has had no operation yet notes one. *)
Lemma job_step_fresh hist i j w j' w' p :
  job_step j w = Some (j', w', Some p) → job_ok hist i j → i ∉ served hist.
Proof.
  destruct j; cbn; try done; repeat case_match; try done; by simplify_eq.
Qed.

Lemma linear_step w0 s s' : conc_step s s' → linear w0 s → linear w0 s'.
Proof.
  intros Hstep Hlin. pose proof Hlin as [Hinv Hs Hnd Hk Hj].
  destruct Hstep as [s j Ha|s i j j' w' h Hi Hjs|s i j Hi Hd|s i auth c actor op r x Hf Hi Hop Hrun|s x Hx Hv].
  - split; cbn; [done..| |].
    + intros i Hi%Hk. rewrite length_app. lia.
    + intros i j' [?|[Hlen Hlk]]%lookup_app_Some; [by apply Hj|].
      apply list_lookup_singleton_Some in Hlk as [Heq <-].
      assert (i ∉ served (history s)) by (intros ?%Hk; lia). by destruct j.
  - pose proof (job_step_store _ _ _ _ _ Hinv Hjs) as Hst.
    pose proof (job_step_ok _ i _ _ _ _ _ Hjs (Hj _ _ Hi)) as Hok.
    destruct h as [[op r]|]; cbn in *.
    + eapply linear_performed; try done. by eapply job_step_fresh; [|apply Hj].
    + rewrite app_nil_r in *. destruct Hst. by apply linear_silent.
  - by apply linear_silent.
  - eapply linear_performed; try done. apply (Hj _ _ Hi).
  - split; cbn; [done|by rewrite Hv|done..].
Qed.

Lemma linear_begins w0 : store_inv (inner w0) → linear w0 (begins w0).
Proof. intros Hinv. split; cbn; [done|constructor|constructor|set_solver|done]. Qed.

Lemma linear_reachable w0 s :
  store_inv (inner w0) → rtc conc_step (begins w0) s → linear w0 s.
Proof.
  intros Hinv. apply (rtc_ind_r (linear w0)); [by apply linear_begins|].
  intros s1 s2 _ Hstep. by apply linear_step.
Qed.

(** ** What the requests found out *)

(** [s1] is a moment of a run from [w0] to [s]. *)
Definition moment (w0 : MWorld W) (s s1 : CState) : Prop :=
  rtc conc_step (begins w0) s1 ∧ rtc conc_step s1 s.

(** A verification that was begun during the run and whose steps are steps of the run. *)
Inductive in_progress {Ver : JwtVerifier W} (SV : SteppedVerifier W) (w0 : MWorld W) (aud tok : str) :
    CState → Verification (SteppedVerifier := SV) → Prop :=
  | progress_begins s : rtc conc_step (begins w0) s → in_progress SV w0 aud tok s (v_begin aud tok)
  | progress_steps s s' a a' : in_progress SV w0 aud tok s a → conc_step s s' →
      v_step a (inner (shared s)) = (inl a', inner (shared s')) → in_progress SV w0 aud tok s' a'
  | progress_waits s s' a : in_progress SV w0 aud tok s a → conc_step s s' → in_progress SV w0 aud tok s' a.

Lemma in_progress_keeps {Ver : JwtVerifier W} (SV : SteppedVerifier W) (P : Verification → Prop)
    w0 aud tok s a :
  P (v_begin aud tok) → (∀ a x a' x', v_step a x = (inl a', x') → P a → P a') →
  in_progress SV w0 aud tok s a → P a.
Proof. intros Hb Hs. induction 1; eauto. Qed.

(** Its last step, taken at [s], answers [r]. *)
Definition concludes {Ver : JwtVerifier W} (SV : SteppedVerifier W) (w0 : MWorld W) (aud tok : str)
    (s : CState) (r : result JwtVerificationError TokenClaims) : Prop :=
  ∃ a x, in_progress SV w0 aud tok s a ∧ v_step a (inner (shared s)) = (inr r, x).

(** At some moment the caller was verified as [actor]; *)
Definition verified_while (w0 : MWorld W) (s : CState) (auth : option HV) (actor : str) : Prop :=
  ∃ s1 tok claims, moment w0 s s1 ∧ extract_bearer_token to_str auth = Some tok ∧
    concludes SVm w0 management_audience tok s1 (Ok claims) ∧ actor = tc_sub claims.

(** and then [actor] was found to hold [role]. *)
Definition authorized_while (w0 : MWorld W) (s : CState) (role : str) (auth : option HV)
    (actor : str) : Prop :=
  ∃ s2 y, moment w0 s s2 ∧ verified_while w0 s2 auth actor ∧
    authorize actor {[ role ]} (inner (shared s2)) = (Ok true, y).

(** At some moment the subject token was verified; *)
Definition identified_while (w0 : MWorld W) (s : CState) form (client : TokenClaims) : Prop :=
  ∃ s1, moment w0 s s1 ∧
    concludes SVe w0 (client_audience service) (subject_token form) s1 (Ok client).

(** then the client's grant was looked up in [P], and then the scopes in [Q]. *)
Definition read_while (w0 : MWorld W) (s : CState) form (client : TokenClaims) (P Q : Policy) : Prop :=
  ∃ s1 s2, identified_while w0 s1 form client ∧ moment w0 s2 s1 ∧ moment w0 s s2 ∧
    P = view (inner (shared s1)) ∧ Q = view (inner (shared s2)).

(** What an exchange is told that reads [P] and [Q]. *)
Definition told form (client : TokenClaims) (P Q : Policy) :
    result (ExchangeApiError JwtGenerationError) VerificationResult :=
  outcome form (Ok (resolve (tc_sub client) (resource form) (read_policy two_reads P Q))).

(** How the result of an exchange came about. *)
Definition exchange_explained (w0 : MWorld W) (s : CState) form
    (r : result (ExchangeApiError JwtGenerationError) (N * TokenExchangeResponse)) : Prop :=
  (∃ e, check_types form = Err e ∧ r = Err e) ∨
  (∃ s1 e, moment w0 s s1 ∧ r = Err (ExchangeFailed (TokenVerification e)) ∧
     concludes SVe w0 (client_audience service) (subject_token form) s1 (Err e)) ∨
  ∃ client P Q, read_while w0 s form client P Q ∧
    ((may_fail ∧ ∃ msg, r = Err (ExchangeFailed (ServiceError (DatabaseError msg)))) ∨
     match told form client P Q with
     | Err e => r = Err e
     | Ok vr => ∃ s3 x, moment w0 s s3 ∧ finish_exchange service form client vr (inner (shared s3)) = (r, x)
     end).

Definition job_traced (w0 : MWorld W) (s : CState) j : Prop :=
  match j with
  | VerifyingSubject form a => in_progress SVe w0 (client_audience service) (subject_token form) s a
  | VerifyingCaller auth _ a => ∃ tok, extract_bearer_token to_str auth = Some tok ∧
      in_progress SVm w0 management_audience tok s a
  | SubjectVerified form client => identified_while w0 s form client
  | GrantFound form client found =>
      ∃ s1, identified_while w0 s1 form client ∧ moment w0 s s1 ∧
        found_in (view (inner (shared s1))) (tc_sub client) (resource form) found
  | PolicyChecked form client vr =>
      ∃ P Q, read_while w0 s form client P Q ∧ told form client P Q = Ok vr
  | ExchangeDone form r => exchange_explained w0 s form r
  | CallerVerified auth _ actor => verified_while w0 s auth actor
  | RoleChecked auth c actor | CallHandled auth c actor _ _ =>
      authorized_while w0 s (role_of c) auth actor
  | _ => True
  end.

Lemma moment_mono w0 s s' s1 : conc_step s s' → moment w0 s s1 → moment w0 s' s1.
Proof. intros ? [? ?]. split; [done|by eapply rtc_r]. Qed.

Lemma moment_now w0 s : rtc conc_step (begins w0) s → moment w0 s s.
Proof. by split. Qed.

Lemma verified_while_mono w0 s s' auth actor :
  conc_step s s' → verified_while w0 s auth actor → verified_while w0 s' auth actor.
Proof. intros ? (s1 & tok & claims & ? & ?). exists s1, tok, claims. eauto using moment_mono. Qed.

Lemma authorized_while_mono w0 s s' role auth actor :
  conc_step s s' → authorized_while w0 s role auth actor → authorized_while w0 s' role auth actor.
Proof. intros ? (s2 & y & ? & ?). exists s2, y. eauto using moment_mono. Qed.

Lemma identified_while_mono w0 s s' form client :
  conc_step s s' → identified_while w0 s form client → identified_while w0 s' form client.
Proof. intros ? (s1 & ? & ?). exists s1. eauto using moment_mono. Qed.

Lemma read_while_mono w0 s s' form client P Q :
  conc_step s s' → read_while w0 s form client P Q → read_while w0 s' form client P Q.
Proof. intros ? (s1 & s2 & ? & ? & ? & ?). exists s1, s2. eauto 6 using moment_mono. Qed.

Lemma exchange_explained_mono w0 s s' form r :
  conc_step s s' → exchange_explained w0 s form r → exchange_explained w0 s' form r.
Proof.
  intros Hstep [?|[(s1 & e & ? & ? & ?)|(client & P & Q & Hr & Hcase)]]; [by left|right..].
  - left. exists s1, e. eauto using moment_mono.
  - right. exists client, P, Q. split; [by eapply read_while_mono|].
    destruct Hcase as [?|Hcase]; [by left|right]. destruct (told _ _ _ _); [|done].
    destruct Hcase as (s3 & x & ? & ?). exists s3, x. eauto using moment_mono.
Qed.

Lemma job_traced_mono w0 s s' j : conc_step s s' → job_traced w0 s j → job_traced w0 s' j.
Proof.
  intros Hstep. destruct j; cbn; try done; eauto using identified_while_mono, progress_waits,
    exchange_explained_mono, verified_while_mono, authorized_while_mono.
  - intros (s1 & ? & ? & ?). exists s1. eauto using moment_mono.
  - intros (P & Q & ? & ?). exists P, Q. eauto using read_while_mono.
  - intros (tok & ? & ?). exists tok. eauto using progress_waits.
Qed.

(** What the two reads of the store find out is true of the run. *)
Lemma find_grant_traced w0 s form client r x :
  rtc conc_step (begins w0) s → store_inv (inner (shared s)) → identified_while w0 s form client →
  find_grant form client (inner (shared s)) = (r, x) →
  job_traced w0 s (match r with Ok found => GrantFound form client found | Err e => ExchangeDone form (Err e) end).
Proof.
  intros Hnow%moment_now Hinv Hid. unfold find_grant, eff_map_err.
  destruct (find_mapping _ _ _) as [r0 x0] eqn:Ef. intros [= <- _].
  destruct (find_mapping_reads _ _ _ _ _ Hinv Ef) as (_ & _ & Hf).
  destruct r0 as [found|e]; cbn; [by exists s|].
  destruct Hf as [? [msg ->]]. right. right. exists client, (view (inner (shared s))), (view (inner (shared s))).
  split; [|left; eauto]. exists s, s. by split_and!.
Qed.

Lemma check_scopes_traced w0 s form client found r x :
  rtc conc_step (begins w0) s → store_inv (inner (shared s)) → job_traced w0 s (GrantFound form client found) →
  check_scopes form found (inner (shared s)) = (r, x) →
  job_traced w0 s (match r with Ok vr => PolicyChecked form client vr | Err e => ExchangeDone form (Err e) end).
Proof.
  intros Hnow%moment_now Hinv (s1 & Hid & Hm & Hfound). unfold check_scopes.
  destruct (find_scopes _ _) as [r0 x0] eqn:Ef. intros [= <- _].
  destruct (find_scopes_reads _ _ _ _ Hinv Ef) as (_ & _ & Hf).
  assert (read_while w0 s form client (view (inner (shared s1))) (view (inner (shared s)))) as Hread
    by (exists s1, s; by split_and!).
  destruct r0 as [mp|e].
  - rewrite (Hf _ _ _ Hfound). fold (told form client (view (inner (shared s1))) (view (inner (shared s)))).
    destruct (told _ _ _ _) as [vr|e] eqn:Et; cbn; [by eauto|].
    right. right. eexists _, _, _. split; [done|]. right. by rewrite Et.
  - destruct Hf as [? [msg ->]]. cbn. right. right. eexists _, _, _. split; [done|left; eauto].
Qed.

(** What a phase finds out is true of the run it belongs to. *)
Lemma phase_traced w0 s s' j j' h :
  rtc conc_step (begins w0) s → store_inv (inner (shared s)) → conc_step s s' →
  job_traced w0 s j → job_step j (shared s) = Some (j', shared s', h) → job_traced w0 s' j'.
Proof.
  intros Hreach Hinv Hstep Hj Hjs. pose proof (moment_now _ _ Hreach) as Hnow.
  assert (rtc conc_step (begins w0) s') as Hreach' by by eapply rtc_r.
  assert (job_traced w0 s j' → job_traced w0 s' j') as Hlater by by apply job_traced_mono.
  destruct j; cbn in Hj, Hjs; try done.
  - destruct (check_types form) as [[]|e] eqn:E; injection Hjs as <- _ _; cbn.
    + by apply progress_begins.
    + left. eauto.
  - destruct (v_step _ _) as [r x] eqn:E. injection Hjs as <- Hs _.
    destruct r as [a'|[client|e]]; cbn.
    + eapply progress_steps; [done..|]. by rewrite E, <- Hs.
    + apply Hlater. exists s. split; [done|]. by eexists _, _.
    + apply Hlater. right. left. exists s, e. split_and!; [done|done|]. by eexists _, _.
  - apply Hlater. destruct (find_grant _ _ _) as [r x] eqn:E. injection Hjs as <- _ _.
    by eapply find_grant_traced.
  - apply Hlater. destruct (check_scopes _ _ _) as [r x] eqn:E. injection Hjs as <- _ _.
    by eapply check_scopes_traced.
  - apply Hlater. destruct (finish_exchange _ _ _ _ _) as [r0 x] eqn:E; simplify_eq; cbn.
    destruct Hj as (P & Q & Hread & Ht). right. right. exists client, P, Q. split; [done|right].
    rewrite Ht. by exists s, x.
  - destruct (extract_bearer_token _ _) as [tok|] eqn:Ht; injection Hjs as <- _ _; cbn; [|done].
    exists tok. split; [done|]. by apply progress_begins.
  - destruct (v_step _ _) as [r x] eqn:E. injection Hjs as <- Hs _. destruct Hj as (tok & Htok & Ha).
    destruct r as [a'|[claims|e]]; cbn; [| |done].
    + exists tok. split; [done|]. eapply progress_steps; [done..|]. by rewrite E, <- Hs.
    + apply Hlater. exists s, tok, claims. split_and!; [done|done| |done]. by eexists _, _.
  - apply Hlater. destruct (check_role _ _ _) as [[[]|resp] x] eqn:E; simplify_eq; cbn; [|done].
    unfold check_role in E. destruct (authorize _ _ _) as [[[]|[]] y] eqn:Ha; simplify_eq.
    by exists s, x.
  - apply Hlater. destruct (handle_call _ _ _) as [[resp evs] x]. by simplify_eq.
  - by simplify_eq.
Qed.

Lemma job_traced_reachable w0 s i j :
  store_inv (inner w0) → rtc conc_step (begins w0) s → jobs s !! i = Some j → job_traced w0 s j.
Proof.
  intros Hinv Hreach0. revert i j. revert Hreach0.
  apply (rtc_ind_r (λ s, ∀ i j, jobs s !! i = Some j → job_traced w0 s j)); [done|].
  clear s. intros s s' Hreach Hstep IH.
  destruct (linear_reachable _ _ Hinv Hreach) as [Hinv' _ _ _ _].
  assert (∀ k jk, jobs s !! k = Some jk → job_traced w0 s' jk) as Hold
    by eauto using job_traced_mono.
  intros k jk. inversion Hstep as [s0 j Ha|s0 i j j' w' h Hi Hjs|s0 i j Hi Hd|s0 i auth c actor op r x Hf Hi Hop Hrun|s0 x Hx Hv];
    subst; cbn.
  - intros [?|[_ Hlk]]%lookup_app_Some; [by eapply Hold|].
    apply list_lookup_singleton_Some in Hlk as [_ <-]. by destruct j.
  - intros [(<- & <- & _)|(? & ?)]%list_lookup_insert_Some; [|by eapply Hold].
    by eapply phase_traced; [..|by eapply IH|].
  - intros [(<- & <- & _)|(? & ?)]%list_lookup_insert_Some; [done|by eapply Hold].
  - intros [(<- & <- & _)|(? & ?)]%list_lookup_insert_Some; [done|by eapply Hold].
  - by apply Hold.
Qed.

(** C7 Requests that interleave are linearizable, up to the two reads of an exchange.
    However the phases of any number of exchanges and management calls interleave,
    with clients that disconnect at any moment: the policy is the one that the store
    operations of the calls give when they run one after the other in the order in
    which they took effect, each as the service promises it; each call has at most one
    of them, and the answer of a call is that of its operation, or a refusal before it.  An exchange is refused
    before it reads the store; or, after its subject token was verified, it draws its
    answer from the policies of two moments of the run (of a single one, if the store
    reads once): the grant of the first, the scope definitions of the second. *)
Theorem concurrent_requests_linearize w0 s :
  store_inv (inner w0) → rtc conc_step (begins w0) s →
  spec_run may_fail (operations (history s)) (view (inner w0))
    (answers_of (history s)) (view (inner (shared s))) ∧
  promised_run may_fail (operations (history s)) (view (inner w0))
    (answers_of (history s)) (view (inner (shared s))) ∧
  NoDup (served (history s)) ∧
  (∀ i auth c resp, jobs s !! i = Some (CallDone auth c resp) →
     (i ∉ served (history s)) ∧ resp_code resp ∈ [UNAUTHORIZED; FORBIDDEN; INTERNAL_SERVER_ERROR] ∨
     ∃ actor evs, call_explained (history s) i c actor resp evs) ∧
  (∀ i form r, jobs s !! i = Some (ExchangeDone form r) → exchange_explained w0 s form r).
Proof.
  intros Hinv Hreach. destruct (linear_reachable _ _ Hinv Hreach) as [_ Hs Hnd _ Hj].
  split_and!; [done|by apply spec_run_promised|done| |].
  - intros i auth c resp Hi. apply (Hj _ _ Hi).
  - intros i form r Hi. apply (job_traced_reachable _ _ _ _ Hinv Hreach Hi).
Qed.

(** ** Who stands behind a token *)

(** The event is in the log, or its line is just being written. *)
Definition on_record (s : CState) (e : AuditEvent) : Prop :=
  e ∈ audit (shared s) ∨
  ∃ i auth c actor resp evs, jobs s !! i = Some (CallHandled auth c actor resp evs) ∧ e ∈ evs.

(** A creation of the grant, asked for by [actor], whose outcome its request never
    learned: the store reported a failure, or the client had gone. *)
Definition lost_creation (w0 : MWorld W) (s : CState) (auth : option HV) (actor : str)
    (k : str * str) : Prop :=
  may_fail ∧ ∃ i m r, (i, (OpSave m, r)) ∈ history s ∧ mapping_key m = k ∧
    (is_Ok r = false ∨ jobs s !! i = Some Dropped) ∧
    ∃ s1 c, moment w0 s s1 ∧ jobs s1 !! i = Some (RoleChecked auth c actor) ∧
      call_op c = Some (OpSave m).

Definition accountable (w0 : MWorld W) (s : CState) (k : str * str) : Prop :=
  ∃ auth actor, authorized_while w0 s ROLE_MAPPINGS_WRITE auth actor ∧
    (on_record s (mapping_created actor k.1 k.2) ∨ lost_creation w0 s auth actor k).

(** At some moment after the client was identified, the policy granted it every
    requested scope. *)
Definition granted_while (w0 : MWorld W) (s : CState) form (client : TokenClaims) : Prop :=
  ∃ s1 g, moment w0 s s1 ∧ identified_while w0 s1 form client ∧
    grants (view (inner (shared s1))) !! (tc_sub client, resource form) = Some g ∧
    ∀ x, x ∈ form_scopes form → x ∈ grant_scopes g.

Lemma job_step_audit j w j' w' h :
  job_step j w = Some (j', w', h) →
  audit w' = audit w ++ match j with CallHandled _ _ _ _ evs => evs | _ => [] end.
Proof.
  destruct j; cbn; try done; repeat case_match; intros; simplify_eq; cbn; by rewrite ?app_nil_r.
Qed.

Lemma recorded_step s s' e : conc_step s s' → on_record s e → on_record s' e.
Proof.
  intros Hstep [Hin|(k & auth & c & actor & resp & evs & Hk & Hin)].
  - left. destruct Hstep as [| s i j j' w' h Hi Hjs| | |]; cbn; try done.
    rewrite (job_step_audit _ _ _ _ _ Hjs). set_solver.
  - destruct Hstep as [s j Ha|s i j j' w' h Hi Hjs|s i j Hi Hd|s i auth' c' actor' op r x Hf Hi Hop Hrun|s x Hx Hv].
    + right. exists k, auth, c, actor, resp, evs. split; [|done]. cbn.
      by apply lookup_app_l_Some.
    + destruct (decide (i = k)) as [->|Hne].
      * left. rewrite Hk in Hi. injection Hi as <-. cbn in *. simplify_eq. cbn. set_solver.
      * right. exists k, auth, c, actor, resp, evs. split; [|done]. cbn.
        by rewrite list_lookup_insert_ne.
    + right. exists k, auth, c, actor, resp, evs. split; [|done]. cbn.
      rewrite list_lookup_insert_ne; [done|]. intros ->. by simplify_eq.
    + right. exists k, auth, c, actor, resp, evs. split; [|done]. cbn.
      rewrite list_lookup_insert_ne; [done|]. intros ->. by simplify_eq.
    + right. by exists k, auth, c, actor, resp, evs.
Qed.

Lemma dropped_stays s s' i : conc_step s s' → jobs s !! i = Some Dropped → jobs s' !! i = Some Dropped.
Proof.
  intros [s0 j Ha|s0 k j j' w' h Hk Hjs|s0 k j Hk Hd|s0 k auth c actor op r x Hf Hk Hop Hrun|s0 x Hx Hv] Hi; cbn;
    [by apply lookup_app_l_Some| | | |done]; rewrite list_lookup_insert_ne; try done; intros ->; by simplify_eq.
Qed.

Lemma history_grows s s' : conc_step s s' → history s `prefix_of` history s'.
Proof. intros []; cbn; try done; by apply prefix_app_r. Qed.

Lemma lost_creation_mono w0 s s' auth actor k :
  conc_step s s' → lost_creation w0 s auth actor k → lost_creation w0 s' auth actor k.
Proof.
  intros Hstep [? (i & m & r & Hin & ? & Hr & s1 & c & ? & ? & ?)]. split; [done|]. exists i, m, r.
  destruct (history_grows _ _ Hstep) as [more ->].
  split_and!; [set_solver|done| |exists s1, c; eauto using moment_mono].
  destruct Hr; eauto using dropped_stays.
Qed.

Lemma accountable_mono w0 s s' k : conc_step s s' → accountable w0 s k → accountable w0 s' k.
Proof.
  intros Hstep (auth & actor & ? & Hr). exists auth, actor.
  split; [by eapply authorized_while_mono|].
  destruct Hr; [left; by eapply recorded_step|right; by eapply lost_creation_mono].
Qed.

Lemma accountable_later w0 s s' k : rtc conc_step s s' → accountable w0 s k → accountable w0 s' k.
Proof. induction 1; eauto using accountable_mono. Qed.

(** Only the creation of a mapping adds a grant. *)
Lemma new_grant_call op x r y k :
  store_inv x → run_op op x = (r, y) →
  grants (view x) !! k = None → is_Some (grants (view y) !! k) →
  ∃ m, op = OpSave m ∧ mapping_key m = k ∧ (is_Ok r = true ∨ may_fail).
Proof.
  intros Hinv Hrun Hnone Hsome. destruct (run_op_run _ _ _ _ Hrun Hinv) as [_ Hv].
  assert (view y ≠ view x) as Hne by (intros Hv'; rewrite Hv', Hnone in Hsome; by destruct Hsome).
  destruct Hv as [Hv|Hv]; [done|]. pose proof Hsome as Hsome'. rewrite Hv in Hsome'.
  destruct (policy_new_grant _ _ _ Hnone Hsome') as (m & -> & ?). exists m. split_and!; [done|done|].
  destruct r as [a|e]; [by left|right].
  by destruct (run_op_failed _ _ _ _ Hrun Hinv) as [(? & _)|(? & _)].
Qed.

Lemma save_call c m :
  call_op c = Some (OpSave m) →
  role_of c = ROLE_MAPPINGS_WRITE ∧ ∀ actor,
    mapping_created actor (client_identifier m) (participant_context m) ∈ expected_events actor c.
Proof.
  destruct c as [| |[m'|]|? ? []|? ?|?|[]|? []|?]; cbn; intros; simplify_eq; try (by repeat case_match).
  split; [done|]. intros actor. cbn. by left.
Qed.

(** A grant that a phase adds was asked for by its request, which will log it. *)
Lemma phase_new_grant w0 s j j' w' h k :
  store_inv (inner (shared s)) → job_traced w0 s j → job_step j (shared s) = Some (j', w', h) →
  grants (view (inner (shared s))) !! k = None → is_Some (grants (view (inner w')) !! k) →
  ∃ auth actor, authorized_while w0 s ROLE_MAPPINGS_WRITE auth actor ∧
    ((∃ c resp evs, j' = CallHandled auth c actor resp evs ∧ mapping_created actor k.1 k.2 ∈ evs) ∨
     may_fail ∧ ∃ c m e, j = RoleChecked auth c actor ∧ call_op c = Some (OpSave m) ∧
       h = Some (OpSave m, Err e) ∧ mapping_key m = k).
Proof.
  intros Hinv Hj Hjs Hnone Hsome. pose proof (job_step_store _ _ _ _ _ Hinv Hjs) as Hst.
  destruct h as [[op r]|]; [|destruct Hst as [_ Hv]; rewrite Hv, Hnone in Hsome; by destruct Hsome].
  destruct (new_grant_call _ _ _ _ _ Hinv Hst Hnone Hsome) as (m & -> & <- & Hok).
  destruct j as [| | | | | | | | |auth c actor| | |]; cbn in Hjs; try done; try (by repeat case_match; simplify_eq).
  destruct (handle_call _ _ _) as [[resp evs] x] eqn:Hh. injection Hjs as <- <- Hh'.
  apply handle_call_run in Hh as [(Hop & _)|(op & ro & Hop & Hrun & Hr)]; rewrite Hop in Hh'; [done|].
  injection Hh' as -> Hro. rewrite Hrun in Hro. cbn in Hro. subst ro.
  destruct (save_call _ _ Hop) as [Hrole Hev]. cbn in Hj. rewrite Hrole in Hj.
  exists auth, actor. split; [done|]. destruct r as [a|e].
  - left. destruct Hr as [_ ->]. exists c, resp, (expected_events actor c). split; [done|apply Hev].
  - right. destruct Hok as [?|?]; [done|]. split; [done|]. by exists c, m, e.
Qed.

Lemma grants_accountable w0 s k :
  store_inv (inner w0) → view (inner w0) = empty_policy → rtc conc_step (begins w0) s →
  is_Some (grants (view (inner (shared s))) !! k) → accountable w0 s k.
Proof.
  intros Hinv Hempty.
  apply (rtc_ind_r (λ s, is_Some (grants (view (inner (shared s))) !! k) → accountable w0 s k)).
  { cbn. rewrite Hempty. cbn. intros [? Hk]. by rewrite lookup_empty in Hk. }
  clear s. intros s s' Hreach Hstep IH.
  destruct (linear_reachable _ _ Hinv Hreach) as [Hinv' _ _ _ _].
  destruct (grants (view (inner (shared s))) !! k) as [g|] eqn:E.
  { intros _. eapply accountable_mono; [done|]. by apply IH. }
  intros Hsome. pose proof (λ i j, job_traced_reachable w0 s i j Hinv Hreach) as Hj.
  inversion Hstep as [s0 j Ha|s0 i j j' w' h Hi Hjs|s0 i j Hi Hd|s0 i auth c actor op r x Hf Hi Hop Hrun|s0 x Hx Hv];
    subst; cbn in Hsome; rewrite ?Hv in Hsome; try (rewrite E in Hsome; by destruct Hsome).
  - destruct (phase_new_grant _ _ _ _ _ _ _ Hinv' (Hj _ _ Hi) Hjs E Hsome)
      as (auth & actor & Hauth & [(c & resp & evs & -> & Hin)|(? & c & m & e & -> & Hop & -> & Hk)]);
      exists auth, actor; (split; [by eapply authorized_while_mono|]).
    + left. right. exists i, auth, c, actor, resp, evs. split; [|done]. cbn.
      apply list_lookup_insert_eq. by eapply lookup_lt_Some.
    + right. split; [done|]. exists i, m, (Err e). split_and!; [|done|by left|]; [cbn; set_solver|].
      exists s, c. split_and!; [split; [done|by apply rtc_once]|done|done].
  - destruct (new_grant_call _ _ _ _ _ Hinv' Hrun E Hsome) as (m & -> & Hk & _).
    destruct (save_call _ _ Hop) as [Hrole _]. specialize (Hj _ _ Hi). cbn in Hj. rewrite Hrole in Hj.
    exists auth, actor. split; [by eapply authorized_while_mono|]. right. split; [done|].
    exists i, m, r. split_and!; [cbn; set_solver|done|right|].
    + cbn. apply list_lookup_insert_eq. by eapply lookup_lt_Some.
    + exists s, c. split_and!; [split; [done|by apply rtc_once]|done|done].
Qed.

(** An exchange that was told [Ok] read a grant of every requested scope. *)
Lemma told_granted form client P Q vr :
  told form client P Q = Ok vr →
  ∃ g, grants P !! (tc_sub client, resource form) = Some g ∧ ∀ x, x ∈ form_scopes form → x ∈ grant_scopes g.
Proof.
  unfold told, outcome. cbn. set (R := read_policy two_reads P Q).
  pose proof (verify_answer_post False R (tc_sub client) (resource form) (form_scopes form)) as Hpost.
  destruct (verify_answer _ _) as [vr'|[]]; cbn; try done.
  destruct (verified vr') eqn:Ev; cbn; [|done]. intros [= <-]. cbn in Hpost. rewrite Ev in Hpost.
  destruct Hpost as (g & Hg & Hall & _). by exists g.
Qed.

(** The generator signed [token] for the client's request. *)
Definition signed_for form (client : TokenClaims) (token : str) : Prop :=
  ∃ claims x x', generate_token {| pc_id := jwtlet_participant_context service |} claims x = (Ok token, x') ∧
    tc_iss claims = issuer service ∧ tc_sub claims = resource form ∧
    tc_exp claims = i64_add (tc_iat claims) (token_ttl_secs service) ∧
    tc_custom claims !! "act"%s = Some (act_claim client) ∧
    ∀ k, k ∈ ["sub"; "iss"; "aud"; "exp"; "iat"; "nbf"]%s → tc_custom claims !! k = None.

Lemma finished_token_signed form client vr x code resp y :
  finish_exchange service form client vr x = (Ok (code, resp), y) →
  signed_for form client (access_token resp).
Proof.
  unfold finish_exchange. intros Hf. inv_eff. cbn. eexists _, _, _. split_and!; [done..| |]; cbn.
  - by rewrite custom_claims_lookup.
  - intros k Hk. rewrite custom_claims_lookup.
    rewrite !elem_of_cons, elem_of_nil in Hk. by destruct_or! Hk; subst.
Qed.

Lemma issued_token_granted w0 s form code resp :
  exchange_explained w0 s form (Ok (code, resp)) →
  ∃ client, granted_while w0 s form client ∧ signed_for form client (access_token resp).
Proof.
  intros [(? & _ & [=])|[(? & ? & _ & [=] & _)|(client & P & Q & Hread & [(_ & ? & [=])|Ht])]].
  exists client. destruct (told _ _ _ _) as [vr|e] eqn:E; [|done].
  destruct Ht as (s3 & x & _ & Hsigned%finished_token_signed).
  destruct (told_granted _ _ _ _ _ E) as (g & Hg & Hall).
  destruct Hread as (s1 & s2 & Hid & [? ?] & [? ?] & -> & _).
  split; [|done]. exists s1, g. split_and!; [split; [done|by etrans]|done..].
Qed.

(** Who stands behind an issued token: its client, and who created the grant. *)
Lemma issued_token_accountable w0 s i form code resp :
  store_inv (inner w0) → view (inner w0) = empty_policy →
  rtc conc_step (begins w0) s → jobs s !! i = Some (ExchangeDone form (Ok (code, resp))) →
  ∃ client, granted_while w0 s form client ∧ signed_for form client (access_token resp) ∧
    accountable w0 s (tc_sub client, resource form).
Proof.
  intros Hinv Hempty Hreach Hi.
  destruct (issued_token_granted _ _ _ _ _ (job_traced_reachable _ _ _ _ Hinv Hreach Hi))
    as (client & Hgranted & Hsigned). pose proof Hgranted as (s1 & g & [Hreach1 Hrest] & _ & Hg & _).
  exists client. split_and!; [done|done|]. eapply accountable_later; [done|].
  eapply grants_accountable; [done..|]. by rewrite Hg.
Qed.

(** C3 Accountability survives concurrency and failures.  From an empty store, whatever
    requests interleave, whichever clients disconnect and, over Postgres, whatever the
    database loses: a token is issued only for a client whose subject token was verified
    during the run and to whom then, at one moment of the run, the policy granted every
    requested scope; and the creation of that grant was carried out for a caller who was
    found to hold the mappings-write role.  That creation is in the audit log; or the
    handler that owes the line has its answer from the store and is about to write it; or
    the outcome of that caller's creation was lost, in a failure of the database or
    because its client had gone.  The last happens only with a store that may fail. *)
Theorem interleaved_token_is_accountable w0 s i form resp :
  store_inv (inner w0) → view (inner w0) = empty_policy →
  rtc conc_step (begins w0) s → jobs s !! i = Some (ExchangeDone form (Ok resp)) →
  ∃ client auth actor, granted_while w0 s form client ∧
    authorized_while w0 s ROLE_MAPPINGS_WRITE auth actor ∧
    let line := mapping_created actor (tc_sub client) (resource form) in
    (line ∈ audit (shared s) ∨
     (∃ n auth c actor resp evs, jobs s !! n = Some (CallHandled auth c actor resp evs) ∧ line ∈ evs) ∨
     lost_creation w0 s auth actor (tc_sub client, resource form)).
Proof.
  intros Hinv Hempty Hreach Hi. destruct resp as [code resp].
  destruct (issued_token_accountable _ _ _ _ _ _ Hinv Hempty Hreach Hi)
    as (client & ? & _ & auth & actor & ? & Hline).
  exists client, auth, actor. split_and!; [done|done|]. cbn.
  destruct Hline as [[?|?]|?]; [by left|right; by left|right; by right].
Qed.
End machine.

(** A state of the machine says whose it is. *)
Arguments Build_CState {W Sto Spl exchange_verifier management_verifier SVe SVm Gen HV} _ _ _.
Arguments shared {W Sto Spl exchange_verifier management_verifier SVe SVm Gen HV} _.
Arguments jobs {W Sto Spl exchange_verifier management_verifier SVe SVm Gen HV} _.
Arguments history {W Sto Spl exchange_verifier management_verifier SVe SVm Gen HV} _.
Arguments begins {W Sto Spl exchange_verifier management_verifier SVe SVm Gen HV} _.
