(* ===== verification/Fair.v ===== *)
(** * Fair: progress of fair runs

    A run of a labelled step relation is a sequence of states, each the same as the one
    before or one step further.  It is fair to a label if the label is not enabled
    forever without being taken.  [fair_progress] is the rule by which the server is
    shown to stop: every state on the way has a helpful label, that stays enabled until
    the rank decreases. *)

From S2P Require Import Prelude.

Section fair.
Context {S L : Type} (step : L → S → S → Prop).
Implicit Types (run : nat → S) (l : L).

Definition enabled l s : Prop := ∃ s', step l s s'.

Definition is_run run : Prop :=
  ∀ n, run (Datatypes.S n) = run n ∨ ∃ l, step l (run n) (run (Datatypes.S n)).

Definition fair_to l run : Prop :=
  ∀ n, ∃ m, (n ≤ m)%nat ∧
    (¬ enabled l (run m) ∨ step l (run m) (run (Datatypes.S m))).

Lemma run_invariant (P : S → Prop) run n m :
  is_run run → (∀ l s s', step l s s' → P s → P s') → P (run n) → (n ≤ m)%nat → P (run m).
Proof.
  intros Hrun Hstep Hn Hle. induction Hle as [|m _ IH]; [done|].
  destruct (Hrun m) as [-> | [l Hl]]; eauto.
Qed.

Lemma run_reachable run n :
  is_run run → rtc (λ s s', ∃ l, step l s s') (run 0%nat) (run n).
Proof.
  intros Hrun. induction n as [|n IH]; [done|].
  destruct (Hrun n) as [-> | Hl]; [done|]. by eapply rtc_r.
Qed.

Context (P Q : S → Prop) (rank : S → nat) (helpful : S → L).

(** On the way from [P] to [Q], a step arrives, or it descends, or it leaves rank and
    helpful label as they are; a step of the helpful label does one of the first two. *)
Definition descends : Prop := ∀ l s s', P s → step l s s' →
  Q s' ∨ (P s' ∧ (rank s' < rank s)%nat) ∨
  (P s' ∧ rank s' = rank s ∧ helpful s' = helpful s ∧ l ≠ helpful s).

(** Between two positions a run arrives, or descends, or keeps rank and label. *)
Lemma run_between run n m :
  is_run run → descends → P (run n) → (n ≤ m)%nat →
  (∃ k, Q (run k)) ∨ (∃ k, P (run k) ∧ (rank (run k) < rank (run n))%nat) ∨
  (P (run m) ∧ rank (run m) = rank (run n) ∧ helpful (run m) = helpful (run n)).
Proof.
  intros Hrun Hd Hn Hle. induction Hle as [|m Hle [IH|[IH|(Hm & Hr & Hh)]]]; [auto..|].
  destruct (Hrun m) as [Heq | [l Hl]]; [rewrite Heq; auto|].
  destruct (Hd _ _ _ Hm Hl) as [?|[[? ?]|(? & ? & ? & _)]]; [eauto| |].
  - right. left. exists (Datatypes.S m). split; [done|lia].
  - right. right. split_and!; [done|congruence..].
Qed.

Lemma fair_progress run n :
  is_run run → descends →
  (∀ s, P s → enabled (helpful s) s) →
  (∀ s, P s → fair_to (helpful s) run) →
  P (run n) → ∃ k, Q (run k).
Proof.
  intros Hrun Hd Hen Hfair. remember (rank (run n)) as r eqn:Hr. revert n Hr.
  induction r as [r IH] using lt_wf_ind. intros n -> Hn.
  destruct (Hfair _ Hn n) as (m & Hle & Hm).
  destruct (run_between run n m Hrun Hd Hn Hle) as [?|[(k & Hk & Hlt)|(Hpm & Hrm & Hhm)]]; [done| |].
  - by eapply (IH (rank (run k))).
  - rewrite <- Hhm in Hm. destruct Hm as [Hm|Hm]; [by destruct Hm; apply Hen|].
    destruct (Hd _ _ _ Hpm Hm) as [?|[[Hp Hlt]|(_ & _ & _ & Hne)]]; [eauto| |done].
    eapply (IH (rank (run (Datatypes.S m)))); [lia|done|done].
Qed.
End fair.
