(* ===== verification/Fresh.v ===== *)
(** * Fresh: a reported rotation reaches the cell

    The liveness of [Renewal], over the machine of all its steps: in a run that is fair to
    the renewal task, a rotation whose report is in the channel reaches the cell once the
    file rests, whatever watcher, verifiers and noise do in between. *)

From S2P Require Import Prelude Text Facet K8s Renewal Fair.

(** Who takes a step. *)
Inductive Mover : Set := ByTask | ByOthers.

Inductive renewal_step : Mover → RState → RState → Prop :=
  | task_moves s s' : task_step s s' → renewal_step ByTask s s'
  | verifier_moves s s' : verifier_step s s' → renewal_step ByOthers s s'
  | outside_moves s s' : outside_step s s' → renewal_step ByOthers s s'.

(** A report of a change that the task will come to before any error. *)
Definition pending (q : list Event) : Prop :=
  ∃ q1 k q2, q = q1 ++ Ok k :: q2 ∧ is_change k = true ∧ ∀ e, Err e ∉ q1.

(** How many events the task skips before one that makes it read the file. *)
Fixpoint until_change (q : list Event) : nat :=
  match q with
  | [] => 0
  | e :: q => match on_event e with None => S (until_change q) | Some _ => 0 end
  end.

Lemma pending_app q l : pending q → pending (q ++ l) ∧ until_change (q ++ l) = until_change q.
Proof.
  intros (q1 & k & q2 & -> & Hk & Herr). split.
  - exists q1, k, (q2 ++ l). by rewrite <- app_assoc.
  - clear Herr. induction q1 as [|e q1 IH]; cbn; [by rewrite Hk|].
    destruct (on_event e); [done|]. f_equal. exact IH.
Qed.

Lemma pending_cons e q : pending (e :: q) → on_event e = None → pending q.
Proof.
  intros ([|e' q1] & k & q2 & Heq & Hk & Herr) He; injection Heq as -> ->.
  - unfold on_event in He. by rewrite Hk in He.
  - exists q1, k, q2. split_and!; [done|done|]. intros e Hin. apply (Herr e). by right.
Qed.

Lemma pending_error e q err : pending (e :: q) → on_event e ≠ Some (Err err).
Proof.
  intros ([|e' q1] & k & q2 & Heq & Hk & Herr); injection Heq as -> ->; unfold on_event.
  - by rewrite Hk.
  - destruct e' as [k'|msg]; [by destruct (is_change k')|]. destruct (Herr msg). by left.
Qed.

Section resting.
Context (raw : str).

(** The file rests, and verifiers hold nothing older. *)
Definition at_rest (s : RState) : Prop :=
  file s = Ok raw ∧ shutdown s = false ∧ ∀ r, r ∈ refreshing s → r = raw.

(** The cell holds the credential of the file, and no older one is about to be written. *)
Definition caught_up (s : RState) : Prop :=
  token s = trim raw ∧ match phase s with Writing r => r = raw | _ => True end.

#[export] Instance caught_up_dec s : Decision (caught_up s).
Proof. unfold caught_up. destruct (phase s); apply _. Defined.

(** The task is going to read the file, or has read it. *)
Definition heading (s : RState) : Prop :=
  match phase s with
  | Stopped => False
  | Reading => True
  | Writing r => r = raw ∨ pending (queue s)
  | Waiting => pending (queue s)
  end.

Definition behind (s : RState) : Prop := at_rest s ∧ heading s ∧ ¬ caught_up s.

Definition distance (s : RState) : nat :=
  match phase s with
  | Stopped => 0
  | Writing r => if decide (r = raw) then 1 else until_change (queue s) + 4
  | Reading => 2
  | Waiting => until_change (queue s) + 3
  end.

(** The steps while the file rests and the handle is held. *)
Definition resting_step (l : Mover) (s s' : RState) : Prop :=
  renewal_step l s s' ∧ file s' = Ok raw ∧ shutdown s' = false.

Lemma at_rest_step l s s' : resting_step l s s' → at_rest s → at_rest s'.
Proof.
  intros (Hs & Hf & Hh) (Hf0 & _ & Hr). split_and!; [done|done|].
  destruct Hs as [s s' Hs|s s' Hs|s s' Hs]; [by destruct Hs| |by destruct Hs].
  destruct Hs as [s l1 r l2 Hf' Hl|s l1 r l2 Hl|s l1 r l2 Hl]; cbn in *; rewrite Hl in Hr;
    intros r' Hin; [|apply Hr; set_solver..].
  apply elem_of_app in Hin as [?|[->|?]%elem_of_cons]; [apply Hr; set_solver|congruence|apply Hr; set_solver].
Qed.

Lemma task_step_kept s s' : task_step s s' → file s' = file s ∧ shutdown s' = shutdown s.
Proof. by destruct 1. Qed.

(** A step of the task brings it nearer. *)
Lemma task_step_distance s s' :
  behind s → task_step s s' → ¬ caught_up s' → heading s' ∧ (distance s' < distance s)%nat.
Proof.
  intros ((Hf & Hh & _) & Hgo & Hn) Hs Hn'. unfold distance, heading in *.
  destruct Hs as [s e q Hp Hq He|s e q Hp Hq He|s e q err Hp Hq He|s Hp Hq Hc|s Hp Hc|s r Hp Hr|s e Hp Hr|s r Hp];
    cbn in *; rewrite ?Hp, ?Hq in *; cbn; try congruence.
  - rewrite He. split; [by eapply pending_cons|lia].
  - split; [done|lia].
  - by apply (pending_error _ _ err) in Hgo.
  - by destruct Hgo as ([] & ? & ? & [=] & _).
  - split; [left; congruence|]. rewrite decide_True by congruence. lia.
  - destruct Hgo as [->|Hgo]; [by destruct Hn'|]. split; [done|].
    case_decide as Hd; [|lia]. destruct Hn'. split; [by rewrite Hd|done].
Qed.

(** What the others do leaves it where it is, or does its work. *)
Lemma others_step_distance s s' :
  behind s → verifier_step s s' ∨ outside_step s s' → heading s' ∧ distance s' = distance s.
Proof.
  intros (_ & Hgo & _) Hs. unfold distance, heading in *.
  assert (phase s' = phase s ∧ ∃ l, queue s' = queue s ++ l) as (-> & l & ->).
  { destruct Hs as [[]|[s0 c|s0 e|s0|s0]]; cbn; (split; [done|]);
      try (exists []; by rewrite app_nil_r).
    destruct (try_send_cases e (queue s0)) as [-> | ->]; eauto. exists []. by rewrite app_nil_r. }
  destruct (phase s) as [| |r|]; try done.
  - by destruct (pending_app _ l Hgo) as [? ->].
  - case_decide as Hd; [by split; [left|]|]. destruct Hgo as [?|Hgo]; [done|].
    destruct (pending_app _ l Hgo) as [? ->]. by split; [right|].
Qed.

Lemma behind_descends : descends resting_step behind caught_up distance (λ _, ByTask).
Proof.
  intros l s s' Hb Hs. pose proof (at_rest_step _ _ _ Hs (proj1 Hb)) as Hrest.
  destruct (decide (caught_up s')) as [|Hn']; [by left|right].
  destruct Hs as [Hs _]; inversion Hs as [s0 s1 Ht|s0 s1 Ht|s0 s1 Ht]; subst.
  - left. destruct (task_step_distance s s' Hb Ht Hn'). by split_and!.
  - right. destruct (others_step_distance s s' Hb (or_introl Ht)). by split_and!.
  - right. destruct (others_step_distance s s' Hb (or_intror Ht)). by split_and!.
Qed.

Lemma behind_enabled s : behind s → enabled resting_step ByTask s.
Proof.
  intros ((Hf & Hh & _) & Hgo & _). destruct (task_step_progress s) as [Hp|[(Hp & Hq & _)|[s' Hs]]].
  - unfold heading in Hgo. by rewrite Hp in Hgo.
  - unfold heading in Hgo. rewrite Hp, Hq in Hgo. by destruct Hgo as ([] & ? & ? & [=] & _).
  - exists s'. destruct (task_step_kept _ _ Hs) as [Hf' Hh']. split_and!; [by constructor|congruence..].
Qed.

Lemma caught_up_stays l s s' :
  resting_step l s s' → at_rest s ∧ caught_up s → at_rest s' ∧ caught_up s'.
Proof.
  intros Hs [Hrest [Ht Hp]]. split; [by eapply at_rest_step|]. destruct Hrest as (Hf & _ & Hr).
  unfold caught_up. destruct Hs as [Hs _]. destruct Hs as [s s' Hs|s s' Hs|s s' Hs]; [| |by destruct Hs].
  - destruct Hs as [| | | | |s r Hph Hr'| |s r Hph]; cbn in *; try done.
    + split; [done|congruence].
    + rewrite Hph in Hp. by rewrite Hp.
  - destruct Hs as [|s l1 r l2 Hl|]; cbn; try done. split; [|done].
    rewrite (Hr r); [done|]. rewrite Hl. set_solver.
Qed.
End resting.

(** C22 A reported rotation reaches the cell.  Take any run of the renewal machine, with
    refreshing verifiers, noise, lost events, watcher errors and the death of the watcher
    at any moment, that does not forget the renewal task.  If at a moment the task has
    not stopped and the channel holds the report of a change with no watcher error before
    it, if from then on the file keeps its content and the handle is held, and if no
    verifier is still to write a content that it read before, then from some moment on the
    cached credential is the content of the file, trimmed.  Where one of the conditions
    on report and verifiers fails the cell may stay behind until the next refusal
    ([full_channel_is_deaf] in [Renewal], [refresh_can_undo_renewal] in [Credentials]). *)
Theorem rotations_reach_the_cell run raw n q1 k q2 :
  is_run renewal_step run → fair_to renewal_step ByTask run →
  (∀ m, (n ≤ m)%nat → file (run m) = Ok raw ∧ shutdown (run m) = false) →
  phase (run n) ≠ Stopped →
  queue (run n) = q1 ++ Ok k :: q2 → is_change k = true → (∀ e, Err e ∉ q1) →
  (∀ r, r ∈ refreshing (run n) → r = raw) →
  ∃ m, ∀ i, (m ≤ i)%nat → token (run i) = trim raw.
Proof.
  intros Hrun Hfair Hrest Hgo Hq Hk Herr Hr.
  set (tail m := run (n + m)%nat).
  assert (∀ m, file (tail m) = Ok raw ∧ shutdown (tail m) = false) as Htail by (intros m; apply Hrest; lia).
  assert (is_run (resting_step raw) tail) as Hrun'.
  { intros m. unfold tail. rewrite Nat.add_succ_r. destruct (Hrun (n + m)%nat) as [?|[l Hl]]; [by left|].
    right. exists l. split; [done|]. rewrite <- Nat.add_succ_r. apply Htail. }
  assert (fair_to (resting_step raw) ByTask tail) as Hfair'.
  { intros m. destruct (Hfair (n + m)%nat) as (m' & Hle & Hm). exists (m' - n)%nat. split; [lia|].
    unfold tail. rewrite Nat.add_succ_r. replace (n + (m' - n))%nat with m' by lia.
    destruct Hm as [Hm|Hm]; [left|right].
    - intros [s' [Hs _]]. apply Hm. by exists s'.
    - split; [done|]. apply Hrest. lia. }
  assert (at_rest raw (tail 0%nat)) as H0.
  { unfold tail. rewrite Nat.add_0_r. destruct (Hrest n) as [? ?]; [lia|]. by split_and!. }
  assert (∀ m, at_rest raw (tail m)) as Hat.
  { intros m. eapply (run_invariant (resting_step raw) (at_rest raw) tail 0);
      [done|apply at_rest_step|done|lia]. }
  assert (heading raw (tail 0%nat)) as Hhead.
  { assert (pending (queue (tail 0%nat))) as Hpend
      by (unfold tail; rewrite Nat.add_0_r, Hq; by exists q1, k, q2).
    unfold heading. unfold tail in *. rewrite Nat.add_0_r in *. destruct (phase (run n)); auto. }
  assert (∃ m, caught_up raw (tail m)) as [m Hm].
  { destruct (decide (caught_up raw (tail 0%nat))) as [?|Hn]; [by exists 0%nat|].
    eapply (fair_progress (resting_step raw) (behind raw) (caught_up raw) (distance raw) (λ _, ByTask) tail 0);
      [done|apply behind_descends|apply behind_enabled|done|by split_and!]. }
  exists (n + m)%nat. intros i Hi. replace i with (n + (i - n))%nat by lia.
  assert (at_rest raw (tail (i - n)%nat) ∧ caught_up raw (tail (i - n)%nat)) as [_ [Ht _]]; [|exact Ht].
  eapply (run_invariant (resting_step raw) (λ s, at_rest raw s ∧ caught_up raw s) tail m);
    [done|apply caught_up_stays|done|lia].
Qed.
