(* ===== verification/Progress.v ===== *)
(** * Progress: every request is answered

    The machine of [Concurrent] again, with its steps labelled by the request that takes
    them.  A request is never stuck, it takes boundedly many steps of its own, and in
    every run that is fair to it it is answered, or its client goes away. *)

From S2P Require Import Prelude Text Json Facet Resource Policy Service SAccount Token.
From S2P Require Import TokenProps Reads Exchange Management ManagementProps Phases Steps Concurrent Fair.

(** Its client has an answer, or has gone. *)
Definition finished {HV G F VS VC : Type} (j : Job HV G F VS VC) : bool :=
  match j with ExchangeDone _ _ | CallDone _ _ _ | Dropped => true | _ => false end.

(** What a request is about; a dropped handler is about nothing any more. *)
Definition about {HV G F VS VC : Type} (j : Job HV G F VS VC) : option (TokenExchangeForm + option HV * Call) :=
  match j with
  | ExchangeArrived form | VerifyingSubject form _ | SubjectVerified form _ | GrantFound form _ _
  | PolicyChecked form _ _ | ExchangeDone form _ => Some (inl form)
  | CallArrived auth c | VerifyingCaller auth c _ | CallerVerified auth c _ | RoleChecked auth c _
  | CallHandled auth c _ _ _ | CallDone auth c _ => Some (inr (auth, c))
  | Dropped => None
  end.

Section progress.
Context {W : Type} {Sto : ResourceStore W} {Con : @StoreContract W Sto} `{HashOrder}.
Context {Spl : SplitStore W} {Rea : SplitContract W}.
Context (exchange_verifier management_verifier : JwtVerifier W).
Context {SVe : SteppedVerifier W (H := exchange_verifier)} {SVm : SteppedVerifier W (H := management_verifier)}.
Context `{ServiceAccountAuthorizer W} {Gen : JwtGenerator W} {Amb : Ambient W}.
Context {HV : Type} (to_str : HV → option str) (management_audience : str).
Context (service : TokenExchangeService).

Abbreviation State := (CState exchange_verifier management_verifier (SVe := SVe) (SVm := SVm) (HV := HV)).
Abbreviation Request :=
  (Job HV JwtGenerationError Found (Verification (SteppedVerifier := SVe)) (Verification (SteppedVerifier := SVm))).
Abbreviation step_of_job :=
  (job_step exchange_verifier management_verifier to_str management_audience service).
Abbreviation machine_step :=
  (conc_step exchange_verifier management_verifier to_str management_audience service).
Implicit Types (s : State) (j : Request).

(** A step of request [i], or any step at all. *)
Inductive labelled_step : option nat → State → State → Prop :=
  | step_of_request s i j j' w' h :
      jobs s !! i = Some j → step_of_job j (shared s) = Some (j', w', h) →
      labelled_step (Some i) s
        {| shared := w'; jobs := <[i := j']> (jobs s); history := history s ++ entry i h |}
  | some_step s s' : machine_step s s' → labelled_step None s s'.

(** How many steps of its own a request has before it at most. *)
Definition job_work j : nat :=
  match j with
  | ExchangeArrived form =>
      5 + v_work (v_begin (SteppedVerifier := SVe) (client_audience service) (subject_token form))
  | VerifyingSubject _ a => 4 + v_work a
  | SubjectVerified _ _ => 3
  | GrantFound _ _ _ => 2
  | PolicyChecked _ _ _ => 1
  | CallArrived auth _ =>
      match extract_bearer_token to_str auth with
      | Some tok => 5 + v_work (v_begin (SteppedVerifier := SVm) management_audience tok)
      | None => 1
      end
  | VerifyingCaller _ _ a => 4 + v_work a
  | CallerVerified _ _ _ => 3
  | RoleChecked _ _ _ => 2
  | CallHandled _ _ _ _ _ => 1
  | ExchangeDone _ _ | CallDone _ _ _ | Dropped => 0
  end.

(** No request is ever stuck, whatever the others have done to the world. *)
Lemma job_step_total j w : finished j = false → is_Some (step_of_job j w).
Proof. destruct j; cbn; try done; intros _; repeat case_match; eauto. Qed.

Lemma job_step_work j w j' w' h :
  step_of_job j w = Some (j', w', h) → (job_work j' < job_work j)%nat ∧ about j' = about j.
Proof.
  destruct j; cbn; try done.
  2, 7: destruct (v_step _ _) as [[a'|r] x] eqn:E; [apply v_step_work in E|].
  all: repeat case_match; intros; simplify_eq/=; (split; [lia|done]).
Qed.

(** A step of the machine moves a request on, drops it, or leaves it alone. *)
Lemma machine_step_job s s' i j :
  machine_step s s' → jobs s !! i = Some j →
  jobs s' !! i = Some j ∨ jobs s' !! i = Some Dropped ∨
  ∃ j', jobs s' !! i = Some j' ∧ (job_work j' < job_work j)%nat ∧ about j' = about j.
Proof.
  intros Hstep Hi. pose proof (lookup_lt_Some _ _ _ Hi) as Hlt.
  destruct Hstep as [s j0 Ha|s k j0 j' w' h Hk Hjs|s k j0 Hk Hd|s k auth c actor op r x Hf Hk Hop Hrun|s x Hx Hv];
    cbn; [left; by apply lookup_app_l_Some| | | |by left];
    (destruct (decide (k = i)) as [->|Hne]; [|left; by rewrite list_lookup_insert_ne]);
    rewrite list_lookup_insert_eq by done; right; [right|by left..].
  rewrite Hi in Hk. injection Hk as <-. exists j'. split; [done|]. by eapply job_step_work.
Qed.

(** On the way: the request is in the machine, about [q], and not finished. *)
Definition pending (i : nat) (q : TokenExchangeForm + option HV * Call) s : Prop :=
  ∃ j, jobs s !! i = Some j ∧ finished j = false ∧ about j = Some q.

Definition settled (i : nat) (q : TokenExchangeForm + option HV * Call) s : Prop :=
  ∃ j, jobs s !! i = Some j ∧ finished j = true ∧ (j = Dropped ∨ about j = Some q).

Definition work_left (i : nat) s : nat := from_option job_work 0%nat (jobs s !! i).

Lemma pending_descends i q :
  descends labelled_step (pending i q) (settled i q) (work_left i) (λ _, Some i).
Proof.
  assert (∀ j s, jobs s !! i = Some j → about j = Some q → settled i q s ∨ pending i q s) as Hcase.
  { intros j s Hi Hq. destruct (finished j) eqn:Hf; [left|right]; exists j; auto. }
  intros l s s' (j & Hi & Hf & Hq) Hstep. unfold work_left. rewrite Hi. cbn.
  destruct Hstep as [s k j0 j' w' h Hk Hjs|s s' Hstep].
  - destruct (job_step_work _ _ _ _ _ Hjs) as [Hlt Hab]. cbn.
    destruct (decide (k = i)) as [->|Hne].
    + rewrite Hi in Hk. injection Hk as <-. rewrite Hq in Hab.
      set (s1 := {| shared := w'; jobs := _; history := _ |}).
      assert (jobs s1 !! i = Some j') as Hi'
        by (apply list_lookup_insert_eq; by eapply lookup_lt_Some).
      destruct (Hcase _ s1 Hi' Hab) as [?|?]; [by left|right; left].
      split; [done|]. change (from_option job_work 0%nat (jobs s1 !! i) < job_work j)%nat. by rewrite Hi'.
    + right. right. rewrite list_lookup_insert_ne, Hi by done. split_and!; [|done|done|congruence].
      exists j. cbn. by rewrite list_lookup_insert_ne.
  - destruct (machine_step_job _ _ _ _ Hstep Hi) as [Hi'|[Hi'|(j' & Hi' & Hlt & Hab)]]; rewrite Hi'.
    + right. right. split_and!; [by exists j|done|done|done].
    + left. exists Dropped. auto.
    + rewrite Hq in Hab. destruct (Hcase _ _ Hi' Hab) as [?|?]; [by left|right; left]. by split.
Qed.

(** A schedule that can be executed is a run, that rests when it is through; *)
Definition scheduled (l : list nat) s (n : nat) : State :=
  default s (run_schedule exchange_verifier management_verifier to_str management_audience service (take n l) s).

Lemma run_schedule_app l1 l2 s :
  run_schedule exchange_verifier management_verifier to_str management_audience service (l1 ++ l2) s =
  run_schedule exchange_verifier management_verifier to_str management_audience service l1 s
    ≫= run_schedule exchange_verifier management_verifier to_str management_audience service l2.
Proof.
  revert s. induction l1 as [|i l1 IH]; intros s; cbn; [done|].
  destruct (proceed _ _ _ _ _ s i) as [s1|]; cbn; [apply IH|done].
Qed.

Lemma proceed_labelled s i s' :
  proceed exchange_verifier management_verifier to_str management_audience service s i = Some s' →
  labelled_step (Some i) s s'.
Proof.
  unfold proceed. destruct (jobs s !! i) as [j|] eqn:Hi; cbn; [|done].
  destruct (step_of_job j (shared s)) as [[[j' w'] h]|] eqn:Hj; cbn; [|done].
  intros [= <-]. by eapply step_of_request.
Qed.

Lemma scheduled_is_run l s s' :
  run_schedule exchange_verifier management_verifier to_str management_audience service l s = Some s' →
  is_run labelled_step (scheduled l s).
Proof.
  intros Hl n. unfold scheduled. destruct (decide (n < length l)%nat) as [Hn|Hn].
  2: { left. by rewrite !take_ge by lia. }
  right. destruct (lookup_lt_is_Some_2 l n Hn) as [i Hi]. exists (Some i). apply proceed_labelled.
  rewrite <- (take_drop (Datatypes.S n) l), (take_S_r l n i Hi), run_schedule_app in Hl.
  rewrite (take_S_r l n i Hi), run_schedule_app. rewrite run_schedule_app in Hl.
  destruct (run_schedule _ _ _ _ _ (take n l) s) as [s1|]; cbn in *; [|done].
  by destruct (proceed _ _ _ _ _ s1 i).
Qed.

(** it is fair to a request that it answers. *)
Lemma scheduled_is_fair l s s' i :
  run_schedule exchange_verifier management_verifier to_str management_audience service l s = Some s' →
  (∀ j, jobs s' !! i = Some j → finished j = true) →
  fair_to labelled_step (Some i) (scheduled l s).
Proof.
  intros Hl Hf n. exists (n + length l)%nat. split; [lia|left].
  unfold scheduled. rewrite take_ge, Hl by lia. cbn. intros [s1 Hs].
  inversion Hs as [s0 k j j' w' h Hi Hj|]; subst. apply Hf in Hi. by destruct j.
Qed.

(** C2 Every request is answered.  In a run that does not forget a request that could go
    on, whatever the other requests do, however the store fails and the credentials
    change, an exchange ends with an answer to its form and a management call with a
    response to its call, unless the client disconnects first.  Until then it is never
    stuck, and each step of its own, the steps of the verification among them, leaves it
    fewer of them to take ([job_work]). *)
Theorem requests_are_answered run i n q :
  is_run labelled_step run → fair_to labelled_step (Some i) run → pending i q (run n) →
  (∀ k, pending i q (run k) → enabled labelled_step (Some i) (run k)) ∧
  (∀ k s', labelled_step (Some i) (run k) s' → (work_left i s' < work_left i (run k))%nat) ∧
  ∃ k, jobs (run k) !! i = Some Dropped ∨
    match q with
    | inl form => ∃ r, jobs (run k) !! i = Some (ExchangeDone form r)
    | inr (auth, c) => ∃ resp, jobs (run k) !! i = Some (CallDone auth c resp)
    end.
Proof.
  intros Hrun Hfair Hn.
  assert (∀ s, pending i q s → enabled labelled_step (Some i) s) as Hen.
  { intros s (j & Hi & Hf & _). destruct (job_step_total j (shared s) Hf) as [[[j' w'] h] Hjs].
    eexists. by eapply step_of_request. }
  split_and!; [by intros k; apply Hen| |].
  - intros k s' Hstep. inversion Hstep as [s i' j j' w' h Hi Hjs|]; subst. unfold work_left. cbn.
    rewrite list_lookup_insert_eq by (by eapply lookup_lt_Some). rewrite Hi. cbn.
    by eapply job_step_work.
  - destruct (fair_progress labelled_step (pending i q) (settled i q) (work_left i) (λ _, Some i) run n)
      as [k (j & Hi & Hf & Hq)]; [done|apply pending_descends|done|done|done|].
    exists k. destruct j; try done; [..|by left]; (destruct Hq as [?|Hq]; [done|]);
      injection Hq as <-; right; by eexists.
Qed.
End progress.

Arguments pending {W Sto Spl exchange_verifier management_verifier SVe SVm Gen HV} _ _ _.
Arguments settled {W Sto Spl exchange_verifier management_verifier SVe SVm Gen HV} _ _ _.
