(* ===== verification/Config.v ===== *)
(** * Config: the server configuration and its validation

    Models [crates/jwtlet-server/src/config/mod.rs]: the configuration types with
    their defaults, [validate] with every message it can produce, and
    [ValidationError].  URL parsing and the existence of a path are the parameters of
    [ConfigEnv]; reading files and environment variables into a value is done by the
    [config] and [serde] crates and is not modelled beyond the choice of the file. *)

From S2P Require Import Prelude Text Token.

(** [url.parse::<reqwest::Url>()], of which the program looks at the scheme, and
    [Path::exists]. *)
Class ConfigEnv : Type := {
  url_scheme : str → option str;
  path_exists : str → bool;
}.

(** ** Constants *)

Definition DEFAULT_TOKEN_EXCHANGE_PORT : N := 8080.
Definition DEFAULT_MANAGEMENT_PORT : N := 8081.
Definition DEFAULT_BIND_ADDRESS : str := "0.0.0.0"%s.
Definition DEFAULT_SA_TOKEN_FILE : str := "/var/run/secrets/kubernetes.io/serviceaccount/token"%s.
Definition DEFAULT_PARTICIPANT_CONTEXT_CLAIM : str := "jwtlet_pc"%s.
Definition DEFAULT_TOKEN_TTL_SECS : Z := 3600.
Definition VALID_SSL_MODES : list str :=
  ["disable"; "prefer"; "require"; "verify-ca"; "verify-full"]%s.

(** ** Types *)

(** A [Duration], in nanoseconds. *)
Record PostgresPoolConfig : Set := {
  max_connections : option N;
  min_connections : option N;
  acquire_timeout : option N;
  idle_timeout : option N;
  max_lifetime : option N;
  test_before_acquire : option bool;
  application_name : option str;
  statement_cache_capacity : option N;
  sslmode : option str;
  ssl_root_cert : option str;
  run_migrations_on_startup : option bool;
}.

Inductive StorageBackend : Set :=
  | Memory
  | Postgres (url : str) (pool : PostgresPoolConfig).

Record VaultConfig : Set := {
  vault_url : option str;
  vault_token : option str;
  vault_token_file : option str;
}.

Record K8sConfig : Set := {
  k8s_api_server_url : option str;
  k8s_cluster_issuer : option str;
  k8s_token_file : str;
}.

Record ManagementConfig : Set := { mgmt_client_audience : option str }.

Record TokenConfig : Set := {
  cfg_client_audience : option str;
  cfg_audience : option str;
  participant_context_claim : str;
  cfg_token_ttl_secs : Z;
}.

Record JwtletConfig : Set := {
  token_exchange_port : N;
  management_port : N;
  bind : str;
  cfg_issuer : option str;
  storage_backend : StorageBackend;
  k8s : K8sConfig;
  token : TokenConfig;
  vault : VaultConfig;
  service_accounts : gmap str (list str);
  management : ManagementConfig;
}.

(** ** Defaults *)

Definition default_pool : PostgresPoolConfig :=
  {| max_connections := None; min_connections := None; acquire_timeout := None;
     idle_timeout := None; max_lifetime := None; test_before_acquire := None;
     application_name := None; statement_cache_capacity := None; sslmode := None;
     ssl_root_cert := None; run_migrations_on_startup := None |}.
Definition default_vault : VaultConfig :=
  {| vault_url := None; vault_token := None; vault_token_file := None |}.
Definition default_k8s : K8sConfig :=
  {| k8s_api_server_url := None; k8s_cluster_issuer := None; k8s_token_file := DEFAULT_SA_TOKEN_FILE |}.
Definition default_management : ManagementConfig := {| mgmt_client_audience := None |}.
Definition default_token : TokenConfig :=
  {| cfg_client_audience := None; cfg_audience := None;
     participant_context_claim := DEFAULT_PARTICIPANT_CONTEXT_CLAIM;
     cfg_token_ttl_secs := DEFAULT_TOKEN_TTL_SECS |}.
Definition default_config : JwtletConfig :=
  {| token_exchange_port := DEFAULT_TOKEN_EXCHANGE_PORT;
     management_port := DEFAULT_MANAGEMENT_PORT; bind := DEFAULT_BIND_ADDRESS;
     cfg_issuer := None; storage_backend := Memory; k8s := default_k8s; token := default_token;
     vault := default_vault; service_accounts := ∅; management := default_management |}.

(** The functions that fill in a field that a configuration file leaves out. *)
Definition default_token_exchange_port : N := DEFAULT_TOKEN_EXCHANGE_PORT.
Definition default_management_port : N := DEFAULT_MANAGEMENT_PORT.
Definition default_bind : str := DEFAULT_BIND_ADDRESS.
Definition default_sa_token_file : str := DEFAULT_SA_TOKEN_FILE.
Definition default_participant_context_claim : str := DEFAULT_PARTICIPANT_CONTEXT_CLAIM.
Definition default_token_ttl_secs : Z := DEFAULT_TOKEN_TTL_SECS.

(** The file [load_config] reads, from the value of [JWTLET_CONFIG_FILE] and the
    command line. *)
Definition config_file (env_config_file : option str) (args : list str) : option str :=
  match env_config_file with
  | Some path => Some path
  | None => args !! 1%nat
  end.

(** ** Validation errors *)

Inductive ValidationError : Set :=
  | Single (msg : str)
  | Multiple (errors : list str).

Definition single (msg : str) : ValidationError := Single msg.

Definition error_count (e : ValidationError) : nat :=
  match e with Single _ => 1 | Multiple errors => length errors end.

Definition messages (e : ValidationError) : list str :=
  match e with Single msg => [msg] | Multiple errors => errors end.

(** The numbered lines of [Display], from number [i] on. *)
Fixpoint numbered (i : Z) (errors : list str) : str :=
  match errors with
  | [] => ""%s
  | e :: errors => ("  " +:+ show_Z i +:+ ". " +:+ e +:+ newline +:+ numbered (i + 1) errors)%s
  end.

Definition display (e : ValidationError) : str :=
  match e with
  | Single msg => ("Configuration validation failed: " +:+ msg)%s
  | Multiple errors =>
      ("Configuration validation failed with " +:+ show_Z (Z.of_nat (length errors)) +:+ " error(s):" +:+ newline
         +:+ numbered 1 errors)%s
  end.

(** ** Validation *)

(** [if condition { errors.push(message) }]. *)
Definition push_if (condition : bool) (message : str) : list str :=
  if condition then [message] else [].

(** [Debug] of a slice of strings without special characters. *)
Definition debug_strs (l : list str) : str :=
  ("[" +:+ join ", " ((λ s, dquote +:+ s +:+ dquote) <$> l) +:+ "]")%s.

Section validate.
Context `{ConfigEnv}.

Definition required_url (setting : str) (value : option str) : list str :=
  match value with
  | None => [setting +:+ " is required"]%s
  | Some url => push_if (bool_decide (url_scheme url = None))
                  (setting +:+ " is not a valid URL: '" +:+ url +:+ "'")%s
  end.

Definition validate_api_server_url (value : option str) : list str :=
  match value with
  | None => ["k8s.api_server_url is required"]%s
  | Some url =>
      match url_scheme url with
      | None => ["k8s.api_server_url is not a valid URL: '" +:+ url +:+ "'"]%s
      | Some scheme => push_if (negb (bool_decide (scheme = "https"%s)))
                         ("k8s.api_server_url must use https: '" +:+ url +:+ "'")%s
      end
  end.

Definition validate_ttl (ttl : Z) : list str :=
  if (ttl <=? 0)%Z then ["token.token_ttl_secs must be positive, got " +:+ show_Z ttl]%s
  else if (ttl >? MAX_TOKEN_TTL_SECS)%Z then
    ["token.token_ttl_secs must not exceed " +:+ show_Z MAX_TOKEN_TTL_SECS +:+ ", got " +:+ show_Z ttl]%s
  else [].

Definition validate_pool (pool : PostgresPoolConfig) : list str :=
  push_if (bool_decide (max_connections pool = Some 0%N))
    "storage_backend.pool.max_connections must be > 0"%s ++
  (match min_connections pool, max_connections pool with
   | Some min, Some max => push_if (N.ltb max min)
       ("storage_backend.pool.min_connections (" +:+ show_Z (Z.of_N min) +:+
        ") cannot exceed max_connections (" +:+ show_Z (Z.of_N max) +:+ ")")%s
   | _, _ => []
   end) ++
  push_if (bool_decide (acquire_timeout pool = Some 0%N))
    "storage_backend.pool.acquire_timeout must be > 0"%s ++
  (match sslmode pool with
   | Some mode => push_if (negb (bool_decide (mode ∈ VALID_SSL_MODES)))
       ("storage_backend.pool.sslmode '" +:+ mode +:+ "' is invalid; expected one of " +:+
        debug_strs VALID_SSL_MODES)%s
   | None => []
   end) ++
  (match ssl_root_cert pool with
   | Some path => push_if (negb (path_exists path))
       ("storage_backend.pool.ssl_root_cert path does not exist: " +:+ path)%s
   | None => []
   end).

Definition validate_storage (backend : StorageBackend) : list str :=
  match backend with
  | Memory => []
  | Postgres url pool =>
      push_if (is_empty url) "storage_backend.url is required for Postgres backend"%s ++
      validate_pool pool
  end.

Definition is_none {A : Type} (o : option A) : bool :=
  match o with None => true | Some _ => false end.

Definition validation_errors (c : JwtletConfig) : list str :=
  required_url "issuer"%s (cfg_issuer c) ++
  required_url "vault.url"%s (vault_url (vault c)) ++
  push_if (is_none (vault_token (vault c)) && is_none (vault_token_file (vault c)))
    "Either vault.token or vault.token_file is required"%s ++
  validate_api_server_url (k8s_api_server_url (k8s c)) ++
  push_if (is_none (k8s_cluster_issuer (k8s c))) "k8s.cluster_issuer is required"%s ++
  push_if (is_empty (k8s_token_file (k8s c))) "k8s.token_file cannot be empty"%s ++
  push_if (is_none (cfg_client_audience (token c))) "token.client_audience is required"%s ++
  push_if (is_none (cfg_audience (token c))) "token.audience is required"%s ++
  push_if (is_empty (participant_context_claim (token c)))
    "token.participant_context_claim cannot be empty"%s ++
  validate_ttl (cfg_token_ttl_secs (token c)) ++
  validate_storage (storage_backend c) ++
  push_if (N.eqb (token_exchange_port c) 0) "token_exchange_port cannot be 0"%s ++
  push_if (N.eqb (management_port c) 0) "management_port cannot be 0"%s ++
  push_if (N.eqb (token_exchange_port c) (management_port c))
    ("token_exchange_port and management_port cannot be the same (both are " +:+
     show_Z (Z.of_N (token_exchange_port c)) +:+ ")")%s.

Definition validate (c : JwtletConfig) : result ValidationError unit :=
  match validation_errors c with
  | [] => Ok tt
  | errors => Err (Multiple errors)
  end.
End validate.

(** ** What validation promises *)

Section validation.
Context `{ConfigEnv}.

Definition valid_url (o : option str) : Prop := ∃ url, o = Some url ∧ is_Some (url_scheme url).

Record pool_ok (p : PostgresPoolConfig) : Prop := {
  pool_max_ok : max_connections p ≠ Some 0%N;
  pool_min_ok min max : min_connections p = Some min → max_connections p = Some max → (min ≤ max)%N;
  pool_acquire_ok : acquire_timeout p ≠ Some 0%N;
  pool_sslmode_ok mode : sslmode p = Some mode → mode ∈ VALID_SSL_MODES;
  pool_root_cert_ok path : ssl_root_cert p = Some path → path_exists path = true;
}.

Record config_ok (c : JwtletConfig) : Prop := {
  ok_issuer : valid_url (cfg_issuer c);
  ok_vault_url : valid_url (vault_url (vault c));
  ok_vault_token : is_Some (vault_token (vault c)) ∨ is_Some (vault_token_file (vault c));
  ok_api_server : ∃ url, k8s_api_server_url (k8s c) = Some url ∧ url_scheme url = Some "https"%s;
  ok_cluster_issuer : is_Some (k8s_cluster_issuer (k8s c));
  ok_token_file : k8s_token_file (k8s c) ≠ ""%s;
  ok_client_audience : is_Some (cfg_client_audience (token c));
  ok_audience : is_Some (cfg_audience (token c));
  ok_claim : participant_context_claim (token c) ≠ ""%s;
  ok_ttl : (0 < cfg_token_ttl_secs (token c) ≤ MAX_TOKEN_TTL_SECS)%Z;
  ok_storage url pool : storage_backend c = Postgres url pool → url ≠ ""%s ∧ pool_ok pool;
  ok_exchange_port : token_exchange_port c ≠ 0%N;
  ok_management_port : management_port c ≠ 0%N;
  ok_ports : token_exchange_port c ≠ management_port c;
}.

Lemma push_if_nil b m : push_if b m = [] ↔ b = false.
Proof. by destruct b. Qed.

Lemma is_none_false {A : Type} (o : option A) : is_none o = false ↔ is_Some o.
Proof. destruct o; cbn; split; try done; by intros [? ?]. Qed.

Lemma is_empty_false s : is_empty s = false ↔ s ≠ ""%s.
Proof. destruct s as [[|? ?]]; cbn; by split. Qed.

Lemma required_url_nil setting o : required_url setting o = [] ↔ valid_url o.
Proof.
  unfold valid_url. destruct o as [url|]; cbn; [|naive_solver].
  rewrite push_if_nil, bool_decide_eq_false, not_eq_None_Some. naive_solver.
Qed.

Lemma validate_api_server_nil o :
  validate_api_server_url o = [] ↔ ∃ url, o = Some url ∧ url_scheme url = Some "https"%s.
Proof.
  destruct o as [url|]; cbn; [|naive_solver]. destruct (url_scheme url) as [s|] eqn:E; [|naive_solver].
  rewrite push_if_nil, negb_false_iff, bool_decide_eq_true. naive_solver.
Qed.

Lemma validate_ttl_nil ttl : validate_ttl ttl = [] ↔ (0 < ttl ≤ MAX_TOKEN_TTL_SECS)%Z.
Proof.
  unfold validate_ttl. destruct (Z.leb_spec ttl 0); [split; [done|lia]|].
  rewrite Z.gtb_ltb. destruct (Z.ltb_spec MAX_TOKEN_TTL_SECS ttl); split; done || lia.
Qed.

Lemma validate_pool_nil p : validate_pool p = [] ↔ pool_ok p.
Proof.
  unfold validate_pool. rewrite !app_nil, !push_if_nil, !bool_decide_eq_false. split.
  - intros (H1 & H2 & H3 & H4 & H5). split; [done| |done|..].
    + intros min max Hmin Hmax. rewrite Hmin, Hmax, push_if_nil, N.ltb_ge in H2. done.
    + intros mode Hm. by rewrite Hm, push_if_nil, negb_false_iff, bool_decide_eq_true in H4.
    + intros path Hp. by rewrite Hp, push_if_nil, negb_false_iff in H5.
  - intros [H1 H2 H3 H4 H5]. split_and!; try done.
    + destruct (min_connections p), (max_connections p); try done.
      rewrite push_if_nil, N.ltb_ge. eauto.
    + destruct (sslmode p); [|done]. rewrite push_if_nil, negb_false_iff, bool_decide_eq_true. eauto.
    + destruct (ssl_root_cert p); [|done]. rewrite push_if_nil, negb_false_iff. eauto.
Qed.

Lemma validate_storage_nil b :
  validate_storage b = [] ↔ ∀ url pool, b = Postgres url pool → url ≠ ""%s ∧ pool_ok pool.
Proof.
  destruct b as [|url pool]; cbn; [naive_solver|].
  rewrite app_nil, push_if_nil, is_empty_false, validate_pool_nil.
  split; [by intros ? ? ? [= <- <-]|intros Hp; by apply Hp].
Qed.

Lemma validation_errors_nil c : validation_errors c = [] ↔ config_ok c.
Proof.
  unfold validation_errors.
  rewrite !app_nil, !required_url_nil, !push_if_nil, validate_api_server_nil, validate_ttl_nil,
    validate_storage_nil, andb_false_iff, !is_none_false, !is_empty_false, !N.eqb_neq.
  split; [intros (? & ? & ? & ? & ? & ? & ? & ? & ? & ? & ? & ? & ? & ?); by split|by intros []].
Qed.

Lemma validate_Ok c : validate c = Ok tt ↔ config_ok c.
Proof. rewrite <- validation_errors_nil. unfold validate. by destruct (validation_errors c). Qed.

Inductive pool_violates (p : PostgresPoolConfig) : str → Prop :=
  | no_connections : max_connections p = Some 0%N →
      pool_violates p "storage_backend.pool.max_connections must be > 0"%s
  | min_above_max min max : min_connections p = Some min → max_connections p = Some max →
      (max < min)%N →
      pool_violates p ("storage_backend.pool.min_connections (" +:+ show_Z (Z.of_N min) +:+
        ") cannot exceed max_connections (" +:+ show_Z (Z.of_N max) +:+ ")")%s
  | no_acquire_timeout : acquire_timeout p = Some 0%N →
      pool_violates p "storage_backend.pool.acquire_timeout must be > 0"%s
  | bad_sslmode mode : sslmode p = Some mode → mode ∉ VALID_SSL_MODES →
      pool_violates p ("storage_backend.pool.sslmode '" +:+ mode +:+
        "' is invalid; expected one of " +:+ debug_strs VALID_SSL_MODES)%s
  | no_root_cert path : ssl_root_cert p = Some path → path_exists path = false →
      pool_violates p ("storage_backend.pool.ssl_root_cert path does not exist: " +:+ path)%s.

(** The rules, each with the message that reports its violation. *)
Inductive violates (c : JwtletConfig) : str → Prop :=
  | no_issuer : cfg_issuer c = None → violates c "issuer is required"%s
  | bad_issuer url : cfg_issuer c = Some url → url_scheme url = None →
      violates c ("issuer is not a valid URL: '" +:+ url +:+ "'")%s
  | no_vault_url : vault_url (vault c) = None → violates c "vault.url is required"%s
  | bad_vault_url url : vault_url (vault c) = Some url → url_scheme url = None →
      violates c ("vault.url is not a valid URL: '" +:+ url +:+ "'")%s
  | no_vault_token : vault_token (vault c) = None → vault_token_file (vault c) = None →
      violates c "Either vault.token or vault.token_file is required"%s
  | no_api_server : k8s_api_server_url (k8s c) = None → violates c "k8s.api_server_url is required"%s
  | bad_api_server url : k8s_api_server_url (k8s c) = Some url → url_scheme url = None →
      violates c ("k8s.api_server_url is not a valid URL: '" +:+ url +:+ "'")%s
  | insecure_api_server url scheme : k8s_api_server_url (k8s c) = Some url →
      url_scheme url = Some scheme → scheme ≠ "https"%s →
      violates c ("k8s.api_server_url must use https: '" +:+ url +:+ "'")%s
  | no_cluster_issuer : k8s_cluster_issuer (k8s c) = None →
      violates c "k8s.cluster_issuer is required"%s
  | no_token_file : k8s_token_file (k8s c) = ""%s → violates c "k8s.token_file cannot be empty"%s
  | no_client_audience : cfg_client_audience (token c) = None →
      violates c "token.client_audience is required"%s
  | no_audience : cfg_audience (token c) = None → violates c "token.audience is required"%s
  | no_claim : participant_context_claim (token c) = ""%s →
      violates c "token.participant_context_claim cannot be empty"%s
  | ttl_too_small : (cfg_token_ttl_secs (token c) ≤ 0)%Z →
      violates c ("token.token_ttl_secs must be positive, got " +:+
                  show_Z (cfg_token_ttl_secs (token c)))%s
  | ttl_too_large : (MAX_TOKEN_TTL_SECS < cfg_token_ttl_secs (token c))%Z →
      violates c ("token.token_ttl_secs must not exceed " +:+ show_Z MAX_TOKEN_TTL_SECS +:+
                  ", got " +:+ show_Z (cfg_token_ttl_secs (token c)))%s
  | no_database_url pool : storage_backend c = Postgres ""%s pool →
      violates c "storage_backend.url is required for Postgres backend"%s
  | pool_violation url pool msg : storage_backend c = Postgres url pool →
      pool_violates pool msg → violates c msg
  | no_exchange_port : token_exchange_port c = 0%N → violates c "token_exchange_port cannot be 0"%s
  | no_management_port : management_port c = 0%N → violates c "management_port cannot be 0"%s
  | same_ports : token_exchange_port c = management_port c →
      violates c ("token_exchange_port and management_port cannot be the same (both are " +:+
                  show_Z (Z.of_N (token_exchange_port c)) +:+ ")")%s.

Lemma elem_of_push_if msg b m : msg ∈ push_if b m ↔ b = true ∧ msg = m.
Proof. destruct b; cbn; set_solver. Qed.

Lemma required_url_elem msg setting o :
  msg ∈ required_url setting o ↔
    (o = None ∧ msg = (setting +:+ " is required")%s) ∨
    (∃ url, o = Some url ∧ url_scheme url = None ∧
       msg = (setting +:+ " is not a valid URL: '" +:+ url +:+ "'")%s).
Proof.
  destruct o as [url|]; cbn.
  - rewrite elem_of_push_if, bool_decide_eq_true. naive_solver.
  - rewrite list_elem_of_singleton. naive_solver.
Qed.

Lemma api_server_elem msg o :
  msg ∈ validate_api_server_url o ↔
    (o = None ∧ msg = "k8s.api_server_url is required"%s) ∨
    ∃ url, o = Some url ∧
      ((url_scheme url = None ∧ msg = ("k8s.api_server_url is not a valid URL: '" +:+ url +:+ "'")%s) ∨
       ∃ scheme, url_scheme url = Some scheme ∧ scheme ≠ "https"%s ∧
         msg = ("k8s.api_server_url must use https: '" +:+ url +:+ "'")%s).
Proof.
  destruct o as [url|]; cbn; [destruct (url_scheme url) as [scheme|] eqn:E|].
  - rewrite elem_of_push_if, negb_true_iff, bool_decide_eq_false. naive_solver.
  - rewrite list_elem_of_singleton. naive_solver.
  - rewrite list_elem_of_singleton. naive_solver.
Qed.

Lemma ttl_elem msg ttl :
  msg ∈ validate_ttl ttl ↔
    ((ttl ≤ 0)%Z ∧ msg = ("token.token_ttl_secs must be positive, got " +:+ show_Z ttl)%s) ∨
    ((MAX_TOKEN_TTL_SECS < ttl)%Z ∧
     msg = ("token.token_ttl_secs must not exceed " +:+ show_Z MAX_TOKEN_TTL_SECS +:+ ", got " +:+ show_Z ttl)%s).
Proof.
  unfold validate_ttl. rewrite Z.gtb_ltb.
  assert (0 < MAX_TOKEN_TTL_SECS)%Z by done.
  destruct (Z.leb_spec ttl 0); [|destruct (Z.ltb_spec MAX_TOKEN_TTL_SECS ttl)];
    rewrite ?list_elem_of_singleton, ?elem_of_nil.
  - split; [auto|]. intros [[_ ?]|[? _]]; [done|lia].
  - split; [auto|]. intros [[? _]|[_ ?]]; [lia|done].
  - split; [done|]. intros [[? _]|[? _]]; lia.
Qed.

Lemma pool_elem msg p : msg ∈ validate_pool p ↔ pool_violates p msg.
Proof.
  unfold validate_pool. rewrite !elem_of_app, !elem_of_push_if, !bool_decide_eq_true. split.
  - intros [[? ->]|[H1|[[? ->]|[H1|H1]]]]; [by constructor| |by constructor|..].
    + destruct (min_connections p) eqn:?, (max_connections p) eqn:?; try by apply elem_of_nil in H1.
      apply elem_of_push_if in H1 as [?%N.ltb_lt ->]. by constructor.
    + destruct (sslmode p) eqn:?; [|by apply elem_of_nil in H1].
      apply elem_of_push_if in H1 as [Hm ->]. apply negb_true_iff, bool_decide_eq_false in Hm.
      by constructor.
    + destruct (ssl_root_cert p) eqn:?; [|by apply elem_of_nil in H1].
      apply elem_of_push_if in H1 as [Hm%negb_true_iff ->]. by constructor.
  - intros [?|min max -> -> ?%N.ltb_lt|?|mode -> ?|path -> Hp]; rewrite ?elem_of_push_if; auto.
    + rewrite negb_true_iff, bool_decide_eq_false. auto 6.
    + rewrite Hp. auto 6.
Qed.

Lemma storage_elem msg b :
  msg ∈ validate_storage b ↔
    (∃ pool, b = Postgres ""%s pool ∧
       msg = "storage_backend.url is required for Postgres backend"%s) ∨
    ∃ url pool, b = Postgres url pool ∧ pool_violates pool msg.
Proof.
  destruct b as [|url pool]; cbn; [rewrite elem_of_nil; naive_solver|].
  rewrite elem_of_app, elem_of_push_if, pool_elem.
  assert (is_empty url = true ↔ url = ""%s) as -> by (destruct url as [[|? ?]]; by split).
  naive_solver.
Qed.

Lemma validation_errors_elem c msg : msg ∈ validation_errors c ↔ violates c msg.
Proof.
  assert (∀ A (o : option A), is_none o = true ↔ o = None) as Hnone by (by intros A []).
  assert (∀ s, is_empty s = true ↔ s = ""%s) as Hempty by (intros [[|? ?]]; by split).
  unfold validation_errors.
  rewrite !elem_of_app, !elem_of_push_if, !required_url_elem, api_server_elem, ttl_elem,
    storage_elem, andb_true_iff, !Hnone, !Hempty, !N.eqb_eq. split.
  - intros Hd. repeat match goal with
      | H : _ ∨ _ |- _ => destruct H
      | H : _ ∧ _ |- _ => destruct H
      | H : ∃ _, _ |- _ => destruct H
      end; subst;
      [by apply no_issuer|by apply bad_issuer|by apply no_vault_url|by apply bad_vault_url
      |by apply no_vault_token|by apply no_api_server|by apply bad_api_server
      |by eapply insecure_api_server|by apply no_cluster_issuer|by apply no_token_file
      |by apply no_client_audience|by apply no_audience|by apply no_claim|by apply ttl_too_small
      |by apply ttl_too_large|by eapply no_database_url|by eapply pool_violation
      |by apply no_exchange_port|by apply no_management_port|by apply same_ports].
  - intros Hv. destruct Hv; eauto 20.
Qed.

(** C38 A configuration is accepted exactly when it satisfies every rule: the issuer
    and the Vault address are URLs, a Vault credential is named, the API server is
    reached over https, the cluster issuer, the audiences and the signing context are
    present, the token lifetime lies within its bounds, the Postgres settings are
    consistent and the two ports are distinct and not zero. *)
Theorem validate_accepts c : validate c = Ok tt ↔ config_ok c.
Proof. apply validate_Ok. Qed.

(** C39 Validation collects: a rejected configuration is reported with exactly the
    messages of the rules it violates, all of them and no other. *)
Theorem validate_reports_all c e :
  validate c = Err e →
  messages e ≠ [] ∧ error_count e = length (messages e) ∧
  ∀ msg, msg ∈ messages e ↔ violates c msg.
Proof.
  unfold validate. pose proof (validation_errors_elem c) as Helem.
  destruct (validation_errors c) as [|m l] eqn:E; [done|]. intros [= <-]. cbn. by split_and!.
Qed.
End validation.

(** A field left out of a file gets the value it has when the whole section is. *)
Lemma field_defaults_agree :
  token_exchange_port default_config = default_token_exchange_port ∧
  management_port default_config = default_management_port ∧
  bind default_config = default_bind ∧
  k8s_token_file (k8s default_config) = default_sa_token_file ∧
  participant_context_claim (token default_config) = default_participant_context_claim ∧
  cfg_token_ttl_secs (token default_config) = default_token_ttl_secs.
Proof. done. Qed.
