(* ===== verification/Assembly.v ===== *)
(** * Assembly: from a configuration to a runtime

    Models [crates/jwtlet-server/src/assembly/mod.rs] and [meta/mod.rs]: the Postgres
    connection settings, the Vault client with its credential file, the Kubernetes
    verifiers, the service-account authorizer, the warnings, and [assemble], which puts
    a runtime together around one shared store.  The Vault client, the HTTP client and
    the file system are the operations of [Host] over an external state. *)

From S2P Require Import Prelude Text Facet Resource MemStore SAccount K8s Token Config PgStore.

(** ** Errors and metadata *)

Inductive JwtletError : Set :=
  | Configuration (msg : str)
  | DatabaseFailed (msg : str)
  | Vault (e : str)
  | Verifier (e : JwtVerificationError)
  | Io (e : str).

(** [AuthorizationServerMetadata] of [meta/mod.rs]. *)
Record AuthorizationServerMetadata : Set := {
  meta_issuer : str;
  token_endpoint : str;
  jwks_uri : str;
  grant_types_supported : list str;
  token_endpoint_auth_methods_supported : list str;
}.

Definition metadata_new (issuer : str) : AuthorizationServerMetadata :=
  {| meta_issuer := issuer;
     token_endpoint := (issuer +:+ "/token")%s;
     jwks_uri := (issuer +:+ "/.well-known/jwks.json")%s;
     grant_types_supported := ["urn:ietf:params:oauth:grant-type:token-exchange"]%s;
     token_endpoint_auth_methods_supported := ["none"]%s |}.

(** ** Driver options *)

Inductive PgSslMode : Set := Disable | Prefer | Require | VerifyCa | VerifyFull.

(** A call on the driver's option builders. *)
Inductive ConnectCall : Set :=
  | set_application_name (name : str)
  | set_ssl_mode (mode : PgSslMode)
  | set_ssl_root_cert (path : str)
  | set_statement_cache_capacity (n : N).

Inductive PoolCall : Set :=
  | set_max_connections (n : N)
  | set_min_connections (n : N)
  | set_acquire_timeout (d : N)
  | set_idle_timeout (d : option N)
  | set_max_lifetime (d : option N)
  | set_test_before_acquire (b : bool).

(** ** The host *)

(** What the HTTP client of a verifier is built with: its time limits in seconds and a
    root certificate beside the system's. *)
Record HttpClientOptions (C : Type) : Type := {
  connect_timeout : N;
  timeout : N;
  root_certificate : option C;
}.
Arguments connect_timeout {C} _. Arguments timeout {C} _. Arguments root_certificate {C} _.

(** [VaultJwtGenerator]: the Vault client it signs through, and the prefix from which
    [PrefixTransitKeyResolver] makes the name of the key. *)
Record VaultJwtGenerator (V : Type) : Type := { signing_client : V; key_prefix : str }.
Arguments signing_client {V} _. Arguments key_prefix {V} _.

Class Host (X : Type) : Type := {
  VaultClient : Type;
  KeyResolver : Type;
  Certificate : Type;
  HttpClient : Type;
  PgPool : Type;
  (** [HashicorpVaultClient::new] (URL, token file, signing key) and its [initialize]. *)
  vault_new : str → str → str → eff X str VaultClient;
  vault_initialize : VaultClient → eff X str VaultClient;
  (** [VaultVerificationKeyResolver] for a signing context, initialized. *)
  key_resolver_initialize : VaultClient → str → eff X JwtVerificationError KeyResolver;
  (** [std::env::temp_dir().join(name)] and a fresh UUID. *)
  temp_path : str → X → str * X;
  fresh_uuid : X → str * X;
  (** Creating a file that must not exist yet, readable by its owner only, and
      writing the contents to it. *)
  create_private : str → str → eff X str unit;
  host_path_exists : str → X → bool * X;
  read_file : str → eff X str (list Byte.byte);
  certificate_from_pem : list Byte.byte → result str Certificate;
  build_http_client : HttpClientOptions Certificate → eff X str HttpClient;
  (** [PgConnectOptions::from_str]: why a URL is refused, if it is; and
      [PgPoolOptions::connect_with]. *)
  pg_url_error : str → option str;
  pg_connect : list PoolCall → str → list ConnectCall → eff X str PgPool;
}.

(** ** Postgres settings *)

Definition parse_ssl_mode (mode : str) : result JwtletError PgSslMode :=
  if bool_decide (mode = "disable"%s) then Ok Disable
  else if bool_decide (mode = "prefer"%s) then Ok Prefer
  else if bool_decide (mode = "require"%s) then Ok Require
  else if bool_decide (mode = "verify-ca"%s) then Ok VerifyCa
  else if bool_decide (mode = "verify-full"%s) then Ok VerifyFull
  else Err (Configuration ("Invalid storage_backend.pool.sslmode '" +:+ mode +:+ "'")%s).

(** [if let Some(x) = field { opts = opts.call(x) }]. *)
Definition when_set {A C : Type} (field : option A) (call : A → C) : list C :=
  match field with Some x => [call x] | None => [] end.

Definition build_connect_options {X : Type} `{Host X} (url : str) (p : PostgresPoolConfig) :
    result JwtletError (list ConnectCall) :=
  match pg_url_error url with
  | Some e => Err (Configuration ("Invalid storage_backend.url: " +:+ e)%s)
  | None =>
      mode ← (match sslmode p with
              | Some m => (λ x, [set_ssl_mode x]) <$> parse_ssl_mode m
              | None => Ok []
              end);
      Ok (when_set (application_name p) set_application_name ++ mode ++
          when_set (ssl_root_cert p) set_ssl_root_cert ++
          when_set (statement_cache_capacity p) set_statement_cache_capacity)
  end.

Definition build_pool_options (p : PostgresPoolConfig) : list PoolCall :=
  when_set (max_connections p) set_max_connections ++
  when_set (min_connections p) set_min_connections ++
  when_set (acquire_timeout p) set_acquire_timeout ++
  when_set (idle_timeout p) (λ d, set_idle_timeout (Some d)) ++
  when_set (max_lifetime p) (λ d, set_max_lifetime (Some d)) ++
  when_set (test_before_acquire p) set_test_before_acquire.

(** ** Warnings *)

Inductive Warning : Set :=
  | shared_audience
  | api_server_audience (setting audience : str)
  | no_account_with_role (role : str)
  | literal_vault_token
  | no_cluster_ca.

(** The world during assembly: the host and the warnings logged so far. *)
Record AWorld (X : Type) : Type := { host : X; warnings : list Warning }.
Arguments host {X} _. Arguments warnings {X} _. Arguments Build_AWorld {X} _ _.

(** The comparison of [warn_if_api_server_audience]. *)
Definition is_api_server_audience (c : JwtletConfig) (audience : str) : bool :=
  existsb (λ a, bool_decide (trim_end_matches 47 a = trim_end_matches 47 audience))
    (omap id [k8s_cluster_issuer (k8s c); k8s_api_server_url (k8s c)]).

Definition WRITE_ROLES : list str :=
  ["jwtlet:management:mappings:write"; "jwtlet:management:scope:write"]%s.

Section authorizer.
Context `{HashOrder}.

(** The roles of all accounts, for the warnings. *)
Definition all_roles (accounts : gmap str (list str)) : list str :=
  mjoin (hash_map_iter accounts).*2.

Definition missing_roles (accounts : gmap str (list str)) : list str :=
  List.filter (λ role, negb (bool_decide (role ∈ all_roles accounts))) WRITE_ROLES.

Definition account_store (accounts : gmap str (list str)) : MemoryServiceAccountStore :=
  SAccounts.from_accounts
    ((λ kv, {| client_id := kv.1; roles := list_to_set kv.2 |}) <$> hash_map_iter accounts).
End authorizer.

(** ** The runtime *)

Definition DEFAULT_SIGNING_KEY_PREFIX : str := "signing"%s.
Definition K8S_CONNECT_TIMEOUT : N := 5.
Definition K8S_REQUEST_TIMEOUT : N := 10.
Definition K8S_CA : str := "/var/run/secrets/kubernetes.io/serviceaccount/ca.crt"%s.

(** A verifier ready for use: its settings and its token cell. *)
Record ReadyVerifier : Set := { rv_verifier : K8sTokenReviewVerifier; rv_cell : option SaTokenState }.

(** [JwtletRuntime]; the resource services are the shared store, which stays the
    parameter it is. *)
Record JwtletRuntime (K V : Type) : Type := {
  token_service : TokenExchangeService;
  exchange_verifier : ReadyVerifier;
  generator : VaultJwtGenerator V;
  key_resolver : K;
  service_account_authorizer : MemoryServiceAccountStore;
  management_verifier : ReadyVerifier;
  management_client_audience : str;
  metadata : AuthorizationServerMetadata;
}.
Arguments token_service {K V} _. Arguments exchange_verifier {K V} _.
Arguments generator {K V} _.
Arguments key_resolver {K V} _. Arguments service_account_authorizer {K V} _.
Arguments management_verifier {K V} _. Arguments management_client_audience {K V} _.
Arguments metadata {K V} _.

Section assemble.
Context {X : Type} `{Host X} `{K8sExternal X} `{HashOrder}.

Definition set_host (x : X) (w : AWorld X) : AWorld X := {| host := x; warnings := warnings w |}.
Definition on_host {E A : Type} (m : eff X E A) : eff (AWorld X) E A := zoom host set_host m.
Definition warn (l : list Warning) : eff (AWorld X) JwtletError unit := λ w,
  (Ok tt, {| host := host w; warnings := warnings w ++ l |}).

(** [write_private_temp_file]. *)
Definition write_private_temp_file (prefix contents : str) : eff (AWorld X) JwtletError str :=
  u ← on_host (total fresh_uuid);
  path ← on_host (total (temp_path (prefix +:+ "-" +:+ u)%s));
  _ ← eff_map_err Io (on_host (create_private path contents));
  mret path.

(** The credential file of the Vault client. *)
Definition vault_credential_file (cfg : VaultConfig) : eff (AWorld X) JwtletError str :=
  match vault_token_file cfg, vault_token cfg with
  | Some path, _ => mret path
  | None, Some literal =>
      path ← write_private_temp_file "jwtlet_vault_token"%s literal;
      _ ← warn [literal_vault_token];
      mret path
  | None, None =>
      lift (Err (Configuration "Either vault.token or vault.token_file is required"%s))
  end.

Definition create_vault_client (cfg : VaultConfig) (signing_key_name : str) :
    eff (AWorld X) JwtletError VaultClient :=
  url ← lift (ok_or (vault_url cfg) (Configuration "vault.url is required"%s));
  file ← vault_credential_file cfg;
  client ← eff_map_err Vault (on_host (vault_new url file signing_key_name));
  eff_map_err Vault (on_host (vault_initialize client)).

(** The TLS part of [create_k8s_verifier]. *)
Definition create_http_client : eff (AWorld X) JwtletError HttpClient :=
  present ← on_host (total (host_path_exists K8S_CA));
  cert ← (if present : bool then
            pem ← eff_map_err Io (on_host (read_file K8S_CA));
            lift (Some <$> map_err (λ e, Configuration ("Invalid cluster CA cert: " +:+ e)%s)
                            (certificate_from_pem pem))
          else
            _ ← warn [no_cluster_ca]; mret None);
  eff_map_err (λ e, Configuration ("Failed to build HTTP client: " +:+ e)%s)
    (on_host (build_http_client {| connect_timeout := K8S_CONNECT_TIMEOUT; timeout := K8S_REQUEST_TIMEOUT;
                                   root_certificate := cert |})).

(** [verifier.initialize()] on a fresh verifier. *)
Definition initialize_verifier (v : K8sTokenReviewVerifier) :
    eff (AWorld X) JwtletError ReadyVerifier := λ w,
  let '(r, kw) := K8sVerifier.initialize v {| cell := None; ext := host w |} in
  (match r with
   | Ok _ => Ok {| rv_verifier := v; rv_cell := cell kw |}
   | Err e => Err (Verifier e)
   end, set_host (ext kw) w).

Definition create_k8s_verifier (cfg : K8sConfig) : eff (AWorld X) JwtletError ReadyVerifier :=
  url ← lift (ok_or (k8s_api_server_url cfg) (Configuration "k8s.api_server_url is required"%s));
  iss ← lift (ok_or (k8s_cluster_issuer cfg) (Configuration "k8s.cluster_issuer is required"%s));
  _ ← create_http_client;
  initialize_verifier {| api_server_url := url; cluster_issuer := iss;
                         token_file := k8s_token_file cfg; require_service_account := true |}.

Definition create_jwt_generator (vault_client : VaultClient) (prefix : str) : VaultJwtGenerator VaultClient :=
  {| signing_client := vault_client; key_prefix := prefix |}.

Definition create_key_resolver (client : VaultClient) : eff (AWorld X) JwtletError KeyResolver :=
  eff_map_err Verifier (on_host (key_resolver_initialize client "jwtlet"%s)).

Definition build_service_account_authorizer (accounts : gmap str (list str)) :
    eff (AWorld X) JwtletError MemoryServiceAccountStore :=
  _ ← warn (no_account_with_role <$> missing_roles accounts);
  mret (account_store accounts).

Definition warn_if_api_server_audience (c : JwtletConfig) (setting audience : str) :
    eff (AWorld X) JwtletError unit :=
  warn (if is_api_server_audience c audience then [api_server_audience setting audience] else []).

Definition assemble (c : JwtletConfig) :
    eff (AWorld X) JwtletError (JwtletRuntime KeyResolver VaultClient) :=
  let signing_key_name :=
    (DEFAULT_SIGNING_KEY_PREFIX +:+ "-" +:+ participant_context_claim (token c))%s in
  vault_client ← create_vault_client (vault c) signing_key_name;
  resolver ← create_key_resolver vault_client;
  client_aud ← lift (ok_or (cfg_client_audience (token c))
                       (Configuration "token.client_audience is required"%s));
  aud ← lift (ok_or (cfg_audience (token c)) (Configuration "token.audience is required"%s));
  iss ← lift (ok_or (cfg_issuer c) (Configuration "issuer is required"%s));
  exchange_v ← create_k8s_verifier (k8s c);
  authorizer ← build_service_account_authorizer (service_accounts c);
  management_v ← create_k8s_verifier (k8s c);
  let management_aud := default client_aud (mgmt_client_audience (management c)) in
  _ ← warn (if bool_decide (management_aud = client_aud) then [shared_audience] else []);
  _ ← warn_if_api_server_audience c "token.client_audience"%s client_aud;
  _ ← warn_if_api_server_audience c "management.client_audience"%s management_aud;
  mret {|
    token_service := {|
      client_audience := client_aud; audience := aud; issuer := iss;
      jwtlet_participant_context := participant_context_claim (token c);
      token_ttl_secs := cfg_token_ttl_secs (token c) |};
    exchange_verifier := exchange_v;
    generator := create_jwt_generator vault_client DEFAULT_SIGNING_KEY_PREFIX;
    key_resolver := resolver;
    service_account_authorizer := authorizer;
    management_verifier := management_v;
    management_client_audience := management_aud;
    metadata := metadata_new iss |}.

(** ** The two entry points *)

Definition assemble_memory (c : JwtletConfig) :
    eff (AWorld X) JwtletError (JwtletRuntime KeyResolver VaultClient * InnerStore) :=
  rt ← assemble c;
  mret (rt, MemoryResourceStore.new).

(** The database is reached through the host: its state is part of [X]. *)
Context `{Pg X}.

Definition migrate (p : PostgresPoolConfig) : eff (AWorld X) JwtletError unit :=
  if default true (run_migrations_on_startup p) then
    eff_map_err (λ e, DatabaseFailed ("Failed to initialize Postgres store: " +:+ show_error e)%s)
      (on_host PostgresResourceStore.initialize)
  else mret tt.

Definition connect_postgres (url : str) (p : PostgresPoolConfig) : eff (AWorld X) JwtletError PgPool :=
  connect_options ← lift (build_connect_options url p);
  pool ← eff_map_err (λ e, DatabaseFailed ("Failed to connect to Postgres: " +:+ e)%s)
           (on_host (pg_connect (build_pool_options p) url connect_options));
  _ ← migrate p;
  mret pool.

Definition assemble_postgres (c : JwtletConfig) :
    eff (AWorld X) JwtletError (JwtletRuntime KeyResolver VaultClient * PgPool) :=
  match storage_backend c with
  | Memory => lift (Err (Configuration "assemble_postgres called with non-postgres backend"%s))
  | Postgres url p =>
      if is_empty url then
        lift (Err (Configuration "storage_backend.url is required for postgres backend"%s))
      else
        pool ← connect_postgres url p;
        rt ← assemble c;
        mret (rt, pool)
  end.

(** The choice of the backend in [run] of [main.rs]. *)
Definition assemble_backend (c : JwtletConfig) :
    eff (AWorld X) JwtletError (JwtletRuntime KeyResolver VaultClient * (InnerStore + PgPool)) :=
  match storage_backend c with
  | Memory => p ← assemble_memory c; mret (p.1, inl p.2)
  | Postgres _ _ => p ← assemble_postgres c; mret (p.1, inr p.2)
  end.
End assemble.
