(* ===== verification/AssemblyProps.v ===== *)
(** * AssemblyProps: a validated configuration gives the runtime it describes

    Theorems on the definitions of [Assembly]: what validation and assembly agree on,
    what the assembled runtime is made of, and who the configured service accounts
    authorize. *)

From S2P Require Import Prelude Text Facet Resource MemStore SAccount K8s Token Config PgStore Assembly.

(** ** Driver settings *)

(** Validation and assembly agree on the TLS modes: exactly the modes that
    [validate] lets through are parsed, each to a mode of its own. *)
Lemma parse_ssl_mode_accepts mode :
  ((∃ m, parse_ssl_mode mode = Ok m) ↔ mode ∈ VALID_SSL_MODES) ∧
  (∀ mode' m, parse_ssl_mode mode = Ok m → parse_ssl_mode mode' = Ok m → mode = mode') ∧
  (∀ e, parse_ssl_mode mode = Err e → ∃ msg, e = Configuration msg).
Proof.
  unfold VALID_SSL_MODES. rewrite !elem_of_cons. split_and!.
  - unfold parse_ssl_mode. repeat case_bool_decide; cbn; set_solver.
  - unfold parse_ssl_mode. intros mode' m. repeat case_bool_decide; naive_solver.
  - unfold parse_ssl_mode. intros e. repeat case_bool_decide; naive_solver.
Qed.

Lemma elem_of_when_set {A C : Type} (o : option A) (call : A → C) c :
  c ∈ when_set o call ↔ ∃ x, o = Some x ∧ c = call x.
Proof. destruct o; cbn; rewrite ?list_elem_of_singleton, ?elem_of_nil; naive_solver. Qed.

(** The pool is told exactly the settings that the configuration makes: every
    setting is forwarded with its value, and an unset one is never mentioned, so that a
    timeout is never disabled by leaving it out. *)
Lemma build_pool_options_calls p call :
  call ∈ build_pool_options p ↔
    match call with
    | set_max_connections n => max_connections p = Some n
    | set_min_connections n => min_connections p = Some n
    | set_acquire_timeout d => acquire_timeout p = Some d
    | set_idle_timeout o => o = idle_timeout p ∧ is_Some o
    | set_max_lifetime o => o = max_lifetime p ∧ is_Some o
    | set_test_before_acquire b => test_before_acquire p = Some b
    end.
Proof.
  unfold build_pool_options. rewrite !elem_of_app, !elem_of_when_set.
  split.
  - intros Hd. repeat match goal with
      | H : _ ∨ _ |- _ => destruct H
      | H : _ ∧ _ |- _ => destruct H
      | H : ∃ _, _ |- _ => destruct H
      end; subst; eauto.
  - destruct call; try (intros [-> [? Hs]]; rewrite Hs); eauto 20.
Qed.

Lemma elem_of_bool_filter {A : Type} (f : A → bool) (l : list A) x :
  x ∈ List.filter f l ↔ x ∈ l ∧ f x = true.
Proof. by rewrite !list_elem_of_In, filter_In. Qed.

(** ** Service accounts *)

#[local] Arguments missing_roles : simpl never.

Section accounts.
Context `{HashOrder}.
Implicit Types accounts : gmap str (list str).

(** The loaded store has exactly the configured accounts. *)
Lemma account_store_lookup accounts client :
  SAccount.accounts (account_store accounts) !! client = list_to_set <$> accounts !! client.
Proof.
  unfold account_store, SAccounts.from_accounts. cbn.
  rewrite <- (list_to_map_to_list accounts) at 2.
  assert (∀ l : list (str * list str), NoDup l.*1 →
    foldl (λ m sa, <[client_id sa := roles sa]> m) ∅
      ((λ kv, {| client_id := kv.1; roles := list_to_set kv.2 |}) <$> l) =
    (list_to_set <$> (list_to_map l : gmap str (list str)) : gmap str (gset str))) as Hfold.
  { intros l. induction l as [|[k v] l IH] using rev_ind; intros Hnd; [by rewrite list_to_map_nil, fmap_empty|].
    rewrite !fmap_app in *. cbn in Hnd |- *. rewrite foldl_snoc. cbn.
    apply NoDup_app in Hnd as (Hnd & Hk & _). rewrite IH by done.
    rewrite list_to_map_snoc; [by rewrite fmap_insert|]. intros Hin. apply (Hk _ Hin). by left. }
  assert (NoDup (hash_map_iter accounts).*1) as Hnd.
  { rewrite hash_map_iter_perm. apply NoDup_fst_map_to_list. }
  rewrite Hfold, lookup_fmap by done. f_equal.
  rewrite (list_to_map_proper _ (map_to_list accounts) Hnd); [done|apply hash_map_iter_perm].
Qed.

(** A caller is authorized for a set of roles exactly when the configuration
    lists it with all of them, whatever order the configuration is read in; a role
    that assembly warns about is held by nobody, so the routes behind it answer 403. *)
Lemma account_store_authorizes {W : Type} accounts client required (w : W) :
  ∃ b, SAccounts.authorize (account_store accounts) client required w = (Ok b, w) ∧
    (b = true ↔ ∃ l, accounts !! client = Some l ∧ ∀ r, r ∈ required → r ∈ l) ∧
    (∀ role, role ∈ missing_roles accounts → role ∈ required → b = false).
Proof.
  unfold SAccounts.authorize. rewrite account_store_lookup.
  destruct (accounts !! client) as [l|] eqn:E; cbn; [|by exists false; naive_solver].
  eexists. split; [done|]. rewrite bool_decide_eq_true. split.
  - split; [intros Hsub; exists l; set_solver|]. intros (l' & [= <-] & ?). set_solver.
  - intros role Hmiss Hreq. apply bool_decide_eq_false. intros Hsub.
    apply (elem_of_bool_filter (λ r, negb (bool_decide (r ∈ all_roles accounts)))) in Hmiss as [_ Hmiss].
    apply negb_true_iff, bool_decide_eq_false in Hmiss.
    apply Hmiss. unfold all_roles. apply list_elem_of_join. exists l. split; [set_solver|].
    apply list_elem_of_fmap. exists (client, l). split; [done|].
    by rewrite hash_map_iter_perm, elem_of_map_to_list.
Qed.
End accounts.

(** ** The runtime *)

Section runtime.
Context {X : Type} `{Host X} `{K8sExternal X} `{HashOrder} `{ConfigEnv}.
Implicit Types (c : JwtletConfig) (w : AWorld X).

(** The failures of reading the cluster's CA and building the HTTP client. *)
Definition tls_failure (msg : str) : Prop :=
  (∃ e, msg = ("Invalid cluster CA cert: " +:+ e)%s) ∨
  (∃ e, msg = ("Failed to build HTTP client: " +:+ e)%s).

(** A failure that is not a complaint about the configuration, or only about these. *)
Definition excused (e : JwtletError) : Prop :=
  match e with Configuration msg => tls_failure msg | _ => True end.

Lemma lift_required {A : Type} (o : option A) (e : JwtletError) w r w' :
  is_Some o → lift (ok_or o e) w = (r, w') → ∃ a, o = Some a ∧ r = Ok a ∧ w' = w.
Proof. intros [a ->]. cbn. unfold lift. intros [= <- <-]. eauto. Qed.

Lemma vault_client_failure cfg key w e w' :
  is_Some (vault_url cfg) → is_Some (vault_token cfg) ∨ is_Some (vault_token_file cfg) →
  create_vault_client cfg key w = (Err e, w') → ∀ msg, e ≠ Configuration msg.
Proof.
  intros Hurl Htok Hrun msg ->. unfold create_vault_client in Hrun.
  apply eff_bind_Err in Hrun as [Hrun|(url & w1 & _ & Hrun)].
  { by apply (lift_required _ _ _ _ _ Hurl) in Hrun as (? & _ & ? & _). }
  apply eff_bind_Err in Hrun as [Hrun|(file & w2 & _ & Hrun)].
  - unfold vault_credential_file, write_private_temp_file in Hrun.
    destruct (vault_token_file cfg), (vault_token cfg); try done; [|naive_solver].
    repeat (apply eff_bind_Err in Hrun as [Hrun|(? & ? & _ & Hrun)]); try done;
      try (unfold on_host, zoom, total in Hrun; by destruct (fresh_uuid _));
      try (unfold on_host, zoom, total in Hrun; by destruct (temp_path _ _)).
    by apply eff_map_err_Err in Hrun as (? & _ & ?).
  - apply eff_bind_Err in Hrun as [Hrun|(cl & w3 & _ & Hrun)];
      by apply eff_map_err_Err in Hrun as (? & _ & ?).
Qed.

Lemma http_client_failure w e w' :
  create_http_client w = (Err e, w') → excused e.
Proof.
  unfold create_http_client. intros Hrun.
  apply eff_bind_Err in Hrun as [Hrun|(present & w1 & _ & Hrun)].
  { unfold on_host, zoom, total in Hrun. by destruct (host_path_exists _ _). }
  apply eff_bind_Err in Hrun as [Hrun|(cert & w2 & _ & Hrun)].
  - destruct present; [|by apply eff_bind_Err in Hrun as [|(? & ? & _ & ?)]].
    apply eff_bind_Err in Hrun as [Hrun|(pem & w3 & _ & Hrun)].
    + by apply eff_map_err_Err in Hrun as (? & _ & ->).
    + apply lift_eq in Hrun as [Hr _]. destruct (certificate_from_pem pem); [done|].
      cbn in Hr. simplify_eq. left. eauto.
  - apply eff_map_err_Err in Hrun as (? & _ & ->). right. eauto.
Qed.

Lemma k8s_verifier_failure cfg w e w' :
  is_Some (k8s_api_server_url cfg) → is_Some (k8s_cluster_issuer cfg) →
  create_k8s_verifier cfg w = (Err e, w') → excused e.
Proof.
  unfold create_k8s_verifier. intros Hu Hi Hrun.
  apply eff_bind_Err in Hrun as [Hrun|(url & w1 & _ & Hrun)].
  { by apply (lift_required _ _ _ _ _ Hu) in Hrun as (? & _ & ? & _). }
  apply eff_bind_Err in Hrun as [Hrun|(iss & w2 & _ & Hrun)].
  { by apply (lift_required _ _ _ _ _ Hi) in Hrun as (? & _ & ? & _). }
  apply eff_bind_Err in Hrun as [Hrun|(client & w3 & _ & Hrun)].
  { by eapply http_client_failure. }
  unfold initialize_verifier in Hrun. destruct (K8sVerifier.initialize _ _) as [[]];
    by simplify_eq.
Qed.

Lemma assemble_failure c w e w' :
  config_ok c → assemble c w = (Err e, w') → excused e.
Proof.
  intros Hok Hrun. unfold assemble in Hrun.
  destruct (ok_vault_url _ Hok) as (vurl & Hvurl & _).
  destruct (ok_api_server _ Hok) as (aurl & Haurl & _).
  destruct (ok_issuer _ Hok) as (iss & Hiss & _).
  apply eff_bind_Err in Hrun as [Hrun|(vc & w1 & _ & Hrun)].
  { pose proof (vault_client_failure _ _ _ _ _ (mk_is_Some _ _ Hvurl) (ok_vault_token _ Hok) Hrun).
    by destruct e; naive_solver. }
  apply eff_bind_Err in Hrun as [Hrun|(kr & w2 & _ & Hrun)].
  { by apply eff_map_err_Err in Hrun as (? & _ & ->). }
  apply eff_bind_Err in Hrun as [Hrun|(ca & w3 & _ & Hrun)].
  { by apply (lift_required _ _ _ _ _ (ok_client_audience _ Hok)) in Hrun as (? & _ & ? & _). }
  apply eff_bind_Err in Hrun as [Hrun|(au & w4 & _ & Hrun)].
  { by apply (lift_required _ _ _ _ _ (ok_audience _ Hok)) in Hrun as (? & _ & ? & _). }
  apply eff_bind_Err in Hrun as [Hrun|(iss' & w5 & _ & Hrun)].
  { by apply (lift_required _ _ _ _ _ (mk_is_Some _ _ Hiss)) in Hrun as (? & _ & ? & _). }
  apply eff_bind_Err in Hrun as [Hrun|(ev & w6 & _ & Hrun)].
  { eapply k8s_verifier_failure; [by eexists|apply (ok_cluster_issuer _ Hok)|done]. }
  apply eff_bind_Err in Hrun as [Hrun|(az & w7 & _ & Hrun)]; [done|].
  apply eff_bind_Err in Hrun as [Hrun|(mv & w8 & _ & Hrun)].
  { eapply k8s_verifier_failure; [by eexists|apply (ok_cluster_issuer _ Hok)|done]. }
  done.
Qed.

Lemma create_k8s_verifier_Ok cfg w v w' :
  create_k8s_verifier cfg w = (Ok v, w') →
  is_Some (rv_cell v) ∧ require_service_account (rv_verifier v) = true ∧
  k8s_api_server_url cfg = Some (api_server_url (rv_verifier v)) ∧
  k8s_cluster_issuer cfg = Some (cluster_issuer (rv_verifier v)) ∧
  token_file (rv_verifier v) = k8s_token_file cfg.
Proof.
  unfold create_k8s_verifier. intros Hrun. inv_eff.
  destruct (k8s_api_server_url cfg) as [url|]; cbn in *; [|done].
  destruct (k8s_cluster_issuer cfg) as [iss|]; cbn in *; [|done]. simplify_eq.
  unfold initialize_verifier in Hrun.
  destruct (K8sVerifier.initialize _ _) as [[[]|e] kw] eqn:Hi; simplify_eq. cbn.
  split; [|done]. unfold K8sVerifier.initialize in Hi. cbn in Hi. inv_eff.
  unfold K8sVerifier.put_token in Hi. simplify_eq. by eexists.
Qed.

(** The assembled runtime is the one the configuration describes: the exchange
    service has the configured audiences, issuer, signing context and lifetime, the
    metadata names the same issuer, the management API has its own audience or falls
    back to that of the exchange, the authorizer holds the configured accounts, and
    both verifiers are initialized and accept service accounts only. *)
Lemma assembled_runtime c w rt w' :
  assemble c w = (Ok rt, w') →
  let s := token_service rt in
  cfg_client_audience (token c) = Some (client_audience s) ∧
  cfg_audience (token c) = Some (audience s) ∧
  cfg_issuer c = Some (issuer s) ∧ metadata rt = metadata_new (issuer s) ∧
  jwtlet_participant_context s = participant_context_claim (token c) ∧
  token_ttl_secs s = cfg_token_ttl_secs (token c) ∧
  management_client_audience rt = default (client_audience s) (mgmt_client_audience (management c)) ∧
  service_account_authorizer rt = account_store (service_accounts c) ∧
  Forall (λ v, is_Some (rv_cell v) ∧ require_service_account (rv_verifier v) = true ∧
               k8s_api_server_url (k8s c) = Some (api_server_url (rv_verifier v)) ∧
               k8s_cluster_issuer (k8s c) = Some (cluster_issuer (rv_verifier v)) ∧
               token_file (rv_verifier v) = k8s_token_file (k8s c))
    [exchange_verifier rt; management_verifier rt].
Proof.
  unfold assemble. intros Hrun. cbv zeta. inv_eff.
  destruct (cfg_client_audience (token c)) as [ca|]; cbn in *; [|done].
  destruct (cfg_audience (token c)) as [au|]; cbn in *; [|done].
  destruct (cfg_issuer c) as [iss|]; cbn in *; [|done]. simplify_eq. cbn.
  repeat match goal with H : create_k8s_verifier _ _ = _ |- _ => apply create_k8s_verifier_Ok in H end.
  repeat match goal with H : build_service_account_authorizer _ _ = _ |- _ =>
    unfold build_service_account_authorizer in H; inv_eff end.
  split_and!; try done. repeat constructor; tauto.
Qed.

(** The tokens of the runtime are signed through the Vault client whose keys its JWKS
    publishes, a client for the key that is named by prefix and signing context. *)
Lemma assembled_signing c w rt w' :
  assemble c w = (Ok rt, w') →
  ∃ w1 w2,
    create_vault_client (vault c)
      (key_prefix (generator rt) +:+ "-" +:+ jwtlet_participant_context (token_service rt))%s w =
      (Ok (signing_client (generator rt)), w1) ∧
    create_key_resolver (signing_client (generator rt)) w1 = (Ok (key_resolver rt), w2).
Proof.
  unfold assemble. intros (vc & w1 & Hvc & (kr & w2 & Hkr & Hrun)%eff_bind_Ok)%eff_bind_Ok.
  inv_eff. cbn. eauto.
Qed.

(** ** What the operator is told *)

(** The warnings whose conditions hold, in order. *)
Inductive told : list (Prop * Warning) → list Warning → Prop :=
  | told_end : told [] []
  | told_yes (P : Prop) x cases l : P → told cases l → told ((P, x) :: cases) (x :: l)
  | told_no (P : Prop) x cases l : ¬ P → told cases l → told ((P, x) :: cases) l.

Lemma told_if (b : bool) (P : Prop) x cases l l' :
  l' = (if b then [x] else []) ++ l → (b = true ↔ P) → told cases l → told ((P, x) :: cases) l'.
Proof. intros -> Hb Hl. destruct b; [apply told_yes; [by apply Hb|done]|apply told_no; [naive_solver|done]]. Qed.

Lemma told_condition cases l x : told cases l → x ∈ l → ∃ P : Prop, (P, x) ∈ cases ∧ P.
Proof.
  induction 1 as [|P y cases l HP _ IH|P y cases l HP _ IH]; [by intros ?%not_elem_of_nil| |].
  - intros [->|(Q & ? & ?)%IH]%elem_of_cons; [exists P; split; [by left|done]|].
    exists Q. split; [by right|done].
  - intros (Q & ? & ?)%IH. exists Q. split; [by right|done].
Qed.

(** No configured account holds the role. *)
Definition held_by_nobody (role : str) c : Prop :=
  ∀ client roles, service_accounts c !! client = Some roles → role ∉ roles.

(** The same but for slashes at the end. *)
Definition same_place (a b : str) : Prop :=
  ∃ base n m, a = (base +:+ run_of 47 n)%s ∧ b = (base +:+ run_of 47 m)%s.

(** The audience is the API server's issuer or its URL. *)
Definition names_api_server c (audience : str) : Prop :=
  ∃ a, (k8s_cluster_issuer (k8s c) = Some a ∨ k8s_api_server_url (k8s c) = Some a) ∧
    same_place a audience.

Lemma missing_role_iff role c :
  negb (bool_decide (role ∈ all_roles (service_accounts c))) = true ↔ held_by_nobody role c.
Proof.
  rewrite negb_true_iff, bool_decide_eq_false. unfold all_roles, held_by_nobody.
  rewrite list_elem_of_join. split.
  - intros Hn client roles Hc Hr. apply Hn. exists roles. split; [done|].
    apply list_elem_of_fmap. exists (client, roles). split; [done|].
    by rewrite hash_map_iter_perm, elem_of_map_to_list.
  - intros Hn (roles & Hr & Hin). apply list_elem_of_fmap in Hin as ([client l] & -> & Hin).
    rewrite hash_map_iter_perm, elem_of_map_to_list in Hin. by eapply Hn.
Qed.

Lemma same_place_iff a b : trim_end_matches 47 a = trim_end_matches 47 b ↔ same_place a b.
Proof.
  split.
  - intros Heq. destruct (trim_end_split 47 a) as [n Ha], (trim_end_split 47 b) as [m Hb].
    exists (trim_end_matches 47 a), n, m. split; [done|]. by rewrite Heq.
  - intros (base & n & m & -> & ->). by rewrite !trim_end_app.
Qed.

Lemma names_api_server_iff c audience : is_api_server_audience c audience = true ↔ names_api_server c audience.
Proof.
  unfold is_api_server_audience, names_api_server. rewrite existsb_exists.
  setoid_rewrite bool_decide_eq_true. setoid_rewrite same_place_iff.
  setoid_rewrite <- list_elem_of_In. setoid_rewrite list_elem_of_omap. cbn. split.
  - intros (a & (o & Hin & ->) & Hs). exists a. split; [|done]. set_solver.
  - intros (a & Ho & Hs). exists a. split; [|done]. exists (Some a). split; [set_solver|done].
Qed.

Lemma on_host_warnings {E A : Type} (e : E → JwtletError) (m : eff X E A) w a w' :
  eff_map_err e (on_host m) w = (Ok a, w') → warnings w' = warnings w.
Proof. intros Hm%eff_map_err_Ok. unfold on_host, zoom in Hm. destruct (m (host w)). by injection Hm as _ <-. Qed.

Lemma on_host_total_warnings {A : Type} (m : X → A * X) w (a : A) w' :
  (on_host (total m) : eff (AWorld X) JwtletError A) w = (Ok a, w') → warnings w' = warnings w.
Proof. unfold on_host, zoom, total. destruct (m (host w)). by intros [= _ <-]. Qed.

Lemma vault_client_warnings cfg key w v w' :
  create_vault_client cfg key w = (Ok v, w') →
  warnings w' = warnings w ++
    (if bool_decide (vault_token_file cfg = None ∧ is_Some (vault_token cfg)) then [literal_vault_token] else []).
Proof.
  unfold create_vault_client.
  intros (url & w1 & [_ ->]%lift_eq & (file & w2 & Hf & (cl & w3 & Hc & Hi)%eff_bind_Ok)%eff_bind_Ok)%eff_bind_Ok.
  apply on_host_warnings in Hc, Hi. rewrite Hi, Hc. unfold vault_credential_file in Hf.
  destruct (vault_token_file cfg), (vault_token cfg);
    try (apply eff_ret_Ok in Hf as [_ <-]; rewrite bool_decide_eq_false_2 by naive_solver; by rewrite app_nil_r).
  - apply eff_bind_Ok in Hf as (path & w4 & Hp & ([] & w5 & Hw & [_ <-]%eff_ret_Ok)%eff_bind_Ok).
    injection Hw as <-. rewrite bool_decide_eq_true_2 by eauto. cbn. f_equal. unfold write_private_temp_file in Hp.
    apply eff_bind_Ok in Hp as (u & w6 & Hu & (p & w7 & Hp & ([] & w8 & Hw & [_ <-]%eff_ret_Ok)%eff_bind_Ok)%eff_bind_Ok).
    apply on_host_total_warnings in Hu, Hp. apply on_host_warnings in Hw. congruence.
  - by apply lift_eq in Hf as [? _].
Qed.

(** A verifier's client warns when it finds no cluster CA. *)
Lemma k8s_verifier_warnings cfg w v w' :
  create_k8s_verifier cfg w = (Ok v, w') →
  warnings w' = warnings w ++ (if negb (host_path_exists K8S_CA (host w)).1 then [no_cluster_ca] else []).
Proof.
  unfold create_k8s_verifier.
  intros (url & w1 & [_ ->]%lift_eq & (iss & w2 & [_ ->]%lift_eq & (cl & w3 & Hc & Hi)%eff_bind_Ok)%eff_bind_Ok)%eff_bind_Ok.
  unfold initialize_verifier in Hi. destruct (K8sVerifier.initialize _ _). injection Hi as _ <-. cbn.
  unfold create_http_client in Hc.
  apply eff_bind_Ok in Hc as (present & w4 & Hp & (cert & w5 & Hcert & Hb)%eff_bind_Ok).
  pose proof (on_host_total_warnings _ _ _ _ Hp) as Hw4.
  assert ((host_path_exists K8S_CA (host w)).1 = present) as ->.
  { unfold on_host, zoom, total in Hp. destruct (host_path_exists _ _). by injection Hp as <- _. }
  apply on_host_warnings in Hb. rewrite Hb. destruct present.
  - apply eff_bind_Ok in Hcert as (pem & w6 & Hpem & [_ ->]%lift_eq). apply on_host_warnings in Hpem.
    cbn. rewrite app_nil_r. congruence.
  - apply eff_bind_Ok in Hcert as ([] & w6 & Hw & [_ <-]%eff_ret_Ok). injection Hw as <-. cbn.
    by rewrite Hw4.
Qed.

Lemma missing_roles_warnings accounts :
  (no_account_with_role <$> missing_roles accounts) =
  (if negb (bool_decide ("jwtlet:management:mappings:write"%s ∈ all_roles accounts))
   then [no_account_with_role "jwtlet:management:mappings:write"%s] else []) ++
  (if negb (bool_decide ("jwtlet:management:scope:write"%s ∈ all_roles accounts))
   then [no_account_with_role "jwtlet:management:scope:write"%s] else []).
Proof. unfold missing_roles, WRITE_ROLES. cbn [List.filter]. by repeat destruct (negb _). Qed.

(** The parts of an assembly that meet the host before its two verifiers do, and the
    warnings of all parts. *)
Lemma assemble_warnings c w rt w' :
  assemble c w = (Ok rt, w') →
  let mine := client_audience (token_service rt) in
  let its := management_client_audience rt in
  ∃ key vc w1 kr w2 w3 w4 w5,
    create_vault_client (vault c) key w = (Ok vc, w1) ∧
    create_key_resolver vc w1 = (Ok kr, w2) ∧
    create_k8s_verifier (k8s c) w2 = (Ok (exchange_verifier rt), w3) ∧
    host w4 = host w3 ∧ warnings w4 = warnings w3 ++ (no_account_with_role <$> missing_roles (service_accounts c)) ∧
    create_k8s_verifier (k8s c) w4 = (Ok (management_verifier rt), w5) ∧
    warnings w' = warnings w5 ++ (if bool_decide (its = mine) then [shared_audience] else []) ++
      (if is_api_server_audience c mine then [api_server_audience "token.client_audience"%s mine] else []) ++
      (if is_api_server_audience c its then [api_server_audience "management.client_audience"%s its] else []).
Proof.
  intros Hrun mine its. unfold mine, its. clear mine its. unfold assemble in Hrun.
  apply eff_bind_Ok in Hrun as (vc & w1 & Hvc & Hrun).
  apply eff_bind_Ok in Hrun as (kr & w2 & Hkr & Hrun).
  apply eff_bind_Ok in Hrun as (ca & w3 & [_ ->]%lift_eq & Hrun).
  apply eff_bind_Ok in Hrun as (au & w4 & [_ ->]%lift_eq & Hrun).
  apply eff_bind_Ok in Hrun as (iss & w5 & [_ ->]%lift_eq & Hrun).
  apply eff_bind_Ok in Hrun as (ev & w6 & Hev & Hrun).
  apply eff_bind_Ok in Hrun as (az & w7 & Haz & Hrun).
  apply eff_bind_Ok in Hrun as (mv & w8 & Hmv & Hrun).
  injection Haz as _ Hw7. injection Hrun as <- <-. cbn in Hev.
  eexists _, vc, w1, kr, _, w6, w7, w8.
  split_and!; [exact Hvc|exact Hkr|exact Hev|by rewrite <- Hw7|by rewrite <- Hw7|exact Hmv|].
  cbn. by rewrite <- !app_assoc.
Qed.

(** The warnings that a configuration deserves, in the order of assembly, where [x1] and
    [x2] are the hosts that the clients of the two verifiers are built on, and [mine] and
    [its] the audiences of the exchange and of the management API. *)
Definition due c (mine its : str) (x1 x2 : X) : list (Prop * Warning) :=
  let no_ca (x : X) :=
    (host_path_exists "/var/run/secrets/kubernetes.io/serviceaccount/ca.crt"%s x).1 = false in
  [ (vault_token_file (vault c) = None ∧ is_Some (vault_token (vault c)), literal_vault_token);
    (no_ca x1, no_cluster_ca);
    (held_by_nobody "jwtlet:management:mappings:write"%s c,
       no_account_with_role "jwtlet:management:mappings:write"%s);
    (held_by_nobody "jwtlet:management:scope:write"%s c,
       no_account_with_role "jwtlet:management:scope:write"%s);
    (no_ca x2, no_cluster_ca);
    (its = mine, shared_audience);
    (names_api_server c mine, api_server_audience "token.client_audience"%s mine);
    (names_api_server c its, api_server_audience "management.client_audience"%s its) ].

Lemma due_role c mine its x1 x2 (P : Prop) role :
  (P, no_account_with_role role) ∈ due c mine its x1 x2 → P → held_by_nobody role c.
Proof.
  unfold due. intros Hin HP.
  repeat (apply elem_of_cons in Hin as [Heq|Hin]; [injection Heq; try discriminate; intros; by subst|]).
  by apply not_elem_of_nil in Hin.
Qed.

(** C36 What the operator is told is what the server does.  A successful assembly logs
    exactly the warnings that are due, in this order: the Vault credential is a literal;
    the client of the exchange's verifier found no cluster CA on the host; no account
    holds the role that writes mappings, none the role that writes scopes; the client of
    the management API's verifier found no cluster CA; both APIs accept the same audience;
    the one audience, or the other, is the API server's.  Afterwards a caller is
    authorized for a set of roles exactly when the configuration lists it with all of
    them, so that the routes behind a role that was warned about answer 403. *)
Theorem assembled_warnings c w rt w' :
  assemble c w = (Ok rt, w') →
  (∃ key vc w1 kr w2 w3 l,
    create_vault_client (vault c) key w = (Ok vc, w1) ∧ create_key_resolver vc w1 = (Ok kr, w2) ∧
    create_k8s_verifier (k8s c) w2 = (Ok (exchange_verifier rt), w3) ∧
    warnings w' = warnings w ++ l ∧
    told (due c (client_audience (token_service rt)) (management_client_audience rt) (host w2) (host w3)) l) ∧
  ∀ client required (x : X), ∃ b,
    SAccounts.authorize (service_account_authorizer rt) client required x = (Ok b, x) ∧
    (b = true ↔ ∃ l, service_accounts c !! client = Some l ∧ ∀ r, r ∈ required → r ∈ l) ∧
    ∀ role, no_account_with_role role ∈ warnings w' → no_account_with_role role ∉ warnings w →
      role ∈ required → b = false.
Proof.
  intros Hrun. pose proof (assembled_runtime _ _ _ _ Hrun) as (_ & _ & _ & _ & _ & _ & _ & Hst & _).
  destruct (assemble_warnings _ _ _ _ Hrun)
    as (key & vc & w1 & kr & w2 & w3 & w4 & w5 & Hvc & Hkr & Hev & Hh & Hw4 & Hmv & Hw).
  assert (∃ l, warnings w' = warnings w ++ l ∧ told (due c (client_audience (token_service rt))
    (management_client_audience rt) (host w2) (host w3)) l) as (l & Hl & Htold).
  { rewrite Hw, (k8s_verifier_warnings _ _ _ _ Hmv), Hw4, (k8s_verifier_warnings _ _ _ _ Hev),
      (on_host_warnings _ _ _ _ _ Hkr), (vault_client_warnings _ _ _ _ _ Hvc), Hh, missing_roles_warnings.
    rewrite <- !app_assoc. eexists. split; [reflexivity|].
    eapply told_if; [reflexivity|by rewrite bool_decide_eq_true|].
    eapply told_if; [reflexivity|by rewrite negb_true_iff|].
    eapply told_if; [reflexivity|apply missing_role_iff|].
    eapply told_if; [reflexivity|apply missing_role_iff|].
    eapply told_if; [reflexivity|by rewrite negb_true_iff|].
    eapply told_if; [reflexivity|by rewrite bool_decide_eq_true|].
    eapply told_if; [reflexivity|apply names_api_server_iff|].
    eapply told_if; [symmetry; apply app_nil_r|apply names_api_server_iff|constructor]. }
  split; [by exists key, vc, w1, kr, w2, w3, l|]. intros client required x. rewrite Hst.
  destruct (account_store_authorizes (service_accounts c) client required x) as (b & Hb & Hiff & _).
  exists b. split_and!; [done|done|]. intros role Hin Hnot Hreq.
  rewrite Hl in Hin. apply elem_of_app in Hin as [?|Hin]; [done|].
  destruct (told_condition _ _ _ Htold Hin) as (P & HP & Hp). apply not_true_is_false.
  intros (roles & Hroles & Hall)%Hiff. by eapply (due_role _ _ _ _ _ _ _ HP Hp), Hall.
Qed.

Lemma parse_valid_mode mode : mode ∈ VALID_SSL_MODES → ∃ m, parse_ssl_mode mode = Ok m.
Proof. unfold VALID_SSL_MODES, parse_ssl_mode. repeat case_bool_decide; set_solver. Qed.

Lemma connect_postgres_failure `{Pg X} url p w msg w' :
  pool_ok p → connect_postgres url p w = (Err (Configuration msg), w') →
  ∃ e, msg = ("Invalid storage_backend.url: " +:+ e)%s.
Proof.
  intros Hp Hrun. unfold connect_postgres in Hrun.
  apply eff_bind_Err in Hrun as [Hrun|(opts & w1 & _ & Hrun)].
  - apply lift_eq in Hrun as [Hr _]. unfold build_connect_options in Hr.
    destruct (pg_url_error url) as [e|]; [simplify_eq; by exists e|].
    destruct (sslmode p) as [mode|] eqn:Hm; [|done].
    destruct (parse_valid_mode mode) as [m Hparse]; [by apply (pool_sslmode_ok _ Hp)|].
    by rewrite Hparse in Hr.
  - apply eff_bind_Err in Hrun as [Hrun|(pool & w2 & _ & Hrun)].
    { by apply eff_map_err_Err in Hrun as (? & _ & ?). }
    apply eff_bind_Err in Hrun as [Hrun|(? & ? & _ & ?)]; [|done].
    unfold migrate in Hrun. destruct (default _ _); [|done].
    by apply eff_map_err_Err in Hrun as (? & _ & ?).
Qed.

(** C37 A configuration that passes validation is never the reason why startup
    fails: with it, assembly over either backend can only fail with a configuration
    error about the cluster's CA certificate, the HTTP client or a database URL that
    the driver refuses; every other failure comes from the outside. *)
Theorem validated_config_assembles `{Pg X} c w msg w' :
  validate c = Ok tt → assemble_backend c w = (Err (Configuration msg), w') →
  tls_failure msg ∨ ∃ e, msg = ("Invalid storage_backend.url: " +:+ e)%s.
Proof.
  intros Hok%validate_Ok Hrun.
  assert (∀ w w', assemble c w = (Err (Configuration msg), w') → tls_failure msg) as Has
    by (intros w1 w2 Hf; exact (assemble_failure _ _ _ _ Hok Hf)).
  unfold assemble_backend in Hrun. destruct (storage_backend c) as [|url pool] eqn:Hb;
    apply eff_bind_Err in Hrun as [Hrun|(? & ? & _ & ?)]; try done.
  - apply eff_bind_Err in Hrun as [Hrun|(? & ? & _ & ?)]; [left; by eapply Has|done].
  - unfold assemble_postgres in Hrun. rewrite Hb in Hrun.
    destruct (ok_storage _ Hok _ _ Hb) as [Hurl Hpool]. apply is_empty_false in Hurl.
    rewrite Hurl in Hrun. apply eff_bind_Err in Hrun as [Hrun|(p & w1 & _ & Hrun)].
    + right. by eapply connect_postgres_failure.
    + apply eff_bind_Err in Hrun as [Hrun|(? & ? & _ & ?)]; [left; by eapply Has|done].
Qed.
End runtime.
