(* ===== verification/Assembled.v ===== *)
(** * Assembled: the server that a configuration describes, at work

    What [run_server] serves is what [assemble] built.  Here the runtime of [Assembly]
    is put to work in the machine of [Concurrent]: each API has its own Kubernetes
    verifier with its own credential cell, the configured accounts authorize, and
    both share a store, which may be either of the two.  The world outside (API server,
    file system, Vault, clock) is the host's. *)

From S2P Require Import Prelude Text Json Facet Resource Policy Service SAccount K8s Token.
From S2P Require Import TokenProps System Reads Exchange Management ManagementProps Phases Steps Concurrent.
From S2P Require Import Config PgStore Assembly AssemblyProps.

(** The credential cells of the two verifiers, and everything outside the process. *)
Record Cells (X : Type) : Type := {
  exchange_cell : option SaTokenState;
  management_cell : option SaTokenState;
  elsewhere : X;
}.
Arguments exchange_cell {X} _. Arguments management_cell {X} _. Arguments elsewhere {X} _.

Section cells.
Context {X : Type} `{K8sExternal X} `{JwtGenerator X} `{Ambient X}.
Implicit Types w : Cells X.

Definition set_elsewhere (x : X) w : Cells X :=
  {| exchange_cell := exchange_cell w; management_cell := management_cell w; elsewhere := x |}.

(** The verifier of the token endpoint works on its own cell, *)
Definition exchange_side w : KWorld X := {| cell := exchange_cell w; ext := elsewhere w |}.
Definition set_exchange_side (k : KWorld X) w : Cells X :=
  {| exchange_cell := cell k; management_cell := management_cell w; elsewhere := ext k |}.
Definition exchange_cell_verifier (v : K8sTokenReviewVerifier) : JwtVerifier (Cells X) :=
  {| verify_token aud tok := zoom exchange_side set_exchange_side (K8sVerifier.verify_token v aud tok) |}.

(** and so does that of the management API. *)
Definition management_side w : KWorld X := {| cell := management_cell w; ext := elsewhere w |}.
Definition set_management_side (k : KWorld X) w : Cells X :=
  {| exchange_cell := exchange_cell w; management_cell := cell k; elsewhere := ext k |}.
Definition management_cell_verifier (v : K8sTokenReviewVerifier) : JwtVerifier (Cells X) :=
  {| verify_token aud tok := zoom management_side set_management_side (K8sVerifier.verify_token v aud tok) |}.

(** Their steps, between which the other verifier and everybody else may work. *)
Definition exchange_cell_steps (v : K8sTokenReviewVerifier) :
    SteppedVerifier (Cells X) (H := exchange_cell_verifier v) :=
  zoomed_steps exchange_side set_exchange_side
    (λ k _, match k with Build_KWorld _ _ => eq_refl end) (λ _ _ _, eq_refl) (SV := k8s_steps v).
Definition management_cell_steps (v : K8sTokenReviewVerifier) :
    SteppedVerifier (Cells X) (H := management_cell_verifier v) :=
  zoomed_steps management_side set_management_side
    (λ k _, match k with Build_KWorld _ _ => eq_refl end) (λ _ _ _, eq_refl) (SV := k8s_steps v).

#[export] Instance cells_generator : JwtGenerator (Cells X) := {|
  JwtGenerationError := JwtGenerationError;
  generate_token pc c := zoom elsewhere set_elsewhere (generate_token pc c);
|}.

#[export] Instance cells_ambient : Ambient (Cells X) := {|
  now w := let '(t, x) := now (elsewhere w) in (t, set_elsewhere x w);
  new_uuid w := let '(u, x) := new_uuid (elsewhere w) in (u, set_elsewhere x w);
|}.

Lemma zoom_Ok {V E A : Type} (get : Cells X → V) set (m : eff V E A) w a w' :
  zoom get set m w = (Ok a, w') → ∃ v, m (get w) = (Ok a, v).
Proof. unfold zoom. destruct (m (get w)) as [r v]. intros [= -> _]. by exists v. Qed.
End cells.

(** An account store that is loaded once leaves every world alone. *)
#[export] Instance loaded_management_frame {S Y : Type} (st : MemoryServiceAccountStore)
    `{StoreContract S, JwtVerifier Y} :
  ManagementFrame (H2 := memory_authorizer st (World S Y)) (World S Y).
Proof.
  split.
  - intros a t w r w' Hv%on_rest_store Hinv. cbn in *. by rewrite Hv.
  - intros c req w r w' [= _ <-]. done.
Qed.

Section assembled.
Context {X : Type} `{Host X} `{K8sExternal X} `{JwtGenerator X} `{Ambient X} `{HashOrder}.
Context {S : Type} {Sto : ResourceStore S} {Con : @StoreContract S Sto}.
Context {Spl : SplitStore S} {Rea : SplitContract S}.
Context {HV : Type} (to_str : HV → option str).
Context (rt : JwtletRuntime KeyResolver VaultClient).

Definition runtime_exchange_verifier : JwtVerifier (World S (Cells X)) :=
  world_verifier (H := exchange_cell_verifier (rv_verifier (exchange_verifier rt))).
Definition runtime_management_verifier : JwtVerifier (World S (Cells X)) :=
  world_verifier (H := management_cell_verifier (rv_verifier (management_verifier rt))).
#[local] Instance runtime_exchange_steps :
  SteppedVerifier (World S (Cells X)) (H := runtime_exchange_verifier) :=
  world_steps (H0 := exchange_cell_steps (rv_verifier (exchange_verifier rt))).
#[local] Instance runtime_management_steps :
  SteppedVerifier (World S (Cells X)) (H := runtime_management_verifier) :=
  world_steps (H0 := management_cell_steps (rv_verifier (management_verifier rt))).
#[local] Instance runtime_authorizer : ServiceAccountAuthorizer (World S (Cells X)) :=
  memory_authorizer (service_account_authorizer rt) (World S (Cells X)).

(** The runtime, with a store and the host as assembly left it. *)
Definition assembled_world (s0 : S) (x : X) : MWorld (World S (Cells X)) :=
  {| inner := {| w_store := s0;
                 w_rest := {| exchange_cell := rv_cell (exchange_verifier rt);
                              management_cell := rv_cell (management_verifier rt);
                              elsewhere := x |} |};
     audit := [] |}.

Definition ServerRun : Type :=
  CState (W := World S (Cells X)) runtime_exchange_verifier runtime_management_verifier (HV := HV).

Definition runtime_step : ServerRun → ServerRun → Prop :=
  conc_step runtime_exchange_verifier runtime_management_verifier to_str
    (management_client_audience rt) (token_service rt).

(** The API server vouched for the bearer token of [auth] as [actor]'s. *)
Definition vouched_caller (url aud : str) (auth : option HV) (actor : str) : Prop :=
  ∃ tok, extract_bearer_token to_str auth = Some tok ∧ vouched_for url aud tok actor.

#[local] Instance runtime_exchange_frame :
  ExchangeFrame (H1 := runtime_exchange_verifier) (World S (Cells X)) :=
  world_frame (H1 := exchange_cell_verifier (rv_verifier (exchange_verifier rt))).
#[local] Instance runtime_management_frame :
  ManagementFrame (H1 := runtime_management_verifier) (World S (Cells X)) :=
  loaded_management_frame (H1 := management_cell_verifier (rv_verifier (management_verifier rt)))
    (service_account_authorizer rt).

Lemma on_rest_Ok {E A : Type} (m : eff (Cells X) E A) (w : World S (Cells X)) a w' :
  on_rest m w = (Ok a, w') → ∃ y, m (w_rest w) = (Ok a, y).
Proof. unfold on_rest, zoom. destruct (m (w_rest w)) as [r y]. intros [= -> _]. by exists y. Qed.

#[local] Instance runtime_exchange_stepped_frame :
  SteppedFrame (H2 := runtime_exchange_steps) (World S (Cells X)) := world_stepped_frame.
#[local] Instance runtime_management_stepped_frame :
  SteppedFrame (H2 := runtime_management_steps) (World S (Cells X)) := world_stepped_frame.

(** In the terms of the machine, for this runtime. *)
Abbreviation verification_under_way :=
  (in_progress runtime_exchange_verifier runtime_management_verifier to_str
     (management_client_audience rt) (token_service rt) (HV := HV)).
Abbreviation verification_concludes :=
  (concludes runtime_exchange_verifier runtime_management_verifier to_str
     (management_client_audience rt) (token_service rt) (HV := HV)).

(** A verification whose steps are those of a Kubernetes verifier, on whatever part of
    the world, is vouched for when it concludes. *)
Lemma concluded_vouched {Ver : JwtVerifier (World S (Cells X))} (SV : SteppedVerifier (World S (Cells X)) (H := Ver))
    (v : K8sTokenReviewVerifier) (kv : Verification (SteppedVerifier := SV) → KVerification) w0 aud tok s client :
  kv (v_begin aud tok) = kv_begin aud tok →
  (∀ a x r x', v_step a x = (r, x') →
     ∃ (y y' : KWorld X), kv_step v (kv a) y = (match r with inl a' => inl (kv a') | inr c => inr c end, y')) →
  require_service_account v = true → verification_concludes SV w0 aud tok s (Ok client) →
  vouched_for (api_server_url v) aud tok (tc_sub client) ∧ tc_iss client = cluster_issuer v.
Proof.
  intros Hb Hs Hreq (a & x & Ha & (y & y' & Hy)%Hs).
  eapply (in_progress_keeps _ _ _ _ _ _ (λ b, kv_audience (kv b) = aud ∧ kv_token (kv b) = tok)) in Ha
    as [<- <-]; [by eapply kv_step_vouched|by rewrite Hb|].
  intros b w b' w' (z & z' & [-> ->]%kv_step_subject)%Hs. done.
Qed.

Lemma runtime_client_vouched w0 aud tok s client :
  require_service_account (rv_verifier (exchange_verifier rt)) = true →
  verification_concludes runtime_exchange_steps w0 aud tok s (Ok client) →
  vouched_for (api_server_url (rv_verifier (exchange_verifier rt))) aud tok (tc_sub client) ∧
  tc_iss client = cluster_issuer (rv_verifier (exchange_verifier rt)).
Proof.
  apply (concluded_vouched runtime_exchange_steps (rv_verifier (exchange_verifier rt)) id); [done|].
  intros a x r x' [y [z Hz]%zoom_step_inv]%zoom_step_inv. eexists _, z. destruct r; exact Hz.
Qed.

Lemma runtime_caller_vouched w0 aud tok s client :
  require_service_account (rv_verifier (management_verifier rt)) = true →
  verification_concludes runtime_management_steps w0 aud tok s (Ok client) →
  vouched_for (api_server_url (rv_verifier (management_verifier rt))) aud tok (tc_sub client).
Proof.
  intros Hreq Hc. eapply (concluded_vouched runtime_management_steps (rv_verifier (management_verifier rt)) id);
    [done| |done..].
  intros a x r x' [y [z Hz]%zoom_step_inv]%zoom_step_inv. eexists _, z. destruct r; exact Hz.
Qed.

(** The runtime authorizes the accounts of the configuration. *)
Lemma runtime_authorizes cfg actor role (w w' : World S (Cells X)) :
  service_account_authorizer rt = account_store cfg →
  authorize actor {[ role ]} w = (Ok true, w') → ∃ l, cfg !! actor = Some l ∧ role ∈ l.
Proof.
  intros Hst. cbn. unfold SAccounts.authorize. rewrite Hst, account_store_lookup.
  destruct (cfg !! actor) as [l|]; cbn; [|done]. intros [= Hr%bool_decide_eq_true _].
  exists l. split; [done|]. set_solver.
Qed.

(** A creation that this actor asked the runtime for, and whose outcome was lost. *)
Definition creation_lost s0 x s auth actor k : Prop :=
  lost_creation runtime_exchange_verifier runtime_management_verifier to_str
    (management_client_audience rt) (token_service rt) (assembled_world s0 x) s auth actor k.

(** Who stands behind an issued token, in the runtime's own terms. *)
Lemma runtime_token_accountable s0 x s i form code resp :
  store_inv s0 → view s0 = empty_policy →
  rtc runtime_step (begins (assembled_world s0 x)) s →
  jobs s !! i = Some (ExchangeDone form (Ok (code, resp))) →
  ∃ client, granted_while runtime_exchange_verifier runtime_management_verifier to_str
      (management_client_audience rt) (token_service rt) (assembled_world s0 x) s form client ∧
    signed_for (W := World S (Cells X)) (token_service rt) form client (access_token resp) ∧
    accountable runtime_exchange_verifier runtime_management_verifier to_str
      (management_client_audience rt) (token_service rt) (assembled_world s0 x) s
      (tc_sub client, resource form).
Proof. intros. eapply issued_token_accountable; try done; apply _. Qed.
End assembled.

(** C1 The server that a configuration describes.  Put the runtime that [assemble] built
    to work on an empty store, with any requests in flight at once.  Whenever a token is
    issued, then
    - the API server of the configuration was asked about the subject token for the
      configured audience and vouched for it as the client's, a service account;
    - the token was signed in the configured signing context, with the configured issuer
      and lifetime, for the requested context, with the client and the cluster's issuer
      as its actor, and with no registered claim from a scope;
    - at one moment the policy granted the client every requested scope in that context;
    - and the API server vouched for the bearer token of an account that the
      configuration gives the mappings-write role, on whose behalf the grant was created;
      the audit log says so, or is about to, or the outcome of that account's creation
      was lost. *)
Theorem assembled_server_is_accountable {X : Type} `{Host X} `{K8sExternal X} `{JwtGenerator X}
    `{Ambient X} `{HashOrder} {S : Type} {Sto : ResourceStore S} {Con : @StoreContract S Sto}
    {Spl : SplitStore S} {Rea : SplitContract S} {HV : Type} (to_str : HV → option str)
    c w (rt : JwtletRuntime KeyResolver VaultClient) w' (s0 : S) s i form code resp :
  assemble c w = (Ok rt, w') → store_inv s0 → view s0 = empty_policy →
  rtc (runtime_step to_str rt) (begins (assembled_world rt s0 (host w'))) s →
  jobs s !! i = Some (ExchangeDone form (Ok (code, resp))) →
  ∃ url aud client actor auth,
    k8s_api_server_url (k8s c) = Some url ∧ cfg_client_audience (token c) = Some aud ∧
    vouched_for url aud (subject_token form) (tc_sub client) ∧
    (∃ claims x x',
       generate_token {| pc_id := participant_context_claim (token c) |} claims x =
         (Ok (access_token resp), x') ∧
       cfg_issuer c = Some (tc_iss claims) ∧ tc_sub claims = resource form ∧
       tc_exp claims = i64_add (tc_iat claims) (cfg_token_ttl_secs (token c)) ∧
       tc_custom claims !! "act"%s = Some (act_claim client) ∧
       k8s_cluster_issuer (k8s c) = Some (tc_iss client) ∧
       ∀ k, k ∈ ["sub"; "iss"; "aud"; "exp"; "iat"; "nbf"]%s → tc_custom claims !! k = None) ∧
    (∃ s1 g, rtc (runtime_step to_str rt) (begins (assembled_world rt s0 (host w'))) s1 ∧
       rtc (runtime_step to_str rt) s1 s ∧
       grants (view (inner (shared s1))) !! (tc_sub client, resource form) = Some g ∧
       ∀ x, x ∈ form_scopes form → x ∈ grant_scopes g) ∧
    vouched_caller to_str url (default aud (mgmt_client_audience (management c))) auth actor ∧
    (∃ l, service_accounts c !! actor = Some l ∧ ROLE_MAPPINGS_WRITE ∈ l) ∧
    let line := mapping_created actor (tc_sub client) (resource form) in
    (line ∈ audit (shared s) ∨
     (∃ n auth c actor resp evs, jobs s !! n = Some (CallHandled auth c actor resp evs) ∧ line ∈ evs) ∨
     creation_lost to_str rt s0 (host w') s auth actor (tc_sub client, resource form)).
Proof.
  intros Hasm Hinv Hempty Hreach Hi.
  apply assembled_runtime in Hasm as (Haud & _ & Hiss & _ & Hpc & Httl & Hmaud & Hst & Hvs).
  apply Forall_cons in Hvs as [(_ & Hreq & Hurl & Hci & _) [(_ & Hmreq & Hmurl & _) _]%Forall_cons].
  destruct (runtime_token_accountable _ _ _ _ _ _ _ _ _ Hinv Hempty Hreach Hi) as (client &
    (s1 & g & [? ?] & (s2 & _ & Hver) & ? & ?) &
    (claims & y & y' & Hsign & Hciss & ? & Hexp & ? & ?) & auth & actor &
    (s3 & z & _ & (s4 & tok & caller & _ & Htok & Hcver & ->) & Hrole) & Hline).
  apply runtime_client_vouched in Hver as [Hvouch Hact]; [|done].
  apply runtime_caller_vouched in Hcver; [|done].
  eexists _, _, client, _, auth. split_and!; [exact Hurl|exact Haud|done| | | | |].
  - cbn in Hsign. exists claims, (elsewhere (w_rest y)). rewrite Hpc in Hsign.
    apply on_rest_Ok in Hsign as [? [? Hsign]%zoom_Ok]. eexists. split_and!; [done|congruence|done|congruence|done|congruence|done].
  - by exists s1, g.
  - exists tok. split; [done|]. rewrite Hurl in Hmurl. injection Hmurl as Heq. by rewrite <- Hmaud, Heq.
  - by eapply runtime_authorizes.
  - destruct Hline as [[?|?]|?]; [by left|right; by left|right; by right].
Qed.
