(* ===== verification/Server.v ===== *)
(** * Server: the two listeners, their routes and their shutdown

    Models [crates/jwtlet-server/src/server/mod.rs]: the route tables of the two
    listeners and [run_server] as a labelled machine over its join set.  A task binds
    its address and then serves until the cancellation token is triggered; when and how
    a bind, a listener or a task fails is up to the operating system, tokio and axum.
    Serving requests is the subject of [Exchange], [Management] and [Concurrent]. *)

From S2P Require Import Prelude Text Token Management Config Assembly Fair.

(** ** Routes *)

Module Endpoint.
Inductive t : Set :=
  | health
  | token_exchange
  | get_swk_set
  | get_authorization_server_metadata
  | managed (h : Handler).

#[export] Instance eq_dec : EqDecision t.
Proof. solve_decision. Defined.
End Endpoint.
Export (hints) Endpoint.

Definition Routes : Set := list (Method * str * Endpoint.t).

(** The router of [run_token_exchange_api]. *)
Definition exchange_routes : Routes :=
  [(GET, "/health"%s, Endpoint.health);
   (POST, "/token"%s, Endpoint.token_exchange);
   (GET, "/.well-known/jwks.json"%s, Endpoint.get_swk_set);
   (GET, "/.well-known/oauth-authorization-server"%s, Endpoint.get_authorization_server_metadata)].

(** [Router::nest]. *)
Definition nest (prefix : str) (groups : list RouteGroup) : Routes :=
  g ← groups; (λ r, (r.1.1, (prefix +:+ r.1.2)%s, Endpoint.managed r.2)) <$> rg_routes g.

(** The router of [run_management_api]. *)
Definition management_api_routes : Routes :=
  (GET, "/health"%s, Endpoint.health) :: nest "/api/v1"%s management_routes.

(** The body of [health]. *)
Definition health_body : str := "OK"%s.

(** The state of the exchange API; the token service is the subject of [Exchange]. *)
Record ExchangeApiState (R : Type) : Type := {
  api_token_service : TokenExchangeService;
  api_key_resolver : R;
  api_metadata : AuthorizationServerMetadata;
}.
Arguments api_token_service {R} _. Arguments api_key_resolver {R} _. Arguments api_metadata {R} _.

(** [JwkSetProvider] of [dsdk_facet_core]. *)
Class JwkSetProvider (R W : Type) : Type := {
  JwkSet : Type;
  jwk_set : R → W → JwkSet * W;
}.

Definition get_swk_set {R W : Type} `{JwkSetProvider R W} (s : ExchangeApiState R) (w : W) : JwkSet * W :=
  jwk_set (api_key_resolver s) w.

Definition get_authorization_server_metadata {R : Type} (s : ExchangeApiState R) :
    AuthorizationServerMetadata := api_metadata s.

(** What [run_server] hands to the two tasks, from the runtime. *)
Definition exchange_api_state {K V : Type} (rt : JwtletRuntime K V) : ExchangeApiState K :=
  {| api_token_service := token_service rt; api_key_resolver := key_resolver rt;
     api_metadata := metadata rt |}.

(** [make_http_span]: the parent is whatever the installed propagator extracts from the
    request's headers, possibly nothing. *)
Record HttpSpan (C : Type) : Type := {
  otel_kind : str;
  otel_name : str;
  http_request_method : str;
  url_path : str;
  parent_cx : option C;
}.
Arguments otel_name {C} _. Arguments parent_cx {C} _.

Definition make_http_span {H C : Type} (extract : H → option C) (headers : H) (method path : str) :
    HttpSpan C :=
  {| otel_kind := "server"%s; otel_name := (method +:+ " " +:+ path)%s;
     http_request_method := method; url_path := path; parent_cx := extract headers |}.

(** ** Signals *)

(** What the process may be told: an interrupt, or that waiting for one failed, or a
    termination. *)
Inductive Signal : Set :=
  | CtrlC (r : result str unit)
  | SigTerm.

(** The two tasks that [run_server] spawns. *)
Inductive Task : Set := token_exchange_api | management_api.

#[export] Instance task_eq_dec : EqDecision Task.
Proof. solve_decision. Defined.

(** What joining a task gives: [Result<Result<(), ServerError>, JoinError>]. *)
Inductive TaskResult : Set :=
  | Completed
  | Failed (e : str)
  | Panicked (e : str).

(** The lines that are logged. *)
Inductive LogLine : Set :=
  | listening (t : Task) (addr : str)
  | received_shutdown
  | ctrl_c_signal_error (e : str)
  | handled (t : Task) (r : TaskResult).

(** [wait_for_shutdown] on the signals that have arrived: the lines it logs when it
    returns, [None] while it waits.  [registered] tells whether the SIGTERM handler
    could be installed; without it only the interrupt is awaited. *)
Fixpoint wait_for_shutdown (registered : bool) (signals : list Signal) : option (list LogLine) :=
  match signals with
  | [] => None
  | CtrlC (Ok _) :: _ => Some []
  | CtrlC (Err e) :: _ => Some [ctrl_c_signal_error e]
  | SigTerm :: signals => if registered then Some [] else wait_for_shutdown registered signals
  end.

(** ** The machine *)

(** Where a task is. *)
Inductive TaskPhase : Set :=
  | Starting
  | Serving
  | Ended (r : TaskResult).

(** [run_server] is in its [select!], in the draining loop, or has returned. *)
Inductive ServerPhase : Set :=
  | Selecting
  | Draining
  | Returned (r : result str unit).

Record ServerState : Set := {
  join_set : list (Task * TaskPhase);
  bound : list str;               (* addresses on which the process listens *)
  signals : list Signal;
  cancelled : bool;
  server_phase : ServerPhase;
  log : list LogLine;
}.

(** After both [join_set.spawn] calls. *)
Definition spawned : ServerState :=
  {| join_set := [(token_exchange_api, Starting); (management_api, Starting)]; bound := [];
     signals := []; cancelled := false; server_phase := Selecting; log := [] |}.

(** Who moves: a task in its own code, a task by accident, [run_server], the outside. *)
Inductive Label : Set :=
  | Progress (t : Task)
  | Mishap (t : Task)
  | Main
  | Arrival.

Section machine.
Context (config : JwtletConfig) (registered : bool).
(** Whether the operating system lets the process listen on an address, given those on
    which it listens already. *)
Context (may_bind : list str → str → bool).
Implicit Types s : ServerState.

Definition port_of (t : Task) : N :=
  match t with
  | token_exchange_api => token_exchange_port config
  | management_api => management_port config
  end.

(** [format!("{bind}:{port}")]. *)
Definition address (t : Task) : str := (bind config +:+ ":" +:+ show_Z (Z.of_N (port_of t)))%s.

(** The task at a place of the join set moves on. *)
Definition with_task (l1 : list (Task * TaskPhase)) (t : Task) (p : TaskPhase)
    (l2 : list (Task * TaskPhase)) s : ServerState :=
  {| join_set := l1 ++ (t, p) :: l2; bound := bound s; signals := signals s;
     cancelled := cancelled s; server_phase := server_phase s; log := log s |}.

Definition listens (t : Task) s : ServerState :=
  {| join_set := join_set s; bound := bound s ++ [address t]; signals := signals s;
     cancelled := cancelled s; server_phase := server_phase s;
     log := log s ++ [listening t (address t)] |}.

(** [run_server] goes on to the draining loop, or around in it. *)
Definition drains (c : bool) (l : list (Task * TaskPhase)) (lines : list LogLine) s : ServerState :=
  {| join_set := l; bound := bound s; signals := signals s; cancelled := c;
     server_phase := Draining; log := log s ++ lines |}.

Inductive server_step : Label → ServerState → ServerState → Prop :=
  | bind_ok s t l1 l2 :
      join_set s = l1 ++ (t, Starting) :: l2 → may_bind (bound s) (address t) = true →
      server_step (Progress t) s (listens t (with_task l1 t Serving l2 s))
  | bind_failed s t l1 l2 e :
      join_set s = l1 ++ (t, Starting) :: l2 → may_bind (bound s) (address t) = false →
      server_step (Progress t) s (with_task l1 t (Ended (Failed e)) l2 s)
  | serve_ended s t l1 l2 :
      join_set s = l1 ++ (t, Serving) :: l2 → cancelled s = true →
      server_step (Progress t) s (with_task l1 t (Ended Completed) l2 s)
  | task_failed s t l1 p l2 e :
      join_set s = l1 ++ (t, p) :: l2 → p = Starting ∨ p = Serving →
      server_step (Mishap t) s (with_task l1 t (Ended (Failed e)) l2 s)
  | task_panicked s t l1 p l2 e :
      join_set s = l1 ++ (t, p) :: l2 → p = Starting ∨ p = Serving →
      server_step (Mishap t) s (with_task l1 t (Ended (Panicked e)) l2 s)
  | signal_arrives s sig :
      server_step Arrival s
        {| join_set := join_set s; bound := bound s; signals := signals s ++ [sig];
           cancelled := cancelled s; server_phase := server_phase s; log := log s |}
  | shutdown_signal s lines :
      server_phase s = Selecting → wait_for_shutdown registered (signals s) = Some lines →
      server_step Main s (drains true (join_set s) (lines ++ [received_shutdown]) s)
  | first_joined s t r l1 l2 :
      server_phase s = Selecting → join_set s = l1 ++ (t, Ended r) :: l2 →
      server_step Main s (drains true (l1 ++ l2) [handled t r] s)
  | next_joined s t r l1 l2 :
      server_phase s = Draining → join_set s = l1 ++ (t, Ended r) :: l2 →
      server_step Main s (drains (cancelled s) (l1 ++ l2) [handled t r] s)
  | all_joined s :
      server_phase s = Draining → join_set s = [] →
      server_step Main s
        {| join_set := []; bound := bound s; signals := signals s; cancelled := cancelled s;
           server_phase := Returned (Ok tt); log := log s |}.

(** ** What a run has handled *)

Definition handled_tasks (l : list LogLine) : list Task :=
  omap (λ x, match x with handled t _ => Some t | _ => None end) l.

Lemma handled_tasks_app l1 l2 : handled_tasks (l1 ++ l2) = handled_tasks l1 ++ handled_tasks l2.
Proof. apply omap_app. Qed.

Definition both : list Task := [token_exchange_api; management_api].

Record server_inv s : Prop := {
  every_task : (join_set s).*1 ++ handled_tasks (log s) ≡ₚ both;
  cancels : server_phase s ≠ Selecting → cancelled s = true;
  returns r : server_phase s = Returned r → r = Ok tt ∧ join_set s = [];
}.

Lemma signal_lines signals lines :
  wait_for_shutdown registered signals = Some lines → handled_tasks lines = [].
Proof.
  induction signals as [|[[[]|e]|] l IH]; cbn; [done|by intros [= <-]|by intros [= <-]|].
  destruct registered; [by intros [= <-]|done].
Qed.

Lemma server_step_inv l s s' : server_step l s s' → server_inv s → server_inv s'.
Proof.
  intros Hstep [Ht Hc Hr].
  destruct Hstep as [s t l1 l2 Hj _|s t l1 l2 e Hj _|s t l1 l2 Hj _|s t l1 p l2 e Hj _|s t l1 p l2 e Hj _
    |s sig|s lines Hp Hw|s t r l1 l2 Hp Hj|s t r l1 l2 Hp Hj|s Hp Hj];
    (split; cbn; [|try done|try done]);
    rewrite ?handled_tasks_app, ?fmap_app; cbn; rewrite ?app_nil_r;
    try (rewrite Hj in Ht; rewrite ?fmap_app in Ht); cbn in Ht; try done.
  all: try (intros r' Hr'; destruct (Hr _ Hr') as [_ Hnil]; rewrite Hj in Hnil; by destruct l1).
  - by rewrite (signal_lines _ _ Hw), app_nil_r.
  - rewrite <- Ht. solve_Permutation.
  - rewrite <- Ht. solve_Permutation.
  - intros _. apply Hc. congruence.
  - intros _. apply Hc. congruence.
  - by intros r [= <-].
Qed.

Definition some_step s s' : Prop := ∃ l, server_step l s s'.

Lemma server_reachable_inv s : rtc some_step spawned s → server_inv s.
Proof.
  apply (rtc_ind_r server_inv spawned); [by split|].
  intros s1 s2 _ [l Hl]. by eapply server_step_inv.
Qed.
(** C40 Shutdown is orderly.  [run_server] returns only when both server tasks have
    ended and each was handled exactly once, and as soon as it stops waiting, for a
    signal or because one task ended, the other task is told to stop.  It returns [Ok]
    whatever became of its tasks: also when neither listener ever served. *)
Theorem run_server_joins_all :
  (∀ s, rtc some_step spawned s →
     (server_phase s ≠ Selecting → cancelled s = true) ∧
     ∀ r, server_phase s = Returned r → r = Ok tt ∧ handled_tasks (log s) ≡ₚ both) ∧
  (∀ e1 e2, ∃ s, rtc some_step spawned s ∧ server_phase s = Returned (Ok tt) ∧
     log s = [handled token_exchange_api (Failed e1); handled management_api (Failed e2)]).
Proof.
  split.
  - intros s [Ht Hc Hr]%server_reachable_inv. split; [done|].
    intros r Hp. destruct (Hr _ Hp) as [-> Hj]. by rewrite Hj in Ht.
  - intros e1 e2. eexists. split; [|split].
    + eapply rtc_l; [eexists; eapply (task_failed _ token_exchange_api []); [done|by left]|].
      eapply rtc_l; [eexists; eapply (task_failed _ management_api [_]); [done|by left]|].
      eapply rtc_l; [eexists; by eapply (first_joined _ _ _ [])|].
      eapply rtc_l; [eexists; by eapply (next_joined _ _ _ [])|].
      apply rtc_once. eexists. by apply all_joined.
    + done.
    + done.
Qed.

(** ** Shutdown completes *)

Definition weight (p : TaskPhase) : nat :=
  match p with Starting => 3 | Serving => 2 | Ended _ => 1 end.
Definition work_left (l : list (Task * TaskPhase)) : nat := sum_list ((λ tp, weight tp.2) <$> l).
#[local] Arguments work_left : simpl never.
Definition has_ended (tp : Task * TaskPhase) : bool :=
  match tp.2 with Ended _ => true | _ => false end.

(** Who can bring the shutdown forward. *)
Definition next_mover s : Label :=
  if existsb has_ended (join_set s) then Main
  else match join_set s with [] => Main | (t, _) :: _ => Progress t end.

Definition draining s : Prop := server_phase s = Draining ∧ cancelled s = true.

Lemma work_left_app l1 tp l2 :
  work_left (l1 ++ tp :: l2) = (work_left (l1 ++ l2) + weight tp.2)%nat.
Proof. unfold work_left. induction l1; cbn in *; lia. Qed.
Lemma ended_split l : existsb has_ended l = true → ∃ l1 t r l2, l = l1 ++ (t, Ended r) :: l2.
Proof.
  intros ([t p] & Hin & Hp)%existsb_exists. apply list_elem_of_In, list_elem_of_split in Hin as (l1 & l2 & ->).
  destruct p as [| |r]; try done. by exists l1, t, r, l2.
Qed.

Lemma draining_enabled s : draining s → enabled server_step (next_mover s) s.
Proof.
  intros [Hp Hc]. unfold next_mover. destruct (existsb _ _) eqn:E.
  - apply ended_split in E as (l1 & t & r & l2 & Hj). eexists. by eapply next_joined.
  - destruct (join_set s) as [|[t p] l] eqn:Hj; [eexists; by apply all_joined|].
    destruct p as [| |r]; [|eexists; by eapply (serve_ended _ _ [])|done].
    destruct (may_bind (bound s) (address t)) eqn:Hb; eexists.
    + by eapply (bind_ok _ _ []).
    + by eapply (bind_failed _ _ [] _ ""%s).
Qed.

Lemma draining_descends :
  descends server_step draining (λ s, server_phase s = Returned (Ok tt)) (work_left ∘ join_set) next_mover.
Proof.
  intros l s s' [Hp Hc] Hstep.
  destruct Hstep as [s t l1 l2 Hj _|s t l1 l2 e Hj _|s t l1 l2 Hj _|s t l1 p l2 e Hj Hs|s t l1 p l2 e Hj Hs
    |s sig|s lines Hps Hw|s t r l1 l2 Hps Hj|s t r l1 l2 _ Hj|s _ Hj]; cbn in *;
    try (rewrite Hp in Hps; discriminate Hps); [..|by left]; right.
  6: { right. split_and!; [done|done|done|]. unfold next_mover. cbn.
       destruct (existsb _ _); [done|]. by destruct (join_set s) as [|[]]. }
  all: left; (split; [by split|]); rewrite Hj, ?work_left_app; cbn; try lia.
  all: destruct Hs as [-> | ->]; cbn; lia.
Qed.

(** Someone asked for the shutdown: a signal is there, or a task has ended. *)
Definition stop_requested s : Prop :=
  is_Some (wait_for_shutdown registered (signals s)) ∨ existsb has_ended (join_set s) = true.

Lemma wait_more signals sig :
  is_Some (wait_for_shutdown registered signals) →
  is_Some (wait_for_shutdown registered (signals ++ [sig])).
Proof. induction signals as [|[[]|] l IH]; cbn; [by intros []|done..|by destruct registered; auto]. Qed.

Definition selecting s : Prop := server_phase s = Selecting ∧ stop_requested s.

Lemma selecting_enabled s : selecting s → enabled server_step Main s.
Proof.
  intros [Hp [[lines Hl]|He]].
  - eexists. by eapply shutdown_signal.
  - apply ended_split in He as (l1 & t & r & l2 & Hj). eexists. by eapply first_joined.
Qed.

Lemma selecting_descends : descends server_step selecting draining (λ _, 0%nat) (λ _, Main).
Proof.
  intros l s s' [Hp Hreq] Hstep.
  assert (∀ t l1 p l2 p', join_set s = l1 ++ (t, p) :: l2 → p = Starting ∨ p = Serving →
    existsb has_ended (join_set s) = true → existsb has_ended (l1 ++ (t, p') :: l2) = true) as Hkeep.
  { intros t l1 p l2 p' -> Hs. rewrite !existsb_app, !orb_true_iff. cbn.
    rewrite !orb_true_iff. destruct Hs as [-> | ->]; naive_solver. }
  destruct Hstep as [s t l1 l2 Hj _|s t l1 l2 e Hj _|s t l1 l2 Hj _|s t l1 p l2 e Hj Hs|s t l1 p l2 e Hj Hs
    |s sig|s lines Hps Hw|s t r l1 l2 Hps Hj|s t r l1 l2 Hps Hj|s Hps Hj]; cbn in *;
    try (rewrite Hp in Hps; discriminate Hps); try (by left; split); right; right;
    (split_and!; [|done|done|done]); (split; [done|]);
    destruct Hreq as [?|?]; try (by left); try (right; cbn; by eauto).
  left. by apply wait_more.
Qed.

(** C32 The server shuts down.  In every run in which no task is stopped by the scheduler
    for ever and a cancelled listener gets done with the requests it has in hand: once
    a signal arrived that [wait_for_shutdown] heeds, or one of the two tasks has ended
    by itself, [run_server] returns. *)
Theorem server_shuts_down run n :
  is_run server_step run → run 0%nat = spawned → stop_requested (run n) →
  fair_to server_step Main run → (∀ t, fair_to server_step (Progress t) run) →
  ∃ k, server_phase (run k) = Returned (Ok tt) ∧ handled_tasks (log (run k)) ≡ₚ both.
Proof.
  intros Hrun H0 Hreq Hmain Hprog.
  assert (∀ k, server_inv (run k)) as Hinv.
  { intros k. apply server_reachable_inv. rewrite <- H0. by apply run_reachable. }
  assert (∀ k, server_phase (run k) = Returned (Ok tt) →
    ∃ k, server_phase (run k) = Returned (Ok tt) ∧ handled_tasks (log (run k)) ≡ₚ both) as Hdone.
  { intros k Hk. exists k. split; [done|]. destruct (Hinv k) as [Ht _ Hr].
    destruct (Hr _ Hk) as [_ Hj]. by rewrite Hj in Ht. }
  assert (∃ k, draining (run k) ∨ server_phase (run k) = Returned (Ok tt)) as [k [Hk|Hk]]; [|..|by apply Hdone with k].
  - destruct (server_phase (run n)) as [| |r] eqn:Hp.
    + destruct (fair_progress server_step selecting draining (λ _, 0%nat) (λ _, Main) run n) as [k Hk];
        try done; [apply selecting_descends|by apply selecting_enabled|]. exists k. by left.
    + exists n. left. split; [done|]. apply (Hinv n). by rewrite Hp.
    + exists n. right. destruct (Hinv n) as [_ _ Hr]. by destruct (Hr _ Hp) as [-> _].
  - destruct (fair_progress server_step draining _ _ next_mover run k Hrun draining_descends
      draining_enabled) as [k' Hk']; [|done|by apply Hdone with k'].
    intros s _. unfold next_mover. destruct (existsb _ _); [done|].
    destruct (join_set s) as [|[t p] l]; [done|apply Hprog].
Qed.
(** ** Both listeners of a validated configuration *)

Lemma address_inj t1 t2 :
  token_exchange_port config ≠ management_port config → address t1 = address t2 → t1 = t2.
Proof.
  intros Hne Heq%str_app_inj_l%str_app_inj_l%(inj show_Z)%(inj Z.of_N).
  by destruct t1, t2; cbn in Heq.
Qed.

(** An address in use belongs to a task that has bound it. *)
Definition bound_inv s : Prop :=
  ∀ a, a ∈ bound s → ∃ t, a = address t ∧ (t, Starting) ∉ join_set s.

Lemma bound_step l s s' : server_step l s s' → server_inv s → bound_inv s → bound_inv s'.
Proof.
  intros Hstep [Ht _ _] Hb.
  assert (NoDup (join_set s).*1) as Hnd.
  { assert (NoDup ((join_set s).*1 ++ handled_tasks (log s))) as Hnd; [|by apply NoDup_app in Hnd as [? _]].
    rewrite Ht. by apply (bool_decide_unpack _). }
  assert (∀ a (l : list (Task * TaskPhase)), a ∈ bound s → (∀ t, (t, Starting) ∈ l → (t, Starting) ∈ join_set s) →
    ∃ t, a = address t ∧ (t, Starting) ∉ l) as Hkeep.
  { intros a l' Ha Hl. destruct (Hb a Ha) as (t & -> & Hn). exists t. auto. }
  destruct Hstep as [s t l1 l2 Hj _|s t l1 l2 e Hj _|s t l1 l2 Hj _|s t l1 p l2 e Hj _|s t l1 p l2 e Hj _
    |s sig|s lines _ _|s t r l1 l2 _ Hj|s t r l1 l2 _ Hj|s _ Hj]; intros a; cbn; rewrite ?Hj in *;
    try (intros Ha; apply Hkeep; [exact Ha|]; intros t'; set_solver).
  intros [Ha|Ha]%elem_of_app; [apply Hkeep; [exact Ha|]; intros t'; set_solver|].
  apply list_elem_of_singleton in Ha as ->. exists t. split; [done|].
  rewrite fmap_app in Hnd. cbn in Hnd. apply NoDup_app in Hnd as (_ & Hd & Hnd).
  apply NoDup_cons in Hnd as [Hn _].
  intros [Hin|[[=]|Hin]%elem_of_cons]%elem_of_app.
  - apply (Hd t); [by apply (list_elem_of_fmap_2 fst) in Hin|by left].
  - apply Hn. by apply (list_elem_of_fmap_2 fst) in Hin.
Qed.

(** The two listeners of a validated configuration do not compete: if the operating
    system refuses an address only when it is in use, no bind is ever refused, and both
    APIs come to serve. *)
Lemma validated_config_binds `{ConfigEnv} :
  validate config = Ok tt → (∀ l a, a ∉ l → may_bind l a = true) →
  (∀ s t, rtc some_step spawned s → (t, Starting) ∈ join_set s →
     may_bind (bound s) (address t) = true) ∧
  ∃ s, rtc some_step spawned s ∧
    join_set s = [(token_exchange_api, Serving); (management_api, Serving)].
Proof.
  intros Hports%validate_Ok%ok_ports Hos.
  assert (∀ s, rtc some_step spawned s → server_inv s ∧ bound_inv s) as Hinv.
  { apply (rtc_ind_r (λ s, server_inv s ∧ bound_inv s) spawned).
    - split; [by split|]. intros a Ha. by apply not_elem_of_nil in Ha.
    - intros s1 s2 _ [l Hl] [? ?]. split; [by eapply server_step_inv|by eapply bound_step]. }
  assert (∀ s t, rtc some_step spawned s → (t, Starting) ∈ join_set s →
     may_bind (bound s) (address t) = true) as Hbind.
  { intros s t [_ Hb]%Hinv Hin. apply Hos. intros (t' & Heq & Hn)%Hb.
    apply address_inj in Heq; [|done]. by subst. }
  split; [done|].
  assert (some_step spawned
    (listens token_exchange_api (with_task [] token_exchange_api Serving [(management_api, Starting)] spawned)))
    as H1.
  { eexists. eapply bind_ok; [done|]. apply Hbind; [done|]. by left. }
  eexists. split; [eapply rtc_l; [exact H1|apply rtc_once; eexists; eapply (bind_ok _ management_api [_])]|].
  - done.
  - apply Hbind; [by apply rtc_once|]. by right; left.
  - done.
Qed.
End machine.

(** ** Properties of the route tables *)

(** No router registers a method of a path twice, which would make axum panic when the
    router is built, and the management listener serves, without a role, its health
    check only. *)
Lemma routes_well_formed :
  NoDup exchange_routes.*1 ∧ NoDup management_api_routes.*1 ∧
  ∀ r, r ∈ management_api_routes →
    r.2 = Endpoint.health ∨ ∃ h, r.2 = Endpoint.managed h ∧ length (roles_of h) = 1%nat.
Proof.
  split; [by apply (bool_decide_unpack _); vm_compute|].
  split; [by apply (bool_decide_unpack _); vm_compute|].
  apply Forall_forall. let l := eval vm_compute in management_api_routes in
    change management_api_routes with l.
  repeat apply Forall_cons_2; [by left|..|done]; right; by eexists.
Qed.
