(* ===== verification/Main.v ===== *)
(** * Main: the process from its start to its exit

    Models [crates/jwtlet-server/src/telemetry/mod.rs], [load_config] of
    [config/mod.rs] and [main.rs]: telemetry is set up, the configuration is loaded and
    validated, a runtime assembled, the servers run, the spans flushed, and the outcome
    becomes log lines and an exit code.  The environment, the [config] crate, the OTLP
    exporter and the tracer provider are the operations of [Platform]; [run_server] is
    the machine of [Server], so [run_jwtlet] is a relation. *)

From S2P Require Import Prelude Text Json Facet Resource MemStore PgStore K8s Token Config Assembly.
From S2P Require Import Fair Server.

(** ** The platform *)

(** [SdkTracerProvider] as [build_provider] builds it. *)
Record Provider (E : Type) : Type := { service_name : str; exporter : E }.
Arguments service_name {E} _. Arguments exporter {E} _.

Inductive ConfigSource : Set :=
  | FileSource (path : str)
  | EnvironmentSource (prefix separator : str).

Class Platform (X : Type) : Type := {
  (** The value of an environment variable, [Some None] if it is not Unicode. *)
  env_var : X → str → option (option str);
  args : X → list str;
  (** [Config::builder()] with its sources, [build] and [try_deserialize]. *)
  build_config : list ConfigSource → eff X str JwtletConfig;
  Exporter : Type;
  build_exporter : eff X str Exporter;
  provider_shutdown : Provider Exporter → eff X str unit;
  (** [EnvFilter::try_from_default_env]. *)
  env_filter : X → option str;
  display_verification_error : JwtVerificationError → str;
}.

(** [std::env::var_os(name).is_some()] and [std::env::var(name).ok()]. *)
Definition var_set {X : Type} `{Platform X} (x : X) (name : str) : bool :=
  match env_var x name with Some _ => true | None => false end.
Definition var_text {X : Type} `{Platform X} (x : X) (name : str) : option str := mjoin (env_var x name).

(** ** The process *)

Inductive Line : Set :=
  | Stderr (msg : str)
  | Info (msg : str)
  | Error (msg : str).

(** The global subscriber: its filter, and whether it exports spans. *)
Record Subscriber : Set := { sub_filter : str; sub_otel : bool }.

Record Process (X E : Type) : Type := {
  outer : AWorld X;
  propagator_set : bool;
  global_provider : option (Provider E);
  subscriber : option Subscriber;
  flushed : list (Provider E);      (* providers on which [shutdown] was called *)
  lines : list Line;
}.
Arguments outer {X E} _. Arguments propagator_set {X E} _. Arguments global_provider {X E} _.
Arguments subscriber {X E} _. Arguments flushed {X E} _. Arguments lines {X E} _.

Section process.
Context {X : Type} `{Host X} `{K8sExternal X} `{HashOrder} `{Pg X} `{ConfigEnv} {Plat : Platform X}.
Implicit Types p : Process X Exporter.

Definition with_outer (o : AWorld X) p : Process X Exporter :=
  {| outer := o; propagator_set := propagator_set p; global_provider := global_provider p;
     subscriber := subscriber p; flushed := flushed p; lines := lines p |}.
Definition with_lines (l : list Line) p : Process X Exporter :=
  {| outer := outer p; propagator_set := propagator_set p; global_provider := global_provider p;
     subscriber := subscriber p; flushed := flushed p; lines := lines p ++ l |}.
Definition with_subscriber (s : Subscriber) p : Process X Exporter :=
  {| outer := outer p; propagator_set := propagator_set p; global_provider := global_provider p;
     subscriber := Some s; flushed := flushed p; lines := lines p |}.
Definition with_globals (pr : option (Provider Exporter)) p : Process X Exporter :=
  {| outer := outer p; propagator_set := true; global_provider := pr;
     subscriber := subscriber p; flushed := flushed p; lines := lines p |}.
Definition with_flushed (pr : Provider Exporter) p : Process X Exporter :=
  {| outer := outer p; propagator_set := propagator_set p; global_provider := global_provider p;
     subscriber := subscriber p; flushed := flushed p ++ [pr]; lines := lines p |}.

(** An effect on the world outside the process. *)
Definition outside {E A : Type} (m : eff X E A) : eff (Process X Exporter) E A :=
  zoom outer with_outer (zoom host set_host m).

(** ** Telemetry *)

Definition SERVICE_NAME : str := "jwtlet"%s.

(** The propagator is installed even if the exporter then cannot be built. *)
Definition build_provider : eff (Process X Exporter) str (Provider Exporter) := λ p,
  match outside build_exporter (with_globals (global_provider p) p) with
  | (Err e, p1) => (Err e, p1)
  | (Ok exp, p1) =>
      let name := default SERVICE_NAME (var_text (host (outer p1)) "OTEL_SERVICE_NAME"%s) in
      let provider := {| service_name := name; exporter := exp |} in
      (Ok provider, with_globals (Some provider) p1)
  end.

(** [telemetry::init]; installing a second global subscriber panics. *)
Definition init p : result str (option (Provider Exporter)) * Process X Exporter :=
  let '(provider, p1) :=
    if var_set (host (outer p)) "OTEL_EXPORTER_OTLP_ENDPOINT"%s then
      match build_provider p with
      | (Ok provider, p1) => (Some provider, p1)
      | (Err e, p1) =>
          (None, with_lines [Stderr ("jwtlet: failed to initialize OpenTelemetry export (" +:+ e +:+
                               "); continuing without it")%s] p1)
      end
    else (None, p) in
  match subscriber p1 with
  | Some _ => (Err "a global default trace dispatcher has already been set"%s, p1)
  | None =>
      (Ok provider,
       with_subscriber {| sub_filter := default "info"%s (env_filter (host (outer p1)));
                          sub_otel := bool_decide (is_Some provider) |} p1)
  end.

(** [telemetry::shutdown]. *)
Definition shutdown (provider : option (Provider Exporter)) p : Process X Exporter :=
  match provider with
  | None => p
  | Some pr =>
      match outside (provider_shutdown pr) (with_flushed pr p) with
      | (Ok _, p1) => p1
      | (Err e, p1) =>
          with_lines [Stderr ("jwtlet: error shutting down tracer provider: " +:+ e)%s] p1
      end
  end.

(** ** Loading the configuration *)

Definition ENV_CONFIG_FILE : str := "JWTLET_CONFIG_FILE"%s.

Definition load_config : eff X str JwtletConfig := λ x,
  let file := config_file (var_text x ENV_CONFIG_FILE) (args x) in
  build_config (match file with Some path => [FileSource path] | None => [] end ++
                [EnvironmentSource "JWTLET"%s "__"%s]) x.

(** ** The program *)

(** [Display] for [JwtletError]. *)
Definition display_error (e : JwtletError) : str :=
  match e with
  | Configuration msg => ("Invalid configuration: " +:+ msg)%s
  | DatabaseFailed msg => ("Database error: " +:+ msg)%s
  | Vault e => ("Vault error: " +:+ e)%s
  | Verifier e => ("K8s verifier error: " +:+ display_verification_error e)%s
  | Io e => ("IO error: " +:+ e)%s
  end.

(** From the start to a runtime, with the error as it is displayed. *)
Definition start_up : eff (Process X Exporter) str JwtletConfig :=
  c ← eff_map_err (λ e, "Failed to load configuration: " +:+ e)%s (outside load_config);
  _ ← lift (map_err display (validate c));
  _ ← eff_map_err display_error (zoom outer with_outer (assemble_backend c));
  mret c.

(** [run_jwtlet]: the servers run once the runtime is there. *)
Inductive run_jwtlet (registered : bool) (may_bind : list str → str → bool) :
    Process X Exporter → result str unit → Process X Exporter → Prop :=
  | start_up_failed p e p1 :
      start_up p = (Err e, p1) → run_jwtlet registered may_bind p (Err e) p1
  | servers_returned p c p1 s r :
      start_up p = (Ok c, p1) →
      rtc (some_step c registered may_bind) spawned s → server_phase s = Returned r →
      run_jwtlet registered may_bind p (map_err (λ e, "IO error: " +:+ e)%s r) p1.

(** [main]: the exit code and the process as it ends; 101 is Rust's code for a panic. *)
Inductive main (registered : bool) (may_bind : list str → str → bool) :
    Process X Exporter → Z → Process X Exporter → Prop :=
  | main_panics p e p1 :
      init p = (Err e, p1) → main registered may_bind p 101 p1
  | main_ok p provider p1 p2 :
      init p = (Ok provider, p1) → run_jwtlet registered may_bind p1 (Ok tt) p2 →
      main registered may_bind p 0 (with_lines [Info "Shutdown complete"%s] (shutdown provider p2))
  | main_err p provider p1 e p2 :
      init p = (Ok provider, p1) → run_jwtlet registered may_bind p1 (Err e) p2 →
      main registered may_bind p 1 (with_lines [Error ("Fatal error: " +:+ e)%s] (shutdown provider p2)).

(** ** Telemetry is never fatal *)

Lemma outside_frame {E A : Type} (m : eff X E A) p r p1 :
  outside m p = (r, p1) →
  ∃ x, m (host (outer p)) = (r, x) ∧ p1 = with_outer (set_host x (outer p)) p.
Proof. unfold outside, zoom. destruct (m _) as [r0 x]. intros [= <- <-]. eauto. Qed.

(** [init] gives a provider exactly when an endpoint is configured and the exporter can
    be built; with an endpoint the propagator is installed in any case; and unless a
    subscriber was there before, the process goes on. *)
Lemma init_spec p :
  subscriber p = None →
  ∃ provider p1, init p = (Ok provider, p1) ∧
    propagator_set p1 = propagator_set p || var_set (host (outer p)) "OTEL_EXPORTER_OTLP_ENDPOINT"%s ∧
    (is_Some provider ↔ var_set (host (outer p)) "OTEL_EXPORTER_OTLP_ENDPOINT"%s = true ∧
       is_Ok (build_exporter (host (outer p))).1 = true) ∧
    (sub_otel <$> subscriber p1) = Some (bool_decide (is_Some provider)) ∧
    flushed p1 = flushed p ∧ warnings (outer p1) = warnings (outer p).
Proof.
  intros Hs. unfold init. destruct (var_set _ _) eqn:Hv.
  - unfold build_provider. destruct (outside _ _) as [r p1] eqn:E.
    apply outside_frame in E as (x & E & ->). cbn in E. rewrite E.
    destruct r as [exp|e]; cbn; rewrite Hs; eexists _, _; (split; [reflexivity|]); cbn;
      rewrite orb_true_r; (split_and!; try done); (split; [|naive_solver]);
      intros Hex; (split; [done|]); try done; by destruct Hex.
  - rewrite Hs. eexists _, _. split; [reflexivity|]. cbn. rewrite orb_false_r.
    split_and!; try done. split; [by intros [? ?]|by intros [? _]].
Qed.

Lemma shutdown_flushes provider p :
  flushed (shutdown provider p) = flushed p ++ option_list provider.
Proof.
  destruct provider as [pr|]; cbn; [|by rewrite app_nil_r].
  destruct (outside _ _) as [r p1] eqn:E. apply outside_frame in E as (x & _ & ->). by destruct r.
Qed.

(** ** Start-up *)

(** Start-up in its order: what is not valid is not assembled. *)
Lemma start_up_run p r p1 :
  start_up p = (r, p1) →
  flushed p1 = flushed p ∧
  ((∃ e, (load_config (host (outer p))).1 = Err e ∧ r = Err ("Failed to load configuration: " +:+ e)%s) ∨
   ∃ c x, load_config (host (outer p)) = (Ok c, x) ∧
     ((∃ v, validate c = Err v ∧ r = Err (display v) ∧ outer p1 = set_host x (outer p)) ∨
      (validate c = Ok tt ∧ ∃ ra, assemble_backend c (set_host x (outer p)) = (ra, outer p1) ∧
         r = map_err display_error ((λ _, c) <$> ra)))).
Proof.
  unfold start_up, mbind, eff_bind, eff_map_err. destruct (outside _ _) as [r0 p0] eqn:E.
  apply outside_frame in E as (x & E & ->). rewrite E.
  destruct r0 as [c|e]; cbn; [|intros [= <- <-]; split; [done|]; left; eauto].
  destruct (validate c) as [[]|v] eqn:Hv; cbn.
  2: { intros [= <- <-]. split; [done|]. right. exists c, x. split; [done|]. left. eauto. }
  unfold zoom. cbn. destruct (assemble_backend _ _) as [ra o] eqn:Ha.
  destruct ra as [rt|ea]; intros [= <- <-]; (split; [done|]); right; exists c, x;
    (split; [done|]); right; (split; [done|]); eauto.
Qed.

Lemma run_jwtlet_run registered may_bind p r p1 :
  run_jwtlet registered may_bind p r p1 →
  flushed p1 = flushed p ∧
  ((r = Ok tt ∧ ∃ c, start_up p = (Ok c, p1)) ∨ ∃ e, r = Err e ∧ start_up p = (Err e, p1)).
Proof.
  intros [p0 e p2 Hs|p0 c p2 s r0 Hs Hreach Hp].
  - destruct (start_up_run _ _ _ Hs) as [? _]. split; [done|]. right. eauto.
  - destruct (start_up_run _ _ _ Hs) as [? _]. split; [done|].
    apply server_reachable_inv in Hreach as [_ _ Hr]. destruct (Hr _ Hp) as [-> _]. left. eauto.
Qed.

(** C33 The exit code reports the start-up.  A process that starts without a subscriber
    never panics in its telemetry.  It exits with 1, after the line "Fatal error" with
    the message, exactly if the configuration could not be loaded, was not valid, or
    could not be assembled; once the servers were started it exits with 0, however
    they ended.  In both cases the spans are flushed exactly once, after the servers
    have returned and before the last line, if there is a provider. *)
Theorem main_exit_code registered may_bind p code p' :
  subscriber p = None → flushed p = [] → main registered may_bind p code p' →
  ∃ provider p1, init p = (Ok provider, p1) ∧ flushed p' = option_list provider ∧
    ((code = 0%Z ∧ last (lines p') = Some (Info "Shutdown complete"%s) ∧
      is_Ok (start_up p1).1 = true) ∨
     (code = 1%Z ∧ ∃ e, last (lines p') = Some (Error ("Fatal error: " +:+ e)%s) ∧
      (start_up p1).1 = Err e)).
Proof.
  intros Hs Hf Hm. destruct (init_spec p Hs) as (provider & p1 & Hi & _ & _ & _ & Hf1 & _).
  exists provider, p1. split; [done|].
  destruct Hm as [p e p2 Hi'|p pr p1' p2 Hi' Hr|p pr p1' e p2 Hi' Hr]; rewrite Hi in Hi'; simplify_eq.
  all: apply run_jwtlet_run in Hr as [Hf2 [(Heq & c & Hst)|(e' & Heq & Hst)]]; simplify_eq;
    rewrite Hst; cbn; rewrite shutdown_flushes, Hf2, Hf1, Hf; (split; [done|]).
  - left. split_and!; [done|by rewrite last_snoc|done].
  - right. split; [done|]. exists e'. split; [by rewrite last_snoc|done].
Qed.
End process.
