(* ===== verification/Samples.v ===== *)
(** * Samples: concrete instances of every interface

    A verifier that knows three tokens, a signer, a clock, a database that can be told
    to fail, an API server that answers from a script and a host to assemble on.  They
    show that the interfaces and their laws can be met, and they are the inputs at
    which [Witnesses] evaluates the theorems. *)

From S2P Require Import Prelude Text Json Facet Resource Policy MemStore PgStore Service.
From S2P Require Import SAccount K8s Renewal Token TokenProps System Management ManagementProps Config Assembly.
From S2P Require Import Steps Fair Fresh Server Main.

#[export] Instance sample_order : HashOrder := canonical_order.

(** ** The collaborators of an exchange *)

(** The state beside the store: the time, the number of UUIDs given out, and the
    claims signed so far. *)
Record Rest : Set := { clock : Z; uuids : Z; signed : list TokenClaims }.

Definition APP : str := "system:serviceaccount:prod:app"%s.
Definition ADMIN : str := "system:serviceaccount:jwtlet:admin"%s.
Definition READER : str := "system:serviceaccount:jwtlet:reader"%s.

Definition sample_claims (sub aud : str) : TokenClaims :=
  {| tc_sub := sub; tc_iss := "https://cluster"%s; tc_aud := aud; tc_iat := 0; tc_exp := 0;
     tc_nbf := None; tc_custom := {[ K8S_UID_CLAIM := Value.String "uid-1"%s ]} |}.

#[export] Instance rest_verifier : JwtVerifier Rest := {|
  Facet.verify_token aud tok := λ w,
    (if bool_decide (tok = "app"%s) then Ok (sample_claims APP aud)
     else if bool_decide (tok = "admin"%s) then Ok (sample_claims ADMIN aud)
     else if bool_decide (tok = "reader"%s) then Ok (sample_claims READER aud)
     else Err InvalidSignature, w) |}.

#[export] Instance rest_steps : SteppedVerifier Rest := one_step.

#[export] Instance rest_generator : JwtGenerator Rest := {|
  JwtGenerationError := str;
  generate_token pc c := λ w,
    if is_empty (pc_id pc) then (Err "no key"%s, w)
    else (Ok ("jwt-for-" +:+ tc_sub c)%s,
          {| clock := clock w; uuids := uuids w; signed := signed w ++ [c] |}) |}.

#[export] Instance rest_ambient : Ambient Rest := {|
  now w := (clock w, {| clock := clock w + 1; uuids := uuids w; signed := signed w |});
  new_uuid w := (("uuid-" +:+ show_Z (uuids w))%s,
                 {| clock := clock w; uuids := uuids w + 1; signed := signed w |});
|}.

Definition sample_accounts : gmap str (list str) :=
  {[ ADMIN := [ROLE_MAPPINGS_WRITE; ROLE_SCOPES_WRITE; ROLE_MANAGEMENT_READ];
     READER := [ROLE_MANAGEMENT_READ] ]}.

#[export] Instance world_authorizer {S X : Type} : ServiceAccountAuthorizer (World S X) :=
  memory_authorizer (account_store sample_accounts) (World S X).

#[export] Instance world_management_frame {S X : Type} `{StoreContract S, JwtVerifier X} :
  ManagementFrame (World S X).
Proof.
  split.
  - intros a t w r w' Hv%on_rest_store Hinv. cbn in *. by rewrite Hv.
  - intros c req w r w' [= _ <-]. done.
Qed.

(** ** A policy and the worlds that hold it *)

Definition READ_SCOPE : ScopeMapping :=
  {| scope := "read"%s; claims := {[ "roles"%s := Value.String "viewer"%s ]} |}.
Definition WRITE_SCOPE : ScopeMapping :=
  {| scope := "write"%s; claims := {[ "roles"%s := Value.String "editor"%s;
                                      "level"%s := Value.Number (Value.PosInt 2) ]} |}.
Definition OTHER_SCOPE : ScopeMapping :=
  {| scope := "other"%s; claims := {[ "level"%s := Value.Number (Value.PosInt 3) ]} |}.

Definition APP_MAPPING : ResourceMapping :=
  {| client_identifier := APP; participant_context := "tenant"%s;
     scopes := {[ "read"; "write"; "other" ]}%s; audiences := {[ "api"%s ]} |}.

(** The in-memory store after the mapping and the scopes were created. *)
Definition loaded_store : InnerStore :=
  {| entries := {[ (APP, "tenant"%s) := APP_MAPPING ]};
     scope_entries := {[ "read"%s := READ_SCOPE; "write"%s := WRITE_SCOPE; "other"%s := OTHER_SCOPE ]} |}.

Abbreviation SWorld := (World InnerStore Rest).
Definition sample_rest : Rest := {| clock := 1000; uuids := 0; signed := [] |}.
Definition empty_world : SWorld := {| w_store := MemoryResourceStore.new; w_rest := sample_rest |}.
Definition loaded_world : SWorld := {| w_store := loaded_store; w_rest := sample_rest |}.

Definition sample_service : TokenExchangeService :=
  {| client_audience := "jwtlet"%s; audience := "api"%s; issuer := "https://jwtlet"%s;
     jwtlet_participant_context := "jwtlet_pc"%s; token_ttl_secs := 3600 |}.

Lemma loaded_store_inv : mem_inv loaded_store.
Proof. split; by apply (bool_decide_unpack _); vm_compute. Qed.

(** ** A database that can fail

    Every call takes the next entry of [faults]: [None] is no fault, [Some b] is a
    failure, after the statement took effect if [b] holds and before otherwise. *)

Record PgSim : Set := { sim_tables : Tables; faults : list (option bool) }.

Definition sim_error : SqlxError := OtherError "connection lost"%s.
Definition unique_violation : SqlxError := Database (Some "23505"%s) "duplicate key"%s.

Definition next_fault (d : PgSim) : option bool * PgSim :=
  match faults d with
  | [] => (None, d)
  | f :: fs => (f, {| sim_tables := sim_tables d; faults := fs |})
  end.

Definition with_tables (t : Tables) (d : PgSim) : PgSim :=
  {| sim_tables := t; faults := faults d |}.

(** What a statement does to the tables: rows affected, or a unique violation. *)
Definition run_sql (sql : str) (binds : list Bind) (t : Tables) : option N * Tables :=
  match binds with
  | [BText c; BText p; BTextArray s; BTextArray a] =>
      if bool_decide (sql = INSERT_MAPPING) then
        if has_mapping (c, p) t then (None, t) else (Some 1%N, set_mapping_rows <[(c, p) := (s, a)]> t)
      else if bool_decide (sql = UPDATE_MAPPING) then
        (Some (count (has_mapping (c, p) t)), set_mapping_rows (alter (λ _, (s, a)) (c, p)) t)
      else (Some 0%N, t)
  | [BText c; BText p] =>
      if bool_decide (sql = DELETE_MAPPING) then
        (Some (count (has_mapping (c, p) t)), set_mapping_rows (delete (c, p)) t)
      else (Some 0%N, t)
  | [BText c] =>
      if bool_decide (sql = DELETE_MAPPINGS_FOR) then
        (Some (N.of_nat (size (filter (λ kv, kv.1.1 = c) (mapping_rows t)))),
         set_mapping_rows (filter (λ kv, kv.1.1 ≠ c)) t)
      else if bool_decide (sql = DELETE_SCOPE) then
        (Some (count (has_scope c t)), set_scope_rows (delete c) t)
      else (Some 0%N, t)
  | [BText s; BJson v] =>
      if bool_decide (sql = INSERT_SCOPE) then
        if has_scope s t then (None, t) else (Some 1%N, set_scope_rows <[s := v]> t)
      else if bool_decide (sql = UPDATE_SCOPE) then
        (Some (count (has_scope s t)), set_scope_rows (alter (λ _, v) s) t)
      else (Some 0%N, t)
  | _ => (Some 0%N, t)
  end.

(** Runs a statement on tables [t] under a fault. *)
Definition faulty (f : option bool) (sql : str) (binds : list Bind) (t : Tables) :
    result SqlxError N * Tables :=
  match f with
  | Some false => (Err sim_error, t)
  | _ =>
      match run_sql sql binds t with
      | (None, _) => (Err (match f with Some _ => sim_error | None => unique_violation end), t)
      | (Some n, t') => (match f with Some _ => Err sim_error | None => Ok n end, t')
      end
  end.

Definition sim_query {A : Type} (ans : Tables → A) : eff PgSim SqlxError A := λ d,
  let '(f, d') := next_fault d in
  (match f with Some _ => Err sim_error | None => Ok (ans (sim_tables d)) end, d').

#[export] Instance pg_sim : Pg PgSim := {|
  Tx := Tables;
  execute sql binds := λ d,
    let '(f, d1) := next_fault d in
    let '(r, t) := faulty f sql binds (sim_tables d) in (r, with_tables t d1);
  fetch_optional_mapping sql binds :=
    sim_query (λ t, match binds with
                    | [BText c; BText p] => mapping_row (c, p) <$> mapping_rows t !! (c, p)
                    | _ => None
                    end);
  fetch_all_mappings sql binds :=
    sim_query (λ t, (λ kr, mapping_row kr.1 kr.2) <$> map_to_list (mapping_rows t));
  fetch_all_scopes sql binds :=
    sim_query (λ t, match binds with
                    | [BTextArray l] => scope_row <$> map_to_list (filter (λ kv, kv.1 ∈ l) (scope_rows t))
                    | _ => scope_row <$> map_to_list (scope_rows t)
                    end);
  begin := sim_query id;
  tx_execute sql binds := λ td,
    let '(f, d1) := next_fault td.2 in
    let '(r, t) := faulty f sql binds td.1 in (r, (t, d1));
  commit tx := λ d,
    let '(f, d1) := next_fault d in
    match f with
    | None => (Ok tt, with_tables tx d1)
    | Some true => (Err sim_error, with_tables tx d1)
    | Some false => (Err sim_error, d1)
    end;
  rollback tx d := d;
|}.

Lemma next_fault_tables d : sim_tables (next_fault d).2 = sim_tables d.
Proof. unfold next_fault. by destruct (faults d). Qed.

Lemma sim_query_answers {A : Type} (q : Tables → A) (P : Tables → A → Prop) :
  (∀ t, P t (q t)) → answers sim_tables (sim_query q) P.
Proof.
  intros Hq d r d'. unfold sim_query. pose proof (next_fault_tables d) as Ht.
  destruct (next_fault d) as [[f|] d1]; cbn in Ht; intros [= <- <-]; auto.
Qed.

(** A statement under a fault does what the laws allow. *)
Lemma faulty_performs f sql binds t r t' (taken : Tables → bool) n g :
  run_sql sql binds t = (if taken t then (None, t) else (Some (n t), g t)) →
  faulty f sql binds t = (r, t') →
  match r with
  | Ok a => taken t = false ∧ a = n t ∧ t' = g t
  | Err e =>
      if is_unique_violation e then taken t = true ∧ t' = t
      else t' = t ∨ (taken t = false ∧ t' = g t)
  end.
Proof.
  intros Hs. unfold faulty. rewrite Hs.
  assert (is_unique_violation unique_violation = true) as Hu by by vm_compute.
  destruct f as [[]|], (taken t); intros [= <- <-]; rewrite ?Hu; cbn; auto.
Qed.

Lemma sim_execute_performs sql binds (taken : Tables → bool) n g :
  (∀ t, run_sql sql binds t = (if taken t then (None, t) else (Some (n t), g t))) →
  performs sim_tables (execute (D := PgSim) sql binds) taken n g.
Proof.
  intros Hs d r d'. cbn. pose proof (next_fault_tables d) as Ht.
  destruct (next_fault d) as [f d1]. cbn in Ht.
  destruct (faulty f sql binds (sim_tables d)) as [r0 t] eqn:E. intros [= <- <-]. cbn.
  by eapply faulty_performs.
Qed.

Lemma sim_tx_performs sql binds (taken : Tables → bool) n g :
  (∀ t, run_sql sql binds t = (if taken t then (None, t) else (Some (n t), g t))) →
  performs (λ td : Tables * PgSim, td.1) (tx_execute (D := PgSim) sql binds) taken n g.
Proof.
  intros Hs [tx d] r [tx' d']. cbn. destruct (next_fault d) as [f d1].
  destruct (faulty f sql binds tx) as [r0 t] eqn:E. intros [= <- <- <-]. cbn.
  by eapply faulty_performs.
Qed.

(** The database obeys the laws that the store relies on. *)
#[export, refine] Instance pg_sim_laws : PgLaws PgSim := {|
  tables := sim_tables;
  tx_tables := id;
|}.
Proof.
  all: try (intros; by apply sim_execute_performs).
  - intros c p. by apply sim_query_answers.
  - intros l. by apply sim_query_answers.
  - by apply sim_query_answers.
  - by apply sim_query_answers.
  - by apply sim_query_answers.
  - intros sql binds tx d r tx' d'. cbn. pose proof (next_fault_tables d) as Ht.
    destruct (next_fault d) as [f d1]. destruct (faulty _ _ _ _). cbn in Ht. by intros [= <- <- <-].
  - intros s v. by apply sim_tx_performs.
  - intros sql Hsql. apply sim_tx_performs. intros t. done.
  - intros tx d r d'. cbn. pose proof (next_fault_tables d) as Ht.
    destruct (next_fault d) as [[[]|] d1]; cbn in Ht; intros [= <- <-]; cbn; eauto.
  - done.
Defined.

(** The tables that represent the same policy as [loaded_store]. *)
Definition loaded_tables : Tables :=
  {| mapping_rows := {[ (APP, "tenant"%s) := (["read"; "write"; "other"], ["api"])%s ]};
     scope_rows := {[ "read"%s := Value.Object (claims READ_SCOPE);
                      "write"%s := Value.Object (claims WRITE_SCOPE);
                      "other"%s := Value.Object (claims OTHER_SCOPE) ]} |}.

Definition loaded_db (fs : list (option bool)) : PgSim :=
  {| sim_tables := loaded_tables; faults := fs |}.

(** ** An API server and a host *)

(** The content of the token file, and the answers the API server will give. *)
Record KSim : Set := {
  token_content : option str;
  script : list (result ReqwestError HttpResponse);
}.

Definition no_answer : ReqwestError := {| re_status := None; re_display := "timeout"%s |}.

#[export] Instance k8s_sim : K8sExternal KSim := {|
  read_to_string path x := (match token_content x with Some t => Ok t | None => Err "not found"%s end, x);
  post_review url bearer q x :=
    match script x with
    | [] => (Err no_answer, x)
    | r :: rs => (r, {| token_content := token_content x; script := rs |})
    end;
  recommended_watcher x := (Ok tt, x);
  watch path x := (Ok tt, x);
  show_status n := show_Z (Z.of_N n);
|}.

Definition sample_verifier : K8sTokenReviewVerifier :=
  {| api_server_url := "https://kubernetes"%s; cluster_issuer := "https://cluster"%s;
     token_file := "/var/run/token"%s; require_service_account := true |}.

Definition sample_review : TokenReviewResponse :=
  {| status := {| authenticated := true;
       user := Some {| username := APP; uid := Some "uid-1"%s; groups := [SERVICE_ACCOUNTS_GROUP] |};
       error := None; status_audiences := ["jwtlet"]%s |} |}.

(** The server refuses the first credential and accepts the second. *)
Definition rotating_script : list (result ReqwestError HttpResponse) :=
  [Ok {| resp_status := 401; resp_json := Err ""%s |};
   Ok {| resp_status := 201; resp_json := Ok sample_review |}].

Definition rotated_world : KWorld (list ReviewCall * KSim) :=
  {| cell := Some {| sa_token := "old"%s |};
     ext := ([], {| token_content := Some "new "%s; script := rotating_script |}) |}.

#[export] Instance sample_env : ConfigEnv := {|
  url_scheme url :=
    if starts_with "https://"%s url then Some "https"%s
    else if starts_with "http://"%s url then Some "http"%s else None;
  path_exists _ := true;
|}.

#[export] Instance sim_host : Host KSim := {|
  VaultClient := str * str * str;
  KeyResolver := str;
  Certificate := unit;
  HttpClient := option unit;
  PgPool := str;
  vault_new url file key := mret (url, file, key);
  vault_initialize client := mret client;
  key_resolver_initialize client context := mret context;
  temp_path name x := (("/tmp/" +:+ name)%s, x);
  fresh_uuid x := ("uuid"%s, x);
  create_private path contents := mret tt;
  host_path_exists path x := (false, x);
  read_file path := lift (Err "not found"%s);
  certificate_from_pem pem := Ok tt;
  build_http_client options := mret (root_certificate options);
  pg_url_error url := if starts_with "postgres://"%s url then None else Some "bad scheme"%s;
  pg_connect calls url opts := mret url;
|}.

(** A host without a database. *)
#[export] Instance no_database : Pg KSim := {|
  Tx := unit;
  execute sql binds := lift (Err sim_error);
  fetch_optional_mapping sql binds := lift (Err sim_error);
  fetch_all_mappings sql binds := lift (Err sim_error);
  fetch_all_scopes sql binds := lift (Err sim_error);
  begin := lift (Err sim_error);
  tx_execute sql binds := lift (Err sim_error);
  commit tx := lift (Err sim_error);
  rollback tx d := d;
|}.

Definition sample_config (backend : StorageBackend) : JwtletConfig :=
  {| token_exchange_port := 8080; management_port := 8081; bind := DEFAULT_BIND_ADDRESS;
     cfg_issuer := Some "https://jwtlet"%s; storage_backend := backend;
     k8s := {| k8s_api_server_url := Some "https://kubernetes"%s;
               k8s_cluster_issuer := Some "https://cluster"%s;
               k8s_token_file := DEFAULT_SA_TOKEN_FILE |};
     token := {| cfg_client_audience := Some "jwtlet"%s; cfg_audience := Some "api"%s;
                 participant_context_claim := "jwtlet_pc"%s; cfg_token_ttl_secs := 3600 |};
     vault := {| vault_url := Some "https://vault"%s; vault_token := None;
                 vault_token_file := Some "/vault/token"%s |};
     service_accounts := sample_accounts;
     management := {| mgmt_client_audience := Some "jwtlet-admin"%s |} |}.

Definition sample_host : AWorld KSim :=
  {| host := {| token_content := Some "sa-token"%s; script := [] |}; warnings := [] |}.

(** An API server that knows the administrator and then the client, for a server that
    runs on the host itself. *)
Definition accepted (name aud : str) : result ReqwestError HttpResponse :=
  Ok {| resp_status := 201;
        resp_json := Ok {| status := {| authenticated := true;
          user := Some {| username := name; uid := None; groups := [SERVICE_ACCOUNTS_GROUP] |};
          error := None; status_audiences := [aud] |} |} |}.

Definition reviewing_host : AWorld KSim :=
  {| host := {| token_content := Some "sa-token"%s;
                script := [accepted ADMIN "jwtlet-admin"%s; accepted APP "jwtlet"%s] |};
     warnings := [] |}.

#[export] Instance ksim_generator : JwtGenerator KSim := {|
  JwtGenerationError := str;
  generate_token pc c := mret ("jwt-for-" +:+ tc_sub c)%s;
|}.

#[export] Instance ksim_ambient : Ambient KSim := {|
  now x := (1000%Z, x);
  new_uuid x := ("uuid"%s, x);
|}.

(** ** A run of the server, and a process around it *)

(** An operating system that refuses an address only when it is in use. *)
Definition sample_bind (used : list str) (a : str) : bool := negb (bool_decide (a ∈ used)).

(** Both listeners come up, a SIGTERM arrives, both finish. *)
Definition shutdown_states : list ServerState :=
  let c := sample_config Memory in
  let s0 := spawned in
  let s1 := listens c token_exchange_api
              (with_task [] token_exchange_api Serving [(management_api, Starting)] s0) in
  let s2 := listens c management_api
              (with_task [(token_exchange_api, Serving)] management_api Serving [] s1) in
  let s3 := {| join_set := join_set s2; bound := bound s2; signals := signals s2 ++ [SigTerm];
               cancelled := cancelled s2; server_phase := server_phase s2; log := log s2 |} in
  let s4 := drains true (join_set s3) ([] ++ [received_shutdown]) s3 in
  let s5 := with_task [] token_exchange_api (Ended Completed) [(management_api, Serving)] s4 in
  let s6 := drains (cancelled s5) [(management_api, Serving)] [handled token_exchange_api Completed] s5 in
  let s7 := with_task [] management_api (Ended Completed) [] s6 in
  let s8 := drains (cancelled s7) [] [handled management_api Completed] s7 in
  let s9 := {| join_set := []; bound := bound s8; signals := signals s8; cancelled := cancelled s8;
               server_phase := Returned (Ok tt); log := log s8 |} in
  [s0; s1; s2; s3; s4; s5; s6; s7; s8; s9].

Definition shutdown_run (n : nat) : ServerState := nth n shutdown_states (default spawned (last shutdown_states)).

Lemma shutdown_run_is_run :
  is_run (server_step (sample_config Memory) true sample_bind) shutdown_run.
Proof.
  intros n. destruct n as [|[|[|[|[|[|[|[|[|n]]]]]]]]]; [right..|].
  - eexists. by eapply (bind_ok _ _ _ _ token_exchange_api []).
  - eexists. by eapply (bind_ok _ _ _ _ management_api [_]).
  - eexists. apply signal_arrives.
  - eexists. by eapply shutdown_signal.
  - eexists. by eapply (serve_ended _ _ _ _ token_exchange_api []).
  - eexists. by eapply (next_joined _ _ _ _ token_exchange_api _ []).
  - eexists. by eapply (serve_ended _ _ _ _ management_api []).
  - eexists. by eapply (next_joined _ _ _ _ management_api _ []).
  - eexists. by eapply all_joined.
  - left. by destruct n as [|[|n]].
Qed.

(** Once the server has returned, only signals still arrive. *)
Lemma shutdown_run_fair l :
  l ≠ Arrival → fair_to (server_step (sample_config Memory) true sample_bind) l shutdown_run.
Proof.
  intros Hl n. exists (10 + n)%nat. split; [lia|]. left.
  assert (shutdown_run (10 + n) = default spawned (last shutdown_states)) as -> by by destruct n.
  intros [s' Hs]. inversion Hs; subst; try done;
    match goal with H : join_set _ = ?l1 ++ _ |- _ => by destruct l1 end.
Qed.

(** The token file is rotated; a verifier reads it, the watcher reports an access and
    then the change, an error of the watcher follows, and the task renews the credential
    before the verifier writes the cell and the task stops. *)
Definition rotation_states : list RState :=
  let s0 := started "old"%s (Ok "old"%s) in
  let s1 := with_file (Ok "new "%s) s0 in
  let s2 := with_refreshing ["new "%s] s1 in
  let s3 := with_queue [Ok Access] s2 in
  let s4 := with_queue [Ok Access; Ok Modify] s3 in
  let s5 := with_queue [Ok Access; Ok Modify; Err "overflow"%s] s4 in
  let s6 := with_queue [Ok Modify; Err "overflow"%s] s5 in
  let s7 := with_phase Reading (with_queue [Err "overflow"%s] s6) in
  let s8 := with_phase (Writing "new "%s) s7 in
  let s9 := with_phase Waiting (with_token (trim "new "%s) s8) in
  let s10 := with_refreshing [] (with_token (trim "new "%s) s9) in
  [s0; s1; s2; s3; s4; s5; s6; s7; s8; s9; s10; with_phase Stopped (with_queue [] s10)].

Definition rotation_run (n : nat) : RState := nth n rotation_states (default (started ""%s (Err ""%s)) (last rotation_states)).

Lemma rotation_run_is_run : is_run renewal_step rotation_run.
Proof.
  intros n. destruct n as [|[|[|[|[|[|[|[|[|[|[|n]]]]]]]]]]]; [right..|].
  - exists ByOthers. apply outside_moves, file_changes.
  - exists ByOthers. apply verifier_moves. by apply (refresh_read _ [] "new "%s []).
  - exists ByOthers. apply outside_moves. exact (event_arrives (rotation_run 2) (Ok Access)).
  - exists ByOthers. apply outside_moves. exact (event_arrives (rotation_run 3) (Ok Modify)).
  - exists ByOthers. apply outside_moves. exact (event_arrives (rotation_run 4) (Err "overflow"%s)).
  - exists ByTask. apply task_moves. by eapply recv_ignored.
  - exists ByTask. apply task_moves. by eapply recv_change.
  - exists ByTask. apply task_moves. by eapply read_ok.
  - exists ByTask. apply task_moves. by eapply write_cell.
  - exists ByOthers. apply verifier_moves. by apply (refresh_write _ [] "new "%s []).
  - exists ByTask. apply task_moves. by eapply recv_error.
  - left. by destruct n as [|[|n]].
Qed.

Lemma rotation_run_fair : fair_to renewal_step ByTask rotation_run.
Proof.
  intros n. exists (12 + n)%nat. split; [lia|]. left.
  assert (rotation_run (12 + n) = default (started ""%s (Err ""%s)) (last rotation_states)) as -> by by destruct n.
  intros [s' Hs]. inversion Hs as [s s'' Ht| |]; subst. inversion Ht; subst; discriminate.
Qed.

(** A process with an OTLP endpoint whose configuration is the sample. *)
#[export] Instance sim_platform : Platform KSim := {|
  env_var x name :=
    if bool_decide (name = "OTEL_EXPORTER_OTLP_ENDPOINT"%s) then Some (Some "http://otel"%s) else None;
  args x := ["jwtlet"; "/etc/jwtlet.yaml"]%s;
  build_config sources := λ x,
    (if bool_decide (token_content x = None) then Err "no file"%s else Ok (sample_config Memory), x);
  Exporter := unit;
  build_exporter := mret tt;
  provider_shutdown p := lift (Err "timeout"%s);
  env_filter x := None;
  display_verification_error e := "error"%s;
|}.

Definition sample_process (token : option str) : Process KSim Exporter :=
  {| outer := {| host := {| token_content := token; script := [] |}; warnings := [] |};
     propagator_set := false; global_provider := None; subscriber := None; flushed := []; lines := [] |}.
