(* ===== verification/Witnesses.v ===== *)
(** * Witnesses: the theorems at concrete inputs

    Each lemma applies one theorem of the development to the worlds of [Samples],
    where all its hypotheses hold by evaluation. *)

From S2P Require Import Prelude Text Json Facet Resource Policy MemStore PgStore Service.
From S2P Require Import ServiceProps ServiceSpec Stores SAccount K8s Renewal Token TokenProps System Exchange.
From S2P Require Import Management ManagementProps Deployment Config Assembly AssemblyProps Server Samples.
From S2P Require Import Steps Credentials Fresh Reads Phases Concurrent Progress Assembled PgTypes Fair Main.

(** Only the result of a run is evaluated, not the world it ends in. *)
Lemma run_result {W E A : Type} (m : eff W E A) (w : W) (r : result E A) :
  (m w).1 = r → m w = (r, (m w).2).
Proof. destruct (m w). by intros <-. Qed.

Lemma service_refines_policy_witness :
  let ops := [OpVerify APP "tenant"%s ["read"; "write"]%s; OpRemove APP "tenant"%s;
              OpVerify APP "tenant"%s []; OpListMappings] in
  promised_run False ops (mem_view loaded_store)
    (run_ops ops loaded_store).1 (mem_view (run_ops ops loaded_store).2).
Proof.
  intros ops.
  refine (proj2 (service_refines_policy (W := InnerStore) ops loaded_store _ _ loaded_store_inv _)).
  apply surjective_pairing.
Defined.

Lemma reachable_policy_ok_witness :
  policy_ok (mem_view (run_ops [OpSave APP_MAPPING; OpSaveScopes [READ_SCOPE]]
                         MemoryResourceStore.new).2).
Proof.
  refine (proj2 (reachable_policy_ok (W := InnerStore) [OpSave APP_MAPPING; OpSaveScopes [READ_SCOPE]] MemoryResourceStore.new _ _ mem_new_inv _ _)).
  - change (policy_ok (mem_view MemoryResourceStore.new)). rewrite mem_new_view. apply empty_policy_ok.
  - apply surjective_pairing.
Defined.

Lemma verify_decides_witness :
  let run := ResourceService.verify APP "tenant"%s ["write"; "read"]%s loaded_store in
  ∃ vr, run.1 = Ok vr ∧ verified vr = true ∧ mem_view run.2 = mem_view loaded_store ∧
    vr_claims vr !! "roles"%s = Some (Value.String "viewer editor"%s).
Proof.
  intros run. eexists. split; [vm_compute; reflexivity|]. split; [reflexivity|].
  split; [|vm_compute; reflexivity].
  refine (proj1 (verify_decides (W := InnerStore) APP "tenant"%s ["write"; "read"]%s loaded_store
    _ _ loaded_store_inv (run_result _ _ _ _))). reflexivity.
Defined.

Lemma verify_scope_set_witness :
  ResourceService.verify APP "tenant"%s ["read"; "write"; "read"]%s loaded_store =
  ResourceService.verify APP "tenant"%s ["write"; "read"]%s loaded_store.
Proof. apply verify_scope_set. intros s. set_solver. Defined.

Lemma save_scope_mappings_atomic_witness :
  let r := ResourceService.save_scope_mappings [READ_SCOPE; WRITE_SCOPE] (loaded_db [None; None; Some false]) in
  r.1 = Err (Conflict "read"%s) ∧ pg_view (tables r.2) = pg_view loaded_tables.
Proof.
  split; [vm_compute; reflexivity|].
  refine (proj1 (save_scope_mappings_atomic (W := PgSim) [READ_SCOPE; WRITE_SCOPE]
    (loaded_db [None; None; Some false]) (Err (Conflict "read"%s)) _ I (run_result _ _ _ _))).
  vm_compute. reflexivity.
Defined.

Lemma write_then_verify_witness :
  let saved := ResourceService.save APP_MAPPING MemoryResourceStore.new in
  let checked := ResourceService.verify APP "tenant"%s ["read"]%s saved.2 in
  saved.1 = Ok tt ∧ ∃ vr, checked.1 = Ok vr ∧ vr_audiences vr = audiences APP_MAPPING.
Proof.
  intros saved checked. assert (saved.1 = Ok tt) as Hs by (vm_compute; reflexivity).
  split; [exact Hs|]. eexists. split; [vm_compute; reflexivity|].
  refine (proj2 (write_then_verify (W := InnerStore) APP_MAPPING ["read"]%s MemoryResourceStore.new
    saved.2 _ checked.2 mem_new_inv (or_introl (run_result _ _ _ Hs)) (run_result _ _ _ _)) _);
    [vm_compute; reflexivity|reflexivity].
Defined.

Lemma remove_then_verify_witness :
  ∃ w1 w2, ResourceService.remove APP "tenant"%s loaded_store = (Ok tt, w1) ∧
    ResourceService.verify APP "tenant"%s [] w1 = (Ok unverified, w2).
Proof.
  pose proof (remove_then_verify (W := InnerStore) APP "tenant"%s [] loaded_store) as Hthm.
  destruct (ResourceService.remove APP "tenant"%s loaded_store) as [r1 w1] eqn:E1.
  destruct (ResourceService.verify APP "tenant"%s [] w1) as [r w] eqn:E.
  assert (r1 = Ok tt) as -> by (apply (f_equal fst) in E1; vm_compute in E1; exact (eq_sym E1)).
  destruct (Hthm w1 r w loaded_store_inv (or_introl eq_refl) E) as [->|[[] _]].
  exists w1, w. split; [reflexivity|exact E].
Defined.

Lemma memory_store_exact_witness :
  mem_inv (run_op (OpRemoveFor APP) loaded_store).2.
Proof.
  refine (proj1 (memory_store_exact (OpRemoveFor APP) loaded_store _ _ loaded_store_inv _)).
  apply surjective_pairing.
Defined.

Lemma postgres_store_refines_witness :
  let d := (run_op (OpSaveScopes [READ_SCOPE]) {| sim_tables := {| mapping_rows := ∅; scope_rows := ∅ |};
             faults := [None; None; Some true] |}).2 in
  pg_view (tables d) = empty_policy ∨
  pg_view (tables d) = (run_op (OpSaveScopes [READ_SCOPE]) empty_policy).2.
Proof.
  pose proof (postgres_store_refines (D := PgSim) (OpSaveScopes [READ_SCOPE])
    {| sim_tables := {| mapping_rows := ∅; scope_rows := ∅ |}; faults := [None; None; Some true] |}
    (Err (DatabaseError "connection lost"%s)) _ (surjective_pairing _)) as Hr.
  destruct Hr as [(r0 & Hs & Hrel)|[_ Hv]]; [|exact Hv].
  exfalso. assert (r0 = Ok Done) as -> by (vm_compute in Hs; congruence). inversion Hrel.
Defined.

(** Saving twice conflicts in both stores, and the listing follows. *)
Lemma backends_agree_witness :
  let ops := [OpSave APP_MAPPING; OpSaveScopes [READ_SCOPE; WRITE_SCOPE]; OpSave APP_MAPPING;
              OpVerify APP "tenant"%s ["read"; "write"]%s; OpListMappings] in
  let m := run_ops ops MemoryResourceStore.new in
  let p := run_ops ops {| sim_tables := {| mapping_rows := ∅; scope_rows := ∅ |}; faults := [] |} in
  Forall2 (result_rel (≡)) m.1 p.1 ∧ mem_view m.2 = pg_view (tables p.2).
Proof.
  intros ops m p. refine (backends_agree (D := PgSim) ops _ _ m.1 m.2 p.1 p.2 mem_new_inv _
    (surjective_pairing _) (surjective_pairing _) _).
  - rewrite mem_new_view. reflexivity.
  - intros msg Hin.
    assert (forallb (λ r, match r with Err (DatabaseError _) => false | _ => true end) p.1 = true) as Hno
      by (vm_compute; reflexivity).
    rewrite forallb_Forall, Forall_forall in Hno. discriminate (Hno _ Hin).
Defined.

Lemma initialize_keeps_data_witness :
  tables (PostgresResourceStore.initialize (loaded_db [None; None; Some true])).2 = loaded_tables.
Proof. refine (initialize_keeps_data (loaded_db _) _ _ _). apply surjective_pairing. Defined.

Lemma resolve_two_snapshots_witness :
  let env (d : PgSim) := with_tables (set_scope_rows (delete "read"%s) (sim_tables d)) d in
  ∃ found d' d1, resolve_interleaved env APP "tenant"%s (loaded_db []) = (Ok found, d') ∧
    tables d1 = loaded_tables ∧
    found = resolve APP "tenant"%s
      {| grants := grants (pg_view loaded_tables);
         scope_defs := scope_defs (pg_view (tables (env d1))) |}.
Proof.
  intros env.
  destruct (resolve_interleaved env APP "tenant"%s (loaded_db [])) as [[found|e] d'] eqn:E.
  - destruct (resolve_two_snapshots env APP "tenant"%s (loaded_db []) found d' E) as (d1 & Ht & Hf).
    exists found, d', d1. split; [reflexivity|]. split; [exact Ht|exact Hf].
  - exfalso. apply (f_equal (is_Ok ∘ fst)) in E. vm_compute in E. discriminate.
Defined.

(** ** The verifier and the renewal *)

Lemma verify_token_calls_witness :
  let w' := (K8sVerifier.verify_token (H := recorded KSim) sample_verifier "jwtlet"%s "subject"%s rotated_world).2 in
  ∃ c1 c2, (ext w').1 = [c1; c2] ∧ call_bearer c1 = "old"%s ∧ call_bearer c2 = "new"%s ∧
    refused (call_outcome c1) = true ∧ cell w' = Some {| sa_token := "new"%s |} ∧
    ∃ x raw y, read_to_string (token_file sample_verifier) x = (Ok raw, y) ∧ call_bearer c2 = trim raw.
Proof.
  intros w'.
  pose proof (verify_token_calls (X := KSim) sample_verifier "jwtlet"%s "subject"%s rotated_world) as Hthm.
  destruct (Hthm _ w' (surjective_pairing _)) as (calls & Hcalls & _ & _ & Hshape).
  assert ((ext w').1 = calls) as <- by exact Hcalls.
  eexists _, _. split; [vm_compute; reflexivity|].
  split; [vm_compute; reflexivity|]. split; [vm_compute; reflexivity|].
  split; [exact (proj1 (proj2 Hshape))|]. split; [vm_compute; reflexivity|].
  destruct Hshape as (_ & _ & x1 & raw & x2 & _ & Hread & Hb & _). exists x1, raw, x2.
  split; [exact Hread|exact Hb].
Defined.

Lemma initialize_spec_witness :
  let w := {| cell := None; ext := host sample_host |} in
  ∃ raw x, read_to_string (token_file sample_verifier) (ext w) = (Ok raw, x) ∧
    cell (K8sVerifier.initialize sample_verifier w).2 = Some {| sa_token := trim raw |}.
Proof.
  intros w.
  destruct (initialize_spec sample_verifier w (Ok tt) (K8sVerifier.initialize sample_verifier w).2)
    as [[[? ?] _]|(_ & raw & x & Hr & Hc)]; [vm_compute; reflexivity|discriminate|].
  exists raw, x. split; [exact Hr|exact Hc].
Defined.

(** A run with two rotations, the second while the task holds what it read; a verifier
    refreshes the cell as well, and the watcher fails in the end. *)
Lemma sample_renewal :
  rtc orderly_step (started "a"%s (Ok "a"%s))
    {| file := Ok "c "%s; contents := ["a"; "a"; "b"; "c "]%s; queue := [Err "overflow"%s]; closed := false;
       Renewal.shutdown := false; phase := Waiting; Renewal.token := "c"%s; refreshing := [] |}.
Proof.
  eapply rtc_l; [apply orderly_rotation, (change_reported _ (Ok "b"%s) Create); cbn; [done|unfold CHANNEL_CAPACITY; lia]|].
  eapply rtc_l; [apply orderly_task; by eapply recv_change|].
  eapply rtc_l; [apply orderly_task; by eapply read_ok|].
  eapply rtc_l; [apply orderly_rotation, (change_reported _ (Ok "c "%s) Modify); cbn; [done|unfold CHANNEL_CAPACITY; lia]|].
  eapply rtc_l; [eapply orderly_verifier; [by apply (refresh_read _ [] "c "%s [])|by left]|].
  eapply rtc_l; [apply orderly_task; by eapply write_cell|].
  eapply rtc_l; [eapply orderly_verifier; [by apply (refresh_write _ [] "c "%s [])|right; by eexists]|].
  eapply rtc_l; [apply orderly_outside; [apply (event_arrives _ (Err "overflow"%s))|done]|].
  eapply rtc_l; [apply orderly_task; by eapply recv_change|].
  eapply rtc_l; [apply orderly_task; by eapply read_ok|].
  eapply rtc_l; [apply orderly_task; by eapply write_cell|]. apply rtc_refl.
Qed.

Lemma token_from_file_witness :
  ∃ raw, raw ∈ ["old"; "old "; "new"]%s ∧ "old"%s = trim raw.
Proof.
  refine (token_from_file "old"%s (Ok "old "%s)
    {| file := Ok "new"%s; contents := ["old"; "old "; "new"]%s; queue := []; closed := false;
       Renewal.shutdown := true; phase := Waiting; Renewal.token := "old"%s; refreshing := [] |} _).
  eapply rtc_l; [right; left; by eapply (refresh_read _ [] _ [])|].
  eapply rtc_l; [right; right; apply (file_changes _ (Ok "new"%s))|].
  eapply rtc_l; [right; right; apply handle_dropped|].
  eapply rtc_l; [right; left; by eapply (refresh_write _ [] "old "%s [])|]. apply rtc_refl.
Defined.

Lemma rotations_reach_the_cell_witness : ∃ m, ∀ i, (m ≤ i)%nat → Renewal.token (rotation_run i) = trim "new "%s.
Proof.
  apply (rotations_reach_the_cell rotation_run "new "%s 4 [Ok Access] Modify []).
  - exact rotation_run_is_run.
  - exact rotation_run_fair.
  - intros m Hm. do 4 (destruct m as [|m]; [lia|]).
    do 9 (destruct m as [|m]; [split; reflexivity|]). split; reflexivity.
  - discriminate.
  - reflexivity.
  - reflexivity.
  - intros e He. apply list_elem_of_singleton in He. discriminate.
  - intros r Hr. apply list_elem_of_singleton in Hr. exact Hr.
Defined.

(** A verification reads the cell, the file is rotated, the API server refuses the old
    credential; the verification has read the file and holds what it read. *)
Definition no_reply : result ReqwestError HttpResponse := Err no_answer.
Definition show_number (n : N) : str := show_Z (Z.of_N n).
Definition with_a_verification (s : Credentials) : Credentials :=
  {| renewer := renewer s; asked := asked s;
     verifications := verifications s ++ [(kv_begin "jwtlet"%s "app"%s, UnderWay)] |}.
Definition refused_and_reread : Credentials :=
  let m := move show_number sample_verifier 0 in
  let s := m no_reply (with_a_verification (cred_started "old"%s (Ok "old"%s))) in
  m no_reply (m (Ok {| resp_status := 401; resp_json := Err ""%s |})
    (with_renewer (with_file (Ok "new "%s) (renewer s)) s)).

(** It writes the cell and asks again. *)
Definition asked_again : Credentials :=
  let m := move show_number sample_verifier 0 in
  m (Ok {| resp_status := 201; resp_json := Ok sample_review |}) (m no_reply refused_and_reread).

Lemma refused_and_reread_reachable :
  rtc (cred_step show_number sample_verifier) (cred_started "old"%s (Ok "old"%s)) refused_and_reread.
Proof.
  unfold refused_and_reread. etrans; [|apply move_reachable]. etrans; [|apply move_reachable].
  eapply rtc_r; [|by apply world_moves, file_changes]. etrans; [|apply move_reachable].
  apply rtc_once, verification_begins.
Qed.

Lemma credentials_refine_renewal_witness :
  rtc any_step (started "old"%s (Ok "old"%s)) (seen refused_and_reread) ∧
  refreshing (seen refused_and_reread) = ["new "%s].
Proof.
  split; [|vm_compute; reflexivity].
  exact (proj1 (credentials_refine_renewal _ _ _ _ _ refused_and_reread_reachable)).
Defined.

Lemma reviews_bear_file_contents_witness :
  ∃ c1 c2 raw, calls_of 0 asked_again = [c1; c2] ∧ refused (call_outcome c1) = true ∧
    call_bearer c1 = "old"%s ∧ call_bearer c2 = trim raw ∧ call_bearer c2 = "new"%s.
Proof.
  assert (rtc (cred_step show_number sample_verifier) (cred_started "old"%s (Ok "old"%s)) asked_again) as Hreach.
  { unfold asked_again. etrans; [|apply move_reachable]. etrans; [|apply move_reachable].
    exact refused_and_reread_reachable. }
  destruct (reviews_bear_file_contents _ _ _ _ _ Hreach) as [_ Hall].
  destruct (verifications asked_again !! 0%nat) as [[a fate]|] eqn:Hi; [|vm_compute in Hi; discriminate].
  destruct (Hall _ _ _ Hi) as (_ & _ & Hcalls).
  destruct (calls_of 0 asked_again) as [|c1 [|c2 [|]]] eqn:Hc; try (vm_compute in Hc; discriminate).
  destruct Hcalls as (Href & s1 & raw & _ & _ & _ & _ & Hb).
  exists c1, c2, raw. split; [reflexivity|]. split; [exact Href|].
  vm_compute in Hc. injection Hc as <- <-. split; [reflexivity|]. split; [exact Hb|reflexivity].
Defined.

Lemma idle_renewer_is_fresh_witness : "c"%s = trim "c "%s.
Proof.
  refine (idle_renewer_is_fresh "a"%s _ "c "%s sample_renewal _ _ _); [reflexivity| |reflexivity].
  intros k Hk. apply list_elem_of_singleton in Hk. discriminate.
Defined.

(** ** Token exchange *)

Lemma participant_claims_expiry_witness :
  tc_exp (participant_claims sample_service "tenant"%s "api"%s 1000 ∅) = 4600%Z.
Proof.
  destruct (participant_claims_expiry sample_service "tenant"%s "api"%s 1000 ∅) as [-> _];
    [by vm_compute|by vm_compute|reflexivity].
Defined.

Lemma exchange_token_sound_witness :
  ∃ client g, tc_sub client = APP ∧
    grants (view loaded_world) !! (tc_sub client, "tenant"%s) = Some g ∧
    (exchange_token sample_service "tenant"%s ["read"]%s "app"%s None loaded_world).1 =
      Ok "jwt-for-tenant"%s.
Proof.
  destruct (exchange_token sample_service "tenant"%s ["read"]%s "app"%s None loaded_world)
    as [r w'] eqn:E.
  assert (r = Ok "jwt-for-tenant"%s) as ->
    by (apply (f_equal fst) in E; vm_compute in E; exact (eq_sym E)).
  pose proof (exchange_token_sound sample_service "tenant"%s ["read"]%s "app"%s None loaded_world
    "jwt-for-tenant"%s w' loaded_store_inv E) as (client & w1 & g & cl & w2 & Hver & Hg & _).
  exists client, g. split; [|split; [exact Hg|reflexivity]].
  apply (f_equal fst) in Hver. vm_compute in Hver. injection Hver as <-. reflexivity.
Defined.

Lemma exchange_token_failure_witness :
  ∃ w', exchange_token sample_service "tenant"%s ["write"; "other"]%s "app"%s None loaded_world =
    (Err (ScopeConflict "claim key 'level' is defined by multiple requested scopes"%s), w') ∧
  ∃ g k, grants (view loaded_world) !! (APP, "tenant"%s) = Some g ∧
    compatible (policy_contributions (view loaded_world) ["write"; "other"]%s k) = false.
Proof.
  destruct (exchange_token sample_service "tenant"%s ["write"; "other"]%s "app"%s None loaded_world)
    as [r w'] eqn:E.
  assert (r = Err (ScopeConflict "claim key 'level' is defined by multiple requested scopes"%s)) as ->
    by (apply (f_equal fst) in E; vm_compute in E; exact (eq_sym E)).
  pose proof (exchange_token_failure sample_service "tenant"%s ["write"; "other"]%s "app"%s None
    loaded_world _ w' loaded_store_inv E) as (client & w1 & re & g & k & Hver & _ & Hg & _ & Hk).
  exists w'. split; [reflexivity|]. exists g, k. split; [|exact Hk].
  apply (f_equal fst) in Hver. vm_compute in Hver. injection Hver as <-. exact Hg.
Defined.

(** ** The management API *)

Definition sample_world : MWorld SWorld := {| inner := loaded_world; audit := [] |}.

Definition sample_serve (tok : str) (c : Call) (w : MWorld SWorld) : Response * MWorld SWorld :=
  serve Some "jwtlet-admin"%s (Some ("Bearer " +:+ tok)%s) c w.

Lemma serve_needs_role_witness :
  ∃ actor, authorized_as Some "jwtlet-admin"%s ROLE_MAPPINGS_WRITE (Some "Bearer admin"%s) sample_world actor.
Proof.
  pose proof (serve_needs_role (W := SWorld) Some "jwtlet-admin"%s (Some "Bearer admin"%s)
    (DeleteMapping APP "tenant"%s) sample_world) as Hthm.
  refine (proj1 (Hthm _ _ loaded_store_inv (surjective_pairing _)) _).
  intros Heq. apply (f_equal size) in Heq. vm_compute in Heq. discriminate.
Defined.

Lemma serve_audit_trail_witness :
  ∃ evs, audit (sample_serve "admin"%s (DeleteClientMappings APP) sample_world).2 = evs ∧ evs ≠ [].
Proof.
  pose proof (serve_audit_trail (W := SWorld) Some "jwtlet-admin"%s (Some "Bearer admin"%s)
    (DeleteClientMappings APP) sample_world) as Hthm.
  destruct (Hthm _ _ loaded_store_inv (surjective_pairing _)) as (evs & Hevs & _ & Hch).
  exists evs. split; [exact Hevs|].
  destruct Hch as [?|[[] _]]; [|assumption].
  intros Heq. apply (f_equal (size ∘ grants)) in Heq. vm_compute in Heq. discriminate.
Defined.

Lemma next_status_witness :
  let resp := (Management.next ADMIN (CreateMapping (Ok APP_MAPPING)) sample_world).1 in
  resp = status_only 409 ∧ op_taken (OpSave APP_MAPPING) (view loaded_world) ∧
  ∃ code, malformed (UpdateMapping "other"%s "tenant"%s (Ok APP_MAPPING)) code ∧
    (Management.next ADMIN (UpdateMapping "other"%s "tenant"%s (Ok APP_MAPPING)) sample_world).1 =
      status_only code.
Proof.
  pose proof (next_status (W := SWorld) ADMIN (CreateMapping (Ok APP_MAPPING)) sample_world) as Hthm.
  specialize (Hthm _ _ loaded_store_inv (surjective_pairing _)).
  pose proof (next_status (W := SWorld) ADMIN (UpdateMapping "other"%s "tenant"%s (Ok APP_MAPPING)) sample_world) as Hother.
  destruct (Hother _ _ loaded_store_inv (surjective_pairing _)) as (code & Hm & Hc & _).
  intros resp. assert (resp = status_only 409) as Hcode by (vm_compute; reflexivity).
  split; [exact Hcode|]. split; [|exists code; split; [exact Hm|exact Hc]].
  fold resp in Hthm. rewrite Hcode in Hthm.
  destruct Hthm as [_ [(a & [=] & _)|[(_ & [([=] & _)|[([=] & _)|[_ Ht]]])|[[] _]]]]. exact Ht.
Defined.

(** ** The deployment *)

Definition start_world : MWorld SWorld := {| inner := empty_world; audit := [] |}.

Definition sample_form : TokenExchangeForm :=
  {| grant_type := TOKEN_EXCHANGE_GRANT_TYPE; subject_token := "app"%s;
     subject_token_type := ISSUED_TOKEN_TYPE; resource := "tenant"%s;
     form_scope := Some "write  read"%s; form_audience := None |}.

(** After the administrator created the mapping and the scopes. *)
Definition granted_world : MWorld SWorld :=
  (sample_serve "admin"%s (CreateScopeMapping (Ok (Many [READ_SCOPE; WRITE_SCOPE])))
    (sample_serve "admin"%s (CreateMapping (Ok APP_MAPPING)) start_world).2).2.

Lemma every_token_is_accountable_witness :
  ∃ actor, mapping_created actor APP "tenant"%s ∈ audit granted_world.
Proof.
  destruct (exchange world_verifier sample_service sample_form (inner granted_world)) as [[resp|e] x] eqn:E.
  - assert (view (inner start_world) = empty_policy) as Hempty by exact mem_new_view.
    assert (rtc (request_step world_verifier world_verifier Some "jwtlet-admin"%s sample_service)
      start_world granted_world) as Hreach.
    { eapply rtc_l; [|apply rtc_once].
      - eapply (management_request _ _ _ _ _ (Some "Bearer admin"%s) (CreateMapping (Ok APP_MAPPING))).
        apply surjective_pairing.
      - eapply (management_request _ _ _ _ _ (Some "Bearer admin"%s)
          (CreateScopeMapping (Ok (Many [READ_SCOPE; WRITE_SCOPE])))).
        apply surjective_pairing. }
    pose proof (every_token_is_accountable (W := SWorld) world_verifier world_verifier Some
      "jwtlet-admin"%s sample_service start_world granted_world sample_form) as Hthm.
    destruct (Hthm resp x (λ f, f) mem_new_inv Hempty Hreach E)
      as (client & y & w1 & auth & actor & Hver & _ & _ & [_ Hin] & _).
    exists actor. apply (f_equal fst) in Hver. vm_compute in Hver. injection Hver as <-. exact Hin.
  - exfalso. apply (f_equal (is_Ok ∘ fst)) in E. vm_compute in E. discriminate.
Defined.

(** ** Requests that interleave *)

(** Requests over a store, with the verifier of [Samples] for both APIs. *)
Abbreviation SJob S := (Job str (@JwtGenerationError (World S Rest) _) (Found (W := World S Rest))
  (@Verification (World S Rest) world_verifier world_steps)
  (@Verification (World S Rest) world_verifier world_steps)).
Abbreviation SState S := (CState (W := World S Rest) world_verifier world_verifier (HV := str)).

(** Two calls of the administrator and an exchange arrive. *)
Definition sample_jobs : list (SJob InnerStore) :=
  [CallArrived (Some "Bearer admin"%s) (CreateMapping (Ok APP_MAPPING));
   CallArrived (Some "Bearer admin"%s) (CreateScopeMapping (Ok (Many [READ_SCOPE; WRITE_SCOPE])));
   ExchangeArrived sample_form].

Definition sample_arrived : SState InnerStore :=
  {| shared := start_world; jobs := sample_jobs; history := [] |}.

Definition sample_schedule (l : list nat) : option (SState InnerStore) :=
  run_schedule world_verifier world_verifier Some "jwtlet-admin"%s sample_service l sample_arrived.

Strategy expand [sample_schedule].

Lemma sample_schedule_reachable l s :
  sample_schedule l = Some s →
  rtc (conc_step world_verifier world_verifier Some "jwtlet-admin"%s sample_service)
    (begins start_world) s.
Proof.
  intros Hs. etrans; [by apply (arrivals_reachable _ _ _ _ _ _ sample_jobs [])|].
  by apply run_schedule_reachable in Hs.
Qed.

(** Both calls have stored but not yet logged when the exchange runs to its end. *)
Lemma concurrent_requests_linearize_witness :
  ∃ s, sample_schedule [0; 1; 0; 2; 1; 0; 1; 2; 0; 1; 2; 2; 2]%nat = Some s ∧ audit (shared s) = [] ∧
    served (history s) = [0; 1]%nat ∧
    ∃ code resp, jobs s !! 2%nat = Some (ExchangeDone sample_form (Ok (code, resp))) ∧
      exchange_explained world_verifier world_verifier Some "jwtlet-admin"%s sample_service
        start_world s sample_form (Ok (code, resp)).
Proof.
  destruct (sample_schedule [0; 1; 0; 2; 1; 0; 1; 2; 0; 1; 2; 2; 2]%nat) as [s|] eqn:E.
  2: { exfalso. apply (f_equal (λ o, bool_decide (is_Some (audit ∘ shared <$> o)))) in E.
       vm_compute in E. discriminate. }
  exists s. split; [reflexivity|].
  assert (audit (shared s) = []) as Ha.
  { apply (f_equal (fmap (audit ∘ shared))) in E. vm_compute in E. injection E as E. exact (eq_sym E). }
  assert (served (history s) = [0; 1]%nat) as Hh.
  { apply (f_equal (fmap (served ∘ history))) in E. vm_compute in E. injection E as E. exact (eq_sym E). }
  split; [exact Ha|]. split; [exact Hh|].
  pose proof (concurrent_requests_linearize (W := SWorld) world_verifier world_verifier Some
    "jwtlet-admin"%s sample_service start_world s) as Hthm.
  destruct (Hthm mem_new_inv (sample_schedule_reachable _ _ E)) as (_ & _ & _ & _ & Hex).
  assert (∃ p, jobs s !! 2%nat = Some (ExchangeDone sample_form (Ok p))) as [[code resp] Hj].
  { apply (f_equal (fmap (λ s, jobs s !! 2%nat))) in E. vm_compute in E. injection E as E.
    eexists. exact (eq_sym E). }
  exists code, resp. split; [exact Hj|]. exact (Hex _ _ _ Hj).
Defined.

Lemma interleaved_token_is_accountable_witness :
  ∃ s actor client, sample_schedule [0; 1; 0; 2; 1; 0; 1; 2; 0; 1; 2; 2; 2; 1; 0]%nat = Some s ∧
    mapping_created actor (tc_sub client) "tenant"%s ∈ audit (shared s).
Proof.
  destruct (sample_schedule [0; 1; 0; 2; 1; 0; 1; 2; 0; 1; 2; 2; 2; 1; 0]%nat) as [s|] eqn:E.
  2: { exfalso. apply (f_equal (λ o, bool_decide (is_Some (audit ∘ shared <$> o)))) in E.
       vm_compute in E. discriminate. }
  assert (∃ p r1 r2, jobs s = [CallDone (Some "Bearer admin"%s) (CreateMapping (Ok APP_MAPPING)) r1;
     CallDone (Some "Bearer admin"%s) (CreateScopeMapping (Ok (Many [READ_SCOPE; WRITE_SCOPE]))) r2;
     ExchangeDone sample_form (Ok p)]) as (p & r1 & r2 & Hj).
  { apply (f_equal (fmap jobs)) in E. vm_compute in E. injection E as E.
    eexists _, _, _. exact (eq_sym E). }
  pose proof (interleaved_token_is_accountable (W := SWorld) world_verifier world_verifier Some
    "jwtlet-admin"%s sample_service start_world s 2 sample_form p) as Hthm.
  destruct Hthm as (client & auth & actor & _ & _ & Hlog).
  - exact mem_new_inv.
  - exact mem_new_view.
  - exact (sample_schedule_reachable _ _ E).
  - rewrite Hj. reflexivity.
  - exists s, actor, client. split; [reflexivity|].
    destruct Hlog as [Hin|[(n & auth' & c & actor' & resp & evs & Hn & _)|[[] _]]]; [exact Hin|].
    exfalso. rewrite Hj in Hn. by destruct n as [|[|[|n]]].
Defined.

(** A fair run answers the exchange that had only just arrived in it. *)
Lemma requests_are_answered_witness :
  let run := scheduled world_verifier world_verifier Some "jwtlet-admin"%s sample_service
    [0; 1; 0; 2; 1; 0; 1; 2; 0; 1; 2; 2; 2; 1; 0]%nat sample_arrived in
  pending 2 (inl sample_form) (run 2%nat) ∧
  ∃ k, jobs (run k) !! 2%nat = Some Dropped ∨
       ∃ r, jobs (run k) !! 2%nat = Some (ExchangeDone sample_form r).
Proof.
  intros run.
  destruct (sample_schedule [0; 1; 0; 2; 1; 0; 1; 2; 0; 1; 2; 2; 2; 1; 0]%nat) as [s|] eqn:E.
  2: { exfalso. apply (f_equal (λ o, bool_decide (is_Some (audit ∘ shared <$> o)))) in E.
       vm_compute in E. discriminate. }
  assert (finished <$> jobs s !! 2%nat = Some true) as Hf.
  { assert (((λ s, finished <$> jobs s !! 2%nat) <$>
             sample_schedule [0; 1; 0; 2; 1; 0; 1; 2; 0; 1; 2; 2; 2; 1; 0]%nat) = Some (Some true)) as Hd
      by (vm_compute; reflexivity).
    rewrite E in Hd. injection Hd as Hd. exact Hd. }
  assert (pending 2 (inl sample_form) (run 2%nat)) as Hp.
  { exists (ExchangeArrived sample_form). split; [vm_compute; reflexivity|]. split; reflexivity. }
  split; [exact Hp|].
  refine (proj2 (proj2 (requests_are_answered (W := SWorld) world_verifier world_verifier Some
    "jwtlet-admin"%s sample_service run 2 2 (inl sample_form) _ _ Hp))).
  - exact (scheduled_is_run _ _ _ _ _ _ _ _ E).
  - apply (scheduled_is_fair _ _ _ _ _ _ _ _ _ E). intros j Hj. rewrite Hj in Hf. by injection Hf.
Defined.

(** Over Postgres a call whose client disconnects while its statement is in flight may
    change the policy although no line is ever logged for it. *)
Definition pg_begins : SState PgSim :=
  begins {| inner := {| w_store := {| sim_tables := {| mapping_rows := ∅; scope_rows := ∅ |};
                                      faults := [] |}; w_rest := sample_rest |}; audit := [] |}.

Lemma disconnected_call_is_not_logged :
  ∃ s, rtc (conc_step (W := World PgSim Rest) world_verifier world_verifier Some "jwtlet-admin"%s
         sample_service) pg_begins s ∧
    audit (shared s) = [] ∧ jobs s = [Dropped] ∧
    bool_decide (is_Some (grants (view (inner (shared s))) !! (APP, "tenant"%s))) = true.
Proof.
  pose (call := CallArrived (Some "Bearer admin"%s) (CreateMapping (Ok APP_MAPPING)) : SJob PgSim).
  destruct (run_schedule (W := World PgSim Rest) world_verifier world_verifier Some "jwtlet-admin"%s
    sample_service [0; 0; 0]%nat {| shared := shared pg_begins; jobs := [call]; history := [] |}) as [s1|] eqn:E.
  2: { exfalso. apply (f_equal (λ o, bool_decide (is_Some (audit ∘ shared <$> o)))) in E.
       vm_compute in E. discriminate. }
  assert (jobs s1 = [RoleChecked (Some "Bearer admin"%s) (CreateMapping (Ok APP_MAPPING)) ADMIN] ∧
          audit (shared s1) = []) as [Hj Ha].
  { apply (f_equal (fmap (λ s, (jobs s, audit (shared s))))) in E. vm_compute in E.
    injection E as E1 E2. exact (conj (eq_sym E1) (eq_sym E2)). }
  assert (inner (shared s1) = inner (shared pg_begins)) as Hs.
  { apply (f_equal (fmap (inner ∘ shared))) in E. vm_compute in E. exact (Some_inj _ _ (eq_sym E)). }
  eexists. split; [|split; [|split]].
  - etrans; [by apply (arrivals_reachable (W := World PgSim Rest) _ _ _ _ _ _ [call] [])|].
    etrans; [by eapply run_schedule_reachable|]. apply rtc_once.
    eapply (disconnects_late _ _ _ _ _ s1 0); [exact I|by rewrite Hj|reflexivity|apply surjective_pairing].
  - exact Ha.
  - cbn. by rewrite Hj.
  - cbn [shared inner]. rewrite Hs. vm_compute. reflexivity.
Qed.

(** Over Postgres an exchange can be answered from two policies: here the grant is read,
    then removed, and only then is the scope defined whose claims the token carries. *)
Definition torn_jobs : list (SJob PgSim) :=
  [CallArrived (Some "Bearer admin"%s) (CreateMapping (Ok APP_MAPPING)); ExchangeArrived sample_form;
   CallArrived (Some "Bearer admin"%s) (DeleteMapping APP "tenant"%s);
   CallArrived (Some "Bearer admin"%s) (CreateScopeMapping (Ok (Many [READ_SCOPE])))].

Lemma exchange_answers_from_two_policies :
  ∃ s p claims, rtc (conc_step (W := World PgSim Rest) world_verifier world_verifier Some
                       "jwtlet-admin"%s sample_service) pg_begins s ∧
    jobs s !! 1%nat = Some (ExchangeDone sample_form (Ok p)) ∧
    signed (w_rest (inner (shared s))) = [claims] ∧
    tc_custom claims !! "roles"%s = Some (Value.String "viewer"%s) ∧
    operations (history s) = [OpSave APP_MAPPING; OpRemove APP "tenant"%s; OpSaveScopes [READ_SCOPE]].
Proof.
  destruct (run_schedule (W := World PgSim Rest) world_verifier world_verifier Some "jwtlet-admin"%s
    sample_service [0; 0; 0; 0; 1; 1; 1; 2; 2; 2; 2; 3; 3; 3; 3; 1; 1]%nat
    {| shared := shared pg_begins; jobs := torn_jobs; history := [] |}) as [s|] eqn:E.
  2: { exfalso. apply (f_equal (λ o, bool_decide (is_Some (audit ∘ shared <$> o)))) in E.
       vm_compute in E. discriminate. }
  assert (∃ p, jobs s !! 1%nat = Some (ExchangeDone sample_form (Ok p))) as [p Hj].
  { apply (f_equal (fmap (λ s, jobs s !! 1%nat))) in E. vm_compute in E. injection E as E.
    eexists. exact (eq_sym E). }
  assert ((λ c, tc_custom c !! "roles"%s) <$> signed (w_rest (inner (shared s))) =
          [Some (Value.String "viewer"%s)]) as Hc.
  { apply (f_equal (fmap (λ s, (λ c, tc_custom c !! "roles"%s) <$> signed (w_rest (inner (shared s)))))) in E.
    vm_compute in E. exact (Some_inj _ _ (eq_sym E)). }
  assert (operations (history s) = [OpSave APP_MAPPING; OpRemove APP "tenant"%s; OpSaveScopes [READ_SCOPE]]) as Ho.
  { apply (f_equal (fmap (operations ∘ history))) in E. vm_compute in E. exact (Some_inj _ _ (eq_sym E)). }
  destruct (signed (w_rest (inner (shared s)))) as [|claims [|]] eqn:El; try discriminate Hc.
  exists s, p, claims. split_and!; [|done|done|by injection Hc|done].
  etrans; [by apply (arrivals_reachable (W := World PgSim Rest) _ _ _ _ _ _ torn_jobs [])|].
  by apply run_schedule_reachable in E.
Qed.

(** ** Configuration and assembly *)

Lemma validate_reports_all_witness :
  ∃ e, validate default_config = Err e ∧ error_count e = 7%nat ∧
    "vault.url is required"%s ∈ messages e.
Proof.
  eexists. split; [vm_compute; reflexivity|].
  destruct (validate_reports_all default_config _ eq_refl) as (_ & Hcount & Hall).
  split; [exact Hcount|]. apply Hall. by constructor.
Defined.

Lemma assembled_runtime_witness :
  ∃ rt w', assemble (sample_config Memory) sample_host = (Ok rt, w') ∧
    cfg_issuer (sample_config Memory) = Some (issuer (token_service rt)) ∧
    metadata rt = metadata_new (issuer (token_service rt)).
Proof.
  destruct (assemble (sample_config Memory) sample_host) as [[rt|e] w'] eqn:E.
  - destruct (assembled_runtime (sample_config Memory) sample_host rt w' E)
      as (_ & _ & Hiss & Hmeta & _).
    exists rt, w'. split; [reflexivity|]. split; [exact Hiss|exact Hmeta].
  - exfalso. apply (f_equal (is_Ok ∘ fst)) in E. vm_compute in E. discriminate.
Defined.

Lemma assembled_warnings_witness :
  ∃ rt w', assemble (sample_config Memory) sample_host = (Ok rt, w') ∧
    warnings w' = [no_cluster_ca; no_cluster_ca] ∧
    SAccounts.authorize (service_account_authorizer rt) ADMIN {[ ROLE_MAPPINGS_WRITE ]} (host w') = (Ok true, host w').
Proof.
  destruct (assemble (sample_config Memory) sample_host) as [[rt|e] w'] eqn:E.
  - destruct (assembled_warnings (sample_config Memory) sample_host rt w' E) as [_ Hauth].
    destruct (Hauth ADMIN {[ ROLE_MAPPINGS_WRITE ]} (host w')) as (b & Hb & [_ Hiff] & _).
    exists rt, w'. split; [reflexivity|]. split.
    + apply (f_equal (warnings ∘ snd)) in E. vm_compute in E. exact (eq_sym E).
    + rewrite Hb, Hiff; [reflexivity|]. eexists. split; [vm_compute; reflexivity|].
      intros r ->%elem_of_singleton. left.
  - exfalso. apply (f_equal (is_Ok ∘ fst)) in E. vm_compute in E. discriminate.
Defined.

(** The assembled server creates the mapping for the administrator, then exchanges. *)
Definition assembled_arrived (rt : JwtletRuntime KeyResolver VaultClient) (x : KSim) :
    ServerRun (X := KSim) (S := InnerStore) (HV := str) rt :=
  {| shared := assembled_world rt MemoryResourceStore.new x;
     jobs := [CallArrived (Some "Bearer admin"%s) (CreateMapping (Ok APP_MAPPING)); ExchangeArrived sample_form];
     history := [] |}.

Definition assembled_run (rt : JwtletRuntime KeyResolver VaultClient) (x : KSim) :
    option (ServerRun (X := KSim) (S := InnerStore) (HV := str) rt) :=
  run_schedule (SVe := runtime_exchange_steps rt) (SVm := runtime_management_steps rt)
    (H0 := runtime_authorizer rt) (runtime_exchange_verifier rt) (runtime_management_verifier rt)
    Some (management_client_audience rt) (token_service rt) [0; 0; 0; 0; 0; 0; 1; 1; 1; 1; 1; 1]%nat
    (assembled_arrived rt x).

Strategy expand [assembled_arrived assembled_run].

Lemma assembled_run_reachable rt x s :
  assembled_run rt x = Some s →
  rtc (runtime_step Some rt) (begins (assembled_world rt MemoryResourceStore.new x)) s.
Proof.
  intros Hs. etrans; [by apply (arrivals_reachable _ _ _ _ _ _ (jobs (assembled_arrived rt x)) [])|].
  by apply run_schedule_reachable in Hs.
Qed.

(** What the run of the assembled server comes to: the token its exchange was given, and
    whether every request is answered. *)
Definition issued {HV G F VS VC : Type} (j : Job HV G F VS VC) : option (TokenExchangeForm * (N * TokenExchangeResponse)) :=
  match j with ExchangeDone form (Ok p) => Some (form, p) | _ => None end.

Definition assembled_report : option (option (TokenExchangeForm * (N * TokenExchangeResponse)) * bool) :=
  match assemble (sample_config Memory) reviewing_host with
  | (Ok rt, w') =>
      (λ s, (jobs s !! 1%nat ≫= issued, forallb finished (jobs s))) <$> assembled_run rt (host w')
  | _ => None
  end.

Strategy expand [assembled_report].

Lemma assembled_server_is_accountable_witness :
  ∃ rt w' s code resp client actor,
    assemble (sample_config Memory) reviewing_host = (Ok rt, w') ∧
    assembled_run rt (host w') = Some s ∧
    jobs s !! 1%nat = Some (ExchangeDone sample_form (Ok (code, resp))) ∧
    vouched_for "https://kubernetes"%s "jwtlet"%s "app"%s (tc_sub client) ∧
    mapping_created actor (tc_sub client) "tenant"%s ∈ audit (shared s).
Proof.
  assert (∃ p, assembled_report = Some (Some (sample_form, p), true)) as [[code resp] Hreport]
    by (eexists; vm_compute; reflexivity).
  unfold assembled_report in Hreport.
  destruct (assemble (sample_config Memory) reviewing_host) as [[rt|e] w'] eqn:E; [|discriminate].
  destruct (assembled_run rt (host w')) as [s|] eqn:Hs; [|discriminate].
  injection Hreport as Hissued Hall.
  apply bind_Some in Hissued as (j & Hj & Hissued).
  assert (j = ExchangeDone sample_form (Ok (code, resp))) as ->.
  { destruct j as [| | | | |form [p|]| | | | | | |]; try discriminate Hissued.
    injection Hissued as -> ->. reflexivity. }
  pose proof (assembled_server_is_accountable (S := InnerStore) Some (sample_config Memory) reviewing_host rt w'
    MemoryResourceStore.new s 1 sample_form code resp E) as Hthm.
  destruct (Hthm mem_new_inv mem_new_view (assembled_run_reachable _ _ _ Hs) Hj)
    as (url & aud & client & actor & auth & Hurl & Haud & Hv & _ & _ & _ & _ & Hlog).
  exists rt, w', s, code, resp, client, actor. injection Hurl as <-. injection Haud as <-.
  split; [reflexivity|]. split; [exact Hs|]. split; [exact Hj|]. split; [exact Hv|].
  destruct Hlog as [Hin|[(n & auth' & c & actor' & resp' & evs & Hn & _)|[[] _]]]; [exact Hin|].
  exfalso. rewrite forallb_forall in Hall. apply list_elem_of_lookup_2, list_elem_of_In, Hall in Hn. discriminate.
Defined.

Lemma validated_config_assembles_witness :
  let c := sample_config (Postgres "mysql://db"%s default_pool) in
  validate c = Ok tt ∧
  (tls_failure "Invalid storage_backend.url: bad scheme"%s ∨
   ∃ e, "Invalid storage_backend.url: bad scheme"%s = ("Invalid storage_backend.url: " +:+ e)%s).
Proof.
  intros c. assert (validate c = Ok tt) as Hv by (vm_compute; reflexivity). split; [exact Hv|].
  pose proof (validated_config_assembles c sample_host "Invalid storage_backend.url: bad scheme"%s) as Hthm.
  refine (Hthm sample_host Hv _). vm_compute. reflexivity.
Defined.

(** ** Rows, shutdown, exit *)

Lemma rows_stay_typed_witness :
  let d := {| sim_tables := {| mapping_rows := ∅; scope_rows := ∅ |}; faults := [None; Some true] |} in
  rows_typed (tables (run_ops [OpSave APP_MAPPING; OpSaveScopes [READ_SCOPE]; OpUpdateScope READ_SCOPE] d).2).
Proof.
  intros d. pose proof (rows_stay_typed (D := PgSim)
    [OpSave APP_MAPPING; OpSaveScopes [READ_SCOPE]; OpUpdateScope READ_SCOPE] d) as Hthm.
  refine (proj1 (Hthm _ _ _ (surjective_pairing _))). split; apply map_Forall_empty.
Defined.

Lemma server_shuts_down_witness :
  ∃ k, server_phase (shutdown_run k) = Returned (Ok tt) ∧ handled_tasks (log (shutdown_run k)) ≡ₚ both.
Proof.
  apply (server_shuts_down (sample_config Memory) true sample_bind shutdown_run 3).
  - exact shutdown_run_is_run.
  - reflexivity.
  - left. by exists [].
  - by apply shutdown_run_fair.
  - intros t. by apply shutdown_run_fair.
Defined.

Lemma main_exit_code_witness :
  ∃ p', main true sample_bind (sample_process (Some "sa-token"%s)) 0 p' ∧
    length (flushed p') = 1%nat ∧ last (lines p') = Some (Info "Shutdown complete"%s).
Proof.
  pose (p := sample_process (Some "sa-token"%s)). pose (p1 := (init p).2). pose (p2 := (start_up p1).2).
  assert (init p = (Ok (Some {| service_name := "jwtlet"%s; exporter := tt |}), p1)) as Hi
    by (refine (run_result init p _ _); vm_compute; reflexivity).
  assert (start_up p1 = (Ok (sample_config Memory), p2)) as Hs
    by (refine (run_result start_up p1 _ _); vm_compute; reflexivity).
  assert (main true sample_bind p 0 (with_lines [Info "Shutdown complete"%s]
            (shutdown (Some {| service_name := "jwtlet"%s; exporter := tt |}) p2))) as Hm.
  { eapply main_ok; [exact Hi|]. apply (servers_returned _ _ p1 _ p2 (shutdown_run 9) (Ok tt) Hs); [|reflexivity].
    apply (run_reachable _ _ 9 shutdown_run_is_run). }
  eexists. split; [exact Hm|].
  destruct (main_exit_code true sample_bind p _ _ eq_refl eq_refl Hm)
    as (provider & p1' & Hi' & Hf & [(_ & Hl & _)|([=] & _)]).
  split; [|exact Hl]. rewrite Hf. rewrite Hi in Hi'. injection Hi' as <- _. reflexivity.
Defined.
